(** * The radix-tree prefix cache of [sglang.srt.mem_cache.radix_cache]

    A shallow embedding of [radix_cache.py].  Python objects live in an
    object store (a list of [TreeNode] records indexed by their identity),
    so that parent links, the children dictionaries and node handles kept by
    callers alias exactly as they do in the source.  Dictionaries are
    association lists in insertion order, because [_collect_leaves] and
    [_delete_leaf] iterate over them.  Exceptions and loops are explicit:
    every operation returns an [outcome]. *)

From Stdlib Require Import ZArith Lia.
From stdpp Require Import base numbers option list.

Open Scope Z_scope.

(** ** Outcomes of Python code *)

Inductive exn :=
| TypeError
| AttributeError
| IndexError
| UnboundLocalError.

(** [Timeout] marks a loop whose bound was exhausted; the theorems below show
    that it does not arise on well-formed trees. *)
Inductive outcome (A : Type) :=
| Ok (a : A)
| Raise (e : exn)
| Timeout.
Arguments Ok {A} a.
Arguments Raise {A} e.
Arguments Timeout {A}.

Definition bind {A B} (m : outcome A) (f : A -> outcome B) : outcome B :=
  match m with
  | Ok a => f a
  | Raise e => Raise e
  | Timeout => Timeout
  end.

Declare Scope py_scope.
Delimit Scope py_scope with py.
Notation "'let*' x := m 'in' k" := (bind m (fun x => k))
  (at level 10, x pattern, m at level 100, k at level 200) : py_scope.
Open Scope py_scope.

Definition of_option {A} (e : exn) (o : option A) : outcome A :=
  match o with
  | Some a => Ok a
  | None => Raise e
  end.

(** ** Python lists and dictionaries *)

(** Token ids and KV-slot indices are integers; a node handle is the index
    of the object in the store. *)
Abbreviation token := Z (only parsing).
Abbreviation slot := Z (only parsing).
Abbreviation node_id := nat (only parsing).

(** [l.pop()]: the last element and the list without it. *)
Fixpoint list_pop {A} (l : list A) : option (A * list A) :=
  match l with
  | [] => None
  | x :: r =>
      match list_pop r with
      | None => Some (x, [])
      | Some (y, r') => Some (y, x :: r')
      end
  end.

(** A Python [dict] keyed by tokens: its items in insertion order. *)
Abbreviation dict V := (list (Z * V)) (only parsing).

Section dict.
Context {V : Type}.

  (** [d[k]] for a key that is present; [k in d.keys()] is [is_Some]. *)
Fixpoint dict_get (d : dict V) (k : token) : option V :=
    match d with
    | [] => None
    | (k', v) :: r => if Z.eqb k' k then Some v else dict_get r k
    end.

  (** [d[k] = v]: an existing key keeps its position, a new one goes last. *)
Fixpoint dict_set (d : dict V) (k : token) (v : V) : dict V :=
    match d with
    | [] => [(k, v)]
    | (k', v') :: r =>
        if Z.eqb k' k then (k, v) :: r else (k', v') :: dict_set r k v
    end.

  (** [del d[k]] for a key that is present. *)
Fixpoint dict_del (d : dict V) (k : token) : dict V :=
    match d with
    | [] => []
    | (k', v') :: r => if Z.eqb k' k then r else (k', v') :: dict_del r k
    end.

Definition dict_values (d : dict V) : list V := map snd d.
End dict.

(** ** [heapq] on a Python list, generic in the [__lt__] of its items *)

Section heapq.
Context {A : Type} (lt : A -> A -> bool).

Fixpoint _siftdown_loop (fuel : nat) (heap : list A) (startpos pos : nat)
      (newitem : A) : list A :=
    match fuel with
    | O => <[pos := newitem]> heap
    | S fuel' =>
        if (startpos <? pos)%nat then
          let parentpos := ((pos - 1) / 2)%nat in
          match heap !! parentpos with
          | Some parent =>
              if lt newitem parent
              then _siftdown_loop fuel' (<[pos := parent]> heap)
                     startpos parentpos newitem
              else <[pos := newitem]> heap
          | None => <[pos := newitem]> heap
          end
        else <[pos := newitem]> heap
    end.

  (** The loop index strictly decreases, so [pos] iterations are enough. *)
Definition _siftdown (heap : list A) (startpos pos : nat) : list A :=
    match heap !! pos with
    | Some newitem => _siftdown_loop pos heap startpos pos newitem
    | None => heap
    end.

Fixpoint _siftup_loop (fuel : nat) (heap : list A) (endpos pos : nat)
      : list A * nat :=
    match fuel with
    | O => (heap, pos)
    | S fuel' =>
        let childpos := (2 * pos + 1)%nat in
        if (childpos <? endpos)%nat then
          let rightpos := (childpos + 1)%nat in
          let childpos :=
            if (rightpos <? endpos)%nat then
              match heap !! childpos, heap !! rightpos with
              | Some c, Some r => if lt c r then childpos else rightpos
              | _, _ => childpos
              end
            else childpos in
          match heap !! childpos with
          | Some c => _siftup_loop fuel' (<[pos := c]> heap) endpos childpos
          | None => (heap, pos)
          end
        else (heap, pos)
    end.

Definition _siftup (heap : list A) (pos : nat) : list A :=
    let endpos := length heap in
    let startpos := pos in
    match heap !! pos with
    | Some newitem =>
        let '(heap, pos) := _siftup_loop endpos heap endpos pos in
        let heap := <[pos := newitem]> heap in
        _siftdown heap startpos pos
    | None => heap
    end.

Definition heappush (heap : list A) (item : A) : list A :=
    let heap := heap ++ [item] in
    _siftdown heap 0 (length heap - 1).

  (** [None] stands for the [IndexError] of popping an empty list. *)
Definition heappop (heap : list A) : option (A * list A) :=
    match list_pop heap with
    | None => None
    | Some (lastelt, heap) =>
        match heap with
        | [] => Some (lastelt, heap)
        | returnitem :: _ =>
            let heap := <[0%nat := lastelt]> heap in
            Some (returnitem, _siftup heap 0)
        end
    end.

  (** [for i in reversed(range(n//2)): _siftup(x, i)] *)
Fixpoint heapify_from (i : nat) (x : list A) : list A :=
    match i with
    | O => x
    | S i' => heapify_from i' (_siftup x i')
    end.

Definition heapify (x : list A) : list A :=
    heapify_from (length x / 2)%nat x.
End heapq.

(** ** Objects *)

(** [TreeNode.__init__] leaves [key] and [value] at [None]; every creation
    site assigns both before the node can be reached, so they are lists. *)
Record TreeNode := mkTreeNode {
  children : dict node_id;
  parent : option node_id;
  key : list token;
  value : list slot;
  lock_ref : Z;
  last_access_time : Z;
  ref_counter : Z;
}.

(** The cache object together with the store its nodes live in.  [ticks]
    counts the calls of [time.time()] made so far. *)
Record RadixCache := mkRadixCache {
  objs : list TreeNode;
  ticks : nat;
  root_node : node_id;
  evictable_size_ : Z;
  disable : bool;
  call_counter : Z;
  token_counter : Z;
  flag : bool;
}.

Definition set_children (c : dict node_id) (nd : TreeNode) : TreeNode :=
  mkTreeNode c (parent nd) (key nd) (value nd) (lock_ref nd)
    (last_access_time nd) (ref_counter nd).
Definition set_lock_ref (l : Z) (nd : TreeNode) : TreeNode :=
  mkTreeNode (children nd) (parent nd) (key nd) (value nd) l
    (last_access_time nd) (ref_counter nd).
Definition set_time (t : Z) (nd : TreeNode) : TreeNode :=
  mkTreeNode (children nd) (parent nd) (key nd) (value nd) (lock_ref nd)
    t (ref_counter nd).

Definition set_objs (o : list TreeNode) (s : RadixCache) : RadixCache :=
  mkRadixCache o (ticks s) (root_node s) (evictable_size_ s) (disable s)
    (call_counter s) (token_counter s) (flag s).
Definition set_evictable (e : Z) (s : RadixCache) : RadixCache :=
  mkRadixCache (objs s) (ticks s) (root_node s) e (disable s)
    (call_counter s) (token_counter s) (flag s).

Definition get_node (s : RadixCache) (n : node_id) : outcome TreeNode :=
  of_option AttributeError (objs s !! n).

Definition put_node (n : node_id) (nd : TreeNode) (s : RadixCache)
    : RadixCache :=
  set_objs (<[n := nd]> (objs s)) s.

Definition len {A} (l : list A) : Z := Z.of_nat (length l).

(** The [__lt__] of [TreeNode], on node handles. *)
Definition atime (s : RadixCache) (n : node_id) : Z :=
  match objs s !! n with
  | Some nd => last_access_time nd
  | None => 0
  end.
Definition node_lt (s : RadixCache) (a b : node_id) : bool :=
  atime s a <? atime s b.

Fixpoint _key_match (key0 key1 : list token) : nat :=
  match key0, key1 with
  | k0 :: r0, k1 :: r1 => if Z.eqb k0 k1 then S (_key_match r0 r1) else O
  | _, _ => O
  end.

(** ** The cache operations *)

Section cache.

(** [clock k] is what the [k]-th call of [time.time()] returns. *)
Variable clock : nat -> Z.

Definition time_time (s : RadixCache) : Z * RadixCache :=
  (clock (ticks s),
   mkRadixCache (objs s) (S (ticks s)) (root_node s) (evictable_size_ s)
     (disable s) (call_counter s) (token_counter s) (flag s)).

(** [TreeNode()] followed by the assignments of the creation site: the fresh
    object's identity is the next free index of the store. *)
Definition new_TreeNode (s : RadixCache)
    (init : Z -> TreeNode) : node_id * RadixCache :=
  let '(now, s) := time_time s in
  (length (objs s), set_objs (objs s ++ [init now]) s).

(** [node.last_access_time = time.time()] *)
Definition touch (s : RadixCache) (node : node_id) : outcome RadixCache :=
  let '(now, s) := time_time s in
  let* nd := get_node s node in
  Ok (put_node node (set_time now nd) s).

Definition reset (s : RadixCache) : RadixCache :=
  let '(root, s) :=
    new_TreeNode s (fun now => mkTreeNode [] None [] [] 1 now 0) in
  mkRadixCache (objs s) (ticks s) root 0 (disable s)
    (call_counter s) (token_counter s) (flag s).

(** [RadixCache(req_to_token_pool, token_to_kv_pool, flag, disable)]; the two
    pools are only used by the request-level methods. *)
Definition __init__ (flag0 disable0 : bool) : RadixCache :=
  let s := reset (mkRadixCache [] O O 0 disable0 0 0 false) in
  mkRadixCache (objs s) (ticks s) (root_node s) (evictable_size_ s)
    (disable s) 0 0 flag0.

Definition _split_node (s : RadixCache) (key0 : list token)
    (child : node_id) (split_len : nat) : outcome (node_id * RadixCache) :=
  let* cnd := get_node s child in
  let* k1 := of_option IndexError (head (drop split_len key0)) in
  let '(new_node, s) :=
    new_TreeNode s (fun now =>
      mkTreeNode [(k1, child)] (parent cnd) (take split_len (key cnd))
        (take split_len (value cnd)) (lock_ref cnd) now 0) in
  let s :=
    put_node child
      (mkTreeNode (children cnd) (Some new_node) (drop split_len (key cnd))
         (drop split_len (value cnd)) (lock_ref cnd) (last_access_time cnd)
         (ref_counter cnd)) s in
  let* k0 := of_option IndexError (head (take split_len key0)) in
  let* p := of_option AttributeError (parent cnd) in
  let* pnd := get_node s p in
  Ok (new_node,
      put_node p (set_children (dict_set (children pnd) k0 new_node) pnd) s).

(** [value] is the list the caller appends the matched segments to and
    [last_node] the one-element list holding the deepest node matched; both
    are threaded through the recursion. *)
Fixpoint _match_prefix_helper (fuel : nat) (s : RadixCache) (node : node_id)
    (key0 : list token) (value0 : list (list slot)) (last_node : node_id)
    : outcome (list (list slot) * node_id * RadixCache) :=
  match fuel with
  | O => Timeout
  | S fuel' =>
      let* s := touch s node in
      match key0 with
      | [] => Ok (value0, last_node, s)
      | k0 :: _ =>
          let* nd := get_node s node in
          match dict_get (children nd) k0 with
          | Some child =>
              let* cnd := get_node s child in
              let prefix_len := _key_match (key cnd) key0 in
              if (prefix_len <? length (key cnd))%nat then
                let* (new_node, s) :=
                  _split_node s (key cnd) child prefix_len in
                let* nnd := get_node s new_node in
                Ok (value0 ++ [value nnd], new_node, s)
              else
                _match_prefix_helper fuel' s child (drop prefix_len key0)
                  (value0 ++ [value cnd]) child
          | None => Ok (value0, last_node, s)
          end
      end
  end.

Fixpoint _insert_helper (fuel : nat) (s : RadixCache) (node : node_id)
    (key0 : list token) (value0 : list slot) : outcome (nat * RadixCache) :=
  match fuel with
  | O => Timeout
  | S fuel' =>
      let* s := touch s node in
      match key0 with
      | [] => Ok (O, s)
      | k0 :: _ =>
          let* nd := get_node s node in
          match dict_get (children nd) k0 with
          | Some child =>
              let* cnd := get_node s child in
              let prefix_len := _key_match (key cnd) key0 in
              if (prefix_len =? length (key cnd))%nat then
                if (prefix_len =? length key0)%nat then Ok (prefix_len, s)
                else
                  let* (r, s) :=
                    _insert_helper fuel' s child (drop prefix_len key0)
                      (drop prefix_len value0) in
                  Ok ((prefix_len + r)%nat, s)
              else
                let* (new_node, s) :=
                  _split_node s (key cnd) child prefix_len in
                let* (r, s) :=
                  _insert_helper fuel' s new_node (drop prefix_len key0)
                    (drop prefix_len value0) in
                Ok ((prefix_len + r)%nat, s)
          | None =>
              let '(new_node, s) :=
                new_TreeNode s (fun now =>
                  mkTreeNode [] (Some node) key0 value0 0 now 0) in
              let* nd := get_node s node in
              let s :=
                put_node node
                  (set_children (dict_set (children nd) k0 new_node) nd) s in
              Ok (O, set_evictable (evictable_size_ s + len value0) s)
          end
      end
  end.

(** [torch.concat(value)] joins the matched segments, and nothing matched
    gives the empty tensor.  The [value] of a node is read as the tensor of
    slot indices that the caller of [insert] supplied, which [torch.concat]
    accepts. *)
Definition match_prefix (s : RadixCache) (key0 : list token)
    : outcome (list slot * node_id * RadixCache) :=
  if disable s then Ok ([], root_node s, s)
  else
    let* (value0, last_node, s) :=
      _match_prefix_helper (S (length key0)) s (root_node s) key0 []
        (root_node s) in
    Ok (concat value0, last_node, s).

(** [value=None] stores a copy of the key, [[x for x in key]].  That value
    is a Python list and not a tensor: [insert] and the eviction functions
    treat it like any other value, while the [torch.concat] of a later
    [match_prefix] that reaches it raises a [TypeError].  Runs of operations
    are therefore taken with supplied values ([op_pre]). *)
Definition insert (s : RadixCache) (key0 : list token)
    (value0 : option (list slot)) : outcome (nat * RadixCache) :=
  if disable s then Ok (O, s)
  else
    let value0 := match value0 with Some v => v | None => key0 end in
    _insert_helper (S (length key0)) s (root_node s) key0 value0.

Fixpoint _total_size_helper (fuel : nat) (s : RadixCache) (node : node_id)
    : outcome Z :=
  match fuel with
  | O => Timeout
  | S fuel' =>
      let* nd := get_node s node in
      fold_left
        (fun x child =>
           let* x := x in
           let* y := _total_size_helper fuel' s child in
           Ok (x + y))
        (dict_values (children nd)) (Ok (len (value nd)))
  end.

Definition total_size (s : RadixCache) : outcome Z :=
  _total_size_helper (length (objs s)) s (root_node s).

Fixpoint _collect_leaves_loop (fuel : nat) (s : RadixCache)
    (stack ret_list : list node_id) : outcome (list node_id) :=
  match list_pop stack with
  | None => Ok ret_list
  | Some (cur_node, stack) =>
      match fuel with
      | O => Timeout
      | S fuel' =>
          let* nd := get_node s cur_node in
          if (length (children nd) =? 0)%nat
          then _collect_leaves_loop fuel' s stack (ret_list ++ [cur_node])
          else _collect_leaves_loop fuel' s
                 (stack ++ dict_values (children nd)) ret_list
      end
  end.

Definition _collect_leaves (s : RadixCache) : outcome (list node_id) :=
  _collect_leaves_loop (length (objs s)) s [root_node s] [].

(** The [k] left by [for k, v in d.items(): if v == node: break]: the key of
    the first entry holding [node], the last key when there is none, and
    unbound on an empty dictionary. *)
Fixpoint find_key (d : dict node_id) (node : node_id) : option token :=
  match d with
  | [] => None
  | (k, v) :: r =>
      if (v =? node)%nat then Some k
      else match find_key r node with
           | Some k' => Some k'
           | None => Some k
           end
  end.

Definition _delete_leaf (s : RadixCache) (node : node_id)
    : outcome RadixCache :=
  let* nd := get_node s node in
  let* p := of_option AttributeError (parent nd) in
  let* pnd := get_node s p in
  let* k := of_option UnboundLocalError (find_key (children pnd) node) in
  let s := put_node p (set_children (dict_del (children pnd) k) pnd) s in
  Ok (set_evictable (evictable_size_ s - len (key nd)) s).

(** The statements both eviction loops run on a victim [x], after the
    callback has been given [x.value]: delete the leaf and push its parent
    when that has become childless. *)
Definition evict_leaf (s : RadixCache) (leaves : list node_id) (x : node_id)
    : outcome (list node_id * RadixCache) :=
  let* xnd := get_node s x in
  let* s := _delete_leaf s x in
  let* p := of_option AttributeError (parent xnd) in
  let* pnd := get_node s p in
  if (length (children pnd) =? 0)%nat
  then Ok (heappush (node_lt s) leaves p, s)
  else Ok (leaves, s).

(** One entry per call of [evict_callback]: the victim and the [x.value]
    handed to the callback. *)
Definition evict_log := list (node_id * list slot).
Definition callback_args (log : evict_log) : list (list slot) := map snd log.

(** Number of dictionary entries in the store; every victim removes one. *)
Definition links (s : RadixCache) : nat :=
  sum_list_with (fun nd => length (children nd)) (objs s).

Fixpoint evict_loop (fuel : nat) (s : RadixCache) (num_tokens : Z)
    (leaves : list node_id) (num_evicted : Z) (log : evict_log)
    : outcome (Z * evict_log * RadixCache) :=
  if (num_evicted <? num_tokens) && (0 <? length leaves)%nat then
    match fuel with
    | O => Timeout
    | S fuel' =>
        let* (x, leaves) :=
          of_option IndexError (heappop (node_lt s) leaves) in
        if (x =? root_node s)%nat then Ok (num_evicted, log, s)
        else
          let* xnd := get_node s x in
          if 0 <? lock_ref xnd
          then evict_loop fuel' s num_tokens leaves num_evicted log
          else
            let* (leaves, s) := evict_leaf s leaves x in
            evict_loop fuel' s num_tokens leaves
              (num_evicted + len (value xnd)) (log ++ [(x, value xnd)])
    end
  else Ok (num_evicted, log, s).

Definition enter_evict (s : RadixCache) : RadixCache :=
  mkRadixCache (objs s) (ticks s) (root_node s) (evictable_size_ s)
    (disable s) (call_counter s + 1) (token_counter s) true.

Definition leave_evict (num_evicted : Z) (s : RadixCache) : RadixCache :=
  mkRadixCache (objs s) (ticks s) (root_node s) (evictable_size_ s)
    (disable s) (call_counter s) (token_counter s + num_evicted) (flag s).

(** [wait_tensor] is accepted and never read. *)
Definition evict (s : RadixCache) (num_tokens : Z)
    (wait_tensor : option (list node_id)) : outcome (evict_log * RadixCache) :=
  let s := enter_evict s in
  if disable s then Ok ([], s)
  else
    let* leaves := _collect_leaves s in
    let leaves := heapify (node_lt s) leaves in
    let* (num_evicted, log, s) :=
      evict_loop (length leaves + links s) s num_tokens leaves 0 [] in
    Ok (log, leave_evict num_evicted s).

Fixpoint evict1_loop (fuel : nat) (s : RadixCache) (num_tokens : Z)
    (wait_tensor : option (list node_id))
    (leaves : list node_id) (num_evicted : Z) (log : evict_log)
    : outcome (Z * evict_log * RadixCache) :=
  if (num_evicted <? num_tokens) && (0 <? length leaves)%nat then
    match fuel with
    | O => Timeout
    | S fuel' =>
        let* (x, leaves) :=
          of_option IndexError (heappop (node_lt s) leaves) in
        if (x =? root_node s)%nat then Ok (num_evicted, log, s)
        else
          let* xnd := get_node s x in
          if 0 <? lock_ref xnd
          then evict1_loop fuel' s num_tokens wait_tensor leaves
                 num_evicted log
          else
            let* w := of_option TypeError wait_tensor in
            if negb (existsb (Nat.eqb x) w) then
              let* (leaves, s) := evict_leaf s leaves x in
              evict1_loop fuel' s num_tokens wait_tensor leaves
                (num_evicted + len (value xnd)) (log ++ [(x, value xnd)])
            else
              evict1_loop fuel' s num_tokens wait_tensor leaves
                num_evicted log
    end
  else Ok (num_evicted, log, s).

(** The reserved-set variant: no [heapify], and the membership test
    [x not in wait_tensor] on every unpinned leaf popped. *)
Definition evict1 (s : RadixCache) (num_tokens : Z)
    (wait_tensor : option (list node_id)) : outcome (evict_log * RadixCache) :=
  let s := enter_evict s in
  if disable s then Ok ([], s)
  else
    let* leaves := _collect_leaves s in
    let* (num_evicted, log, s) :=
      evict1_loop (length leaves + links s) s num_tokens wait_tensor
        leaves 0 [] in
    Ok (log, leave_evict num_evicted s).

Fixpoint inc_lock_ref_loop (fuel : nat) (s : RadixCache) (node : node_id)
    (delta : Z) : outcome (Z * RadixCache) :=
  if (node =? root_node s)%nat then Ok (delta, s)
  else
    match fuel with
    | O => Timeout
    | S fuel' =>
        let* nd := get_node s node in
        let '(s, delta) :=
          if lock_ref nd =? 0
          then (set_evictable (evictable_size_ s - len (value nd)) s,
                delta - len (value nd))
          else (s, delta) in
        let s := put_node node (set_lock_ref (lock_ref nd + 1) nd) s in
        let* node := of_option AttributeError (parent nd) in
        inc_lock_ref_loop fuel' s node delta
    end.

Definition inc_lock_ref (s : RadixCache) (node : node_id)
    : outcome (Z * RadixCache) :=
  if disable s then Ok (0, s)
  else inc_lock_ref_loop (length (objs s)) s node 0.

Fixpoint dec_lock_ref_loop (fuel : nat) (s : RadixCache) (node : node_id)
    (delta : Z) : outcome (Z * RadixCache) :=
  if (node =? root_node s)%nat then Ok (delta, s)
  else
    match fuel with
    | O => Timeout
    | S fuel' =>
        let* nd := get_node s node in
        let '(s, delta) :=
          if lock_ref nd =? 1
          then (set_evictable (evictable_size_ s + len (value nd)) s,
                delta + len (value nd))
          else (s, delta) in
        let s := put_node node (set_lock_ref (lock_ref nd - 1) nd) s in
        let* node := of_option AttributeError (parent nd) in
        dec_lock_ref_loop fuel' s node delta
    end.

Definition dec_lock_ref (s : RadixCache) (node : node_id)
    : outcome (Z * RadixCache) :=
  if disable s then Ok (0, s)
  else dec_lock_ref_loop (length (objs s)) s node 0.

Definition evictable_size (s : RadixCache) : Z := evictable_size_ s.

End cache.

(** ** The tree inside the store *)

(** The nodes reachable from [node] through the children dictionaries, in
    pre-order; [fuel] bounds the depth. *)
Fixpoint subtree_nodes (fuel : nat) (st : list TreeNode) (node : node_id)
    : list node_id :=
  match fuel with
  | O => []
  | S fuel' =>
      match st !! node with
      | Some nd =>
          node :: flat_map (fun e => subtree_nodes fuel' st (snd e))
                    (children nd)
      | None => []
      end
  end.

Definition tree_nodes (s : RadixCache) : list node_id :=
  subtree_nodes (length (objs s)) (objs s) (root_node s).

Definition sumZ {A} (f : A -> Z) (l : list A) : Z :=
  foldr (fun a acc => f a + acc) 0 l.

Definition lock_of (st : list TreeNode) (n : node_id) : Z :=
  match st !! n with Some nd => lock_ref nd | None => 0 end.
Definition value_of (st : list TreeNode) (n : node_id) : list slot :=
  match st !! n with Some nd => value nd | None => [] end.
Definition children_of (st : list TreeNode) (n : node_id) : dict node_id :=
  match st !! n with Some nd => children nd | None => [] end.

(** What an unpinned node contributes to the evictable size. *)
Definition weight (st : list TreeNode) (n : node_id) : Z :=
  if lock_of st n =? 0 then len (value_of st n) else 0.

(** The sum of [|n.value|] over the non-root nodes [n] of the tree with
    [n.lock_ref == 0]. *)
Definition evictable_sum (s : RadixCache) : Z :=
  sumZ (weight (objs s))
    (filter (fun n => n ≠ root_node s) (tree_nodes s)).

(** The shape of a tree of node handles. *)
#[local] Unset Elimination Schemes.
Inductive shape := Sh (n : node_id) (kids : list shape).
#[local] Set Elimination Schemes.

Definition sh_id (t : shape) : node_id := match t with Sh n _ => n end.
Definition sh_kids (t : shape) : list shape :=
  match t with Sh _ kids => kids end.

Fixpoint ids (t : shape) : list node_id :=
  match t with Sh n kids => n :: flat_map ids kids end.

Fixpoint sh_leaves (t : shape) : list node_id :=
  match t with
  | Sh n kids =>
      match kids with
      | [] => [n]
      | _ => flat_map sh_leaves kids
      end
  end.

Fixpoint depth (t : shape) : nat :=
  match t with Sh n kids => S (max_list (map depth kids)) end.

(** Removing the leaf [x] from a shape. *)
Fixpoint sh_remove (x : node_id) (t : shape) : shape :=
  match t with
  | Sh n kids =>
      Sh n (filter (fun k => sh_id k ≠ x) (map (sh_remove x) kids))
  end.

(** A dictionary entry [tok ↦ c] of a node matches the child shape [k]: it
    holds that child, whose edge label starts with [tok] and is as long as
    its value. *)
Definition kid_ok (st : list TreeNode) (e : token * node_id) (k : shape)
    : Prop :=
  snd e = sh_id k ∧
  ∃ knd, st !! snd e = Some knd ∧ head (key knd) = Some (fst e) ∧
         length (key knd) = length (value knd).

(** [tree_at st p t]: in the store [st] the node [sh_id t] has parent link
    [p], its dictionary lists exactly the children of [t] under the first
    token of their labels, and so on below. *)
#[local] Unset Elimination Schemes.
Inductive tree_at (st : list TreeNode) : option node_id → shape → Prop :=
| tree_at_node p n kids nd :
    st !! n = Some nd →
    parent nd = p →
    NoDup (map fst (children nd)) →
    Forall2 (kid_ok st) (children nd) kids →
    Forall (tree_at st (Some n)) kids →
    tree_at st p (Sh n kids).
#[local] Set Elimination Schemes.

(** The data-model invariants of the specification: a rooted tree without
    sharing whose root carries no value. *)
Definition good (s : RadixCache) (t : shape) : Prop :=
  sh_id t = root_node s ∧ tree_at (objs s) None t ∧ NoDup (ids t) ∧
  value_of (objs s) (root_node s) = [].

Definition wf (s : RadixCache) : Prop := ∃ t, good s t.

Definition locks_ok (s : RadixCache) : Prop :=
  ∀ n, n ∈ tree_nodes s → 0 ≤ lock_of (objs s) n.

Definition accounted (s : RadixCache) : Prop :=
  evictable_size_ s = evictable_sum s.

(** The nodes the loops of [inc_lock_ref] and [dec_lock_ref] visit from
    [node]: the node and its ancestors below the root. *)
Fixpoint path_to_root (fuel : nat) (st : list TreeNode) (root node : node_id)
    : option (list node_id) :=
  if (node =? root)%nat then Some []
  else
    match fuel with
    | O => None
    | S fuel' =>
        match st !! node with
        | Some nd =>
            match parent nd with
            | Some p => cons node <$> path_to_root fuel' st root p
            | None => None
            end
        | None => None
        end
    end.

Definition pin_path (s : RadixCache) (node : node_id) : list node_id :=
  default [] (path_to_root (length (objs s)) (objs s) (root_node s) node).

(** The fields of a node that the tree structure depends on. *)
Definition skel (nd : TreeNode) :
    dict node_id * option node_id * list token * list slot :=
  (children nd, parent nd, key nd, value nd).

(** The sum of [|n.value|] over a list of nodes. *)
Definition total_values (st : list TreeNode) (l : list node_id) : Z :=
  sumZ (fun n => len (value_of st n)) l.

(** How an operation working below the node [sh_id t] changes the subtree
    [t]: [t'] is the subtree afterwards, [dw] what the unpinned values in
    it gained and [dv] what all its values gained.  Nodes outside the
    subtree are untouched, nodes are only added (with fresh identities),
    and no existing node changes its [lock_ref]. *)
Record grow (st : list TreeNode) (p : option node_id) (t : shape)
    (st' : list TreeNode) (t' : shape) (dw dv : Z) : Prop := mk_grow {
  grow_id : sh_id t' = sh_id t;
  grow_tree : tree_at st' p t';
  grow_nodup : NoDup (ids t');
  grow_length : (length st ≤ length st')%nat;
  grow_fresh : ∀ m, m ∈ ids t' → m ∈ ids t ∨ (length st ≤ m)%nat;
  grow_keep : ∀ m, m ∈ ids t → m ∈ ids t';
  grow_frame : ∀ m, (m < length st)%nat → m ∉ ids t → st' !! m = st !! m;
  grow_lock : ∀ m nd, st !! m = Some nd →
              ∃ nd', st' !! m = Some nd' ∧ lock_ref nd' = lock_ref nd;
  grow_lock_ok : (∀ m, m ∈ ids t → 0 ≤ lock_of st m) →
                 ∀ m, m ∈ ids t' → 0 ≤ lock_of st' m;
  grow_top : ∃ nd nd', st !! sh_id t = Some nd ∧ st' !! sh_id t = Some nd' ∧
                       key nd' = key nd ∧ value nd' = value nd;
  grow_weight : sumZ (weight st') (ids t') = sumZ (weight st) (ids t) + dw;
  grow_values : total_values st' (ids t') = total_values st (ids t) + dv;
}.

(** The fields of the cache object that only [reset] and the eviction
    entry points assign. *)
Definition same_cache (s s' : RadixCache) : Prop :=
  root_node s' = root_node s ∧ disable s' = disable s ∧
  call_counter s' = call_counter s ∧ token_counter s' = token_counter s ∧
  flag s' = flag s.

(** [stored st n k]: below the node [n] the token sequence [k] ends exactly
    at a node, i.e. walking down from [n] every edge label met is a prefix
    of what remains of [k]. *)
Inductive stored (st : list TreeNode) : node_id → list token → Prop :=
| stored_nil n : is_Some (st !! n) → stored st n []
| stored_cons n nd k0 rest c cnd :
    st !! n = Some nd →
    dict_get (children nd) k0 = Some c →
    st !! c = Some cnd →
    _key_match (key cnd) (k0 :: rest) = length (key cnd) →
    (0 < length (key cnd))%nat →
    stored st c (drop (length (key cnd)) (k0 :: rest)) →
    stored st n (k0 :: rest).

(** The invariant of the cache: a well-formed tree, no negative pin
    counter in it, and the evictable-size counter in step with it. *)
Definition Inv (s : RadixCache) : Prop := wf s ∧ locks_ok s ∧ accounted s.

(** Two stores that differ at most in the [last_access_time] of their
    nodes. *)
Definition same_but_time (st st' : list TreeNode) : Prop :=
  ∀ n, set_time 0 <$> st' !! n = set_time 0 <$> st !! n.

(** Two stores whose nodes carry the same values, pin counters and parent
    links. *)
Definition same_payload (st st' : list TreeNode) : Prop :=
  ∀ m, value_of st' m = value_of st m ∧ lock_of st' m = lock_of st m ∧
       parent <$> st' !! m = parent <$> st !! m.

(** What an eviction pass did: [new] lists its victims with the values
    given to the callback, [t'] is the tree that is left. *)
Record evicted (s : RadixCache) (t : shape) (new : evict_log)
    (s' : RadixCache) (t' : shape) : Prop := mk_evicted {
  ev_good : good s' t';
  ev_root : root_node s' = root_node s;
  ev_disable : disable s' = disable s;
  ev_ids : ids t ≡ₚ map fst new ++ ids t';
  ev_log : Forall (fun e => snd e = value_of (objs s) (fst e) ∧
                            lock_of (objs s) (fst e) ≤ 0 ∧
                            fst e ≠ root_node s) new;
  ev_payload : same_payload (objs s) (objs s');
  ev_evictable :
    evictable_size_ s' = evictable_size_ s - sumZ (fun e => len (snd e)) new;
}.

(** ** Sequences of public operations *)

Inductive op :=
| Insert (key0 : list token) (value0 : option (list slot))
| MatchPrefix (key0 : list token)
| IncLockRef (node : node_id)
| DecLockRef (node : node_id)
| Evict (num_tokens : Z) (wait_tensor : option (list node_id))
| Evict1 (num_tokens : Z) (wait_tensor : option (list node_id))
| Reset.

Section runs.
Variable clock : nat -> Z.

Definition run_op (s : RadixCache) (o : op) : outcome RadixCache :=
  match o with
  | Insert key0 value0 => let* (_, s) := insert clock s key0 value0 in Ok s
  | MatchPrefix key0 => let* (_, s) := match_prefix clock s key0 in Ok s
  | IncLockRef node => let* (_, s) := inc_lock_ref s node in Ok s
  | DecLockRef node => let* (_, s) := dec_lock_ref s node in Ok s
  | Evict num_tokens w => let* (_, s) := evict s num_tokens w in Ok s
  | Evict1 num_tokens w => let* (_, s) := evict1 s num_tokens w in Ok s
  | Reset => Ok (reset clock s)
  end.

Fixpoint run_ops (s : RadixCache) (ops : list op) : outcome RadixCache :=
  match ops with
  | [] => Ok s
  | o :: ops => let* s := run_op s o in run_ops s ops
  end.

(** What the caller owes each operation: a supplied value as long as the
    key, node handles that belong to the current tree, and no unpin of a path
    that holds an unpinned node.  Nothing is asked of [evict1]: called
    without its reserved list it raises a [TypeError] at the first unpinned
    leaf it pops, and returns when it pops none. *)
Definition op_pre (s : RadixCache) (o : op) : Prop :=
  match o with
  | Insert key0 value0 =>
      match value0 with
      | Some v => length v = length key0
      | None => False
      end
  | IncLockRef node => node ∈ tree_nodes s
  | DecLockRef node =>
      node ∈ tree_nodes s ∧
      Forall (fun m => 1 ≤ lock_of (objs s) m) (pin_path s node)
  | _ => True
  end.

Fixpoint valid (s : RadixCache) (ops : list op) : Prop :=
  match ops with
  | [] => True
  | o :: ops => op_pre s o ∧ ∀ s', run_op s o = Ok s' → valid s' ops
  end.

End runs.

(** ** Example caches *)

(** A clock that advances by one at every reading. *)
Definition ex_clock (k : nat) : Z := Z.of_nat k.

Definition ex_fresh : RadixCache := __init__ ex_clock false false.

Definition after_ops (ops : list op) : RadixCache :=
  match run_ops ex_clock ex_fresh ops with
  | Ok s => s
  | _ => ex_fresh
  end.

(** One leaf [1] ↦ [100]. *)
Definition ex_one : RadixCache := after_ops [Insert [1] (Some [100])].

(** Two leaves, [1] ↦ [100] inserted before [2] ↦ [200]. *)
Definition ex_two : RadixCache :=
  after_ops [Insert [1] (Some [100]); Insert [2] (Some [200])].

(** The state an operation leaves behind ([d] when it raised). *)
Definition state_of {A} (o : outcome (A * RadixCache)) (d : RadixCache)
    : RadixCache :=
  match o with
  | Ok (_, s) => s
  | _ => d
  end.

(** The leaf [1] pinned, next to an unpinned leaf [2]. *)
Definition ex_pinned : RadixCache :=
  after_ops [Insert [1] (Some [100]); Insert [2] (Some [200]);
             IncLockRef 1%nat].

(** One leaf with a four-token label. *)
Definition ex_long : RadixCache :=
  after_ops [Insert [1; 2; 3; 4] (Some [10; 11; 12; 13])].

(** A run through all seven public operations. *)
Definition ex_ops : list op :=
  [Insert [1; 2] (Some [10; 11]); MatchPrefix [1];
   IncLockRef 2%nat; DecLockRef 2%nat; Evict1 1 (Some []);
   Evict 5 None; Reset].

(** A run in which [evict1] is called without its reserved list while the
    only leaf is pinned. *)
Definition ex_unreserved : list op :=
  [Insert [1] (Some [100]); IncLockRef 1%nat; Evict1 5 None;
   DecLockRef 1%nat; MatchPrefix [1]].

(** ** What the further properties are stated with *)

Definition empty_disabled (s : RadixCache) : Prop :=
  disable s = true ∧ evictable_size_ s = 0 ∧
  ∃ nd, objs s !! root_node s = Some nd ∧ children nd = [] ∧ value nd = [].

(** What one node with [lock_ref == c] contributes when its pin count
    leaves [c]. *)
Definition pin_weight (c : Z) (st : list TreeNode) (n : nat) : Z :=
  if lock_of st n =? c then len (value_of st n) else 0.

(** [node.lock_ref += d] *)
Definition bump (d : Z) (nd : TreeNode) : TreeNode :=
  set_lock_ref (lock_ref nd + d) nd.

(** The store after [lock_ref += d] on every node of [path]. *)
Definition bumped (d : Z) (path : list nat) (st st' : list TreeNode) : Prop :=
  length st' = length st ∧
  ∀ m, st' !! m = if decide (m ∈ path) then bump d <$> st !! m else st !! m.

(** The values [match_prefix] returns for [key0] from [node] and the node it
    ends at, read off the store without touching it; a node the search
    would split is the next one the store creates. *)
Fixpoint cached_prefix (fuel : nat) (st : list TreeNode) (node : nat)
    (key0 : list Z) (last : nat) : list Z * nat :=
  match fuel with
  | O => ([], last)
  | S fuel' =>
      match key0 with
      | [] => ([], last)
      | k0 :: _ =>
          match st !! node with
          | None => ([], last)
          | Some nd =>
              match dict_get (children nd) k0 with
              | None => ([], last)
              | Some child =>
                  match st !! child with
                  | None => ([], last)
                  | Some cnd =>
                      let prefix_len := _key_match (key cnd) key0 in
                      if (prefix_len <? length (key cnd))%nat
                      then (take prefix_len (value cnd), length st)
                      else
                        let '(vs, l) :=
                          cached_prefix fuel' st child
                            (drop prefix_len key0) child in
                        (value cnd ++ vs, l)
                  end
              end
          end
      end
  end.

(** What [match_prefix] reads for [key0] in [s]. *)
Definition cached (s : RadixCache) (key0 : list Z) : list Z * nat :=
  cached_prefix (S (length key0)) (objs s) (root_node s) key0 (root_node s).

(** The values cached for [key0] below [node]. *)
Definition cached_values (st : list TreeNode) (node : nat) (key0 : list Z)
    : list Z :=
  (cached_prefix (S (length key0)) st node key0 node).1.

(** [c] is one of the two children of position [i] in a binary heap. *)
Definition heap_child (i c : nat) : Prop :=
  c = (2 * i + 1)%nat ∨ c = (2 * i + 2)%nat.

Section heap_order_defs.
Context {A : Type} (f : A → Z).

(** The item at [i] is not above the item at [c]. *)
Definition le_at (h : list A) (i c : nat) : Prop :=
  ∀ x y, h !! i = Some x → h !! c = Some y → f x ≤ f y.

(** The heap invariant at every position from [lo] on. *)
Definition heap_from (lo : nat) (h : list A) : Prop :=
  ∀ i c, (lo ≤ i)%nat → heap_child i c → le_at h i c.

(** The heap invariant from [lo] on for a list whose position [p] is being
    rewritten: the pairs not involving [p], and the parent of [p] against
    the children of [p]. *)
Definition hole_sides (lo : nat) (h : list A) (p : nat) : Prop :=
  ∀ i c, (lo ≤ i)%nat → i ≠ p → c ≠ p → heap_child i c → le_at h i c.
Definition hole_across (lo : nat) (h : list A) (p : nat) : Prop :=
  ∀ q c, (lo ≤ q)%nat → heap_child q p → heap_child p c → le_at h q c.
Definition hole_below (h : list A) (p : nat) (x : A) : Prop :=
  ∀ c y, heap_child p c → h !! c = Some y → f x ≤ f y.
End heap_order_defs.

(** [p] lies in the subtree of position [lo]. *)
Inductive heap_desc (lo : nat) : nat → Prop :=
  | heap_desc_refl : heap_desc lo lo
  | heap_desc_child q c : heap_desc lo q → heap_child q c → heap_desc lo c.

(** * Proofs *)

(** ** Lists, dictionaries and [heapq] *)

Lemma list_pop_snoc {A} (l : list A) (x : A) : list_pop (l ++ [x]) = Some (x, l).
Proof.
  induction l as [|a l IH]; simpl; [done|]. by rewrite IH.
Qed.

Lemma list_pop_None {A} (l : list A) : list_pop l = None → l = [].
Proof.
  destruct l as [|a l]; [done|]. simpl. by destruct (list_pop l) as [[? ?]|].
Qed.

Lemma list_pop_Some {A} (l l' : list A) (x : A) :
  list_pop l = Some (x, l') → l = l' ++ [x].
Proof.
  revert l' x. induction l as [|a l IH]; intros l' x; simpl; [done|].
  destruct (list_pop l) as [[y r]|] eqn:E.
  - intros [= <- <-]. simpl. f_equal. by apply IH.
  - intros [= <- <-]. apply list_pop_None in E. by subst.
Qed.

Section heapq_perm.
Context {A : Type} (lt : A → A → bool).

Lemma insert_head_perm (t : list A) (j : nat) (x y : A) :
  t !! j = Some y → y :: <[j := x]> t ≡ₚ x :: t.
Proof.
  revert j. induction t as [|b t IH]; intros [|j] H; simplify_eq/=.
  - apply perm_swap.
  - rewrite perm_swap. rewrite (IH _ H). apply perm_swap.
Qed.

Lemma insert_exchange_perm (t : list A) (i : nat) (x y : A) :
  (i < length t)%nat → x :: <[i := y]> t ≡ₚ y :: <[i := x]> t.
Proof.
  revert i. induction t as [|b t IH]; intros [|i] H; simpl in *; try lia.
  - apply perm_swap.
  - rewrite perm_swap. rewrite (IH i) by lia. apply perm_swap.
Qed.

Lemma insert_swap_perm (h : list A) (i j : nat) (x y : A) :
  h !! j = Some y → i ≠ j → (i < length h)%nat →
  <[j := x]> (<[i := y]> h) ≡ₚ <[i := x]> h.
Proof.
  revert i j. induction h as [|a h IH]; intros [|i] [|j] Hj Hne Hi;
    simplify_eq/=; try lia.
  - by apply insert_head_perm.
  - apply insert_exchange_perm. lia.
  - f_equiv. apply IH; [done|lia|lia].
Qed.

Lemma _siftdown_loop_perm fuel (heap : list A) startpos pos newitem :
  (pos < length heap)%nat →
  _siftdown_loop lt fuel heap startpos pos newitem ≡ₚ <[pos := newitem]> heap.
Proof.
  revert heap pos.
  induction fuel as [|fuel IH]; intros heap pos Hpos; cbn [_siftdown_loop];
    [done|].
  destruct (startpos <? pos)%nat eqn:Hlt; [|done].
  apply Nat.ltb_lt in Hlt.
  destruct (heap !! ((pos - 1) / 2)%nat) as [par|] eqn:Hpar; [|done].
  destruct (lt newitem par); [|done].
  assert ((pos - 1) / 2 < pos)%nat as Hpp.
  { apply Nat.Div0.div_lt_upper_bound. lia. }
  rewrite IH.
  - apply insert_swap_perm; [done|lia|done].
  - rewrite length_insert. lia.
Qed.

Lemma _siftdown_perm (heap : list A) startpos pos :
  _siftdown lt heap startpos pos ≡ₚ heap.
Proof.
  unfold _siftdown. destruct (heap !! pos) as [x|] eqn:H; [|done].
  rewrite _siftdown_loop_perm by (by eapply lookup_lt_Some).
  by rewrite list_insert_id.
Qed.

Lemma _siftup_loop_perm fuel (heap : list A) endpos pos newitem :
  (pos < length heap)%nat →
  <[snd (_siftup_loop lt fuel heap endpos pos) := newitem]>
    (fst (_siftup_loop lt fuel heap endpos pos)) ≡ₚ <[pos := newitem]> heap.
Proof.
  revert heap pos.
  induction fuel as [|fuel IH]; intros heap pos Hpos; cbn [_siftup_loop];
    [done|].
  destruct (2 * pos + 1 <? endpos)%nat; [|done].
  set (cp := if (2 * pos + 1 + 1 <? endpos)%nat then _ else _).
  assert (pos ≠ cp) as Hne.
  { unfold cp. destruct (_ <? _)%nat; [|lia].
    destruct (heap !! _); [|lia]. destruct (heap !! _); [|lia].
    destruct (lt _ _); lia. }
  clearbody cp.
  destruct (heap !! cp) as [c|] eqn:Hc; [|done].
  simpl. rewrite IH.
  - apply insert_swap_perm; [done|lia|done].
  - rewrite length_insert. by eapply lookup_lt_Some.
Qed.

Lemma _siftup_perm (heap : list A) pos : _siftup lt heap pos ≡ₚ heap.
Proof.
  unfold _siftup. destruct (heap !! pos) as [x|] eqn:H; [|done].
  pose proof (_siftup_loop_perm (length heap) heap (length heap) pos x
                (lookup_lt_Some _ _ _ H)) as Hp.
  destruct (_siftup_loop _ _ _ _ _) as [h' p']. simpl in Hp.
  rewrite _siftdown_perm, Hp. by rewrite list_insert_id.
Qed.

Lemma heappush_perm (heap : list A) item : heappush lt heap item ≡ₚ item :: heap.
Proof.
  unfold heappush. rewrite _siftdown_perm. by rewrite Permutation_app_comm.
Qed.

Lemma heappop_perm (heap heap' : list A) x :
  heappop lt heap = Some (x, heap') → heap ≡ₚ x :: heap'.
Proof.
  unfold heappop. destruct (list_pop heap) as [[lastelt h]|] eqn:E; [|done].
  apply list_pop_Some in E as ->. destruct h as [|r h].
  - by intros [= <- <-].
  - intros [= <- <-]. rewrite _siftup_perm. simpl.
    f_equiv. by rewrite Permutation_app_comm.
Qed.

Lemma heappop_is_Some (heap : list A) :
  heap ≠ [] → is_Some (heappop lt heap).
Proof.
  intros H. unfold heappop. destruct (list_pop heap) as [[lastelt h]|] eqn:E.
  - destruct h; eauto.
  - by apply list_pop_None in E.
Qed.

Lemma heapify_perm (x : list A) : heapify lt x ≡ₚ x.
Proof.
  unfold heapify. generalize (length x / 2)%nat as i. intros i. revert x.
  induction i as [|i IH]; intros x; simpl; [done|].
  by rewrite IH, _siftup_perm.
Qed.

End heapq_perm.

Lemma Forall2_impl_elem {A B} (P Q : A → B → Prop) l k :
  Forall2 P l k → (∀ x y, x ∈ l → y ∈ k → P x y → Q x y) → Forall2 Q l k.
Proof.
  induction 1 as [|x y l k Hxy _ IH]; intros H; constructor.
  - apply H; [apply list_elem_of_here..|done].
  - apply IH. intros ????. apply H; by apply list_elem_of_further.
Qed.

(** ** Shapes *)

Lemma shape_ind (P : shape → Prop) :
  (∀ n kids, Forall P kids → P (Sh n kids)) → ∀ t, P t.
Proof.
  intros H. fix IH 1. intros [n kids]. apply H.
  induction kids as [|k kids IHk]; constructor; [apply IH|apply IHk].
Qed.

Lemma sh_id_in_ids t : sh_id t ∈ ids t.
Proof. destruct t; simpl; apply list_elem_of_here. Qed.

Lemma elem_of_flat_map {A B} (f : A → list B) (l : list A) (x : B) :
  x ∈ flat_map f l ↔ ∃ a, a ∈ l ∧ x ∈ f a.
Proof.
  setoid_rewrite list_elem_of_In. apply in_flat_map.
Qed.

Lemma elem_of_flat_map_ids x (kids : list shape) :
  x ∈ flat_map ids kids ↔ ∃ k, k ∈ kids ∧ x ∈ ids k.
Proof. apply elem_of_flat_map. Qed.

Lemma depth_le_ids t : (depth t ≤ length (ids t))%nat.
Proof.
  induction t as [n kids IH] using shape_ind. simpl.
  apply le_n_S. induction IH as [|k kids Hk _ IHk]; simpl; [done|].
  rewrite length_app. lia.
Qed.

Lemma depth_kid k n kids : k ∈ kids → (depth k < depth (Sh n kids))%nat.
Proof.
  intros Hk. simpl. apply Nat.lt_succ_r.
  apply max_list_elem_of_le. apply list_elem_of_fmap. eauto.
Qed.

Lemma NoDup_bound_length (l : list nat) (n : nat) :
  NoDup l → (∀ x, x ∈ l → (x < n)%nat) → (length l ≤ n)%nat.
Proof.
  intros Hnd Hb. transitivity (length (seq 0 n)); [|by rewrite length_seq].
  apply submseteq_length.
  apply NoDup_submseteq; [done|]. intros x Hx. apply elem_of_seq.
  specialize (Hb x Hx). lia.
Qed.

Lemma sumZ_app {A} (f : A → Z) l1 l2 : sumZ f (l1 ++ l2) = sumZ f l1 + sumZ f l2.
Proof. induction l1 as [|a l1 IH]; simpl; [done|]. rewrite IH. lia. Qed.

Lemma sumZ_perm {A} (f : A → Z) l1 l2 : l1 ≡ₚ l2 → sumZ f l1 = sumZ f l2.
Proof.
  induction 1; simpl; lia.
Qed.

Lemma sumZ_ext {A} (f g : A → Z) l :
  (∀ x, x ∈ l → f x = g x) → sumZ f l = sumZ g l.
Proof.
  induction l as [|a l IH]; intros H; simpl; [done|].
  rewrite H by apply list_elem_of_here. rewrite IH; [done|].
  intros x Hx. apply H. by apply list_elem_of_further.
Qed.

Lemma sumZ_flat_map {A B} (f : B → Z) (g : A → list B) l :
  sumZ f (flat_map g l) = sumZ (fun a => sumZ f (g a)) l.
Proof.
  induction l as [|a l IH]; simpl; [done|]. by rewrite sumZ_app, IH.
Qed.

(** ** Trees in the store *)

Lemma tree_at_inv st p n kids :
  tree_at st p (Sh n kids) →
  ∃ nd, st !! n = Some nd ∧ parent nd = p ∧ NoDup (map fst (children nd)) ∧
        Forall2 (kid_ok st) (children nd) kids ∧
        Forall (tree_at st (Some n)) kids.
Proof. inversion 1; subst. eauto 10. Qed.

Lemma tree_at_top st p t : tree_at st p t → is_Some (st !! sh_id t).
Proof. destruct t. intros (nd & ? & _)%tree_at_inv. simpl. eauto. Qed.

Lemma tree_at_bound st p t n : tree_at st p t → n ∈ ids t → (n < length st)%nat.
Proof.
  revert p. induction t as [m kids IH] using shape_ind. intros p Ht Hn.
  apply tree_at_inv in Ht as (nd & Hnd & _ & _ & _ & Hk).
  simpl in Hn. apply elem_of_cons in Hn as [->|Hn].
  - by eapply lookup_lt_Some.
  - apply elem_of_flat_map_ids in Hn as (k & Hk1 & Hk2).
    rewrite Forall_forall in IH, Hk. eapply IH; eauto.
Qed.

Lemma tree_at_ext st st' p t :
  (∀ m, m ∈ ids t → skel <$> st' !! m = skel <$> st !! m) →
  tree_at st p t → tree_at st' p t.
Proof.
  revert p. induction t as [n kids IH] using shape_ind. intros p Hext Ht.
  apply tree_at_inv in Ht as (nd & Hnd & Hp & Hdup & Hkids & Hsub).
  pose proof (Hext n (sh_id_in_ids (Sh n kids))) as Hn. rewrite Hnd in Hn.
  destruct (st' !! n) as [nd'|] eqn:Hnd'; [|done].
  injection Hn as Hc Hpar Hkey Hval.
  econstructor; [done|congruence|by rewrite Hc| |].
  - rewrite Hc. eapply Forall2_impl_elem; [apply Hkids|]. intros e k He Hk.
    intros [Hid (knd & Hknd & Hh & Hl)]. split; [done|].
    assert (e.2 ∈ ids (Sh n kids)) as Hin.
    { simpl. apply list_elem_of_further, elem_of_flat_map_ids.
      exists k. split; [done|]. rewrite Hid. apply sh_id_in_ids. }
    specialize (Hext _ Hin). rewrite Hknd in Hext.
    destruct (st' !! e.2) as [knd'|]; [|done]. injection Hext as ? ? Hk' Hv'.
    exists knd'. by rewrite Hk', Hv'.
  - rewrite Forall_forall in IH, Hsub |- *. intros k Hk. apply IH; [done| |auto].
    intros m Hm. apply Hext. simpl.
    apply list_elem_of_further, elem_of_flat_map_ids. eauto.
Qed.

Lemma flat_map_Forall2 {A B C} (f : A → list C) (g : B → list C) l k :
  Forall2 (fun a b => f a = g b) l k → flat_map f l = flat_map g k.
Proof. induction 1; simpl; congruence. Qed.

Lemma kid_ok_ids st (d : dict node_id) kids :
  Forall2 (kid_ok st) d kids → map snd d = map sh_id kids.
Proof. induction 1 as [|e k d kids [H _] _ IH]; simpl; congruence. Qed.

Lemma subtree_nodes_ids st p t fuel :
  tree_at st p t → (depth t ≤ fuel)%nat →
  subtree_nodes fuel st (sh_id t) = ids t.
Proof.
  revert p fuel. induction t as [n kids IH] using shape_ind.
  intros p fuel Ht Hd. destruct fuel as [|fuel]; [simpl in Hd; lia|].
  apply tree_at_inv in Ht as (nd & Hnd & _ & _ & Hkids & Hsub).
  simpl. rewrite Hnd. f_equal. apply flat_map_Forall2.
  eapply Forall2_impl_elem; [apply Hkids|]. intros e k _ Hk [-> _].
  rewrite Forall_forall in IH, Hsub. eapply IH; [done|eauto|].
  pose proof (depth_kid k n kids Hk). lia.
Qed.

Lemma ids_length_bound st p t :
  tree_at st p t → NoDup (ids t) → (length (ids t) ≤ length st)%nat.
Proof.
  intros Ht Hnd. apply NoDup_bound_length; [done|].
  intros x Hx. by eapply tree_at_bound.
Qed.

Lemma tree_nodes_ids s t : good s t → tree_nodes s = ids t.
Proof.
  intros (Hid & Ht & Hnd & _). unfold tree_nodes. rewrite <- Hid.
  eapply subtree_nodes_ids; [done|].
  pose proof (depth_le_ids t). pose proof (ids_length_bound _ _ _ Ht Hnd). lia.
Qed.

Lemma fold_total_kids (F : node_id → outcome Z) (G : shape → Z) kids a :
  (∀ k, k ∈ kids → F (sh_id k) = Ok (G k)) →
  fold_left (fun x child => let* x := x in let* y := F child in Ok (x + y))
    (map sh_id kids) (Ok a) = Ok (a + sumZ G kids).
Proof.
  revert a. induction kids as [|k kids IH]; intros a H; simpl.
  - f_equal. lia.
  - rewrite H by apply list_elem_of_here. simpl. rewrite IH.
    + f_equal. lia.
    + intros k' Hk'. apply H. by apply list_elem_of_further.
Qed.

Lemma _total_size_helper_ids s p t fuel :
  tree_at (objs s) p t → (depth t ≤ fuel)%nat →
  _total_size_helper fuel s (sh_id t) = Ok (total_values (objs s) (ids t)).
Proof.
  revert p fuel. induction t as [n kids IH] using shape_ind.
  intros p fuel Ht Hd. destruct fuel as [|fuel]; [simpl in Hd; lia|].
  apply tree_at_inv in Ht as (nd & Hnd & _ & _ & Hkids & Hsub).
  simpl. unfold get_node. rewrite Hnd. simpl.
  unfold dict_values. rewrite (kid_ok_ids _ _ _ Hkids).
  rewrite (fold_total_kids _ (fun k => total_values (objs s) (ids k))).
  - f_equal. unfold total_values. simpl. rewrite sumZ_flat_map.
    f_equal. unfold value_of. by rewrite Hnd.
  - intros k Hk. rewrite Forall_forall in IH, Hsub. eapply IH; [done|eauto|].
    pose proof (depth_kid k n kids Hk). lia.
Qed.

Lemma total_size_ids s t :
  good s t → total_size s = Ok (total_values (objs s) (ids t)).
Proof.
  intros (Hid & Ht & Hnd & _). unfold total_size. rewrite <- Hid.
  eapply _total_size_helper_ids; [done|].
  pose proof (depth_le_ids t). pose proof (ids_length_bound _ _ _ Ht Hnd). lia.
Qed.

Lemma sh_leaves_leaf n : sh_leaves (Sh n []) = [n].
Proof. done. Qed.

Lemma sh_leaves_node n k kids :
  sh_leaves (Sh n (k :: kids)) = flat_map sh_leaves (k :: kids).
Proof. done. Qed.

Lemma _collect_leaves_loop_ok s fuel (stack : list shape) ret :
  Forall (fun t => ∃ p, tree_at (objs s) p t) stack →
  (length (flat_map ids stack) ≤ fuel)%nat →
  ∃ ret', _collect_leaves_loop fuel s (map sh_id stack) ret = Ok ret' ∧
          ret' ≡ₚ ret ++ flat_map sh_leaves stack.
Proof.
  revert stack ret. induction fuel as [|fuel IH]; intros stack ret Hst Hlen.
  - destruct stack as [|[n kids] stack]; [|simpl in Hlen; lia].
    exists ret. split; [done|]. simpl. by rewrite app_nil_r.
  - destruct stack as [|t0 stack0] using rev_ind.
    { exists ret. split; [done|]. simpl. by rewrite app_nil_r. }
    clear IHstack0. destruct t0 as [n kids].
    rewrite map_app. cbn [map sh_id]. cbn [_collect_leaves_loop].
    rewrite list_pop_snoc.
    apply Forall_app in Hst as [Hst Ht]. apply Forall_singleton in Ht as [p Ht].
    apply tree_at_inv in Ht as (nd & Hnd & _ & _ & Hkids & Hsub).
    unfold get_node. rewrite Hnd. simpl.
    rewrite !flat_map_app, !length_app in Hlen. simpl in Hlen.
    rewrite app_nil_r in Hlen.
    pose proof (Forall2_length _ _ _ Hkids) as Hl.
    destruct kids as [|k kids].
    + destruct (children nd); [|done]. simpl.
      destruct (IH stack0 (ret ++ [n])) as (ret' & -> & Hp); [done|lia|].
      exists ret'. split; [done|]. rewrite Hp, flat_map_app. simpl.
      rewrite <- !app_assoc. f_equiv. apply Permutation_app_comm.
    + destruct (children nd) as [|e d] eqn:Hd; [done|].
      cbn [length Nat.eqb]. unfold dict_values.
      rewrite (kid_ok_ids _ _ _ Hkids), <- map_app.
      destruct (IH (stack0 ++ k :: kids) ret) as (ret' & -> & Hp).
      * apply Forall_app. split; [done|].
        eapply Forall_impl; [apply Hsub|]. eauto.
      * rewrite flat_map_app, length_app. lia.
      * exists ret'. split; [done|]. rewrite Hp, !flat_map_app.
        cbn [flat_map]. by rewrite sh_leaves_node, app_nil_r.
Qed.

Lemma _collect_leaves_ok s t :
  good s t → ∃ l, _collect_leaves s = Ok l ∧ l ≡ₚ sh_leaves t.
Proof.
  intros (Hid & Ht & Hnd & _). unfold _collect_leaves. rewrite <- Hid.
  destruct (_collect_leaves_loop_ok s (length (objs s)) [t] []) as (l & H & Hp).
  - repeat constructor. eauto.
  - simpl. rewrite app_nil_r. by eapply ids_length_bound.
  - exists l. split; [done|]. rewrite Hp. simpl. by rewrite app_nil_r.
Qed.

(** ** Dictionaries *)

Lemma dict_get_None {V} (d : dict V) k :
  dict_get d k = None ↔ k ∉ map fst d.
Proof.
  induction d as [|[k' v] d IH]; simpl.
  - split; [intros _; apply not_elem_of_nil|done].
  - rewrite not_elem_of_cons. destruct (Z.eqb_spec k' k) as [->|Hne].
    + split; [done|]. by intros [? _].
    + rewrite IH. split; [intros H; split; [congruence|done]|by intros [_ ?]].
Qed.

Lemma dict_set_None {V} (d : dict V) k v :
  dict_get d k = None → dict_set d k v = d ++ [(k, v)].
Proof.
  induction d as [|[k' v'] d IH]; simpl; [done|].
  destruct (Z.eqb k' k); [done|]. intros H. by rewrite IH.
Qed.

Lemma dict_get_Some {V} (d : dict V) k v :
  dict_get d k = Some v →
  ∃ d1 d2, d = d1 ++ (k, v) :: d2 ∧ (k ∉ map fst d1) ∧
           ∀ v', dict_set d k v' = d1 ++ (k, v') :: d2.
Proof.
  induction d as [|[k' v0] d IH]; simpl; [done|].
  destruct (Z.eqb_spec k' k) as [->|Hne].
  - intros [= ->]. exists [], d. split; [done|].
    split; [apply not_elem_of_nil|done].
  - intros (d1 & d2 & -> & Hk & Hset)%IH. exists ((k', v0) :: d1), d2.
    split; [done|]. split.
    + simpl. rewrite not_elem_of_cons. done.
    + intros v'. simpl. by rewrite Hset.
Qed.

Lemma find_key_split (d1 d2 : dict node_id) k x :
  x ∉ map snd d1 → find_key (d1 ++ (k, x) :: d2) x = Some k.
Proof.
  induction d1 as [|[k' v] d1 IH]; simpl.
  - intros _. by rewrite Nat.eqb_refl.
  - rewrite not_elem_of_cons. intros [Hne H].
    destruct (Nat.eqb_spec v x); [congruence|]. by rewrite IH.
Qed.

Lemma dict_del_split {V} (d1 d2 : dict V) k v :
  k ∉ map fst d1 → dict_del (d1 ++ (k, v) :: d2) k = d1 ++ d2.
Proof.
  induction d1 as [|[k' v'] d1 IH]; simpl.
  - intros _. by rewrite Z.eqb_refl.
  - rewrite not_elem_of_cons. intros [Hne H].
    destruct (Z.eqb_spec k' k); [congruence|]. by rewrite IH.
Qed.

(** ** Local changes of a subtree *)

Lemma weight_frame st st' m : st' !! m = st !! m → weight st' m = weight st m.
Proof. unfold weight, lock_of, value_of. by intros ->. Qed.

Lemma value_of_frame st st' m :
  st' !! m = st !! m → value_of st' m = value_of st m.
Proof. unfold value_of. by intros ->. Qed.

Lemma lock_of_frame st st' m :
  st' !! m = st !! m → lock_of st' m = lock_of st m.
Proof. unfold lock_of. by intros ->. Qed.

Lemma grow_refl st p t : tree_at st p t → NoDup (ids t) → grow st p t st t 0 0.
Proof.
  intros Ht Hnd. destruct (tree_at_top _ _ _ Ht) as [nd Hnd'].
  split; eauto 10; try lia.
Qed.

Lemma grow_trans st p t st1 t1 st2 t2 a b c d :
  grow st p t st1 t1 a b → grow st1 p t1 st2 t2 c d →
  grow st p t st2 t2 (a + c) (b + d).
Proof.
  intros [] []. split; try congruence; try lia; auto.
  - intros m Hm. destruct (grow_fresh1 m Hm) as [?|?]; [auto|right; lia].
  - intros m Hlt Hm. rewrite grow_frame1; [auto|lia|].
    intros [?|?]%grow_fresh0; [done|lia].
  - intros m nd (nd1 & H1 & <-)%grow_lock0. by apply grow_lock1.
  - destruct grow_top0 as (nd & nd1 & H1 & H2 & H3 & H4).
    destruct grow_top1 as (nd1' & nd2 & H5 & H6 & H7 & H8).
    rewrite grow_id0 in H5, H6. exists nd, nd2. simplify_eq. split_and!; congruence.
Qed.

Lemma NoDup_replace_middle (A B B' C : list nat) :
  NoDup (A ++ B ++ C) → NoDup B' →
  (∀ x, x ∈ B' → x ∈ B ∨ ((x ∉ A) ∧ (x ∉ C))) →
  NoDup (A ++ B' ++ C).
Proof.
  rewrite !NoDup_app. intros (HA & HAB & HB & HBC & HC) HB' Hx.
  split_and!; try done.
  - intros x HxA [HxB|HxC]%elem_of_app.
    + destruct (Hx x HxB) as [?|[? _]]; [|done].
      apply (HAB x HxA). apply elem_of_app. auto.
    + apply (HAB x HxA). apply elem_of_app. auto.
  - intros x HxB HxC. destruct (Hx x HxB) as [?|[_ ?]]; [|done].
    by apply (HBC x).
Qed.

Lemma ids_split n ks1 k ks2 :
  ids (Sh n (ks1 ++ k :: ks2)) =
  n :: flat_map ids ks1 ++ ids k ++ flat_map ids ks2.
Proof. simpl. by rewrite flat_map_app. Qed.

Lemma grow_kid st p n ks1 k ks2 st' k' dw dv :
  tree_at st p (Sh n (ks1 ++ k :: ks2)) →
  NoDup (ids (Sh n (ks1 ++ k :: ks2))) →
  grow st (Some n) k st' k' dw dv →
  grow st p (Sh n (ks1 ++ k :: ks2)) st' (Sh n (ks1 ++ k' :: ks2)) dw dv.
Proof.
  intros Ht Hnd G. pose proof Ht as Ht0.
  apply tree_at_inv in Ht as (nd & Hn & Hp & Hdup & Hkids & Hsub).
  rewrite ids_split in Hnd. apply NoDup_cons in Hnd as [Hn_out Hnd].
  assert (∀ m, m = n ∨ m ∈ flat_map ids ks1 ∨ m ∈ flat_map ids ks2 →
               st' !! m = st !! m ∧ (m < length st)%nat ∧ m ∉ ids k)
    as Hout.
  { intros m Hm.
    assert (m ∈ ids (Sh n (ks1 ++ k :: ks2))) as Hin.
    { rewrite ids_split. rewrite elem_of_cons, !elem_of_app. tauto. }
    pose proof (tree_at_bound _ _ _ _ Ht0 Hin) as Hlt.
    assert (m ∉ ids k) as Hnk.
    { intros Hk. destruct Hm as [->|[Hm|Hm]].
      - apply Hn_out. rewrite !elem_of_app. auto.
      - apply NoDup_app in Hnd as (_ & Hd & _). apply (Hd m Hm).
        rewrite elem_of_app. auto.
      - apply NoDup_app in Hnd as (_ & _ & Hd).
        apply NoDup_app in Hd as (_ & Hd & _). by apply (Hd m). }
    split_and!; [|done..]. by apply (grow_frame _ _ _ _ _ _ _ G). }
  apply Forall2_app_inv_r in Hkids as (d1 & d2' & Hk1 & Hk2 & Hd).
  apply Forall2_cons_inv_r in Hk2 as (e & d2 & He & Hk2 & ->).
  apply Forall_app in Hsub as [Hs1 Hs2]. apply Forall_cons in Hs2 as [Hsk Hs2].
  destruct (Hout n) as (Hn' & Hnlt & Hnk); [auto|]. rewrite Hn in Hn'.
  assert (∀ d ks, Forall2 (kid_ok st) d ks →
            (∀ m, m ∈ flat_map ids ks → st' !! m = st !! m) →
            Forall2 (kid_ok st') d ks) as Hkid_ext.
  { intros d ks Hf Hm. eapply Forall2_impl_elem; [apply Hf|].
    intros e0 k0 _ Hk0 [Hid (knd & Hknd & Hh & Hl)]. split; [done|].
    exists knd. split_and!; [|done..]. rewrite Hm; [done|].
    apply elem_of_flat_map_ids. exists k0. split; [done|].
    rewrite Hid. apply sh_id_in_ids. }
  assert (∀ ks, Forall (tree_at st (Some n)) ks →
            (∀ m, m ∈ flat_map ids ks → st' !! m = st !! m) →
            Forall (tree_at st' (Some n)) ks) as Htree_ext.
  { intros ks Hf Hm. rewrite Forall_forall in Hf |- *. intros k0 Hk0.
    eapply tree_at_ext; [|by apply Hf]. intros m Hm'. rewrite Hm; [done|].
    apply elem_of_flat_map_ids. eauto. }
  assert (∀ m, m ∈ ids k' → m ∉ n :: flat_map ids ks1 ++ flat_map ids ks2 ∨
                             m ∈ ids k) as Hk'.
  { intros m Hm. destruct (grow_fresh _ _ _ _ _ _ _ G m Hm) as [?|Hge]; [auto|].
    left. rewrite elem_of_cons, elem_of_app. intros Hc.
    destruct (Hout m) as (_ & ? & _); [tauto|lia]. }
  split.
  - done.
  - econstructor; [exact Hn'|done|done| |].
    + rewrite Hd.
      apply Forall2_app; [apply Hkid_ext; [done|]; intros; apply Hout; auto|].
      constructor; [|apply Hkid_ext; [done|]; intros; apply Hout; auto].
      destruct He as [Hid (knd & Hknd & Hh & Hl)].
      destruct (grow_top _ _ _ _ _ _ _ G) as (nd0 & nd1 & H0 & H1 & Hk & Hv).
      split; [by rewrite (grow_id _ _ _ _ _ _ _ G)|].
      rewrite Hid in *. simplify_eq. exists nd1. split_and!; congruence.
    + apply Forall_app. split; [apply Htree_ext; [done|]; intros; apply Hout; auto|].
      constructor; [apply G|apply Htree_ext; [done|]; intros; apply Hout; auto].
  - rewrite ids_split. apply NoDup_cons. split.
    + rewrite !elem_of_app. intros [H|[H|H]].
      * destruct (Hout n) as (_ & _ & ?); [auto|].
        apply Hn_out. rewrite !elem_of_app. auto.
      * destruct (Hk' n H) as [Hc|Hc]; [|done].
        apply Hc, list_elem_of_here.
      * apply Hn_out. rewrite !elem_of_app. auto.
    + eapply NoDup_replace_middle; [done|apply G|].
      intros x Hx. destruct (Hk' x Hx) as [Hc|?]; [right|by left].
      rewrite not_elem_of_cons, not_elem_of_app in Hc. tauto.
  - apply G.
  - intros m. rewrite !ids_split, !elem_of_cons, !elem_of_app.
    intros [?|[?|[Hm|?]]]; try tauto.
    destruct (grow_fresh _ _ _ _ _ _ _ G m Hm); tauto.
  - intros m. rewrite !ids_split, !elem_of_cons, !elem_of_app.
    intros [?|[?|[Hm|?]]]; try tauto.
    pose proof (grow_keep _ _ _ _ _ _ _ G m Hm). tauto.
  - intros m Hlt Hm. apply (grow_frame _ _ _ _ _ _ _ G); [done|].
    intros Hc. apply Hm. rewrite ids_split, elem_of_cons, !elem_of_app. tauto.
  - apply G.
  - intros Hl m. rewrite ids_split, elem_of_cons, !elem_of_app.
    assert (∀ m, m = n ∨ m ∈ flat_map ids ks1 ∨ m ∈ flat_map ids ks2 →
                 0 ≤ lock_of st' m) as Hl'.
    { intros m' Hm'. destruct (Hout m' Hm') as (Heq & _ & _).
      rewrite (lock_of_frame _ _ _ Heq). apply Hl.
      rewrite ids_split, elem_of_cons, !elem_of_app. tauto. }
    intros [?|[?|[Hm|?]]]; [apply Hl'; tauto..| |apply Hl'; tauto].
    apply (grow_lock_ok _ _ _ _ _ _ _ G); [|done].
    intros m' Hm'. apply Hl. rewrite ids_split, elem_of_cons, !elem_of_app. tauto.
  - simpl. eauto 10.
  - rewrite !ids_split. simpl. rewrite !sumZ_app.
    rewrite (grow_weight _ _ _ _ _ _ _ G).
    rewrite (weight_frame st st' n) by (apply Hout; auto).
    rewrite (sumZ_ext (weight st') (weight st) (flat_map ids ks1))
      by (intros; apply weight_frame, Hout; auto).
    rewrite (sumZ_ext (weight st') (weight st) (flat_map ids ks2))
      by (intros; apply weight_frame, Hout; auto).
    lia.
  - unfold total_values. rewrite !ids_split. simpl. rewrite !sumZ_app.
    pose proof (grow_values _ _ _ _ _ _ _ G) as Hv. unfold total_values in Hv.
    rewrite Hv.
    rewrite (value_of_frame st st' n) by (apply Hout; auto).
    rewrite (sumZ_ext (fun m => len (value_of st' m))
               (fun m => len (value_of st m)) (flat_map ids ks1))
      by (intros; f_equal; apply value_of_frame, Hout; auto).
    rewrite (sumZ_ext (fun m => len (value_of st' m))
               (fun m => len (value_of st m)) (flat_map ids ks2))
      by (intros; f_equal; apply value_of_frame, Hout; auto).
    lia.
Qed.

Lemma same_cache_refl s : same_cache s s.
Proof. by repeat split. Qed.

Lemma same_cache_trans s1 s2 s3 :
  same_cache s1 s2 → same_cache s2 s3 → same_cache s1 s3.
Proof. unfold same_cache. intros (?&?&?&?&?) (?&?&?&?&?). split_and!; congruence. Qed.

Lemma grow_same st p t st' :
  tree_at st p t → NoDup (ids t) → length st' = length st →
  (∀ m, m ∉ ids t → st' !! m = st !! m) →
  (∀ m nd, st !! m = Some nd →
     ∃ nd', st' !! m = Some nd' ∧ skel nd' = skel nd ∧
            lock_ref nd' = lock_ref nd) →
  grow st p t st' t 0 0.
Proof.
  intros Ht Hnd Hlen Hframe Hsame.
  assert (∀ m, weight st' m = weight st m ∧ value_of st' m = value_of st m
               ∧ lock_of st' m = lock_of st m
               ∧ skel <$> st' !! m = skel <$> st !! m) as Heq.
  { intros m. unfold weight, lock_of, value_of.
    destruct (st !! m) as [nd|] eqn:E.
    - destruct (Hsame m nd E) as (nd' & -> & Hsk & Hl).
      pose proof Hsk as [= _ _ _ Hv]. simpl. by rewrite Hl, Hv, Hsk.
    - assert (st' !! m = None) as ->; [|done].
      apply lookup_ge_None. apply lookup_ge_None in E. lia. }
  split; auto; try lia.
  - eapply tree_at_ext; [|done]. intros m _. apply Heq.
  - intros m nd Hm. destruct (Hsame m nd Hm) as (nd' & ? & _ & ?). eauto.
  - intros Hl m Hm. destruct (Heq m) as (_ & _ & -> & _). auto.
  - destruct (tree_at_top _ _ _ Ht) as [nd Hn].
    destruct (Hsame _ nd Hn) as (nd' & Hn' & Hsk & _).
    injection Hsk as _ _ Hk Hv. eauto 10.
  - rewrite Z.add_0_r. apply sumZ_ext. intros. apply Heq.
  - rewrite Z.add_0_r. apply sumZ_ext. intros m _.
    destruct (Heq m) as (_ & -> & _). done.
Qed.

Section local.
Variable clock : nat → Z.

Lemma touch_grow s p t :
  tree_at (objs s) p t → NoDup (ids t) →
  ∃ s', touch clock s (sh_id t) = Ok s' ∧
        grow (objs s) p t (objs s') t 0 0 ∧
        evictable_size_ s' = evictable_size_ s ∧ same_cache s s'.
Proof.
  intros Ht Hnd. destruct (tree_at_top _ _ _ Ht) as [nd Hn].
  unfold touch, get_node. simpl. rewrite Hn. simpl.
  eexists. split; [done|]. simpl. split_and!; [|done|by repeat split].
  apply grow_same; [done|done|by rewrite length_insert| |].
  - intros m Hm. apply list_lookup_insert_ne. intros <-.
    apply Hm, sh_id_in_ids.
  - intros m nd0 Hm. destruct (decide (m = sh_id t)) as [->|Hne].
    + rewrite list_lookup_insert_eq by (by eapply lookup_lt_Some).
      simplify_eq. eauto.
    + rewrite list_lookup_insert_ne by done. eauto.
Qed.

End local.

Lemma ids_snoc n kids k :
  ids (Sh n (kids ++ [k])) = n :: flat_map ids kids ++ ids k.
Proof. simpl. by rewrite flat_map_app; simpl; rewrite app_nil_r. Qed.

Lemma grow_add_leaf st p n kids nd k0 key0 value0 now :
  tree_at st p (Sh n kids) → NoDup (ids (Sh n kids)) →
  st !! n = Some nd → dict_get (children nd) k0 = None →
  head key0 = Some k0 → length key0 = length value0 →
  grow st p (Sh n kids)
    (<[n := set_children (dict_set (children nd) k0 (length st)) nd]>
       (st ++ [mkTreeNode [] (Some n) key0 value0 0 now 0]))
    (Sh n (kids ++ [Sh (length st) []])) (len value0) (len value0).
Proof.
  intros Ht Hnd Hn Hget Hhd Hlen.
  set (leaf := mkTreeNode [] (Some n) key0 value0 0 now 0).
  set (nd' := set_children _ nd). set (st' := <[n := nd']> (st ++ [leaf])).
  pose proof (lookup_lt_Some _ _ _ Hn) as Hnlt.
  assert (st' !! n = Some nd') as Hn'.
  { apply list_lookup_insert_eq. rewrite length_app. lia. }
  assert (st' !! length st = Some leaf) as Hnew.
  { unfold st'. rewrite list_lookup_insert_ne by lia.
    rewrite lookup_app_r by lia. by rewrite Nat.sub_diag. }
  assert (∀ m, m ≠ n → (m < length st)%nat → st' !! m = st !! m) as Hfr.
  { intros m Hne Hlt. unfold st'. rewrite list_lookup_insert_ne by done.
    by apply lookup_app_l. }
  assert (∀ m, m ∈ flat_map ids kids →
               st' !! m = st !! m ∧ (m < length st)%nat) as Hold.
  { intros m Hm.
    assert (m ∈ ids (Sh n kids)) as Hin by (by apply list_elem_of_further).
    pose proof (tree_at_bound _ _ _ _ Ht Hin). split; [|done].
    apply Hfr; [|done]. intros ->. by apply NoDup_cons in Hnd as [? _]. }
  apply tree_at_inv in Ht as (nd0 & Hn0 & Hp & Hdup & Hkids & Hsub).
  simplify_eq.
  assert (children nd' = children nd0 ++ [(k0, length st)]) as Hch.
  { unfold nd'. simpl. by apply dict_set_None. }
  split.
  - done.
  - econstructor; [exact Hn'|done| |rewrite Hch|].
    + rewrite Hch, map_app. apply NoDup_app. split_and!; [done| |].
      * intros x Hx Hx'. simpl in Hx'. apply list_elem_of_singleton in Hx' as ->.
        by apply dict_get_None in Hget.
      * apply NoDup_singleton.
    + apply Forall2_app.
      * eapply Forall2_impl_elem; [apply Hkids|].
        intros e k _ Hk [Hid (knd & Hknd & Hh & Hl)]. split; [done|].
        exists knd. split_and!; [|done..]. destruct (Hold e.2) as [-> _]; [|done].
        apply elem_of_flat_map_ids. exists k. split; [done|].
        rewrite Hid. apply sh_id_in_ids.
      * constructor; [|constructor]. split; [done|]. exists leaf. done.
    + apply Forall_app. split.
      * rewrite Forall_forall in Hsub |- *. intros k Hk.
        eapply tree_at_ext; [|by apply Hsub]. intros m Hm.
        destruct (Hold m) as [-> _]; [|done].
        apply elem_of_flat_map_ids. eauto.
      * repeat constructor. econstructor; [exact Hnew|done|constructor..].
  - rewrite ids_snoc. simpl. apply NoDup_cons. simpl in Hnd.
    apply NoDup_cons in Hnd as [Hn_out Hnd]. split.
    + rewrite elem_of_app, list_elem_of_singleton. intros [?|?]; [done|lia].
    + apply NoDup_app. split_and!; [done| |apply NoDup_singleton].
      intros x Hx ->%list_elem_of_singleton. destruct (Hold _ Hx). lia.
  - unfold st'. rewrite length_insert, length_app. lia.
  - intros m. rewrite ids_snoc. simpl.
    rewrite !elem_of_cons, elem_of_app, list_elem_of_singleton.
    intros [?|[?|?]]; [auto..|right; lia].
  - intros m. rewrite ids_snoc. simpl. rewrite !elem_of_cons, elem_of_app. tauto.
  - intros m Hlt Hm. apply Hfr; [|done]. intros ->. apply Hm, list_elem_of_here.
  - intros m ndm Hm. destruct (decide (m = n)) as [->|Hne].
    + simplify_eq. exists nd'. done.
    + rewrite Hfr; [eauto|done|by eapply lookup_lt_Some].
  - intros Hl m. rewrite ids_snoc. simpl.
    rewrite !elem_of_cons, elem_of_app, list_elem_of_singleton.
    intros [-> | [Hm | ->]].
    + specialize (Hl n (list_elem_of_here _ _)). unfold lock_of in *.
      by rewrite Hn', Hn0 in *.
    + destruct (Hold m Hm) as [Heq _]. rewrite (lock_of_frame _ _ _ Heq).
      apply Hl. by apply list_elem_of_further.
    + unfold lock_of. by rewrite Hnew.
  - simpl. eauto 10.
  - rewrite ids_snoc. simpl. rewrite sumZ_app. simpl.
    assert (weight st' n = weight st n) as ->.
    { unfold weight, lock_of, value_of. by rewrite Hn', Hn0. }
    rewrite (sumZ_ext (weight st') (weight st) (flat_map ids kids))
      by (intros; apply weight_frame, Hold; auto).
    assert (weight st' (length st) = len value0) as ->; [|lia].
    unfold weight, lock_of, value_of. by rewrite Hnew.
  - unfold total_values. rewrite ids_snoc. simpl. rewrite sumZ_app. simpl.
    assert (value_of st' n = value_of st n) as ->.
    { unfold value_of. by rewrite Hn', Hn0. }
    rewrite (sumZ_ext (fun m => len (value_of st' m))
               (fun m => len (value_of st m)) (flat_map ids kids))
      by (intros; f_equal; apply value_of_frame, Hold; auto).
    assert (value_of st' (length st) = value0) as ->; [|lia].
    unfold value_of. by rewrite Hnew.
Qed.

Lemma head_drop {A} (l : list A) i : head (drop i l) = l !! i.
Proof. by rewrite head_lookup, lookup_drop, Nat.add_0_r. Qed.

Lemma head_take {A} (l : list A) i : (0 < i)%nat → head (take i l) = head l.
Proof. destruct i; [lia|]. by destruct l. Qed.

Ltac in_ids :=
  rewrite ?ids_split; simpl; rewrite ?app_nil_r;
  repeat (rewrite elem_of_cons || rewrite elem_of_app || rewrite elem_of_nil);
  tauto.

Lemma grow_split st p n ks1 kc ks2 nd cnd c k0 k1 d1 d2 sl now :
  tree_at st p (Sh n (ks1 ++ Sh c kc :: ks2)) →
  NoDup (ids (Sh n (ks1 ++ Sh c kc :: ks2))) →
  st !! n = Some nd → children nd = d1 ++ (k0, c) :: d2 →
  length d1 = length ks1 →
  st !! c = Some cnd → (0 < sl < length (key cnd))%nat →
  head (drop sl (key cnd)) = Some k1 →
  grow st p (Sh n (ks1 ++ Sh c kc :: ks2))
    (<[n := set_children (d1 ++ (k0, length st) :: d2) nd]>
       (<[c := mkTreeNode (children cnd) (Some (length st))
                 (drop sl (key cnd)) (drop sl (value cnd)) (lock_ref cnd)
                 (last_access_time cnd) (ref_counter cnd)]>
          (st ++ [mkTreeNode [(k1, c)] (Some n) (take sl (key cnd))
                    (take sl (value cnd)) (lock_ref cnd) now 0])))
    (Sh n (ks1 ++ Sh (length st) [Sh c kc] :: ks2)) 0 0.
Proof.
  intros Ht Hnd Hn Hch Hlen Hc Hsl Hk1.
  set (u := length st).
  set (und := mkTreeNode [(k1, c)] _ _ _ _ now 0).
  set (cnd' := mkTreeNode (children cnd) _ _ _ _ _ _).
  set (nd' := set_children _ nd).
  set (st' := <[n := nd']> (<[c := cnd']> (st ++ [und]))).
  pose proof (lookup_lt_Some _ _ _ Hn) as Hnlt.
  pose proof (lookup_lt_Some _ _ _ Hc) as Hclt.
  pose proof Hnd as Hnd0. rewrite ids_split in Hnd.
  apply NoDup_cons in Hnd as [Hn_out Hnd].
  assert (n ≠ c) as Hnc.
  { intros ->. apply Hn_out. rewrite !elem_of_app. right. left.
    apply list_elem_of_here. }
  assert (st' !! n = Some nd') as Hn'.
  { apply list_lookup_insert_eq. rewrite length_insert, length_app. lia. }
  assert (st' !! c = Some cnd') as Hc'.
  { unfold st'. rewrite list_lookup_insert_ne by done.
    apply list_lookup_insert_eq. rewrite length_app. lia. }
  assert (st' !! u = Some und) as Hu.
  { unfold st', u. rewrite !list_lookup_insert_ne by lia.
    rewrite lookup_app_r by lia. by rewrite Nat.sub_diag. }
  assert (∀ m, m ≠ n → m ≠ c → (m < length st)%nat → st' !! m = st !! m)
    as Hfr.
  { intros m H1 H2 Hlt. unfold st'. rewrite !list_lookup_insert_ne by done.
    by apply lookup_app_l. }
  assert (∀ m, m ∈ flat_map ids ks1 ∨ m ∈ flat_map ids kc ∨
               m ∈ flat_map ids ks2 → st' !! m = st !! m) as Hold.
  { intros m Hm.
    assert (m ∈ ids (Sh n (ks1 ++ Sh c kc :: ks2))) as Hin.
    { in_ids. }
    pose proof (tree_at_bound _ _ _ _ Ht Hin).
    apply NoDup_app in Hnd as (_ & H1 & H2).
    apply NoDup_app in H2 as (H2 & H3 & _). simpl in H2.
    apply NoDup_cons in H2 as [H2 _].
    apply Hfr; [|intros ->|done].
    - intros ->. apply Hn_out. in_ids.
    - destruct Hm as [Hm|[Hm|Hm]]; [|done|].
      + apply (H1 c Hm). rewrite elem_of_app. left. apply list_elem_of_here.
      + apply (H3 c); [apply list_elem_of_here|done]. }
  assert ((u ∉ ids (Sh c kc)) ∧
          (u ∉ n :: flat_map ids ks1 ++ flat_map ids ks2)) as [Hu1 Hu2].
  { assert (∀ m, m ∈ ids (Sh n (ks1 ++ Sh c kc :: ks2)) → m ≠ u) as Hb.
    { intros m Hm. eapply tree_at_bound in Hm; [|exact Ht]. unfold u. lia. }
    split; intros Hm; eapply Hb; try done; revert Hm; in_ids. }
  apply tree_at_inv in Ht as (nd0 & Hnx & Hp & Hdup & Hkids & Hsub).
  rewrite Hn in Hnx. injection Hnx as <-. rewrite Hch in Hkids, Hdup.
  apply Forall2_app_inv in Hkids as [Hk_1 Hk_2]; [|done].
  apply Forall2_cons in Hk_2 as [[_ (cnd1 & Hc1 & Hhd & Hkv)] Hk_2].
  simpl in Hc1, Hhd. rewrite Hc in Hc1. injection Hc1 as <-.
  apply Forall_app in Hsub as [Hs1 Hs2]. apply Forall_cons in Hs2 as [Hsc Hs2].
  apply tree_at_inv in Hsc as (cnd2 & Hc2 & Hcp & Hcdup & Hckids & Hcsub).
  rewrite Hc in Hc2. injection Hc2 as <-.
  assert (∀ d ks, Forall2 (kid_ok st) d ks →
            (∀ m, m ∈ flat_map ids ks → st' !! m = st !! m) →
            Forall2 (kid_ok st') d ks) as Hkid_ext.
  { intros d ks Hf Hm. eapply Forall2_impl_elem; [apply Hf|].
    intros e0 k0' _ Hk0 [Hid (knd & Hknd & Hh & Hl)]. split; [done|].
    exists knd. split_and!; [|done..]. rewrite Hm; [done|].
    apply elem_of_flat_map_ids. exists k0'. split; [done|].
    rewrite Hid. apply sh_id_in_ids. }
  assert (∀ q ks, Forall (tree_at st q) ks →
            (∀ m, m ∈ flat_map ids ks → st' !! m = st !! m) →
            Forall (tree_at st' q) ks) as Htree_ext.
  { intros q ks Hf Hm. rewrite Forall_forall in Hf |- *. intros k0' Hk0.
    eapply tree_at_ext; [|by apply Hf]. intros m Hm'. rewrite Hm; [done|].
    apply elem_of_flat_map_ids. eauto. }
  split.
  - done.
  - econstructor; [exact Hn'|done| |simpl|].
    + simpl. rewrite map_app in *. done.
    + apply Forall2_app; [apply Hkid_ext; auto|].
      constructor; [|apply Hkid_ext; auto]. split; [done|]. exists und.
      split_and!; [done|simpl; by rewrite head_take by lia|].
      simpl. rewrite !length_take. lia.
    + apply Forall_app. split; [apply Htree_ext; auto|].
      constructor; [|apply Htree_ext; auto].
      econstructor; [exact Hu|done|simpl; apply NoDup_singleton| |].
      * simpl. repeat constructor. exists cnd'. split_and!; [done..|].
        simpl. rewrite !length_drop. lia.
      * repeat constructor.
        econstructor; [exact Hc'|done|done|apply Hkid_ext; auto|
                       apply Htree_ext; auto].
  - rewrite ids_split. apply NoDup_cons. split.
    + intros Hm.
      assert (n = u ∨ n ∈ flat_map ids ks1 ++ ids (Sh c kc) ++ flat_map ids ks2)
        as [Heq|?]; [revert Hm; in_ids| |done].
      apply Hu2. rewrite <- Heq. apply list_elem_of_here.
    + eapply NoDup_replace_middle; [exact Hnd| |].
      * simpl. rewrite app_nil_r. apply NoDup_cons. split; [done|].
        apply NoDup_app in Hnd as (_ & _ & H2).
        by apply NoDup_app in H2 as (H2 & _).
      * intros x. simpl. rewrite app_nil_r, !elem_of_cons.
        intros [->|?]; [right|auto].
        rewrite not_elem_of_cons, not_elem_of_app in Hu2. tauto.
  - unfold st'. rewrite !length_insert, length_app. lia.
  - intros m Hm.
    assert (m = u ∨ m ∈ ids (Sh n (ks1 ++ Sh c kc :: ks2))) as [->|?];
      [revert Hm; in_ids|right; unfold u; lia|by left].
  - intros m. in_ids.
  - intros m Hlt Hm. apply Hfr; [| |done]; intros ->; apply Hm.
    + apply list_elem_of_here.
    + in_ids.
  - intros m ndm Hm. destruct (decide (m = n)) as [->|Hne1].
    { rewrite Hn in Hm. injection Hm as <-. exists nd'. done. }
    destruct (decide (m = c)) as [->|Hne2].
    { rewrite Hc in Hm. injection Hm as <-. exists cnd'. done. }
    rewrite Hfr; [eauto|done|done|by eapply lookup_lt_Some].
  - intros Hl m Hm.
    assert (0 ≤ lock_ref cnd) as Hlc.
    { specialize (Hl c). unfold lock_of in Hl. rewrite Hc in Hl. apply Hl.
      in_ids. }
    assert (∀ m, m ∈ flat_map ids ks1 ∨ m ∈ flat_map ids kc ∨
                 m ∈ flat_map ids ks2 → 0 ≤ lock_of st' m) as Hl'.
    { intros m' Hm'. rewrite (lock_of_frame _ _ _ (Hold m' Hm')). apply Hl.
      in_ids. }
    assert (m = n ∨ m = u ∨ m = c ∨ (m ∈ flat_map ids ks1 ∨
              m ∈ flat_map ids kc ∨ m ∈ flat_map ids ks2))
      as [-> | [-> | [-> | ?]]]; [revert Hm; in_ids| | | |by apply Hl'].
    + specialize (Hl n (list_elem_of_here _ _)). unfold lock_of in *.
      by rewrite Hn', Hn in *.
    + unfold lock_of. by rewrite Hu.
    + unfold lock_of. by rewrite Hc'.
  - simpl. eauto 10.
  - rewrite !ids_split. simpl. rewrite !sumZ_app. simpl. rewrite !sumZ_app.
    assert (weight st' n = weight st n) as ->.
    { unfold weight, lock_of, value_of. by rewrite Hn', Hn. }
    rewrite (sumZ_ext (weight st') (weight st) (flat_map ids ks1))
      by (intros; apply weight_frame, Hold; auto).
    rewrite (sumZ_ext (weight st') (weight st) (flat_map ids ks2))
      by (intros; apply weight_frame, Hold; auto).
    rewrite (sumZ_ext (weight st') (weight st) (flat_map ids kc))
      by (intros; apply weight_frame, Hold; auto).
    assert (weight st' u + weight st' c = weight st c) as Hw; [|simpl; lia].
    unfold weight, lock_of, value_of. rewrite Hu, Hc', Hc. simpl.
    destruct (lock_ref cnd =? 0); [|done]. unfold len.
    rewrite <- (take_drop sl (value cnd)) at 3. rewrite length_app. lia.
  - unfold total_values. rewrite !ids_split. simpl. rewrite !sumZ_app. simpl.
    rewrite !sumZ_app.
    assert (value_of st' n = value_of st n) as ->.
    { unfold value_of. by rewrite Hn', Hn. }
    rewrite (sumZ_ext (fun m => len (value_of st' m))
               (fun m => len (value_of st m)) (flat_map ids ks1))
      by (intros; f_equal; apply value_of_frame, Hold; auto).
    rewrite (sumZ_ext (fun m => len (value_of st' m))
               (fun m => len (value_of st m)) (flat_map ids ks2))
      by (intros; f_equal; apply value_of_frame, Hold; auto).
    rewrite (sumZ_ext (fun m => len (value_of st' m))
               (fun m => len (value_of st m)) (flat_map ids kc))
      by (intros; f_equal; apply value_of_frame, Hold; auto).
    assert (len (value_of st' u) + len (value_of st' c) = len (value_of st c))
      as Hw; [|simpl; lia].
    unfold value_of. rewrite Hu, Hc', Hc. simpl. unfold len.
    rewrite <- (take_drop sl (value cnd)) at 3. rewrite length_app. lia.
Qed.

Lemma dict_get_app_Some {V} (d1 d2 : dict V) k v :
  k ∉ map fst d1 → dict_get (d1 ++ (k, v) :: d2) k = Some v.
Proof.
  induction d1 as [|[k' v'] d1 IH]; simpl.
  - intros _. by rewrite Z.eqb_refl.
  - rewrite not_elem_of_cons. intros [Hne H].
    destruct (Z.eqb_spec k' k); [congruence|]. by apply IH.
Qed.

(** The child a dictionary lookup returns, as a subtree. *)
Lemma tree_at_child st p n kids nd k0 c :
  tree_at st p (Sh n kids) → st !! n = Some nd →
  dict_get (children nd) k0 = Some c →
  ∃ ks1 kc ks2 cnd d1 d2,
    kids = ks1 ++ Sh c kc :: ks2 ∧ children nd = d1 ++ (k0, c) :: d2 ∧
    length d1 = length ks1 ∧ (k0 ∉ map fst d1) ∧
    st !! c = Some cnd ∧ parent cnd = Some n ∧ head (key cnd) = Some k0 ∧
    length (key cnd) = length (value cnd) ∧ tree_at st (Some n) (Sh c kc) ∧
    ∀ v, dict_set (children nd) k0 v = d1 ++ (k0, v) :: d2.
Proof.
  intros Ht Hn Hget.
  apply tree_at_inv in Ht as (nd0 & Hn0 & _ & _ & Hkids & Hsub).
  rewrite Hn in Hn0. injection Hn0 as <-.
  apply dict_get_Some in Hget as (d1 & d2 & Hd & Hk0 & Hset).
  rewrite Hd in Hkids.
  apply Forall2_app_inv_l in Hkids as (ks1 & ks2' & Hk1 & Hk2 & ->).
  apply Forall2_cons_inv_l in Hk2 as (k & ks2 & Hk & Hk2 & ->).
  destruct Hk as [Hid (cnd & Hc & Hhd & Hl)]. simpl in *.
  destruct k as [c' kc]. simpl in Hid. subst c'.
  apply Forall_app in Hsub as [_ Hsub]. apply Forall_cons in Hsub as [Hsc _].
  pose proof Hsc as Hsc'.
  apply tree_at_inv in Hsc' as (cnd' & Hc' & Hcp & _).
  rewrite Hc in Hc'. injection Hc' as <-.
  exists ks1, kc, ks2, cnd, d1, d2.
  split_and!; try done. by eapply Forall2_length.
Qed.

Lemma _key_match_le key1 key0 :
  (_key_match key1 key0 ≤ length key1)%nat ∧
  (_key_match key1 key0 ≤ length key0)%nat.
Proof.
  revert key0. induction key1 as [|a key1 IH]; intros [|b key0]; simpl;
    try lia.
  destruct (a =? b); simpl; [|lia]. specialize (IH key0). lia.
Qed.

Lemma _key_match_pos key1 key0 k :
  head key1 = Some k → head key0 = Some k → (0 < _key_match key1 key0)%nat.
Proof.
  destruct key1, key0; simpl; try done. intros [= ->] [= ->].
  rewrite Z.eqb_refl. lia.
Qed.

Section helpers.
Variable clock : nat → Z.

Lemma _split_node_grow s p n kids nd k0 c cnd sl :
  tree_at (objs s) p (Sh n kids) → NoDup (ids (Sh n kids)) →
  objs s !! n = Some nd → dict_get (children nd) k0 = Some c →
  objs s !! c = Some cnd → (0 < sl < length (key cnd))%nat →
  ∃ s' ks1 kc ks2 und,
    kids = ks1 ++ Sh c kc :: ks2 ∧
    _split_node clock s (key cnd) c sl = Ok (length (objs s), s') ∧
    grow (objs s) p (Sh n kids) (objs s')
      (Sh n (ks1 ++ Sh (length (objs s)) [Sh c kc] :: ks2)) 0 0 ∧
    evictable_size_ s' = evictable_size_ s ∧ same_cache s s' ∧
    objs s' !! length (objs s) = Some und ∧
    key und = take sl (key cnd) ∧ value und = take sl (value cnd) ∧
    lock_ref und = lock_ref cnd ∧
    dict_get (children_of (objs s') n) k0 = Some (length (objs s)).
Proof.
  intros Ht Hnd Hn Hget Hc Hsl.
  destruct (tree_at_child _ _ _ _ _ _ _ Ht Hn Hget)
    as (ks1 & kc & ks2 & cnd' & d1 & d2 & -> & Hd & Hlen & Hk0 & Hc' & Hcp
        & Hhd & Hkv & Hsc & Hset).
  rewrite Hc in Hc'. injection Hc' as <-.
  assert (n ≠ c) as Hnc.
  { intros ->. rewrite ids_split in Hnd. apply NoDup_cons in Hnd as [Hx _].
    apply Hx. in_ids. }
  destruct (key cnd !! sl) as [k1|] eqn:Hk1;
    [|apply lookup_ge_None in Hk1; lia].
  pose proof (lookup_lt_Some _ _ _ Hn) as Hnlt.
  pose proof (lookup_lt_Some _ _ _ Hc) as Hclt.
  unfold _split_node, get_node. rewrite Hc. simpl.
  rewrite head_drop, Hk1. simpl.
  rewrite head_take by lia. rewrite Hhd. simpl. rewrite Hcp. simpl.
  rewrite list_lookup_insert_ne by done. rewrite lookup_app_l by done.
  rewrite Hn. simpl. rewrite Hset.
  eexists _, ks1, kc, ks2, _. split_and!; [done|done| |done|by repeat split|..].
  - simpl. eapply grow_split; eauto. by rewrite head_drop.
  - simpl. rewrite !list_lookup_insert_ne by lia.
    rewrite lookup_app_r by lia. by rewrite Nat.sub_diag.
  - done.
  - done.
  - done.
  - simpl. unfold children_of.
    rewrite list_lookup_insert_eq
      by (rewrite length_insert, length_app; lia).
    simpl. by apply dict_get_app_Some.
Qed.

End helpers.

Lemma ids_kid_nodup n ks1 k ks2 :
  NoDup (ids (Sh n (ks1 ++ k :: ks2))) → NoDup (ids k).
Proof.
  rewrite ids_split. intros [_ H]%NoDup_cons.
  apply NoDup_app in H as (_ & _ & H). by apply NoDup_app in H as (H & _).
Qed.

Lemma _key_match_refl k : _key_match k k = length k.
Proof. induction k as [|a k IH]; simpl; [done|]. by rewrite Z.eqb_refl, IH. Qed.

Lemma _key_match_take a b :
  _key_match (take (_key_match a b) a) b = _key_match a b.
Proof.
  revert b. induction a as [|x a IH]; intros [|y b]; simpl; try done.
  destruct (x =? y) eqn:E; simpl; [|done]. by rewrite E, IH.
Qed.

Lemma tree_at_kid st p n ks1 k ks2 :
  tree_at st p (Sh n (ks1 ++ k :: ks2)) → tree_at st (Some n) k.
Proof.
  intros (nd & _ & _ & _ & _ & H)%tree_at_inv.
  apply Forall_app in H as [_ H]. by apply Forall_cons in H as [H _].
Qed.

Lemma top_not_in_kid n ks1 k ks2 :
  NoDup (ids (Sh n (ks1 ++ k :: ks2))) → n ∉ ids k.
Proof.
  rewrite ids_split. intros [H _]%NoDup_cons Hn. apply H. in_ids.
Qed.

Section helper_proofs.
Variable clock : nat → Z.

Lemma _match_prefix_helper_grow fuel s p t key0 value0 last :
  tree_at (objs s) p t → NoDup (ids t) → (length key0 < fuel)%nat →
  ∃ vals last' s' t',
    _match_prefix_helper clock fuel s (sh_id t) key0 value0 last
      = Ok (vals, last', s') ∧
    grow (objs s) p t (objs s') t' 0 0 ∧
    evictable_size_ s' = evictable_size_ s ∧ same_cache s s'.
Proof.
  revert s p t key0 value0 last.
  induction fuel as [|fuel IH]; intros s p t key0 value0 last Ht Hnd Hfuel;
    [lia|].
  destruct (touch_grow clock s p t Ht Hnd) as (s1 & Htouch & G1 & He1 & Hc1).
  cbn [_match_prefix_helper]. rewrite Htouch. cbn [bind].
  destruct key0 as [|k0 rest].
  { eauto 10. }
  pose proof (grow_tree _ _ _ _ _ _ _ G1) as Ht1.
  pose proof (grow_nodup _ _ _ _ _ _ _ G1) as Hnd1.
  destruct t as [n kids]. cbn [sh_id].
  pose proof Ht1 as (nd & Hn & _)%tree_at_inv.
  unfold get_node at 1. rewrite Hn. cbn [of_option bind].
  destruct (dict_get (children nd) k0) as [c|] eqn:Hget; [|eauto 10].
  destruct (tree_at_child _ _ _ _ _ _ _ Ht1 Hn Hget)
    as (ks1 & kc & ks2 & cnd & d1 & d2 & -> & Hd & Hlen & Hk0 & Hc & Hcp
        & Hhd & Hkv & Hsc & Hset).
  unfold get_node at 1. rewrite Hc. cbn [of_option bind].
  pose proof (_key_match_le (key cnd) (k0 :: rest)) as [Hle1 Hle2].
  pose proof (_key_match_pos (key cnd) (k0 :: rest) k0 Hhd eq_refl) as Hpos.
  destruct (_ <? _)%nat eqn:Hlt.
  - apply Nat.ltb_lt in Hlt.
    destruct (_split_node_grow clock s1 p n _ nd k0 c cnd
                (_key_match (key cnd) (k0 :: rest)) Ht1 Hnd1 Hn Hget Hc)
      as (s2 & ks1' & kc' & ks2' & und & _ & Hsplit & G2 & He2 & Hc2 & Hu & _);
      [lia|].
    rewrite Hsplit. cbn [bind]. unfold get_node. rewrite Hu. cbn [of_option bind].
    eexists _, _, _, _. split; [done|]. split_and!.
    + apply (grow_trans _ _ _ _ _ _ _ _ _ _ _ G1 G2).
    + congruence.
    + by eapply same_cache_trans.
  - apply Nat.ltb_ge in Hlt.
    edestruct (IH s1 (Some n) (Sh c kc)
                 (drop (_key_match (key cnd) (k0 :: rest)) (k0 :: rest))
                 (value0 ++ [value cnd]) c)
      as (vals & last' & s2 & k' & Hrec & G2 & He2 & Hc2);
      [done|by eapply ids_kid_nodup|rewrite length_drop; simpl in *; lia|].
    cbn [sh_id] in Hrec. rewrite Hrec.
    eexists _, _, _, _. split; [done|]. split_and!.
    + apply (grow_trans _ _ _ _ _ _ _ _ _ _ _ G1).
      by apply grow_kid.
    + congruence.
    + by eapply same_cache_trans.
Qed.

Lemma _insert_helper_grow fuel s p t key0 value0 :
  tree_at (objs s) p t → NoDup (ids t) → (length key0 < fuel)%nat →
  length key0 = length value0 →
  ∃ r s' t' dw dv,
    _insert_helper clock fuel s (sh_id t) key0 value0 = Ok (r, s') ∧
    grow (objs s) p t (objs s') t' dw dv ∧
    evictable_size_ s' = evictable_size_ s + dw ∧ same_cache s s' ∧
    stored (objs s') (sh_id t) key0.
Proof.
  revert s p t key0 value0.
  induction fuel as [|fuel IH]; intros s p t key0 value0 Ht Hnd Hfuel Hkv0;
    [lia|].
  destruct (touch_grow clock s p t Ht Hnd) as (s1 & Htouch & G1 & He1 & Hc1).
  cbn [_insert_helper]. rewrite Htouch. cbn [bind].
  pose proof (grow_tree _ _ _ _ _ _ _ G1) as Ht1.
  pose proof (grow_nodup _ _ _ _ _ _ _ G1) as Hnd1.
  destruct key0 as [|k0 rest].
  { eexists _, _, _, _, _. split_and!; [done|exact G1|lia|done|].
    constructor. by eapply tree_at_top. }
  destruct t as [n kids]. cbn [sh_id].
  pose proof Ht1 as (nd & Hn & _)%tree_at_inv.
  pose proof (lookup_lt_Some _ _ _ Hn) as Hnlt.
  unfold get_node at 1. rewrite Hn. cbn [of_option bind].
  destruct (dict_get (children nd) k0) as [c|] eqn:Hget.
  2:{ unfold new_TreeNode, time_time, get_node. cbn.
      rewrite lookup_app_l by done. rewrite Hn. cbn.
      eexists _, _, _, _, _. split; [done|]. cbn. split_and!.
      - eapply grow_trans; [exact G1|]. by eapply grow_add_leaf.
      - lia.
      - destruct Hc1 as (?&?&?&?&?). by repeat split.
      - eapply stored_cons.
        + apply list_lookup_insert_eq. rewrite length_app. lia.
        + cbn. rewrite dict_set_None by done. apply dict_get_app_Some.
          by apply dict_get_None.
        + rewrite list_lookup_insert_ne by lia.
          rewrite lookup_app_r by lia. by rewrite Nat.sub_diag.
        + cbn. by rewrite Z.eqb_refl, _key_match_refl.
        + cbn. lia.
        + cbn. rewrite drop_all. constructor.
          rewrite list_lookup_insert_ne by lia.
          rewrite lookup_app_r by lia. by rewrite Nat.sub_diag. }
  destruct (tree_at_child _ _ _ _ _ _ _ Ht1 Hn Hget)
    as (ks1 & kc & ks2 & cnd & d1 & d2 & Hkids & Hd & Hlen & Hk0 & Hc & Hcp
        & Hhd & Hkv & Hsc & Hset).
  unfold get_node at 1. rewrite Hc. cbn [of_option bind].
  pose proof (_key_match_le (key cnd) (k0 :: rest)) as [Hle1 Hle2].
  pose proof (_key_match_pos (key cnd) (k0 :: rest) k0 Hhd eq_refl) as Hpos.
  set (pl := _key_match (key cnd) (k0 :: rest)) in *.
  destruct (pl =? length (key cnd))%nat eqn:Hfull.
  - apply Nat.eqb_eq in Hfull.
    destruct (pl =? length (k0 :: rest))%nat eqn:Hall.
    + apply Nat.eqb_eq in Hall.
      eexists _, _, _, _, _. split_and!; [done|exact G1|lia|done|].
      eapply stored_cons; [done..|lia|].
      rewrite <- Hfull, Hall, drop_all. constructor. eauto.
    + apply Nat.eqb_neq in Hall. subst kids.
      edestruct (IH s1 (Some n) (Sh c kc) (drop pl (k0 :: rest))
                   (drop pl value0))
        as (r & s2 & k' & dw & dv & Hrec & G2 & He2 & Hc2 & Hst2);
        [done|by eapply ids_kid_nodup|rewrite length_drop; simpl in *; lia|
         rewrite !length_drop; lia|].
      cbn [sh_id] in Hrec, Hst2. rewrite Hrec. cbn [bind].
      eexists _, _, _, _, _. split; [done|]. split_and!.
      * eapply grow_trans; [exact G1|]. by apply grow_kid.
      * lia.
      * by eapply same_cache_trans.
      * destruct (grow_top _ _ _ _ _ _ _ G2)
          as (cnd1 & cnd2 & Hc1' & Hc2' & Hkey & _).
        cbn [sh_id] in Hc1', Hc2'. rewrite Hc in Hc1'. injection Hc1' as <-.
        eapply stored_cons; [|exact Hget|exact Hc2'|..].
        -- rewrite (grow_frame _ _ _ _ _ _ _ G2); [done..|].
           by eapply top_not_in_kid.
        -- by rewrite Hkey.
        -- rewrite Hkey. lia.
        -- by rewrite Hkey, <- Hfull.
  - apply Nat.eqb_neq in Hfull.
    destruct (_split_node_grow clock s1 p n _ nd k0 c cnd pl Ht1 Hnd1 Hn Hget Hc)
      as (s2 & ks1' & kc' & ks2' & und & Hkids' & Hsplit & G2 & He2 & Hc2 & Hu
          & Hukey & Huval & Hulock & Hnget); [lia|].
    rewrite Hsplit. cbn [bind].
    pose proof (grow_tree _ _ _ _ _ _ _ G2) as Ht2.
    pose proof (grow_nodup _ _ _ _ _ _ _ G2) as Hnd2.
    edestruct (IH s2 (Some n) (Sh (length (objs s1)) [Sh c kc'])
                 (drop pl (k0 :: rest)) (drop pl value0))
      as (r & s3 & k' & dw & dv & Hrec & G3 & He3 & Hc3 & Hst3);
      [by eapply tree_at_kid|by eapply ids_kid_nodup|
       rewrite length_drop; simpl in *; lia|rewrite !length_drop; lia|].
    cbn [sh_id] in Hrec, Hst3. rewrite Hrec. cbn [bind].
    eexists _, _, _, _, _. split; [done|]. split_and!.
    * eapply grow_trans; [exact G1|]. eapply grow_trans; [exact G2|].
      by apply grow_kid.
    * lia.
    * eapply same_cache_trans; [done|]. by eapply same_cache_trans.
    * destruct (grow_top _ _ _ _ _ _ _ G3)
        as (und1 & und2 & Hu1 & Hu2 & Hkey & _).
      cbn [sh_id] in Hu1, Hu2. rewrite Hu in Hu1. injection Hu1 as <-.
      pose proof Ht2 as (nd2 & Hn2 & _)%tree_at_inv.
      unfold children_of in Hnget. rewrite Hn2 in Hnget.
      assert (length (key und2) = pl) as Hlen2.
      { rewrite Hkey, Hukey, length_take. lia. }
      eapply stored_cons; [|exact Hnget|exact Hu2|..].
      -- rewrite (grow_frame _ _ _ _ _ _ _ G3); [done| |].
         ++ by eapply lookup_lt_Some.
         ++ by eapply top_not_in_kid.
      -- rewrite Hlen2, Hkey, Hukey. apply _key_match_take.
      -- lia.
      -- by rewrite Hlen2.
Qed.

End helper_proofs.

(** ** The invariant *)

Lemma filter_all {A} (P : A → Prop) `{∀ x, Decision (P x)} (l : list A) :
  (∀ x, x ∈ l → P x) → filter P l = l.
Proof.
  induction l as [|a l IH]; intros Hl; [done|].
  rewrite filter_cons_True by apply Hl, list_elem_of_here.
  f_equal. apply IH. intros x Hx. by apply Hl, list_elem_of_further.
Qed.

Lemma good_root_weight s t : good s t → weight (objs s) (root_node s) = 0.
Proof.
  intros (_ & _ & _ & Hv). unfold weight. rewrite Hv.
  by destruct (_ =? _).
Qed.

Lemma evictable_sum_ids s t :
  good s t → evictable_sum s = sumZ (weight (objs s)) (ids t).
Proof.
  intros Hg. unfold evictable_sum. rewrite (tree_nodes_ids s t Hg).
  pose proof (good_root_weight s t Hg) as Hw.
  destruct Hg as (Hid & _ & Hnd & _). destruct t as [n kids].
  simpl in *. subst n. apply NoDup_cons in Hnd as [Hr _].
  rewrite filter_cons_False by (by intros ?).
  rewrite filter_all; [lia|]. by intros x Hx ->.
Qed.

Lemma Inv_intro s t :
  good s t → (∀ m, m ∈ ids t → 0 ≤ lock_of (objs s) m) →
  evictable_size_ s = sumZ (weight (objs s)) (ids t) → Inv s.
Proof.
  intros Hg Hl He. split_and!.
  - by exists t.
  - intros n. rewrite (tree_nodes_ids s t Hg). apply Hl.
  - unfold accounted. by rewrite (evictable_sum_ids s t Hg).
Qed.

Lemma Inv_elim s t :
  Inv s → good s t →
  (∀ m, m ∈ ids t → 0 ≤ lock_of (objs s) m) ∧
  evictable_size_ s = sumZ (weight (objs s)) (ids t).
Proof.
  intros (_ & Hl & He) Hg. split.
  - intros m Hm. apply Hl. by rewrite (tree_nodes_ids s t Hg).
  - unfold accounted in He. by rewrite (evictable_sum_ids s t Hg) in He.
Qed.

Lemma good_grow s s' t t' dw dv :
  good s t → grow (objs s) None t (objs s') t' dw dv → same_cache s s' →
  good s' t'.
Proof.
  intros (Hid & Ht & Hnd & Hv) G (Hr & _). split_and!.
  - by rewrite (grow_id _ _ _ _ _ _ _ G), Hr.
  - apply G.
  - apply G.
  - destruct (grow_top _ _ _ _ _ _ _ G) as (nd & nd' & H1 & H2 & _ & Hval).
    rewrite Hr, <- Hid. unfold value_of in *. rewrite Hid in H1.
    rewrite H1 in Hv. by rewrite H2, Hval.
Qed.

Lemma Inv_grow s s' t t' dw dv :
  Inv s → good s t → grow (objs s) None t (objs s') t' dw dv →
  same_cache s s' → evictable_size_ s' = evictable_size_ s + dw → Inv s'.
Proof.
  intros HI Hg G Hc He. destruct (Inv_elim s t HI Hg) as [Hl Hacc].
  apply (Inv_intro s' t').
  - by eapply good_grow.
  - by apply (grow_lock_ok _ _ _ _ _ _ _ G).
  - rewrite (grow_weight _ _ _ _ _ _ _ G). lia.
Qed.

Section api_proofs.
Variable clock : nat → Z.

Lemma reset_good s : good (reset clock s) (Sh (length (objs s)) []).
Proof.
  unfold reset, new_TreeNode, time_time. simpl.
  assert ((objs s ++ [mkTreeNode [] None [] [] 1 (clock (ticks s)) 0])
            !! length (objs s) = Some (mkTreeNode [] None [] [] 1
                                         (clock (ticks s)) 0)) as Hn.
  { rewrite lookup_app_r by lia. by rewrite Nat.sub_diag. }
  split_and!; simpl.
  - done.
  - econstructor; [exact Hn|done|constructor..].
  - apply NoDup_singleton.
  - unfold value_of. by rewrite Hn.
Qed.

Lemma reset_Inv s : Inv (reset clock s).
Proof.
  pose proof (reset_good s) as Hg. apply (Inv_intro _ _ Hg).
  - intros m ->%list_elem_of_singleton. unfold reset, new_TreeNode, time_time.
    simpl. unfold lock_of. rewrite lookup_app_r by lia.
    by rewrite Nat.sub_diag.
  - simpl. unfold weight, lock_of, reset, new_TreeNode, time_time. simpl.
    rewrite lookup_app_r by lia. by rewrite Nat.sub_diag.
Qed.

Lemma __init___Inv flag0 disable0 : Inv (__init__ clock flag0 disable0).
Proof.
  unfold __init__.
  pose proof (reset_Inv (mkRadixCache [] 0 0 0 disable0 0 0 false)) as HI.
  destruct HI as ((t & Hg) & Hl & Ha). split_and!; [exists t|..]; done.
Qed.

Lemma insert_Inv s key0 value0 :
  Inv s → disable s = false →
  length key0 = length (default key0 value0) →
  ∃ r s', insert clock s key0 value0 = Ok (r, s') ∧ Inv s' ∧
          same_cache s s' ∧ stored (objs s') (root_node s) key0.
Proof.
  intros HI Hdis Hlen. pose proof HI as ((t & Hg) & _).
  pose proof Hg as (Hid & Ht & Hnd & _).
  unfold insert. rewrite Hdis.
  destruct (_insert_helper_grow clock (S (length key0)) s None t key0
              (default key0 value0) Ht Hnd)
    as (r & s' & t' & dw & dv & Hrun & G & He & Hc & Hst); [lia|done|].
  rewrite Hid in Hrun, Hst. exists r, s'. split_and!; [|by eapply Inv_grow|done..].
  by destruct value0.
Qed.

Lemma match_prefix_grow s key0 t :
  good s t → disable s = false →
  ∃ vals last s' t',
    match_prefix clock s key0 = Ok (vals, last, s') ∧
    grow (objs s) None t (objs s') t' 0 0 ∧
    evictable_size_ s' = evictable_size_ s ∧ same_cache s s'.
Proof.
  intros Hg Hdis. pose proof Hg as (Hid & Ht & Hnd & _).
  unfold match_prefix. rewrite Hdis.
  destruct (_match_prefix_helper_grow clock (S (length key0)) s None t key0 []
              (root_node s) Ht Hnd)
    as (vals & last & s' & t' & Hrun & G & He & Hc); [lia|].
  rewrite Hid in Hrun. rewrite Hrun. simpl. eauto 10.
Qed.

Lemma match_prefix_Inv s key0 :
  Inv s →
  ∃ vals last s', match_prefix clock s key0 = Ok (vals, last, s') ∧ Inv s' ∧
                  same_cache s s'.
Proof.
  intros HI. destruct (disable s) eqn:Hdis.
  { unfold match_prefix. rewrite Hdis.
    eexists _, _, _. split_and!; [done..|apply same_cache_refl]. }
  pose proof HI as ((t & Hg) & _).
  destruct (match_prefix_grow s key0 t Hg Hdis)
    as (vals & last & s' & t' & Hrun & G & He & Hc).
  eexists _, _, _. split_and!; [done| |done].
  eapply Inv_grow; eauto. lia.
Qed.

End api_proofs.

(** ** Inserting a key that is already stored *)

Lemma same_but_time_refl st : same_but_time st st.
Proof. by intros n. Qed.

Lemma same_but_time_lookup st st' n nd :
  same_but_time st st' → st !! n = Some nd →
  ∃ nd', st' !! n = Some nd' ∧ children nd' = children nd ∧
         parent nd' = parent nd ∧ key nd' = key nd ∧ value nd' = value nd ∧
         lock_ref nd' = lock_ref nd.
Proof.
  intros H Hn. specialize (H n). rewrite Hn in H.
  destruct (st' !! n) as [nd'|]; [|done]. injection H as ? ? ? ? ? ?.
  eauto 10.
Qed.

Lemma same_but_time_length st st' :
  same_but_time st st' → length st' = length st.
Proof.
  intros H. apply Nat.le_antisymm.
  - apply Nat.nlt_ge. intros Hlt. specialize (H (length st)).
    rewrite (lookup_ge_None_2 st) in H by lia.
    destruct (lookup_lt_is_Some_2 st' (length st) Hlt) as [x Hx].
    by rewrite Hx in H.
  - apply Nat.nlt_ge. intros Hlt. specialize (H (length st')).
    rewrite (lookup_ge_None_2 st') in H by lia.
    destruct (lookup_lt_is_Some_2 st (length st') Hlt) as [x Hx].
    by rewrite Hx in H.
Qed.

Section stored_proofs.
Variable clock : nat → Z.

Lemma touch_same_but_time st s n :
  same_but_time st (objs s) → is_Some (st !! n) →
  ∃ s1, touch clock s n = Ok s1 ∧ same_but_time st (objs s1) ∧
        evictable_size_ s1 = evictable_size_ s ∧ same_cache s s1.
Proof.
  intros Hs [nd Hn].
  destruct (same_but_time_lookup _ _ _ _ Hs Hn) as (nd' & Hn' & _).
  unfold touch, get_node. simpl. rewrite Hn'. simpl.
  eexists. split_and!; [done| |done|by repeat split].
  intros m. simpl. destruct (decide (m = n)) as [->|Hne].
  - rewrite list_lookup_insert_eq by (by eapply lookup_lt_Some).
    specialize (Hs n). rewrite Hn' in Hs. by rewrite <- Hs.
  - rewrite list_lookup_insert_ne by done. apply Hs.
Qed.

Lemma _insert_helper_stored st n key0 :
  stored st n key0 →
  ∀ fuel s value0,
    same_but_time st (objs s) → (length key0 < fuel)%nat →
    ∃ s', _insert_helper clock fuel s n key0 value0 = Ok (length key0, s') ∧
          same_but_time st (objs s') ∧
          evictable_size_ s' = evictable_size_ s ∧ same_cache s s'.
Proof.
  induction 1 as [n Hn|n nd k0 rest c cnd Hn Hget Hc Hm Hpos Hst IH];
    intros fuel s value0 Hs Hfuel; (destruct fuel as [|fuel]; [simpl in *; lia|]).
  - destruct (touch_same_but_time st s n Hs Hn) as (s1 & Ht & Hs1 & He & Hca).
    simpl. rewrite Ht. simpl. eauto.
  - destruct (touch_same_but_time st s n Hs (ex_intro _ _ Hn))
      as (s1 & Ht & Hs1 & He & Hca).
    destruct (same_but_time_lookup _ _ _ _ Hs1 Hn) as (nd1 & Hn1 & Hch & _).
    destruct (same_but_time_lookup _ _ _ _ Hs1 Hc)
      as (cnd1 & Hc1 & _ & _ & Hk & _).
    cbn [_insert_helper]. rewrite Ht. cbn [bind].
    unfold get_node at 1. rewrite Hn1. cbn [of_option bind].
    rewrite Hch, Hget.
    unfold get_node at 1. rewrite Hc1. cbn [of_option bind].
    rewrite Hk, Hm, Nat.eqb_refl.
    pose proof (_key_match_le (key cnd) (k0 :: rest)) as [_ Hle].
    rewrite Hm in Hle.
    destruct (_ =? _)%nat eqn:Hall.
    + apply Nat.eqb_eq in Hall. rewrite Hall. eauto.
    + destruct (IH fuel s1 (drop (length (key cnd)) value0) Hs1)
        as (s2 & Hrec & Hs2 & He2 & Hca2).
      { rewrite length_drop. simpl in *. lia. }
      rewrite Hrec. cbn [bind]. rewrite length_drop.
      eexists. split_and!; [|done|congruence|by eapply same_cache_trans].
      do 2 f_equal. lia.
Qed.

Lemma _total_size_helper_same_but_time fuel s s' n :
  same_but_time (objs s) (objs s') →
  _total_size_helper fuel s' n = _total_size_helper fuel s n.
Proof.
  intros Hs. revert n. induction fuel as [|fuel IH]; intros n; [done|].
  simpl. unfold get_node. destruct (objs s !! n) as [nd|] eqn:Hn.
  - destruct (same_but_time_lookup _ _ _ _ Hs Hn)
      as (nd' & -> & Hch & _ & _ & Hv & _).
    simpl. rewrite Hch, Hv. generalize (Ok (len (value nd))) as acc.
    induction (dict_values (children nd)) as [|c l IHl]; intros acc; [done|].
    simpl. rewrite IH. apply IHl.
  - specialize (Hs n). rewrite Hn in Hs.
    by destruct (objs s' !! n).
Qed.

Lemma total_size_same_but_time s s' :
  same_but_time (objs s) (objs s') → root_node s' = root_node s →
  total_size s' = total_size s.
Proof.
  intros Hs Hr. unfold total_size.
  rewrite Hr, (same_but_time_length _ _ Hs).
  by apply _total_size_helper_same_but_time.
Qed.

Lemma insert_grow s key0 value0 t :
  good s t → disable s = false →
  length key0 = length (default key0 value0) →
  ∃ r s' t' dw dv,
    insert clock s key0 value0 = Ok (r, s') ∧
    grow (objs s) None t (objs s') t' dw dv ∧
    evictable_size_ s' = evictable_size_ s + dw ∧ same_cache s s' ∧
    stored (objs s') (root_node s) key0.
Proof.
  intros Hg Hdis Hlen. pose proof Hg as (Hid & Ht & Hnd & _).
  unfold insert. rewrite Hdis.
  destruct (_insert_helper_grow clock (S (length key0)) s None t key0
              (default key0 value0) Ht Hnd)
    as (r & s' & t' & dw & dv & Hrun & G & He & Hc & Hst); [lia|done|].
  rewrite Hid in Hrun, Hst. exists r, s', t', dw, dv.
  split_and!; try done; by destruct value0.
Qed.

End stored_proofs.

(** ** Walking up to the root: [inc_lock_ref] and [dec_lock_ref] *)

Lemma path_to_root_ext fuel st st' root n :
  (∀ m, parent <$> st' !! m = parent <$> st !! m) →
  path_to_root fuel st' root n = path_to_root fuel st root n.
Proof.
  intros H. revert n. induction fuel as [|fuel IH]; intros n; simpl; [done|].
  destruct (n =? root)%nat; [done|]. specialize (H n).
  destruct (st !! n) as [nd|], (st' !! n) as [nd'|]; simplify_eq/=; try done.
  rewrite H. destruct (parent nd); [|done]. by rewrite IH.
Qed.

Lemma path_to_root_root fuel st root : path_to_root fuel st root root = Some [].
Proof. destruct fuel; simpl; by rewrite Nat.eqb_refl. Qed.

Lemma path_in_subtree st root p t :
  tree_at st p t → NoDup (ids t) → root ∉ flat_map ids (sh_kids t) →
  ∀ n, n ∈ ids t →
  ∃ path,
    (∀ fuel rest, path_to_root fuel st root (sh_id t) = Some rest →
       path_to_root (length path + fuel) st root n = Some (path ++ rest)) ∧
    (length path < depth t)%nat ∧
    (∀ m, m ∈ path → m ∈ flat_map ids (sh_kids t)) ∧ NoDup path.
Proof.
  revert p. induction t as [r kids IH] using shape_ind.
  intros p Ht Hnd Hroot n Hn. cbn [sh_id sh_kids] in *.
  simpl in Hn. apply elem_of_cons in Hn as [->|Hn].
  { exists []. split_and!; [done|simpl; lia| |constructor].
    intros m Hm. by apply elem_of_nil in Hm. }
  apply elem_of_flat_map_ids in Hn as (k & Hk & Hn).
  apply list_elem_of_split in Hk as (ks1 & ks2 & ->).
  pose proof (tree_at_kid _ _ _ _ _ _ Ht) as Htk.
  pose proof (ids_kid_nodup _ _ _ _ Hnd) as Hndk.
  rewrite Forall_app, Forall_cons in IH. destruct IH as (_ & IHk & _).
  destruct (IHk (Some r) Htk Hndk) with (n := n) as (path & Hp & Hlen & Hin & Hnp);
    [|done|].
  { intros Hr. apply Hroot. rewrite flat_map_app. simpl.
    rewrite !elem_of_app. right. left. destruct k as [c kc]. simpl in *.
    by apply list_elem_of_further. }
  destruct k as [c kc]. cbn [sh_id sh_kids] in *.
  pose proof Htk as (cnd & Hc & Hcp & _)%tree_at_inv.
  assert (c ≠ root) as Hcr.
  { intros ->. apply Hroot. rewrite flat_map_app. simpl.
    rewrite !elem_of_app, elem_of_cons. tauto. }
  exists (path ++ [c]). split_and!.
  - intros fuel rest Hrest. rewrite length_app. simpl.
    replace (length path + 1 + fuel)%nat with (length path + S fuel)%nat by lia.
    rewrite <- app_assoc. apply Hp. simpl.
    destruct (Nat.eqb_spec c root); [done|]. by rewrite Hc, Hcp, Hrest.
  - rewrite length_app. simpl.
    pose proof (depth_kid (Sh c kc) r (ks1 ++ Sh c kc :: ks2)) as Hd.
    simpl in Hd. rewrite elem_of_app, elem_of_cons in Hd.
    specialize (Hd ltac:(tauto)). simpl in Hlen. lia.
  - intros m [Hm| ->%list_elem_of_singleton]%elem_of_app; rewrite flat_map_app;
      simpl; rewrite !elem_of_app, elem_of_cons, ?elem_of_app; auto.
  - apply NoDup_app. split_and!; [done| |apply NoDup_singleton].
    intros m Hm ->%list_elem_of_singleton. simpl in Hndk.
    apply NoDup_cons in Hndk as [Hx _]. auto.
Qed.

Lemma path_in_tree s t n :
  good s t → n ∈ ids t →
  ∃ path,
    path_to_root (length (objs s)) (objs s) (root_node s) n = Some path ∧
    NoDup path ∧ ∀ m, m ∈ path → m ∈ ids t ∧ m ≠ root_node s.
Proof.
  intros (Hid & Ht & Hnd & _) Hn.
  assert (root_node s ∉ flat_map ids (sh_kids t)) as Hroot.
  { destruct t as [r kids]. simpl in *. subst r.
    by apply NoDup_cons in Hnd as [? _]. }
  destruct (path_in_subtree _ (root_node s) _ _ Ht Hnd Hroot n Hn)
    as (path & Hp & Hlen & Hin & Hnp).
  exists path. split_and!; [|done|].
  - pose proof (depth_le_ids t). pose proof (ids_length_bound _ _ _ Ht Hnd).
    specialize (Hp (length (objs s) - length path)%nat []).
    rewrite app_nil_r in Hp.
    replace (length path + (length (objs s) - length path))%nat
      with (length (objs s)) in Hp by lia.
    apply Hp. rewrite Hid. apply path_to_root_root.
  - intros m Hm. specialize (Hin m Hm). destruct t as [r kids]. simpl in *.
    split; [by apply list_elem_of_further|]. by intros ->.
Qed.

Lemma sumZ_update (f f' : nat → Z) l n :
  NoDup l → n ∈ l → (∀ m, m ≠ n → f' m = f m) →
  sumZ f' l = sumZ f l - f n + f' n.
Proof.
  intros Hnd Hn Hf. apply list_elem_of_split in Hn as (l1 & l2 & ->).
  apply NoDup_app in Hnd as (_ & H1 & H2). apply NoDup_cons in H2 as [H2 _].
  rewrite !sumZ_app. simpl.
  rewrite (sumZ_ext f' f l1), (sumZ_ext f' f l2); [lia| |].
  - intros x Hx. apply Hf. by intros ->.
  - intros x Hx. apply Hf. intros ->. apply (H1 n Hx), list_elem_of_here.
Qed.

(** Changing the pin counter of one node of the tree, with the matching
    adjustment of the evictable size, keeps the invariant. *)
Lemma lock_step_Inv s t n nd l' :
  good s t → (∀ m, m ∈ ids t → 0 ≤ lock_of (objs s) m) →
  evictable_size_ s = sumZ (weight (objs s)) (ids t) →
  n ∈ ids t → objs s !! n = Some nd → 0 ≤ l' →
  let s' :=
    put_node n (set_lock_ref l' nd)
      (set_evictable
         (evictable_size_ s - weight (objs s) n +
          (if l' =? 0 then len (value nd) else 0)) s) in
  good s' t ∧ (∀ m, m ∈ ids t → 0 ≤ lock_of (objs s') m) ∧
  evictable_size_ s' = sumZ (weight (objs s')) (ids t).
Proof.
  intros (Hid & Ht & Hnd & Hv) Hl He Hn Hnd' Hl'. simpl.
  pose proof (lookup_lt_Some _ _ _ Hnd') as Hlt.
  assert (∀ m, m ≠ n → <[n := set_lock_ref l' nd]> (objs s) !! m = objs s !! m)
    as Hne by (intros; by apply list_lookup_insert_ne).
  assert (<[n := set_lock_ref l' nd]> (objs s) !! n = Some (set_lock_ref l' nd))
    as Heq by (by apply list_lookup_insert_eq).
  split_and!.
  - split_and!; simpl; [done| |done|].
    + eapply tree_at_ext; [|exact Ht]. intros m _.
      destruct (decide (m = n)) as [->|?]; [|by rewrite Hne].
      by rewrite Heq, Hnd'.
    + unfold value_of in *. destruct (decide (root_node s = n)) as [<-|?].
      * rewrite Heq. by rewrite Hnd' in Hv.
      * by rewrite Hne.
  - intros m Hm. unfold lock_of. destruct (decide (m = n)) as [->|?].
    + by rewrite Heq.
    + rewrite Hne by done. by apply Hl.
  - simpl. rewrite (sumZ_update (weight (objs s)) _ (ids t) n Hnd Hn).
    + rewrite <- He. unfold weight at 3, lock_of, value_of. rewrite Heq. simpl.
      lia.
    + intros m Hm. apply weight_frame. by apply Hne.
Qed.

Lemma set_evictable_id s : set_evictable (evictable_size_ s) s = s.
Proof. by destruct s. Qed.

Lemma inc_lock_ref_loop_step f s n delta nd p :
  (n =? root_node s)%nat = false → objs s !! n = Some nd →
  parent nd = Some p →
  inc_lock_ref_loop (S f) s n delta =
  inc_lock_ref_loop f
    (put_node n (set_lock_ref (lock_ref nd + 1) nd)
       (set_evictable
          (evictable_size_ s - (if lock_ref nd =? 0 then len (value nd) else 0))
          s))
    p (delta - (if lock_ref nd =? 0 then len (value nd) else 0)).
Proof.
  intros Hr Hn Hp. cbn [inc_lock_ref_loop]. rewrite Hr.
  unfold get_node. rewrite Hn. cbn [of_option bind].
  destruct (lock_ref nd =? 0); rewrite Hp; cbn [of_option bind]; [done|].
  by rewrite !Z.sub_0_r, set_evictable_id.
Qed.

Lemma dec_lock_ref_loop_step f s n delta nd p :
  (n =? root_node s)%nat = false → objs s !! n = Some nd →
  parent nd = Some p →
  dec_lock_ref_loop (S f) s n delta =
  dec_lock_ref_loop f
    (put_node n (set_lock_ref (lock_ref nd - 1) nd)
       (set_evictable
          (evictable_size_ s + (if lock_ref nd =? 1 then len (value nd) else 0))
          s))
    p (delta + (if lock_ref nd =? 1 then len (value nd) else 0)).
Proof.
  intros Hr Hn Hp. cbn [dec_lock_ref_loop]. rewrite Hr.
  unfold get_node. rewrite Hn. cbn [of_option bind].
  destruct (lock_ref nd =? 1); rewrite Hp; cbn [of_option bind]; [done|].
  by rewrite !Z.add_0_r, set_evictable_id.
Qed.

Lemma path_to_root_cons fuel st root n path :
  path_to_root fuel st root n = Some path → (n =? root)%nat = false →
  ∃ f nd p path', fuel = S f ∧ st !! n = Some nd ∧ parent nd = Some p ∧
                  path = n :: path' ∧ path_to_root f st root p = Some path'.
Proof.
  intros H Hr. destruct fuel as [|f]; simpl in H; rewrite Hr in H; [done|].
  destruct (st !! n) as [nd|] eqn:Hn; [|done].
  destruct (parent nd) as [p|] eqn:Hp; [|done].
  destruct (path_to_root f st root p) as [path'|] eqn:Hpath; [|done].
  injection H as <-. by exists f, nd, p, path'.
Qed.

Lemma path_to_root_put fuel s n nd nd' e root p :
  objs s !! n = Some nd → parent nd' = parent nd →
  path_to_root fuel (objs (put_node n nd' (set_evictable e s))) root p =
  path_to_root fuel (objs s) root p.
Proof.
  intros Hn Hp. apply path_to_root_ext. intros m. simpl.
  destruct (decide (m = n)) as [->|?].
  - rewrite list_lookup_insert_eq by (by eapply lookup_lt_Some).
    rewrite Hn. simpl. by rewrite Hp.
  - by rewrite list_lookup_insert_ne.
Qed.

Lemma inc_lock_ref_loop_ok fuel s n delta path :
  path_to_root fuel (objs s) (root_node s) n = Some path →
  ∃ d s',
    inc_lock_ref_loop fuel s n delta = Ok (delta + d, s') ∧ d ≤ 0 ∧
    evictable_size_ s' = evictable_size_ s + d ∧ same_cache s s' ∧
    ∀ t, good s t → (∀ m, m ∈ path → m ∈ ids t) →
         (∀ m, m ∈ ids t → 0 ≤ lock_of (objs s) m) →
         evictable_size_ s = sumZ (weight (objs s)) (ids t) →
         good s' t ∧ (∀ m, m ∈ ids t → 0 ≤ lock_of (objs s') m) ∧
         evictable_size_ s' = sumZ (weight (objs s')) (ids t).
Proof.
  revert s n delta path. induction fuel as [|fuel IH]; intros s n delta path H;
    destruct (n =? root_node s)%nat eqn:Hr.
  1,3: exists 0, s; cbn [inc_lock_ref_loop]; rewrite Hr, Z.add_0_r;
       split_and!; [done|lia|lia|apply same_cache_refl|done].
  - destruct (path_to_root_cons _ _ _ _ _ H Hr) as (? & ? & ? & ? & ? & _). lia.
  - destruct (path_to_root_cons _ _ _ _ _ H Hr)
      as (f & nd & p & path' & [= <-] & Hn & Hp & -> & Hpath).
    rewrite (inc_lock_ref_loop_step _ _ _ _ _ _ Hr Hn Hp).
    set (w := if lock_ref nd =? 0 then len (value nd) else 0).
    set (s1 := put_node n _ _).
    destruct (IH s1 p (delta - w) path') as (d & s' & Hrun & Hd & He & Hc & HI).
    { unfold s1. by rewrite (path_to_root_put _ _ _ nd). }
    assert (0 ≤ w) as Hw by (unfold w, len; destruct (_ =? _); lia).
    exists (d - w), s'. split_and!.
    + rewrite Hrun. do 2 f_equal. lia.
    + lia.
    + rewrite He. simpl. lia.
    + eapply same_cache_trans; [|exact Hc]. by repeat split.
    + intros t Hg Hin Hl Hacc.
      assert (0 ≤ lock_ref nd) as Hl0.
      { specialize (Hl n (Hin n (list_elem_of_here _ _))).
        unfold lock_of in Hl. by rewrite Hn in Hl. }
      pose proof (lock_step_Inv s t n nd (lock_ref nd + 1) Hg Hl Hacc
                    (Hin n (list_elem_of_here _ _)) Hn ltac:(lia)) as Hstep.
      cbn zeta in Hstep.
      replace (evictable_size_ s - weight (objs s) n +
               (if lock_ref nd + 1 =? 0 then len (value nd) else 0))
        with (evictable_size_ s - w) in Hstep.
      2:{ unfold weight, lock_of, value_of, w. rewrite Hn.
          destruct (Z.eqb_spec (lock_ref nd + 1) 0); lia. }
      destruct Hstep as (Hg1 & Hl1 & Hacc1).
      apply HI; try done. intros m Hm. apply Hin. by apply list_elem_of_further.
Qed.

Lemma dec_lock_ref_loop_ok fuel s n delta path :
  path_to_root fuel (objs s) (root_node s) n = Some path →
  ∃ d s',
    dec_lock_ref_loop fuel s n delta = Ok (delta + d, s') ∧ 0 ≤ d ∧
    evictable_size_ s' = evictable_size_ s + d ∧ same_cache s s' ∧
    ∀ t, good s t → (∀ m, m ∈ path → m ∈ ids t) → NoDup path →
         (∀ m, m ∈ path → 1 ≤ lock_of (objs s) m) →
         (∀ m, m ∈ ids t → 0 ≤ lock_of (objs s) m) →
         evictable_size_ s = sumZ (weight (objs s)) (ids t) →
         good s' t ∧ (∀ m, m ∈ ids t → 0 ≤ lock_of (objs s') m) ∧
         evictable_size_ s' = sumZ (weight (objs s')) (ids t).
Proof.
  revert s n delta path. induction fuel as [|fuel IH]; intros s n delta path H;
    destruct (n =? root_node s)%nat eqn:Hr.
  1,3: exists 0, s; cbn [dec_lock_ref_loop]; rewrite Hr, Z.add_0_r;
       split_and!; [done|lia|lia|apply same_cache_refl|done].
  - destruct (path_to_root_cons _ _ _ _ _ H Hr) as (? & ? & ? & ? & ? & _). lia.
  - destruct (path_to_root_cons _ _ _ _ _ H Hr)
      as (f & nd & p & path' & [= <-] & Hn & Hp & -> & Hpath).
    rewrite (dec_lock_ref_loop_step _ _ _ _ _ _ Hr Hn Hp).
    set (w := if lock_ref nd =? 1 then len (value nd) else 0).
    set (s1 := put_node n _ _).
    destruct (IH s1 p (delta + w) path') as (d & s' & Hrun & Hd & He & Hc & HI).
    { unfold s1. by rewrite (path_to_root_put _ _ _ nd). }
    assert (0 ≤ w) as Hw by (unfold w, len; destruct (_ =? _); lia).
    exists (d + w), s'. split_and!.
    + rewrite Hrun. do 2 f_equal. lia.
    + lia.
    + rewrite He. simpl. lia.
    + eapply same_cache_trans; [|exact Hc]. by repeat split.
    + intros t Hg Hin Hnp Hpin Hl Hacc.
      apply NoDup_cons in Hnp as [Hnn Hnp].
      assert (1 ≤ lock_ref nd) as Hl0.
      { specialize (Hpin n (list_elem_of_here _ _)).
        unfold lock_of in Hpin. by rewrite Hn in Hpin. }
      pose proof (lock_step_Inv s t n nd (lock_ref nd - 1) Hg Hl Hacc
                    (Hin n (list_elem_of_here _ _)) Hn ltac:(lia)) as Hstep.
      cbn zeta in Hstep.
      replace (evictable_size_ s - weight (objs s) n +
               (if lock_ref nd - 1 =? 0 then len (value nd) else 0))
        with (evictable_size_ s + w) in Hstep.
      2:{ unfold weight, lock_of, value_of, w. rewrite Hn.
          destruct (Z.eqb_spec (lock_ref nd) 0); [lia|].
          destruct (Z.eqb_spec (lock_ref nd - 1) 0),
                   (Z.eqb_spec (lock_ref nd) 1); lia. }
      destruct Hstep as (Hg1 & Hl1 & Hacc1).
      apply HI; try done.
      * intros m Hm. apply Hin. by apply list_elem_of_further.
      * intros m Hm. unfold s1, lock_of. simpl.
        rewrite list_lookup_insert_ne by (by intros ->).
        apply Hpin. by apply list_elem_of_further.
Qed.

(** ** Deleting a leaf *)

Lemma sh_id_remove x t : sh_id (sh_remove x t) = sh_id t.
Proof. by destruct t. Qed.

Lemma sh_remove_kids x (ks : list shape) :
  Forall (fun k => x ∉ ids k → sh_remove x k = k) ks →
  (∀ k, k ∈ ks → x ∉ ids k) →
  filter (fun k => sh_id k ≠ x) (map (sh_remove x) ks) = ks.
Proof.
  induction 1 as [|k ks Hk _ IH]; intros Hx; [done|]. simpl.
  rewrite Hk by apply Hx, list_elem_of_here.
  rewrite filter_cons_True.
  - f_equal. apply IH. intros k' Hk'. by apply Hx, list_elem_of_further.
  - intros <-. apply (Hx k (list_elem_of_here _ _)), sh_id_in_ids.
Qed.

Lemma sh_remove_notin x t : x ∉ ids t → sh_remove x t = t.
Proof.
  induction t as [n kids IH] using shape_ind. intros Hx. simpl. f_equal.
  apply sh_remove_kids; [done|]. intros k Hk Hxk. apply Hx. simpl.
  apply list_elem_of_further, elem_of_flat_map_ids. eauto.
Qed.

Lemma sh_remove_kids_notin x (ks : list shape) :
  (∀ k, k ∈ ks → x ∉ ids k) →
  filter (fun k => sh_id k ≠ x) (map (sh_remove x) ks) = ks.
Proof.
  intros Hx. apply sh_remove_kids; [|done].
  apply Forall_forall. intros k _. apply sh_remove_notin.
Qed.

Lemma sh_leaves_kids n kids :
  kids ≠ [] → sh_leaves (Sh n kids) = flat_map sh_leaves kids.
Proof. by destruct kids. Qed.

Lemma sh_leaves_subset t x : x ∈ sh_leaves t → x ∈ ids t.
Proof.
  induction t as [n kids IH] using shape_ind. destruct kids as [|k kids].
  { simpl. done. }
  rewrite sh_leaves_kids by done. intros Hx.
  change (ids (Sh n (k :: kids))) with (n :: flat_map ids (k :: kids)).
  apply list_elem_of_further. apply elem_of_flat_map.
  apply elem_of_flat_map in Hx as (k' & Hk' & Hx).
  exists k'. split; [done|]. rewrite Forall_forall in IH. by apply IH.
Qed.

Lemma kid_ok_ext st st' e k k' :
  (∀ m nd, st !! m = Some nd →
     ∃ nd', st' !! m = Some nd' ∧ key nd' = key nd ∧ value nd' = value nd) →
  sh_id k' = sh_id k → kid_ok st e k → kid_ok st' e k'.
Proof.
  intros H Hid [He (knd & Hk & Hh & Hl)]. split; [congruence|].
  destruct (H _ _ Hk) as (nd' & ? & Hkey & Hval). exists nd'.
  by rewrite Hkey, Hval.
Qed.

Section remove_leaf.
Variables (st : list TreeNode) (x q : nat) (xnd qnd : TreeNode).
Hypothesis Hx : st !! x = Some xnd.
Hypothesis Hleaf : children xnd = [].
Hypothesis Hxp : parent xnd = Some q.
Hypothesis Hq : st !! q = Some qnd.

Lemma remove_leaf_pres D m nd :
  st !! m = Some nd →
  ∃ nd', <[q := set_children D qnd]> st !! m = Some nd' ∧
         key nd' = key nd ∧ value nd' = value nd.
Proof.
  intros Hm. destruct (decide (m = q)) as [->|Hne].
  - rewrite list_lookup_insert_eq by (by eapply lookup_lt_Some).
    rewrite Hq in Hm. injection Hm as <-. eauto.
  - rewrite list_lookup_insert_ne by done. eauto.
Qed.

Lemma remove_leaf_tree t p :
  tree_at st p t → NoDup (ids t) → x ∈ ids t → x ≠ sh_id t →
  ∃ k, find_key (children qnd) x = Some k ∧
    tree_at (<[q := set_children (dict_del (children qnd) k) qnd]> st) p
      (sh_remove x t) ∧
    ids t ≡ₚ x :: ids (sh_remove x t) ∧ q ∈ ids t ∧
    (length (dict_del (children qnd) k) + 1 = length (children qnd))%nat ∧
    ∃ L, sh_leaves t ≡ₚ x :: L ∧
         sh_leaves (sh_remove x t) ≡ₚ
           (if decide (dict_del (children qnd) k = []) then q :: L else L).
Proof.
  revert p. induction t as [n kids IH] using shape_ind.
  intros p Ht Hnd Hin Hne. cbn [sh_id] in Hne.
  simpl in Hin. apply elem_of_cons in Hin as [?|Hin]; [done|].
  apply elem_of_flat_map_ids in Hin as (kid & Hkid & Hxk).
  apply list_elem_of_split in Hkid as (ks1 & ks2 & ->).
  pose proof (tree_at_kid _ _ _ _ _ _ Ht) as Htk.
  pose proof (ids_kid_nodup _ _ _ _ Hnd) as Hndk.
  pose proof (top_not_in_kid _ _ _ _ Hnd) as Hnk.
  pose proof Ht as (nd & Hn & Hp & Hdup & Hkids & Hsub)%tree_at_inv.
  apply Forall2_app_inv_r in Hkids as (d1 & d2' & Hk1 & Hk2 & Hd).
  apply Forall2_cons_inv_r in Hk2 as (e & d2 & He & Hk2 & ->).
  apply Forall_app in Hsub as [Hs1 Hs2]. apply Forall_cons in Hs2 as [_ Hs2].
  assert (∀ k', k' ∈ ks1 ++ ks2 → ∀ m, m ∈ ids k' → (m ∉ ids kid) ∧ m ≠ n)
    as Hother.
  { intros k' Hk' m Hm. rewrite ids_split in Hnd.
    apply NoDup_cons in Hnd as [Hn_out Hnd].
    assert (m ∈ flat_map ids ks1 ∨ m ∈ flat_map ids ks2) as Hm'.
    { apply elem_of_app in Hk' as [?|?]; [left|right];
        apply elem_of_flat_map_ids; eauto. }
    split.
    - intros Hmk. apply NoDup_app in Hnd as (_ & H1 & H2).
      apply NoDup_app in H2 as (_ & H2 & _). destruct Hm' as [Hm'|Hm'].
      + apply (H1 m Hm'). apply elem_of_app. auto.
      + by apply (H2 m Hmk).
    - intros ->. apply Hn_out. rewrite !elem_of_app. tauto. }
  assert (∀ k', k' ∈ ks1 ++ ks2 → x ∉ ids k') as Hxo.
  { intros k' Hk' Hxk'. by destruct (Hother k' Hk' x Hxk'). }
  assert (filter (fun k => sh_id k ≠ x) (map (sh_remove x) ks1) = ks1) as Hf1.
  { apply sh_remove_kids_notin. intros. apply Hxo, elem_of_app. auto. }
  assert (filter (fun k => sh_id k ≠ x) (map (sh_remove x) ks2) = ks2) as Hf2.
  { apply sh_remove_kids_notin. intros. apply Hxo, elem_of_app. auto. }
  assert (∀ D (ks : list shape) q0,
            (∀ k', k' ∈ ks → k' ∈ ks1 ++ ks2) → q ∈ n :: ids kid →
            Forall (tree_at st q0) ks →
            Forall (tree_at (<[q := set_children D qnd]> st) q0) ks) as Hext.
  { intros D ks q0 Hks Hqin Hf. rewrite Forall_forall in Hf |- *.
    intros k' Hk'. eapply tree_at_ext; [|by apply Hf]. intros m Hm.
    rewrite list_lookup_insert_ne; [done|]. intros <-.
    destruct (Hother k' (Hks k' Hk') q Hm) as [H1 H2].
    apply elem_of_cons in Hqin as [?|?]; done. }
  assert (∀ D d (ks : list shape),
            Forall2 (kid_ok st) d ks →
            Forall2 (kid_ok (<[q := set_children D qnd]> st)) d ks) as Hkext.
  { intros D d ks Hf. eapply Forall2_impl; [exact Hf|]. intros e0 k0.
    apply kid_ok_ext; [|done]. intros. by apply remove_leaf_pres. }
  destruct (decide (x = sh_id kid)) as [Heq|Hneq].
  - (* the leaf is a child of this node *)
    destruct kid as [x' kx]. cbn [sh_id] in Heq. subst x'.
    pose proof Htk as (xnd' & Hx' & Hxp' & _ & Hxk' & _)%tree_at_inv.
    rewrite Hx in Hx'. injection Hx' as <-.
    rewrite Hxp in Hxp'. injection Hxp' as ->.
    rewrite Hq in Hn. injection Hn as <-.
    rewrite Hleaf in Hxk'. apply Forall2_nil_inv_l in Hxk' as ->.
    destruct e as [k0 x']. destruct He as [He _]. cbn in He. subst x'.
    rewrite Hd in *. rewrite map_app in Hdup. cbn [map fst] in Hdup.
    assert (k0 ∉ map fst d1) as Hk0.
    { apply NoDup_app in Hdup as (_ & H & _). intros Hin. apply (H k0 Hin).
      apply list_elem_of_here. }
    assert (x ∉ map snd d1) as Hx1.
    { rewrite (kid_ok_ids _ _ _ Hk1). intros Hin.
      apply list_elem_of_fmap in Hin as (k' & -> & Hk').
      apply (Hxo k'); [apply elem_of_app; auto|apply sh_id_in_ids]. }
    exists k0. rewrite find_key_split, dict_del_split by done.
    split; [done|]. cbn [sh_remove]. rewrite map_app, filter_app.
    cbn [map]. rewrite filter_cons_False by (cbn; auto).
    rewrite Hf1, Hf2.
    split_and!.
    + econstructor.
      * apply list_lookup_insert_eq. by eapply lookup_lt_Some.
      * done.
      * cbn. rewrite map_app. apply NoDup_app in Hdup as (H1 & H2 & H3).
        apply NoDup_cons in H3 as [_ H3]. apply NoDup_app.
        split_and!; [done| |done]. intros y Hy Hy'. apply (H2 y Hy).
        by apply list_elem_of_further.
      * cbn. apply Forall2_app; by apply Hkext.
      * apply Forall_app. split; (eapply Hext; [|apply list_elem_of_here|done]);
          intros k' Hk'; apply elem_of_app; auto.
    + rewrite ids_split. simpl. rewrite flat_map_app.
      rewrite <- Permutation_middle. apply perm_swap.
    + apply list_elem_of_here.
    + rewrite !length_app. simpl. lia.
    + exists (flat_map sh_leaves ks1 ++ flat_map sh_leaves ks2). split.
      * rewrite sh_leaves_kids by (by destruct ks1).
        rewrite flat_map_app. simpl. by rewrite <- Permutation_middle.
      * pose proof (Forall2_length _ _ _ Hk1). pose proof (Forall2_length _ _ _ Hk2).
        case_decide as Hnil.
        -- apply app_eq_nil in Hnil as [-> ->].
           destruct ks1, ks2; simpl in *; try lia; reflexivity.
        -- rewrite sh_leaves_kids, flat_map_app; [done|].
           intros [-> ->]%app_eq_nil. destruct d1, d2; simpl in *; try lia; done.
  - (* the leaf is deeper *)
    rewrite Forall_app, Forall_cons in IH. destruct IH as (_ & IHk & _).
    destruct (IHk (Some n) Htk Hndk Hxk Hneq)
      as (k & Hfind & Htk' & Hperm & Hqk & Hlen & L & HL1 & HL2).
    exists k. split; [done|].
    assert (q ≠ n) as Hqn by (by intros ->).
    cbn [sh_remove]. rewrite map_app, filter_app. cbn [map].
    rewrite filter_cons_True by (by rewrite sh_id_remove).
    rewrite Hf1, Hf2. split_and!.
    + econstructor.
      * rewrite list_lookup_insert_ne by done. exact Hn.
      * done.
      * done.
      * rewrite Hd. apply Forall2_app; [by apply Hkext|].
        constructor; [|by apply Hkext].
        eapply kid_ok_ext; [|apply sh_id_remove|exact He].
        intros. by apply remove_leaf_pres.
      * apply Forall_app. split.
        -- eapply Hext; [|by apply list_elem_of_further|done].
           intros k' Hk'. apply elem_of_app. auto.
        -- constructor; [done|].
           eapply Hext; [|by apply list_elem_of_further|done].
           intros k' Hk'. apply elem_of_app. auto.
    + rewrite !ids_split, Hperm. simpl.
      rewrite <- Permutation_middle. apply perm_swap.
    + rewrite ids_split. in_ids.
    + done.
    + exists (flat_map sh_leaves ks1 ++ L ++ flat_map sh_leaves ks2). split.
      * rewrite sh_leaves_kids by (by destruct ks1).
        rewrite flat_map_app. simpl. rewrite HL1. simpl.
        by rewrite <- Permutation_middle.
      * rewrite sh_leaves_kids by (by destruct ks1).
        rewrite flat_map_app. simpl. rewrite HL2.
        destruct (decide _); [|done]. simpl.
        by rewrite <- Permutation_middle.
Qed.

End remove_leaf.

Lemma leaf_no_children st p t x :
  tree_at st p t → x ∈ sh_leaves t →
  ∃ xnd, st !! x = Some xnd ∧ children xnd = [].
Proof.
  revert p. induction t as [n kids IH] using shape_ind. intros p Ht Hx.
  destruct kids as [|k kids].
  - apply list_elem_of_singleton in Hx as ->.
    apply tree_at_inv in Ht as (nd & Hn & _ & _ & Hk & _).
    apply Forall2_nil_inv_r in Hk. eauto.
  - rewrite sh_leaves_kids in Hx by done.
    apply elem_of_flat_map in Hx as (k' & Hk' & Hx).
    apply tree_at_inv in Ht as (nd & _ & _ & _ & _ & Hsub).
    rewrite Forall_forall in IH, Hsub. eapply IH; eauto.
Qed.

Lemma no_children_leaf st p t x :
  tree_at st p t → x ∈ ids t → children_of st x = [] → x ∈ sh_leaves t.
Proof.
  revert p. induction t as [n kids IH] using shape_ind. intros p Ht Hx Hc.
  pose proof Ht as (nd & Hn & _ & _ & Hk & Hsub)%tree_at_inv.
  simpl in Hx. apply elem_of_cons in Hx as [->|Hx].
  - unfold children_of in Hc. rewrite Hn in Hc. rewrite Hc in Hk.
    apply Forall2_nil_inv_l in Hk as ->. apply list_elem_of_here.
  - apply elem_of_flat_map_ids in Hx as (k & Hk' & Hx).
    rewrite sh_leaves_kids by (by intros ->; apply elem_of_nil in Hk').
    apply elem_of_flat_map. exists k. split; [done|].
    rewrite Forall_forall in IH, Hsub. eapply IH; eauto.
Qed.

Lemma tree_parent st p t x :
  tree_at st p t → x ∈ ids t → x ≠ sh_id t →
  ∃ xnd q qnd, st !! x = Some xnd ∧ parent xnd = Some q ∧ q ∈ ids t ∧
               st !! q = Some qnd ∧ length (key xnd) = length (value xnd) ∧
               (0 < length (key xnd))%nat.
Proof.
  revert p. induction t as [n kids IH] using shape_ind. intros p Ht Hx Hne.
  cbn [sh_id] in Hne. simpl in Hx. apply elem_of_cons in Hx as [?|Hx]; [done|].
  apply elem_of_flat_map_ids in Hx as (k & Hk & Hx).
  apply list_elem_of_split in Hk as (ks1 & ks2 & ->).
  pose proof (tree_at_kid _ _ _ _ _ _ Ht) as Htk.
  pose proof Ht as (nd & Hn & _ & _ & Hkids & _)%tree_at_inv.
  destruct (decide (x = sh_id k)) as [->|Hxk].
  - apply Forall2_app_inv_r in Hkids as (d1 & d2' & _ & Hk2 & _).
    apply Forall2_cons_inv_r in Hk2 as (e & d2 & [He (knd & Hk & Hh & Hl)] & _).
    rewrite He in Hk. destruct k as [c kc]. cbn [sh_id] in *.
    pose proof Htk as (cnd & Hc & Hcp & _)%tree_at_inv.
    rewrite Hk in Hc. injection Hc as <-.
    exists knd, n, nd. split_and!; try done; [apply list_elem_of_here|].
    destruct (key knd); [done|simpl; lia].
  - rewrite Forall_app, Forall_cons in IH. destruct IH as (_ & IHk & _).
    destruct (IHk (Some n) Htk Hx Hxk)
      as (xnd & q & qnd & ? & ? & Hq & ? & ? & ?).
    exists xnd, q, qnd. split_and!; try done. rewrite ids_split. in_ids.
Qed.

Lemma sh_leaves_sublist t : sh_leaves t `sublist_of` ids t.
Proof.
  induction t as [n kids IH] using shape_ind. destruct kids as [|k kids].
  { done. }
  rewrite sh_leaves_kids by done.
  change (ids (Sh n (k :: kids))) with (n :: flat_map ids (k :: kids)).
  apply sublist_cons. induction IH as [|k' ks Hk _ IHks]; simpl; [done|].
  by apply sublist_app.
Qed.

Lemma sh_leaves_nodup t : NoDup (ids t) → NoDup (sh_leaves t).
Proof. intros H. eapply sublist_NoDup; [exact H|apply sh_leaves_sublist]. Qed.

Lemma root_leaf_only t : NoDup (ids t) → sh_id t ∈ sh_leaves t → ids t = [sh_id t].
Proof.
  destruct t as [n kids]. destruct kids as [|k kids]; [done|].
  intros Hnd Hin. rewrite sh_leaves_kids in Hin by done.
  change (ids (Sh n (k :: kids))) with (n :: flat_map ids (k :: kids)) in Hnd.
  apply NoDup_cons in Hnd as [Hn _]. exfalso. apply Hn.
  cbn [sh_id] in Hin. apply elem_of_flat_map in Hin as (k' & Hk' & Hin).
  apply elem_of_flat_map_ids. exists k'. split; [done|].
  by apply sh_leaves_subset.
Qed.

Lemma sh_leaves_nonempty t : sh_leaves t ≠ [].
Proof.
  induction t as [n kids IH] using shape_ind. destruct kids as [|k kids]; [done|].
  rewrite sh_leaves_kids by done. simpl. apply Forall_cons in IH as [Hk _].
  by destruct (sh_leaves k).
Qed.

Lemma links_put s q qnd D :
  objs s !! q = Some qnd → (length D + 1 = length (children qnd))%nat →
  (links (put_node q (set_children D qnd) s) + 1 = links s)%nat.
Proof.
  unfold links. simpl. generalize (objs s) as st. intros st. revert q.
  induction st as [|a st IH]; intros [|q] Hq Hlen; simplify_eq/=.
  - lia.
  - specialize (IH q Hq Hlen). lia.
Qed.

Lemma same_payload_refl st : same_payload st st.
Proof. by intros m. Qed.

Lemma same_payload_trans st1 st2 st3 :
  same_payload st1 st2 → same_payload st2 st3 → same_payload st1 st3.
Proof.
  intros H1 H2 m. destruct (H1 m) as (? & ? & ?), (H2 m) as (? & ? & ?).
  split_and!; congruence.
Qed.

Lemma same_payload_weight st st' m :
  same_payload st st' → weight st' m = weight st m.
Proof. intros H. unfold weight. destruct (H m) as (-> & -> & _). done. Qed.

(** The effect of the statements run on a victim. *)
Lemma evict_leaf_ok s t leaves x :
  good s t → x ∈ sh_leaves t → x ≠ root_node s →
  ∃ s' leaves' q L,
    evict_leaf s leaves x = Ok (leaves', s') ∧
    good s' (sh_remove x t) ∧
    ids t ≡ₚ x :: ids (sh_remove x t) ∧
    sh_leaves t ≡ₚ x :: L ∧
    q ∈ ids t ∧ children_of (objs s) q ≠ [] ∧
    ((leaves' ≡ₚ q :: leaves ∧ sh_leaves (sh_remove x t) ≡ₚ q :: L) ∨
     (leaves' = leaves ∧ sh_leaves (sh_remove x t) ≡ₚ L)) ∧
    evictable_size_ s' = evictable_size_ s - len (value_of (objs s) x) ∧
    same_cache s s' ∧ (links s' + 1 = links s)%nat ∧
    same_payload (objs s) (objs s').
Proof.
  intros (Hid & Ht & Hnd & Hv) Hxl Hxr.
  destruct (leaf_no_children _ _ _ _ Ht Hxl) as (xnd & Hx & Hleaf).
  pose proof (sh_leaves_subset _ _ Hxl) as Hxin.
  assert (x ≠ sh_id t) as Hne by congruence.
  destruct (tree_parent _ _ _ _ Ht Hxin Hne)
    as (xnd' & q & qnd & Hx' & Hxp & Hqin & Hq & Hkv & _).
  rewrite Hx in Hx'. injection Hx' as <-.
  destruct (remove_leaf_tree _ _ _ _ _ Hx Hleaf Hxp Hq t None Ht Hnd Hxin Hne)
    as (k & Hfind & Ht' & Hperm & _ & Hlen & L & HL1 & HL2).
  set (D := dict_del (children qnd) k) in *.
  pose proof (lookup_lt_Some _ _ _ Hq) as Hqlt.
  unfold evict_leaf, _delete_leaf, get_node.
  rewrite Hx. cbn [of_option bind]. rewrite Hxp. cbn [of_option bind].
  rewrite Hq. cbn [of_option bind]. rewrite Hfind. cbn [of_option bind].
  set (s1 := set_evictable _ _).
  assert (objs s1 !! q = Some (set_children D qnd)) as Hq1.
  { unfold s1. simpl. by apply list_lookup_insert_eq. }
  rewrite Hq1. cbn [of_option bind].
  assert (good s1 (sh_remove x t)) as Hg1.
  { split_and!.
    - by rewrite sh_id_remove.
    - exact Ht'.
    - rewrite Hperm in Hnd. by apply NoDup_cons in Hnd as [_ ?].
    - unfold value_of in *. unfold s1. simpl.
      destruct (decide (root_node s = q)) as [Heq|Hneq].
      + rewrite Heq in *. rewrite list_lookup_insert_eq by done.
        by rewrite Hq in Hv.
      + by rewrite list_lookup_insert_ne. }
  assert (same_payload (objs s) (objs s1)) as Hpay.
  { intros m. unfold value_of, lock_of, s1. simpl.
    destruct (decide (m = q)) as [->|Hneq].
    - rewrite list_lookup_insert_eq by done. by rewrite Hq.
    - by rewrite list_lookup_insert_ne. }
  assert (evictable_size_ s1 = evictable_size_ s - len (value_of (objs s) x))
    as He1.
  { unfold s1, value_of, len. simpl. rewrite Hx, Hkv. done. }
  assert (children_of (objs s) q ≠ []) as Hqc.
  { unfold children_of. rewrite Hq. destruct (children qnd); [simpl in *; lia|done]. }
  assert (links s1 + 1 = links s)%nat as Hlinks.
  { unfold s1. by apply (links_put s q qnd D). }
  destruct (length (children (set_children D qnd)) =? 0)%nat eqn:Hz.
  - apply Nat.eqb_eq in Hz. cbn in Hz. apply nil_length_inv in Hz.
    eexists s1, _, q, L. split; [done|].
    split_and!; try done.
    left. split; [apply heappush_perm|]. rewrite HL2.
    by destruct (decide (D = [])).
  - apply Nat.eqb_neq in Hz. cbn in Hz.
    eexists s1, _, q, L. split; [done|].
    split_and!; try done.
    right. split; [done|]. rewrite HL2.
    destruct (decide (D = [])) as [->|]; [done|done].
Qed.

(** ** The eviction loops *)

Lemma evicted_refl s t : good s t → evicted s t [] s t.
Proof.
  intros Hg.
  split; [done|done|done|done|constructor|apply same_payload_refl|simpl; lia].
Qed.

Lemma evicted_step s t x s1 t1 new s' t' :
  ids t ≡ₚ x :: ids t1 → x ≠ root_node s → lock_of (objs s) x ≤ 0 →
  root_node s1 = root_node s → disable s1 = disable s →
  same_payload (objs s) (objs s1) →
  evictable_size_ s1 = evictable_size_ s - len (value_of (objs s) x) →
  evicted s1 t1 new s' t' →
  evicted s t ((x, value_of (objs s) x) :: new) s' t'.
Proof.
  intros Hids Hxr Hxl Hr Hd Hpay He []. split.
  - done.
  - congruence.
  - congruence.
  - simpl. by rewrite Hids, ev_ids0.
  - constructor; [done|]. eapply Forall_impl; [exact ev_log0|].
    intros [y v] (Hv & Hl & Hy). simpl in *. destruct (Hpay y) as (<- & <- & _).
    by rewrite <- Hr.
  - by eapply same_payload_trans.
  - simpl. rewrite ev_evictable0, He. lia.
Qed.

Lemma evicted_Inv s t new s' t' :
  evicted s t new s' t' → good s t → Inv s → Inv s'.
Proof.
  intros [] Hg HI. destruct (Inv_elim s t HI Hg) as [Hl Hacc].
  apply (Inv_intro s' t' ev_good0).
  - intros m Hm. destruct (ev_payload0 m) as (_ & -> & _). apply Hl.
    rewrite ev_ids0. apply elem_of_app. auto.
  - rewrite ev_evictable0, Hacc.
    rewrite (sumZ_perm _ _ _ ev_ids0), sumZ_app.
    rewrite (sumZ_ext (weight (objs s')) (weight (objs s)) (ids t'))
      by (intros; by apply same_payload_weight).
    assert (sumZ (weight (objs s)) (map fst new)
            = sumZ (fun e => len (snd e)) new) as ->; [|lia].
    assert (∀ e, e ∈ new → fst e ∈ ids t) as Hin.
    { intros e He. rewrite ev_ids0. apply elem_of_app. left.
      apply list_elem_of_fmap. eauto. }
    clear ev_ids0 ev_evictable0.
    induction ev_log0 as [|e l (Hv & Hle & _) _ IH]; [done|]. simpl.
    rewrite IH by (intros; by apply Hin, list_elem_of_further).
    f_equal. unfold weight. rewrite Hv.
    specialize (Hl _ (Hin e (list_elem_of_here _ _))).
    destruct (Z.eqb_spec (lock_of (objs s) e.1) 0); [done|lia].
Qed.

Lemma victim_step s t leaves x rest :
  good s t → NoDup leaves → leaves ≡ₚ x :: rest →
  (∀ y, y ∈ leaves → y ∈ sh_leaves t) → x ≠ root_node s →
  ∃ s1 leaves1,
    evict_leaf s rest x = Ok (leaves1, s1) ∧
    good s1 (sh_remove x t) ∧ NoDup leaves1 ∧
    (∀ y, y ∈ leaves1 → y ∈ sh_leaves (sh_remove x t)) ∧
    (length leaves1 + links s1 < length leaves + links s)%nat ∧
    ids t ≡ₚ x :: ids (sh_remove x t) ∧
    same_cache s s1 ∧ same_payload (objs s) (objs s1) ∧
    evictable_size_ s1 = evictable_size_ s - len (value_of (objs s) x) ∧
    ((∀ y, y ∈ sh_leaves t → y ∈ leaves ∨ 0 < lock_of (objs s) y) →
     ∀ y, y ∈ sh_leaves (sh_remove x t) →
          y ∈ leaves1 ∨ 0 < lock_of (objs s1) y).
Proof.
  intros Hg Hnd Hperm Hsub Hxr.
  pose proof Hg as (_ & Ht & Hndt & _).
  assert (x ∈ sh_leaves t) as Hxl.
  { apply Hsub. rewrite Hperm. apply list_elem_of_here. }
  destruct (evict_leaf_ok s t rest x Hg Hxl Hxr)
    as (s1 & leaves1 & q & L & Hrun & Hg1 & Hids & HL & Hq & Hqc & Hcase & He
        & Hc & Hlinks & Hpay).
  rewrite Hperm in Hnd. apply NoDup_cons in Hnd as [Hxrest Hndr].
  pose proof (sh_leaves_nodup t Hndt) as HndL. rewrite HL in HndL.
  apply NoDup_cons in HndL as [HxL HndL].
  assert (∀ y, y ∈ rest → y ∈ L) as HrestL.
  { intros y Hy. assert (y ∈ sh_leaves t) as Hyl.
    { apply Hsub. rewrite Hperm. by apply list_elem_of_further. }
    rewrite HL in Hyl. apply elem_of_cons in Hyl as [->|?]; done. }
  assert (q ∉ rest) as Hqrest.
  { intros Hqr. assert (q ∈ sh_leaves t) as Hql.
    { apply Hsub. rewrite Hperm. by apply list_elem_of_further. }
    destruct (leaf_no_children _ _ _ _ Ht Hql) as (qnd & Hqn & Hqe).
    apply Hqc. unfold children_of. by rewrite Hqn. }
  assert (length leaves = S (length rest)) as Hlen by (by rewrite Hperm).
  exists s1, leaves1. split; [done|].
  destruct Hcase as [[Hl1 HL1]|[-> HL1]].
  - split_and!; try done.
    + rewrite Hl1. by apply NoDup_cons.
    + intros y. rewrite Hl1, HL1, !elem_of_cons. intros [?|?]; auto.
    + rewrite Hl1. simpl. lia.
    + intros Hcomp y. rewrite HL1, Hl1, !elem_of_cons. intros [->|Hy]; [auto|].
      destruct (Hcomp y) as [Hyl|Hpin].
      * rewrite HL. by apply list_elem_of_further.
      * rewrite Hperm in Hyl. apply elem_of_cons in Hyl as [->|?]; [done|auto].
      * right. by destruct (Hpay y) as (_ & -> & _).
  - split_and!; try done.
    + intros y Hy. rewrite HL1. auto.
    + lia.
    + intros Hcomp y. rewrite HL1. intros Hy.
      destruct (Hcomp y) as [Hyl|Hpin].
      * rewrite HL. by apply list_elem_of_further.
      * rewrite Hperm in Hyl. apply elem_of_cons in Hyl as [->|?]; [done|auto].
      * right. by destruct (Hpay y) as (_ & -> & _).
Qed.

Lemma evict_loop_ok num_tokens fuel s t leaves num log :
  good s t → NoDup leaves → (∀ y, y ∈ leaves → y ∈ sh_leaves t) →
  (length leaves + links s ≤ fuel)%nat →
  ∃ new s' t',
    evict_loop fuel s num_tokens leaves num log
      = Ok (num + sumZ (fun e => len (snd e)) new, log ++ new, s') ∧
    evicted s t new s' t' ∧ same_cache s s' ∧
    ((∀ y, y ∈ sh_leaves t → y ∈ leaves ∨ 0 < lock_of (objs s) y) →
     num_tokens ≤ num + sumZ (fun e => len (snd e)) new ∨
     ids t' = [root_node s] ∨
     ∀ y, y ∈ sh_leaves t' → 0 < lock_of (objs s') y).
Proof.
  revert s t leaves num log.
  induction fuel as [|fuel IH]; intros s t leaves num log Hg Hnd Hsub Hfuel.
  - destruct leaves; [|simpl in Hfuel; lia].
    exists [], s, t. simpl. rewrite Z.add_0_r, app_nil_r, andb_false_r.
    split_and!; [done|by apply evicted_refl|apply same_cache_refl|].
    intros Hcomp. right. right. intros y Hy.
    destruct (Hcomp y Hy) as [[]%elem_of_nil|?]; done.
  - cbn [evict_loop].
    destruct ((num <? num_tokens) && (0 <? length leaves)%nat) eqn:Hcond.
    2:{ exists [], s, t. simpl. rewrite Z.add_0_r, app_nil_r.
        split_and!; [done|by apply evicted_refl|apply same_cache_refl|].
        intros Hcomp. apply andb_false_iff in Hcond as [Hc|Hc].
        - left. apply Z.ltb_ge in Hc. lia.
        - right. right. apply Nat.ltb_ge in Hc.
          destruct leaves; [|simpl in Hc; lia]. intros y Hy.
          destruct (Hcomp y Hy) as [[]%elem_of_nil|?]; done. }
    apply andb_true_iff in Hcond as [_ Hne]. apply Nat.ltb_lt in Hne.
    destruct (heappop_is_Some (node_lt s) leaves) as [[x rest] Hpop].
    { by destruct leaves; [simpl in Hne; lia|]. }
    rewrite Hpop. cbn [of_option bind].
    pose proof (heappop_perm _ _ _ _ Hpop) as Hperm.
    assert (x ∈ sh_leaves t) as Hxl.
    { apply Hsub. rewrite Hperm. apply list_elem_of_here. }
    pose proof Hg as (Hid & Ht & Hndt & _).
    assert (length leaves = S (length rest)) as Hlen by (by rewrite Hperm).
    destruct (Nat.eqb_spec x (root_node s)) as [->|Hxr].
    { exists [], s, t. simpl. rewrite Z.add_0_r, app_nil_r.
      split_and!; [done|by apply evicted_refl|apply same_cache_refl|].
      intros _. right. left. rewrite <- Hid in *. by apply root_leaf_only. }
    destruct (leaf_no_children _ _ _ _ Ht Hxl) as (xnd & Hx & Hleaf).
    unfold get_node at 1. rewrite Hx. cbn [of_option bind].
    pose proof Hnd as Hnd'. rewrite Hperm in Hnd'.
    apply NoDup_cons in Hnd' as [Hxrest Hndr].
    destruct (0 <? lock_ref xnd) eqn:Hlock.
    + apply Z.ltb_lt in Hlock.
      destruct (IH s t rest num log Hg Hndr) as (new & s' & t' & Hrun & Hev & Hc & Hex).
      { intros y Hy. apply Hsub. rewrite Hperm. by apply list_elem_of_further. }
      { lia. }
      exists new, s', t'. split_and!; try done.
      intros Hcomp. apply Hex. intros y Hy. destruct (Hcomp y Hy) as [Hyl|?]; [|auto].
      rewrite Hperm in Hyl. apply elem_of_cons in Hyl as [->|?]; [|auto].
      right. unfold lock_of. by rewrite Hx.
    + apply Z.ltb_ge in Hlock.
      destruct (victim_step s t leaves x rest Hg Hnd Hperm Hsub Hxr)
        as (s1 & leaves1 & Hleaf1 & Hg1 & Hnd1 & Hsub1 & Hmeas & Hids & Hc1
            & Hpay & He1 & Hcomp1).
      rewrite Hleaf1. cbn [bind].
      destruct (IH s1 (sh_remove x t) leaves1 (num + len (value xnd))
                  (log ++ [(x, value xnd)]) Hg1 Hnd1 Hsub1)
        as (new & s' & t' & Hrun & Hev & Hc & Hex); [lia|].
      assert (value_of (objs s) x = value xnd) as Hvx.
      { unfold value_of. by rewrite Hx. }
      exists ((x, value xnd) :: new), s', t'. split_and!.
      * rewrite Hrun. simpl. rewrite <- app_assoc. simpl.
        do 3 f_equal. lia.
      * rewrite <- Hvx. destruct Hc1 as (? & ? & _).
        eapply evicted_step; eauto. unfold lock_of. by rewrite Hx.
      * by eapply same_cache_trans.
      * intros Hcomp. destruct (Hex (Hcomp1 Hcomp)) as [?|[?|?]].
        -- left. simpl. lia.
        -- right. left. destruct Hc1 as (<- & _). done.
        -- auto.
Qed.

Lemma good_ext s1 s2 t :
  objs s2 = objs s1 → root_node s2 = root_node s1 → good s1 t → good s2 t.
Proof. unfold good. intros -> ->. done. Qed.

Lemma evicted_ext s1 s2 s1' s2' t new t' :
  objs s2 = objs s1 → root_node s2 = root_node s1 →
  disable s2 = disable s1 → evictable_size_ s2 = evictable_size_ s1 →
  objs s2' = objs s1' → root_node s2' = root_node s1' →
  disable s2' = disable s1' → evictable_size_ s2' = evictable_size_ s1' →
  evicted s1 t new s1' t' → evicted s2 t new s2' t'.
Proof.
  intros Ho Hr Hd He Ho' Hr' Hd' He' []. split.
  - by eapply good_ext.
  - congruence.
  - congruence.
  - done.
  - by rewrite Ho, Hr.
  - by rewrite Ho, Ho'.
  - congruence.
Qed.

Lemma evict_ok s t num_tokens wait_tensor :
  good s t → disable s = false →
  ∃ log s' t',
    evict s num_tokens wait_tensor = Ok (log, s') ∧
    evicted s t log s' t' ∧
    (num_tokens ≤ sumZ (fun e => len (snd e)) log ∨
     ids t' = [root_node s] ∨
     ∀ y, y ∈ sh_leaves t' → 0 < lock_of (objs s') y).
Proof.
  intros Hg Hdis. unfold evict. cbn [enter_evict disable]. rewrite Hdis.
  assert (good (enter_evict s) t) as Hg0 by (by eapply good_ext).
  destruct (_collect_leaves_ok _ _ Hg0) as (l & Hl & Hperm).
  rewrite Hl. cbn [bind].
  set (leaves := heapify _ l).
  assert (leaves ≡ₚ sh_leaves t) as Hperm'.
  { unfold leaves. by rewrite heapify_perm. }
  pose proof Hg as (_ & _ & Hnd & _).
  destruct (evict_loop_ok num_tokens (length leaves + links (enter_evict s))
              (enter_evict s) t leaves 0 [] Hg0)
    as (new & s' & t' & Hrun & Hev & Hc & Hex).
  { rewrite Hperm'. by apply sh_leaves_nodup. }
  { intros y. by rewrite Hperm'. }
  { done. }
  rewrite Hrun. cbn [bind]. rewrite app_nil_l.
  exists new, (leave_evict (0 + sumZ (fun e => len (snd e)) new) s'), t'.
  split_and!; [done| |].
  - eapply evicted_ext; [..|exact Hev]; done.
  - rewrite Z.add_0_l in Hex. apply Hex. intros y. rewrite Hperm'. auto.
Qed.

Lemma evict1_loop_ok num_tokens w fuel s t leaves num log :
  good s t → NoDup leaves → (∀ y, y ∈ leaves → y ∈ sh_leaves t) →
  (length leaves + links s ≤ fuel)%nat →
  ∃ new s' t',
    evict1_loop fuel s num_tokens (Some w) leaves num log
      = Ok (num + sumZ (fun e => len (snd e)) new, log ++ new, s') ∧
    evicted s t new s' t' ∧ same_cache s s' ∧
    Forall (fun e => fst e ∉ w) new.
Proof.
  revert s t leaves num log.
  induction fuel as [|fuel IH]; intros s t leaves num log Hg Hnd Hsub Hfuel.
  - destruct leaves; [|simpl in Hfuel; lia].
    exists [], s, t. simpl. rewrite Z.add_0_r, app_nil_r, andb_false_r.
    split_and!; [done|by apply evicted_refl|apply same_cache_refl|done].
  - cbn [evict1_loop].
    destruct ((num <? num_tokens) && (0 <? length leaves)%nat) eqn:Hcond.
    2:{ exists [], s, t. simpl. rewrite Z.add_0_r, app_nil_r.
        split_and!; [done|by apply evicted_refl|apply same_cache_refl|done]. }
    apply andb_true_iff in Hcond as [_ Hne]. apply Nat.ltb_lt in Hne.
    destruct (heappop_is_Some (node_lt s) leaves) as [[x rest] Hpop].
    { by destruct leaves; [simpl in Hne; lia|]. }
    rewrite Hpop. cbn [of_option bind].
    pose proof (heappop_perm _ _ _ _ Hpop) as Hperm.
    assert (x ∈ sh_leaves t) as Hxl.
    { apply Hsub. rewrite Hperm. apply list_elem_of_here. }
    pose proof Hg as (Hid & Ht & Hndt & _).
    assert (length leaves = S (length rest)) as Hlen by (by rewrite Hperm).
    destruct (Nat.eqb_spec x (root_node s)) as [->|Hxr].
    { exists [], s, t. simpl. rewrite Z.add_0_r, app_nil_r.
      split_and!; [done|by apply evicted_refl|apply same_cache_refl|done]. }
    destruct (leaf_no_children _ _ _ _ Ht Hxl) as (xnd & Hx & Hleaf).
    unfold get_node at 1. rewrite Hx. cbn [of_option bind].
    pose proof Hnd as Hnd'. rewrite Hperm in Hnd'.
    apply NoDup_cons in Hnd' as [Hxrest Hndr].
    assert (∀ y, y ∈ rest → y ∈ sh_leaves t) as Hsubr.
    { intros y Hy. apply Hsub. rewrite Hperm. by apply list_elem_of_further. }
    destruct (0 <? lock_ref xnd) eqn:Hlock.
    { destruct (IH s t rest num log Hg Hndr Hsubr) as (new & s' & t' & H);
        [lia|]. by exists new, s', t'. }
    apply Z.ltb_ge in Hlock.
    destruct (existsb (Nat.eqb x) w) eqn:Hw; cbn [negb].
    { destruct (IH s t rest num log Hg Hndr Hsubr) as (new & s' & t' & H);
        [lia|]. by exists new, s', t'. }
    destruct (victim_step s t leaves x rest Hg Hnd Hperm Hsub Hxr)
      as (s1 & leaves1 & Hleaf1 & Hg1 & Hnd1 & Hsub1 & Hmeas & Hids & Hc1
          & Hpay & He1 & _).
    rewrite Hleaf1. cbn [bind].
    destruct (IH s1 (sh_remove x t) leaves1 (num + len (value xnd))
                (log ++ [(x, value xnd)]) Hg1 Hnd1 Hsub1)
      as (new & s' & t' & Hrun & Hev & Hc & Hres); [lia|].
    assert (value_of (objs s) x = value xnd) as Hvx.
    { unfold value_of. by rewrite Hx. }
    exists ((x, value xnd) :: new), s', t'. split_and!.
    + rewrite Hrun. simpl. rewrite <- app_assoc. simpl.
      do 3 f_equal. lia.
    + rewrite <- Hvx. destruct Hc1 as (? & ? & _).
      eapply evicted_step; eauto. unfold lock_of. by rewrite Hx.
    + by eapply same_cache_trans.
    + constructor; [|done]. simpl. intros Hin.
      assert (existsb (Nat.eqb x) w = true); [|congruence].
      apply existsb_exists. exists x. split; [by apply list_elem_of_In|].
      apply Nat.eqb_refl.
Qed.

Lemma evict1_ok s t num_tokens w :
  good s t → disable s = false →
  ∃ log s' t',
    evict1 s num_tokens (Some w) = Ok (log, s') ∧
    evicted s t log s' t' ∧ Forall (fun e => fst e ∉ w) log.
Proof.
  intros Hg Hdis. unfold evict1. cbn [enter_evict disable]. rewrite Hdis.
  assert (good (enter_evict s) t) as Hg0 by (by eapply good_ext).
  destruct (_collect_leaves_ok _ _ Hg0) as (l & Hl & Hperm).
  rewrite Hl. cbn [bind].
  pose proof Hg as (_ & _ & Hnd & _).
  destruct (evict1_loop_ok num_tokens w (length l + links (enter_evict s))
              (enter_evict s) t l 0 [] Hg0)
    as (new & s' & t' & Hrun & Hev & Hc & Hres).
  { rewrite Hperm. by apply sh_leaves_nodup. }
  { intros y. by rewrite Hperm. }
  { done. }
  rewrite Hrun. cbn [bind]. rewrite app_nil_l.
  exists new, (leave_evict (0 + sumZ (fun e => len (snd e)) new) s'), t'.
  split_and!; [done| |done].
  eapply evicted_ext; [..|exact Hev]; done.
Qed.

Lemma evict1_loop_None num_tokens fuel s leaves log x0 :
  1 ≤ num_tokens → x0 ∈ leaves → lock_of (objs s) x0 ≤ 0 →
  root_node s ∉ leaves → (∀ y, y ∈ leaves → is_Some (objs s !! y)) →
  (length leaves ≤ fuel)%nat →
  evict1_loop fuel s num_tokens None leaves 0 log = Raise TypeError.
Proof.
  intros Hnum. revert leaves.
  induction fuel as [|fuel IH]; intros leaves Hx0 Hlock Hroot Hsome Hfuel.
  { destruct leaves; [by apply elem_of_nil in Hx0|simpl in Hfuel; lia]. }
  cbn [evict1_loop].
  assert ((0 <? num_tokens) = true) as -> by (apply Z.ltb_lt; lia).
  assert ((0 <? length leaves)%nat = true) as ->.
  { apply Nat.ltb_lt. destruct leaves; [by apply elem_of_nil in Hx0|simpl; lia]. }
  cbn [andb].
  destruct (heappop_is_Some (node_lt s) leaves) as [[x rest] Hpop].
  { intros ->. by apply elem_of_nil in Hx0. }
  rewrite Hpop. cbn [of_option bind].
  pose proof (heappop_perm _ _ _ _ Hpop) as Hperm.
  assert (length leaves = S (length rest)) as Hlen by (by rewrite Hperm).
  destruct (Nat.eqb_spec x (root_node s)) as [->|Hxr].
  { exfalso. apply Hroot. rewrite Hperm. apply list_elem_of_here. }
  destruct (Hsome x) as [xnd Hx].
  { rewrite Hperm. apply list_elem_of_here. }
  unfold get_node. rewrite Hx. cbn [of_option bind].
  destruct (0 <? lock_ref xnd) eqn:Hl; [|done].
  apply Z.ltb_lt in Hl. apply IH; try done.
  - rewrite Hperm in Hx0. apply elem_of_cons in Hx0 as [->|?]; [|done].
    unfold lock_of in Hlock. rewrite Hx in Hlock. lia.
  - intros Hin. apply Hroot. rewrite Hperm. by apply list_elem_of_further.
  - intros y Hy. apply Hsome. rewrite Hperm. by apply list_elem_of_further.
  - lia.
Qed.

(** Without its reserved list [evict1] frees nothing: it either pops only
    pinned leaves (or the root) and returns, or raises at the membership
    test. *)
Lemma evict1_loop_unreserved num_tokens fuel s t leaves num log :
  good s t → (∀ y, y ∈ leaves → y ∈ sh_leaves t) →
  (length leaves ≤ fuel)%nat →
  evict1_loop fuel s num_tokens None leaves num log = Ok (num, log, s) ∨
  evict1_loop fuel s num_tokens None leaves num log = Raise TypeError.
Proof.
  intros Hg. pose proof Hg as (_ & Ht & _).
  revert leaves. induction fuel as [|fuel IH]; intros leaves Hsub Hfuel.
  - destruct leaves; [|simpl in Hfuel; lia].
    left. simpl. by rewrite andb_false_r.
  - cbn [evict1_loop].
    destruct ((num <? num_tokens) && (0 <? length leaves)%nat) eqn:Hcond;
      [|by left].
    apply andb_true_iff in Hcond as [_ Hne]. apply Nat.ltb_lt in Hne.
    destruct (heappop_is_Some (node_lt s) leaves) as [[x rest] Hpop].
    { by destruct leaves; [simpl in Hne; lia|]. }
    rewrite Hpop. cbn [of_option bind].
    pose proof (heappop_perm _ _ _ _ Hpop) as Hperm.
    assert (length leaves = S (length rest)) as Hlen by (by rewrite Hperm).
    destruct (Nat.eqb_spec x (root_node s)) as [->|Hxr]; [by left|].
    assert (x ∈ sh_leaves t) as Hxl.
    { apply Hsub. rewrite Hperm. apply list_elem_of_here. }
    destruct (leaf_no_children _ _ _ _ Ht Hxl) as (xnd & Hx & _).
    unfold get_node. rewrite Hx. cbn [of_option bind].
    destruct (0 <? lock_ref xnd); [|by right].
    apply IH; [|lia].
    intros y Hy. apply Hsub. rewrite Hperm. by apply list_elem_of_further.
Qed.

Lemma evict1_unreserved s t num_tokens :
  good s t → disable s = false →
  evict1 s num_tokens None = Ok ([], leave_evict 0 (enter_evict s)) ∨
  evict1 s num_tokens None = Raise TypeError.
Proof.
  intros Hg Hdis. unfold evict1. cbn [enter_evict disable]. rewrite Hdis.
  assert (good (enter_evict s) t) as Hg0 by (by eapply good_ext).
  destruct (_collect_leaves_ok _ _ Hg0) as (l & Hl & Hperm).
  rewrite Hl. cbn [bind].
  destruct (evict1_loop_unreserved num_tokens
              (length l + links (enter_evict s)) (enter_evict s) t l 0 [] Hg0)
    as [-> | ->]; [by intros y; rewrite Hperm|lia|by left|by right].
Qed.

Lemma Inv_ext s1 s2 :
  objs s2 = objs s1 → root_node s2 = root_node s1 →
  evictable_size_ s2 = evictable_size_ s1 → Inv s1 → Inv s2.
Proof.
  intros Ho Hr He ((t & Hg) & Hl & Ha).
  destruct (Inv_elim s1 t) as [Hl' Ha']; [by split_and!; [exists t|..]|done|].
  apply (Inv_intro s2 t).
  - by eapply good_ext.
  - by rewrite Ho.
  - by rewrite Ho, He.
Qed.

Section run_proofs.
Variable clock : nat → Z.

Lemma inc_lock_ref_Inv s n :
  Inv s → n ∈ tree_nodes s →
  ∃ d s', inc_lock_ref s n = Ok (d, s') ∧ Inv s'.
Proof.
  intros HI Hn. unfold inc_lock_ref. destruct (disable s); [eauto|].
  pose proof HI as ((t & Hg) & _). rewrite (tree_nodes_ids s t Hg) in Hn.
  destruct (path_in_tree s t n Hg Hn) as (path & Hpath & Hnp & Hin).
  destruct (inc_lock_ref_loop_ok _ s n 0 path Hpath)
    as (d & s' & Hrun & _ & _ & _ & HInv).
  destruct (Inv_elim s t HI Hg) as [Hl Ha].
  destruct (HInv t Hg) as (Hg' & Hl' & Ha'); [by intros m Hm; apply Hin|done..|].
  rewrite Hrun. eexists _, _. split; [done|]. by eapply Inv_intro.
Qed.

Lemma dec_lock_ref_Inv s n :
  Inv s → n ∈ tree_nodes s →
  Forall (fun m => 1 ≤ lock_of (objs s) m) (pin_path s n) →
  ∃ d s', dec_lock_ref s n = Ok (d, s') ∧ Inv s'.
Proof.
  intros HI Hn Hpin. unfold dec_lock_ref. destruct (disable s); [eauto|].
  pose proof HI as ((t & Hg) & _). rewrite (tree_nodes_ids s t Hg) in Hn.
  destruct (path_in_tree s t n Hg Hn) as (path & Hpath & Hnp & Hin).
  unfold pin_path in Hpin. rewrite Hpath in Hpin. simpl in Hpin.
  destruct (dec_lock_ref_loop_ok _ s n 0 path Hpath)
    as (d & s' & Hrun & _ & _ & _ & HInv).
  destruct (Inv_elim s t HI Hg) as [Hl Ha].
  destruct (HInv t Hg) as (Hg' & Hl' & Ha');
    [by intros m Hm; apply Hin|done|by apply Forall_forall|done..|].
  rewrite Hrun. eexists _, _. split; [done|]. by eapply Inv_intro.
Qed.

Lemma evict_Inv s num_tokens w :
  Inv s → ∃ log s', evict s num_tokens w = Ok (log, s') ∧ Inv s'.
Proof.
  intros HI. destruct (disable s) eqn:Hdis.
  { unfold evict. cbn [enter_evict disable]. rewrite Hdis.
    eexists _, _. split; [done|]. by eapply Inv_ext; [..|exact HI]. }
  pose proof HI as ((t & Hg) & _).
  destruct (evict_ok s t num_tokens w Hg Hdis) as (log & s' & t' & Hrun & Hev & _).
  eexists _, _. split; [done|]. by eapply evicted_Inv.
Qed.

Lemma evict1_Inv s num_tokens w :
  Inv s → ∃ log s', evict1 s num_tokens (Some w) = Ok (log, s') ∧ Inv s'.
Proof.
  intros HI. destruct (disable s) eqn:Hdis.
  { unfold evict1. cbn [enter_evict disable]. rewrite Hdis.
    eexists _, _. split; [done|]. by eapply Inv_ext; [..|exact HI]. }
  pose proof HI as ((t & Hg) & _).
  destruct (evict1_ok s t num_tokens w Hg Hdis) as (log & s' & t' & Hrun & Hev & _).
  eexists _, _. split; [done|]. by eapply evicted_Inv.
Qed.

Lemma evict1_unreserved_Inv s num_tokens :
  Inv s →
  (∃ log s', evict1 s num_tokens None = Ok (log, s') ∧ Inv s') ∨
  evict1 s num_tokens None = Raise TypeError.
Proof.
  intros HI. destruct (disable s) eqn:Hdis.
  { left. unfold evict1. cbn [enter_evict disable]. rewrite Hdis.
    eexists _, _. split; [done|]. by eapply Inv_ext; [..|exact HI]. }
  pose proof HI as ((t & Hg) & _).
  destruct (evict1_unreserved s t num_tokens Hg Hdis) as [-> | ->];
    [left|by right].
  eexists _, _. split; [done|]. by eapply Inv_ext; [..|exact HI].
Qed.

(** An operation called within [op_pre] on a cache that satisfies the
    invariant returns and keeps the invariant; the one exception is the
    [TypeError] of an [evict1] without its reserved list. *)
Lemma run_op_Inv s o :
  Inv s → op_pre s o →
  (∃ s', run_op clock s o = Ok s' ∧ Inv s') ∨
  (run_op clock s o = Raise TypeError ∧ ∃ num, o = Evict1 num None).
Proof.
  intros HI Hpre. destruct o as [k v|k|n|n|num w|num w|]; cbn [run_op op_pre] in *.
  - left. destruct v as [v|]; [|done]. destruct (disable s) eqn:Hdis.
    + unfold insert. rewrite Hdis. cbn. eauto.
    + destruct (insert_Inv clock s k (Some v) HI Hdis)
        as (r & s' & -> & HI' & _); [done|]. cbn. eauto.
  - left.
    destruct (match_prefix_Inv clock s k HI) as (vals & last & s' & -> & HI' & _).
    cbn. eauto.
  - left. destruct (inc_lock_ref_Inv s n HI Hpre) as (d & s' & -> & HI').
    cbn. eauto.
  - left. destruct Hpre as [Hn Hpin].
    destruct (dec_lock_ref_Inv s n HI Hn Hpin) as (d & s' & -> & HI').
    cbn. eauto.
  - left. destruct (evict_Inv s num w HI) as (log & s' & -> & HI'). cbn. eauto.
  - destruct w as [w|].
    + left. destruct (evict1_Inv s num w HI) as (log & s' & -> & HI').
      cbn. eauto.
    + destruct (evict1_unreserved_Inv s num HI) as [(log & s' & -> & HI')| ->].
      * left. cbn. eauto.
      * right. cbn. eauto.
  - left. eexists. split; [done|]. apply reset_Inv.
Qed.

(** Along a run of operations called within [op_pre], a property that each
    returning operation keeps holds at the end, next to the invariant; the
    run stops early only with the [TypeError] of an [evict1] without its
    reserved list. *)
Lemma run_ops_keeps (P : RadixCache → Prop) s ops :
  (∀ s o s', Inv s → P s → op_pre s o → run_op clock s o = Ok s' → P s') →
  Inv s → P s → valid clock s ops →
  (∃ s', run_ops clock s ops = Ok s' ∧ Inv s' ∧ P s') ∨
  (run_ops clock s ops = Raise TypeError ∧ ∃ num, Evict1 num None ∈ ops).
Proof.
  intros HP. revert s. induction ops as [|o ops IH]; intros s HI Hs Hv.
  { left. by exists s. }
  destruct Hv as [Hpre Hv]. cbn [run_ops].
  destruct (run_op_Inv s o HI Hpre) as [(s1 & Hrun & HI1)|(Hrun & num & ->)].
  - rewrite Hrun. cbn [bind].
    destruct (IH s1 HI1 (HP s o s1 HI Hs Hpre Hrun) (Hv s1 Hrun))
      as [H|(Hr & num & Hin)]; [by left|].
    right. split; [done|]. exists num. by apply list_elem_of_further.
  - right. rewrite Hrun. split; [done|]. exists num. apply list_elem_of_here.
Qed.

Lemma valid_app s ops1 ops2 :
  valid clock s (ops1 ++ ops2) → valid clock s ops1.
Proof.
  revert s. induction ops1 as [|o ops1 IH]; intros s; [done|].
  simpl. intros [Hpre Hv]. split; [done|].
  intros s' Hr. apply IH, Hv, Hr.
Qed.

Lemma run_ops_Inv s ops :
  Inv s → valid clock s ops →
  (∃ s', run_ops clock s ops = Ok s' ∧ Inv s') ∨
  (run_ops clock s ops = Raise TypeError ∧ ∃ num, Evict1 num None ∈ ops).
Proof.
  intros HI Hv.
  destruct (run_ops_keeps (fun _ => True) s ops) as [(s' & Hr & HI' & _)|H];
    [done..| |by right].
  left. by exists s'.
Qed.

End run_proofs.

(** ** Auxiliary facts for the claims *)

Lemma same_payload_length st st' : same_payload st st' → length st' = length st.
Proof.
  intros H. apply Nat.le_antisymm.
  - apply Nat.nlt_ge. intros Hlt. destruct (H (length st)) as (_ & _ & Hp).
    rewrite (lookup_ge_None_2 st) in Hp by lia.
    destruct (lookup_lt_is_Some_2 st' (length st) Hlt) as [x Hx].
    by rewrite Hx in Hp.
  - apply Nat.nlt_ge. intros Hlt. destruct (H (length st')) as (_ & _ & Hp).
    rewrite (lookup_ge_None_2 st') in Hp by lia.
    destruct (lookup_lt_is_Some_2 st (length st') Hlt) as [x Hx].
    by rewrite Hx in Hp.
Qed.

Lemma sumZ_nonneg {A} (f : A → Z) l : (∀ x, 0 ≤ f x) → 0 ≤ sumZ f l.
Proof.
  intros H. induction l as [|a l IH]; simpl; [lia|]. specialize (H a). lia.
Qed.

Lemma sumZ_elem_le {A} (f : A → Z) l x :
  (∀ y, 0 ≤ f y) → x ∈ l → f x ≤ sumZ f l.
Proof.
  intros H Hx. apply list_elem_of_split in Hx as (l1 & l2 & ->).
  rewrite sumZ_app. simpl.
  pose proof (sumZ_nonneg f l1 H). pose proof (sumZ_nonneg f l2 H). lia.
Qed.

Lemma only_root s t :
  good s t → total_values (objs s) (ids t) ≤ 0 → ids t = [root_node s].
Proof.
  intros (Hid & Ht & Hnd & _) Hz. destruct t as [r kids]. cbn [sh_id] in Hid.
  subst r. destruct kids as [|k kids]; [done|]. exfalso.
  assert (sh_id k ∈ ids (Sh (root_node s) (k :: kids))) as Hin.
  { simpl. apply list_elem_of_further, elem_of_app. left. apply sh_id_in_ids. }
  assert (sh_id k ≠ root_node s) as Hne.
  { intros Heq. simpl in Hnd. apply NoDup_cons in Hnd as [Hr _]. apply Hr.
    rewrite <- Heq. apply elem_of_app. left. apply sh_id_in_ids. }
  destruct (tree_parent _ _ _ _ Ht Hin Hne) as (xnd & _ & _ & Hx & _ & _ & _ & Hkv & Hpos).
  pose proof (sumZ_elem_le (fun n => len (value_of (objs s) n)) _ _
                ltac:(intros; unfold len; lia) Hin) as Hle.
  unfold total_values in Hz. unfold value_of at 1 in Hle. rewrite Hx in Hle.
  unfold len in Hle at 1. lia.
Qed.

Lemma Inv_after_ops ops :
  valid ex_clock ex_fresh ops → Inv (after_ops ops).
Proof.
  intros Hv. unfold after_ops.
  destruct (run_ops_Inv ex_clock ex_fresh ops) as [(s' & -> & HI)|[-> _]];
    [apply __init___Inv|done|done|apply __init___Inv].
Qed.

Lemma ex_one_Inv : Inv ex_one.
Proof. apply Inv_after_ops. simpl. split; [done|]. done. Qed.

Lemma ex_two_Inv : Inv ex_two.
Proof.
  apply Inv_after_ops. simpl. split; [done|]. intros s' [= <-].
  split; [done|]. done.
Qed.

(** ** What the claims need of insertion and eviction *)

Lemma same_but_time_value st st' n :
  same_but_time st st' → value_of st' n = value_of st n.
Proof.
  intros H. specialize (H n). unfold value_of.
  destruct (st' !! n) as [a|], (st !! n) as [b|]; simpl in H; try done.
  assert (value (set_time 0 a) = value (set_time 0 b)) as E by congruence.
  exact E.
Qed.

Lemma evicted_survivor s t log s' t' n :
  good s t → evicted s t log s' t' → n ∈ ids t → 0 < lock_of (objs s) n →
  n ∈ ids t'.
Proof.
  intros Hg Hev Hn Hl.
  rewrite (ev_ids _ _ _ _ _ Hev) in Hn.
  apply elem_of_app in Hn as [Hn|Hn]; [|done].
  apply list_elem_of_fmap in Hn as (e & -> & He).
  pose proof (ev_log _ _ _ _ _ Hev) as Hlog.
  rewrite Forall_forall in Hlog. destruct (Hlog e He) as (_ & Hle & _). lia.
Qed.

Lemma evicted_not_freed s t log s' t' m :
  good s t → evicted s t log s' t' → m ∈ ids t' → m ∉ map fst log.
Proof.
  intros (_ & _ & Hnd & _) Hev Hm Hin.
  rewrite (ev_ids _ _ _ _ _ Hev) in Hnd.
  apply NoDup_app in Hnd as (_ & Hdis & _). by apply (Hdis m).
Qed.

Lemma evicted_pin_path s t log s' t' n :
  evicted s t log s' t' → pin_path s' n = pin_path s n.
Proof.
  intros Hev. unfold pin_path.
  rewrite (same_payload_length _ _ (ev_payload _ _ _ _ _ Hev)).
  rewrite (ev_root _ _ _ _ _ Hev).
  rewrite (path_to_root_ext _ (objs s) (objs s')); [done|].
  intros m. apply (ev_payload _ _ _ _ _ Hev m).
Qed.

Lemma pin_path_in_tree s t n m :
  good s t → n ∈ ids t → m ∈ n :: pin_path s n → m ∈ ids t.
Proof.
  intros Hg Hn Hm. apply elem_of_cons in Hm as [->|Hm]; [done|].
  destruct (path_in_tree s t n Hg Hn) as (path & Hp & _ & Hin).
  unfold pin_path in Hm. rewrite Hp in Hm. simpl in Hm. by apply Hin.
Qed.

Lemma concat_map_perm {A B} (f : A → list B) (l l' : list A) :
  l ≡ₚ l' → concat (map f l) ≡ₚ concat (map f l').
Proof.
  induction 1 as [|x l l' _ IH|x y l|l l' l'' _ IH1 _ IH2]; simpl.
  - done.
  - by rewrite IH.
  - rewrite !(assoc (++)). by rewrite (comm (++) (f y)).
  - by rewrite IH1.
Qed.

Lemma evicted_log_values s t log s' t' :
  evicted s t log s' t' →
  map (value_of (objs s)) (map fst log) = callback_args log.
Proof.
  intros Hev. pose proof (ev_log _ _ _ _ _ Hev) as Hlog.
  unfold callback_args. clear Hev.
  induction Hlog as [|e l (He & _) _ IH]; simpl; [done|].
  by rewrite IH, He.
Qed.

Lemma evicted_total s t log s' t' :
  evicted s t log s' t' →
  total_values (objs s) (ids t) =
    sumZ (fun e : nat * list Z => len e.2) log +
    total_values (objs s') (ids t').
Proof.
  intros Hev. unfold total_values.
  rewrite (sumZ_perm _ _ _ (ev_ids _ _ _ _ _ Hev)), sumZ_app. f_equal.
  - pose proof (ev_log _ _ _ _ _ Hev) as Hlog. clear Hev.
    induction Hlog as [|e l (He & _) _ IH]; simpl; [done|].
    by rewrite IH, He.
  - apply sumZ_ext. intros m _.
    by destruct (ev_payload _ _ _ _ _ Hev m) as (-> & _).
Qed.

Lemma unpinned_weight s t :
  good s t →
  (∀ n, n ∈ ids t → n ≠ root_node s → lock_of (objs s) n = 0) →
  sumZ (weight (objs s)) (ids t) = total_values (objs s) (ids t).
Proof.
  intros Hg Hl. unfold total_values. apply sumZ_ext. intros m Hm.
  destruct (decide (m = root_node s)) as [->|Hne].
  - rewrite (good_root_weight s t Hg).
    destruct Hg as (_ & _ & _ & ->). done.
  - unfold weight. by rewrite (Hl m Hm Hne).
Qed.

Lemma ex_pinned_Inv : Inv ex_pinned.
Proof.
  apply Inv_after_ops. cbn [valid].
  split; [reflexivity|]. intros s1 H1. vm_compute in H1. injection H1 as <-.
  split; [reflexivity|]. intros s2 H2. vm_compute in H2. injection H2 as <-.
  split; [vm_compute; repeat constructor|]. done.
Qed.

Lemma ex_long_Inv : Inv ex_long.
Proof. apply Inv_after_ops. simpl. split; [done|]. done. Qed.

(** * The claims of the specification *)

(** C1, as stated, fails: after [insert([1], [10])] a [dec_lock_ref] on the
    new (unpinned) leaf takes its [lock_ref] to -1 and leaves
    [evictable_size_] at 1, while no node of the tree has [lock_ref == 0]. *)
Lemma C1_counterexample :
  ¬ ∀ ops s', run_ops ex_clock ex_fresh ops = Ok s' →
              evictable_size_ s' = evictable_sum s'.
Proof.
  intros H.
  specialize (H [Insert [1] (Some [10]); DecLockRef 1%nat]
                (after_ops [Insert [1] (Some [10]); DecLockRef 1%nat])).
  assert (evictable_size_ (after_ops [Insert [1] (Some [10]); DecLockRef 1%nat])
          = evictable_sum (after_ops [Insert [1] (Some [10]); DecLockRef 1%nat]))
    as Heq by (apply H; vm_compute; reflexivity).
  vm_compute in Heq. discriminate.
Qed.

(** The counter also needs live handles: after [insert([1], [10])] and an
    [evict] that frees the leaf, [inc_lock_ref] on the stale handle finds
    [lock_ref == 0] and lowers [evictable_size_] to -1, while the tree is the
    root alone. *)
Lemma stale_handle_breaks_the_counter :
  ∃ s',
    run_ops ex_clock ex_fresh
      [Insert [1] (Some [10]); Evict 1 None; IncLockRef 1%nat] = Ok s' ∧
    tree_nodes s' = [root_node s'] ∧
    evictable_size_ s' = -1 ∧ evictable_sum s' = 0.
Proof.
  eexists. split; [vm_compute; reflexivity|].
  split_and!; vm_compute; reflexivity.
Qed.

(** C1 (amended) — take any sequence of the public operations from a fresh
    cache in which each operation gets what it may assume ([op_pre]: a
    supplied value as long as the key for [insert], a node of the current
    tree for [inc_lock_ref] and [dec_lock_ref], and no unpin below zero).
    Then at every point of the sequence the operations so far have returned
    and [evictable_size_] equals the sum of [|n.value|] over the non-root
    nodes [n] of the tree with [n.lock_ref == 0]; the only other way the
    run can have ended is the [TypeError] of an [evict1] that was called
    without its reserved list. *)
Theorem C1_evictable_size_invariant (clock : nat → Z) (flag0 disable0 : bool)
    (ops : list op) :
  valid clock (__init__ clock flag0 disable0) ops →
  ∀ ops1 ops2, ops = ops1 ++ ops2 →
    (∃ s', run_ops clock (__init__ clock flag0 disable0) ops1 = Ok s' ∧
           evictable_size_ s' = evictable_sum s') ∨
    (run_ops clock (__init__ clock flag0 disable0) ops1 = Raise TypeError ∧
     ∃ num_tokens, Evict1 num_tokens None ∈ ops1).
Proof.
  intros Hv ops1 ops2 ->. apply valid_app in Hv.
  destruct (run_ops_Inv clock _ ops1 (__init___Inv clock flag0 disable0) Hv)
    as [(s' & Hrun & _ & _ & Ha)|Hraise].
  - left. by exists s'.
  - by right.
Qed.

Lemma C1_evictable_size_invariant_witness :
  valid ex_clock (__init__ ex_clock false false) ex_unreserved ∧
  ∃ s', run_ops ex_clock (__init__ ex_clock false false) ex_unreserved
          = Ok s' ∧
        evictable_size_ s' = evictable_sum s'.
Proof.
  assert (valid ex_clock (__init__ ex_clock false false) ex_unreserved) as Hv.
  { unfold ex_unreserved. cbn [valid].
    split; [reflexivity|]. intros s1 H1. vm_compute in H1. injection H1 as <-.
    split; [vm_compute; repeat constructor|].
    intros s2 H2. vm_compute in H2. injection H2 as <-.
    split; [exact I|]. intros s3 H3. vm_compute in H3. injection H3 as <-.
    split.
    { split; [vm_compute; repeat constructor|].
      match goal with |- Forall _ ?l =>
        let l' := eval vm_compute in l in change l with l' end.
      repeat constructor. vm_compute. discriminate. }
    intros s4 H4. vm_compute in H4. injection H4 as <-.
    split; [exact I|]. intros s5 H5. exact I. }
  split; [exact Hv|].
  destruct (C1_evictable_size_invariant ex_clock false false ex_unreserved Hv
              ex_unreserved [] (eq_sym (app_nil_r _))) as [H|[Hr _]];
    [exact H|].
  vm_compute in Hr. discriminate Hr.
Defined.

(** C2 — Scenario 1, split on insert.  On a fresh enabled cache,
    [insert([1,2,3,4], [10,11,12,13])] returns 0 and
    [insert([1,2,5], [20,21,22])] returns 2; the store then holds exactly
    the root, a node [1,2] ↦ [10,11] below it, and the two leaves
    [3,4] ↦ [12,13] and [5] ↦ [22] below that node; [total_size()] is 5 and
    [match_prefix([1,2,3])] returns [10,11,12].  This holds whatever the clock
    reads. *)
Theorem C2_split_on_insert (clock : nat → Z) :
  ∃ s1 s2 s3 last,
    insert clock (__init__ clock false false) [1; 2; 3; 4]
      (Some [10; 11; 12; 13]) = Ok (0%nat, s1) ∧
    insert clock s1 [1; 2; 5] (Some [20; 21; 22]) = Ok (2%nat, s2) ∧
    root_node s2 = 0%nat ∧
    map skel (objs s2) =
      [([(1, 2%nat)], None, [], []);
       ([], Some 2%nat, [3; 4], [12; 13]);
       ([(3, 1%nat); (5, 3%nat)], Some 0%nat, [1; 2], [10; 11]);
       ([], Some 2%nat, [5], [22])] ∧
    tree_nodes s2 = [0; 2; 1; 3]%nat ∧
    total_size s2 = Ok 5 ∧
    match_prefix clock s2 [1; 2; 3] = Ok ([10; 11; 12], last, s3).
Proof.
  set (s0 := __init__ clock false false).
  set (s1 := state_of (insert clock s0 [1; 2; 3; 4] (Some [10; 11; 12; 13])) s0).
  set (s2 := state_of (insert clock s1 [1; 2; 5] (Some [20; 21; 22])) s0).
  exists s1, s2, (state_of (match_prefix clock s2 [1; 2; 3]) s0), 4%nat.
  split_and!; vm_compute; reflexivity.
Qed.

(** C3 — the reserved-set variant does not follow the oldest-first heap
    discipline.  With the leaf [1] (last access 2) older than the leaf [2]
    (last access 4), both unpinned, both candidates and none reserved,
    [evict1(1, cb, [])] hands the newer leaf's value [200] to the callback,
    where the plain [evict(1, cb)] frees the older one; asked for two
    tokens, [evict1] frees the newer leaf before the older one and [evict]
    the older before the newer. *)
Theorem C3_evict1_frees_newer_leaf :
  _collect_leaves ex_two = Ok [2; 1]%nat ∧
  atime ex_two 1 = 2 ∧ atime ex_two 2 = 4 ∧
  lock_of (objs ex_two) 1 = 0 ∧ lock_of (objs ex_two) 2 = 0 ∧
  (∃ s', evict1 ex_two 1 (Some []) = Ok ([(2%nat, [200])], s')) ∧
  (∃ s', evict ex_two 1 None = Ok ([(1%nat, [100])], s')) ∧
  (∃ s', evict1 ex_two 2 (Some []) =
           Ok ([(2%nat, [200]); (1%nat, [100])], s')) ∧
  (∃ s', evict ex_two 2 None = Ok ([(1%nat, [100]); (2%nat, [200])], s')).
Proof.
  split_and!; [vm_compute; reflexivity..| | | |].
  - exists (state_of (evict1 ex_two 1 (Some [])) ex_two).
    vm_compute. reflexivity.
  - exists (state_of (evict ex_two 1 None) ex_two). vm_compute. reflexivity.
  - exists (state_of (evict1 ex_two 2 (Some [])) ex_two).
    vm_compute. reflexivity.
  - exists (state_of (evict ex_two 2 None) ex_two). vm_compute. reflexivity.
Qed.

(** C4 — [evict] never frees a pinned node, and pinned paths survive.  On
    every well-formed cache, for every [num_tokens] and whatever is passed
    as [wait_tensor], [evict] returns; every value handed to the callback is
    the value of a node whose [lock_ref] is not positive; and for every node
    [n] of the tree with [lock_ref > 0], [n] and every node on the path from
    [n] up to the root is not freed, is still in the tree afterwards and
    keeps its value and its [lock_ref]. *)
Theorem C4_evict_spares_pinned (s : RadixCache) (num : Z)
    (w : option (list nat)) :
  wf s →
  ∃ log s',
    evict s num w = Ok (log, s') ∧
    (∀ x v, (x, v) ∈ log →
            v = value_of (objs s) x ∧ lock_of (objs s) x ≤ 0) ∧
    (∀ n, n ∈ tree_nodes s → 0 < lock_of (objs s) n →
       ∀ m, m ∈ n :: pin_path s n →
            (m ∉ map fst log) ∧ m ∈ tree_nodes s' ∧
            value_of (objs s') m = value_of (objs s) m ∧
            lock_of (objs s') m = lock_of (objs s) m).
Proof.
  intros [t Hg]. destruct (disable s) eqn:Hd.
  - exists [], (enter_evict s). unfold evict. simpl. rewrite Hd.
    split_and!; [done| |].
    + intros x v Hin. by apply elem_of_nil in Hin.
    + intros n Hn Hl m Hm. split_and!; try done.
      * simpl. apply not_elem_of_nil.
      * change (tree_nodes (enter_evict s)) with (tree_nodes s).
        rewrite (tree_nodes_ids s t Hg) in Hn |- *.
        by apply (pin_path_in_tree s t n m).
  - destruct (evict_ok s t num w Hg Hd) as (log & s' & t' & Hr & Hev & _).
    exists log, s'. split_and!; [done| |].
    + intros x v Hin. pose proof (ev_log _ _ _ _ _ Hev) as Hlog.
      rewrite Forall_forall in Hlog. destruct (Hlog _ Hin) as (Hv & Hle & _).
      done.
    + intros n Hn Hl m Hm. rewrite (tree_nodes_ids s t Hg) in Hn.
      pose proof (evicted_survivor _ _ _ _ _ n Hg Hev Hn Hl) as Hn'.
      rewrite <- (evicted_pin_path _ _ _ _ _ n Hev) in Hm.
      pose proof (pin_path_in_tree s' t' n m (ev_good _ _ _ _ _ Hev) Hn' Hm)
        as Hm'.
      destruct (ev_payload _ _ _ _ _ Hev m) as (Hv & Hlk & _).
      split_and!; try done.
      * by apply (evicted_not_freed s t log s' t').
      * by rewrite (tree_nodes_ids s' t' (ev_good _ _ _ _ _ Hev)).
Qed.

Lemma C4_evict_spares_pinned_witness :
  wf ex_pinned ∧
  ∃ log s',
    evict ex_pinned 5 None = Ok (log, s') ∧
    (∀ x v, (x, v) ∈ log →
            v = value_of (objs ex_pinned) x ∧ lock_of (objs ex_pinned) x ≤ 0) ∧
    (∀ n, n ∈ tree_nodes ex_pinned → 0 < lock_of (objs ex_pinned) n →
       ∀ m, m ∈ n :: pin_path ex_pinned n →
            (m ∉ map fst log) ∧ m ∈ tree_nodes s' ∧
            value_of (objs s') m = value_of (objs ex_pinned) m ∧
            lock_of (objs s') m = lock_of (objs ex_pinned) m).
Proof.
  split; [exact (proj1 ex_pinned_Inv)|].
  exact (C4_evict_spares_pinned ex_pinned 5 None (proj1 ex_pinned_Inv)).
Defined.

(** C5 — draining an unpinned tree.  On a well-formed enabled cache whose
    counter is accurate and whose non-root nodes all have [lock_ref == 0],
    [evict] with [num_tokens] at least [total_size()] returns, leaves only
    the root in the tree and [evictable_size() == 0], and the slots handed
    to the callback are, as a multiset, the values stored in the tree before
    the call. *)
Theorem C5_evict_drains (s : RadixCache) (num z : Z)
    (w : option (list nat)) :
  wf s → accounted s → disable s = false →
  (∀ n, n ∈ tree_nodes s → n ≠ root_node s → lock_of (objs s) n = 0) →
  total_size s = Ok z → z ≤ num →
  ∃ log s',
    evict s num w = Ok (log, s') ∧
    tree_nodes s' = [root_node s'] ∧
    evictable_size s' = 0 ∧
    concat (callback_args log) ≡ₚ
      concat (map (value_of (objs s)) (tree_nodes s)).
Proof.
  intros [t Hg] Hacc Hd Hl Hz Hnum.
  rewrite (tree_nodes_ids s t Hg) in Hl |- *.
  rewrite (total_size_ids s t Hg) in Hz. injection Hz as <-.
  destruct (evict_ok s t num w Hg Hd) as (log & s' & t' & Hr & Hev & Hexit).
  pose proof (ev_good _ _ _ _ _ Hev) as Hg'.
  pose proof (ev_root _ _ _ _ _ Hev) as Hroot.
  pose proof (evicted_total _ _ _ _ _ Hev) as Htot.
  assert (ids t' = [root_node s]) as Hids.
  { destruct Hexit as [Hle|[Hids|Hpin]]; [|done|].
    - rewrite <- Hroot. apply (only_root s' t' Hg'). lia.
    - assert (∃ y, y ∈ sh_leaves t') as [y Hy].
      { destruct (sh_leaves t') as [|y ys] eqn:Hlv;
          [by apply sh_leaves_nonempty in Hlv|].
        exists y. left. }
      pose proof (Hpin y Hy) as Hlk.
      destruct (ev_payload _ _ _ _ _ Hev y) as (_ & Hlk' & _).
      rewrite Hlk' in Hlk.
      assert (y ∈ ids t) as Hyt.
      { rewrite (ev_ids _ _ _ _ _ Hev). apply elem_of_app. right.
        by apply (sh_leaves_subset t'). }
      destruct (decide (y = root_node s)) as [->|Hne];
        [|rewrite (Hl y Hyt Hne) in Hlk; lia].
      destruct Hg' as (Hid & _ & Hnd & _).
      rewrite <- Hroot, <- Hid in Hy |- *.
      by apply root_leaf_only. }
  exists log, s'. split_and!.
  - done.
  - by rewrite (tree_nodes_ids s' t' Hg'), Hids, Hroot.
  - unfold evictable_size. rewrite (ev_evictable _ _ _ _ _ Hev).
    unfold accounted in Hacc.
    rewrite Hacc, (evictable_sum_ids s t Hg), (unpinned_weight s t Hg Hl).
    rewrite Htot, Hids. unfold total_values. simpl.
    destruct (ev_payload _ _ _ _ _ Hev (root_node s)) as (-> & _).
    destruct Hg as (_ & _ & _ & ->). unfold len. simpl. lia.
  - rewrite (concat_map_perm _ _ _ (ev_ids _ _ _ _ _ Hev)).
    rewrite map_app, concat_app, (evicted_log_values _ _ _ _ _ Hev), Hids.
    simpl. destruct Hg as (_ & _ & _ & ->). simpl. by rewrite app_nil_r.
Qed.

Lemma C5_evict_drains_witness :
  wf ex_two ∧ accounted ex_two ∧ disable ex_two = false ∧
  (∀ n, n ∈ tree_nodes ex_two → n ≠ root_node ex_two →
        lock_of (objs ex_two) n = 0) ∧
  total_size ex_two = Ok 2 ∧ 2 ≤ 2 ∧
  ∃ log s',
    evict ex_two 2 None = Ok (log, s') ∧
    tree_nodes s' = [root_node s'] ∧
    evictable_size s' = 0 ∧
    concat (callback_args log) ≡ₚ
      concat (map (value_of (objs ex_two)) (tree_nodes ex_two)).
Proof.
  assert (∀ n, n ∈ tree_nodes ex_two → n ≠ root_node ex_two →
               lock_of (objs ex_two) n = 0) as Hl.
  { intros n Hn Hne. vm_compute in Hn. apply list_elem_of_In in Hn.
    simpl in Hn. destruct Hn as [<-|[<-|[<-|[]]]].
    - by destruct Hne.
    - reflexivity.
    - reflexivity. }
  split_and!.
  - exact (proj1 ex_two_Inv).
  - exact (proj2 (proj2 ex_two_Inv)).
  - reflexivity.
  - exact Hl.
  - vm_compute. reflexivity.
  - lia.
  - apply (C5_evict_drains ex_two 2 2 None).
    + exact (proj1 ex_two_Inv).
    + exact (proj2 (proj2 ex_two_Inv)).
    + reflexivity.
    + exact Hl.
    + vm_compute. reflexivity.
    + lia.
Defined.

(** C6 — [insert] is idempotent in token content.  On a well-formed enabled
    cache, for a key [k] and values [v], [v'] as long as [k], [insert(k, v)]
    returns and a second [insert(k, v')] returns [|k|], leaves
    [total_size()] as it was and changes the value of no node. *)
Theorem C6_insert_idempotent (clock : nat → Z) (s : RadixCache)
    (k : list Z) (v v' : list Z) :
  wf s → disable s = false → length v = length k → length v' = length k →
  ∃ r s1 s2 z,
    insert clock s k (Some v) = Ok (r, s1) ∧
    insert clock s1 k (Some v') = Ok (length k, s2) ∧
    total_size s1 = Ok z ∧ total_size s2 = Ok z ∧
    ∀ n, value_of (objs s2) n = value_of (objs s1) n.
Proof.
  intros [t Hg] Hd Hv Hv'.
  destruct (insert_grow clock s k (Some v) t Hg Hd)
    as (r & s1 & t1 & dw & dv & Hr & Hgr & He & Hs & Hst); [by simpl|].
  pose proof (good_grow s s1 t t1 dw dv Hg Hgr Hs) as Hg1.
  destruct Hs as (Hroot & Hdis & _).
  destruct (_insert_helper_stored clock (objs s1) (root_node s) k Hst
              (S (length k)) s1 v') as (s2 & Hr2 & Hsame & _ & Hs2);
    [apply same_but_time_refl|lia|].
  exists r, s1, s2, (total_values (objs s1) (ids t1)). split_and!.
  - done.
  - unfold insert. rewrite Hdis, Hd, Hroot. exact Hr2.
  - apply (total_size_ids s1 t1 Hg1).
  - rewrite (total_size_same_but_time s1 s2 Hsame); [|apply Hs2].
    apply (total_size_ids s1 t1 Hg1).
  - intros n. by apply same_but_time_value.
Qed.

Lemma C6_insert_idempotent_witness :
  wf ex_fresh ∧ disable ex_fresh = false ∧
  length [10; 11] = length [1; 2] ∧ length [20; 21] = length [1; 2] ∧
  ∃ r s1 s2 z,
    insert ex_clock ex_fresh [1; 2] (Some [10; 11]) = Ok (r, s1) ∧
    insert ex_clock s1 [1; 2] (Some [20; 21]) = Ok (length [1; 2], s2) ∧
    total_size s1 = Ok z ∧ total_size s2 = Ok z ∧
    ∀ n, value_of (objs s2) n = value_of (objs s1) n.
Proof.
  split_and!; [exact (proj1 (__init___Inv ex_clock false false))|
               reflexivity..|].
  apply (C6_insert_idempotent ex_clock ex_fresh [1; 2] [10; 11] [20; 21]).
  - exact (proj1 (__init___Inv ex_clock false false)).
  - reflexivity.
  - reflexivity.
  - reflexivity.
Defined.

(** C7 — [match_prefix] is a read as far as pins and sizes go.  On every
    well-formed cache and for every token sequence, [match_prefix] returns;
    every node of the store keeps its [lock_ref]; [evictable_size_] is
    unchanged and still equals what the sum over the unpinned non-root nodes
    was, a split included; and [total_size()] is unchanged. *)
Theorem C7_match_prefix_frame (clock : nat → Z) (s : RadixCache)
    (key0 : list Z) :
  wf s →
  ∃ vals last s',
    match_prefix clock s key0 = Ok (vals, last, s') ∧
    (∀ n nd, objs s !! n = Some nd →
             ∃ nd', objs s' !! n = Some nd' ∧ lock_ref nd' = lock_ref nd) ∧
    evictable_size_ s' = evictable_size_ s ∧
    evictable_sum s' = evictable_sum s ∧
    ∃ z, total_size s = Ok z ∧ total_size s' = Ok z.
Proof.
  intros [t Hg]. destruct (disable s) eqn:Hd.
  - exists [], (root_node s), s. unfold match_prefix. rewrite Hd.
    split_and!; try done.
    + intros n nd Hn. by exists nd.
    + eexists. split; apply (total_size_ids s t Hg).
  - destruct (match_prefix_grow clock s key0 t Hg Hd)
      as (vals & last & s' & t' & Hr & Hgr & He & Hs).
    exists vals, last, s'. pose proof (good_grow s s' t t' 0 0 Hg Hgr Hs) as Hg'.
    split_and!; try done.
    + apply (grow_lock _ _ _ _ _ _ _ Hgr).
    + rewrite (evictable_sum_ids s' t' Hg'), (evictable_sum_ids s t Hg).
      rewrite (grow_weight _ _ _ _ _ _ _ Hgr). lia.
    + exists (total_values (objs s) (ids t)). split.
      * apply (total_size_ids s t Hg).
      * rewrite (total_size_ids s' t' Hg').
        rewrite (grow_values _ _ _ _ _ _ _ Hgr). by rewrite Z.add_0_r.
Qed.

Lemma C7_match_prefix_frame_witness :
  wf ex_long ∧
  ∃ vals last s',
    match_prefix ex_clock ex_long [1; 2; 9] = Ok (vals, last, s') ∧
    (∀ n nd, objs ex_long !! n = Some nd →
             ∃ nd', objs s' !! n = Some nd' ∧ lock_ref nd' = lock_ref nd) ∧
    evictable_size_ s' = evictable_size_ ex_long ∧
    evictable_sum s' = evictable_sum ex_long ∧
    ∃ z, total_size ex_long = Ok z ∧ total_size s' = Ok z.
Proof.
  split; [exact (proj1 ex_long_Inv)|].
  exact (C7_match_prefix_frame ex_clock ex_long [1; 2; 9] (proj1 ex_long_Inv)).
Defined.

(** C8 — a full hit of [insert] leaves the deepest matched node with its old
    timestamp.  The leaf [1] was created at time 2; a second [insert([1])],
    whose clock readings start at 3, returns 1, refreshes the root and
    leaves the leaf's [last_access_time] at 2. *)
Theorem C8_insert_full_hit_keeps_timestamp :
  ∃ s2,
    insert ex_clock ex_one [1] (Some [100]) = Ok (1%nat, s2) ∧
    ticks ex_one = 3%nat ∧ ticks s2 = 4%nat ∧
    key <$> objs ex_one !! 1%nat = Some [1] ∧
    atime ex_one 1 = 2 ∧ atime s2 1 = 2 ∧
    atime ex_one 0 = 1 ∧ atime s2 0 = 3.
Proof.
  exists (state_of (insert ex_clock ex_one [1] (Some [100])) ex_one).
  split_and!; vm_compute; reflexivity.
Qed.

(** C9 — the value returned by [inc_lock_ref] and [dec_lock_ref].  For
    every node [n] of the tree of a well-formed enabled cache, each of the
    two returns a delta such that [evictable_size_] afterwards is
    [evictable_size_] before plus the delta; the delta of [inc_lock_ref] is
    not positive and the delta of [dec_lock_ref] is not negative. *)
Theorem C9_lock_ref_delta (s : RadixCache) (n : nat) :
  wf s → disable s = false → n ∈ tree_nodes s →
  (∃ d s', inc_lock_ref s n = Ok (d, s') ∧
           evictable_size_ s' = evictable_size_ s + d ∧ d ≤ 0) ∧
  (∃ d s', dec_lock_ref s n = Ok (d, s') ∧
           evictable_size_ s' = evictable_size_ s + d ∧ 0 ≤ d).
Proof.
  intros [t Hg] Hd Hn. rewrite (tree_nodes_ids s t Hg) in Hn.
  destruct (path_in_tree s t n Hg Hn) as (path & Hp & _ & _).
  unfold inc_lock_ref, dec_lock_ref. rewrite Hd. split.
  - destruct (inc_lock_ref_loop_ok _ s n 0 path Hp)
      as (d & s' & Hr & Hle & He & _).
    exists d, s'. rewrite Z.add_0_l in Hr. done.
  - destruct (dec_lock_ref_loop_ok _ s n 0 path Hp)
      as (d & s' & Hr & Hle & He & _).
    exists d, s'. rewrite Z.add_0_l in Hr. done.
Qed.

Lemma C9_lock_ref_delta_witness :
  (∃ d s', inc_lock_ref ex_one 1 = Ok (d, s') ∧
           evictable_size_ s' = evictable_size_ ex_one + d ∧ d ≤ 0) ∧
  (∃ d s', dec_lock_ref ex_one 1 = Ok (d, s') ∧
           evictable_size_ s' = evictable_size_ ex_one + d ∧ 0 ≤ d).
Proof.
  apply (C9_lock_ref_delta ex_one 1%nat).
  - exact (proj1 ex_one_Inv).
  - reflexivity.
  - vm_compute. repeat constructor.
Defined.

(** C10 — the reserved set is a required argument of [evict1].  On a
    well-formed enabled cache with a non-root leaf whose [lock_ref] is 0, and
    for [num_tokens >= 1], [evict1] called without [wait_tensor] raises
    [TypeError] (at [x not in wait_tensor]), whereas [evict] returns and its
    result does not depend on [wait_tensor]. *)
Theorem C10_evict1_requires_reserved (s : RadixCache) (num : Z) (x : nat) :
  wf s → disable s = false →
  x ∈ tree_nodes s → x ≠ root_node s →
  children_of (objs s) x = [] → lock_of (objs s) x = 0 →
  1 ≤ num →
  evict1 s num None = Raise TypeError ∧
  (∀ w, evict s num w = evict s num None) ∧
  ∃ log s', evict s num None = Ok (log, s').
Proof.
  intros [t Hg] Hd Hx Hne Hch Hlk Hnum.
  rewrite (tree_nodes_ids s t Hg) in Hx.
  split_and!.
  - pose proof Hg as (Hid & Htree & Hnd & _).
    pose proof (no_children_leaf _ _ _ _ Htree Hx Hch) as Hleaf.
    assert (good (enter_evict s) t) as Hg0 by (by eapply good_ext).
    destruct (_collect_leaves_ok _ t Hg0) as (l & Hcl & Hperm).
    unfold evict1. cbn [enter_evict disable]. rewrite Hd.
    rewrite Hcl. cbn [bind].
    rewrite (evict1_loop_None num _ (enter_evict s) l [] x); try done.
    + by rewrite Hperm.
    + simpl. lia.
    + simpl. rewrite Hperm, <- Hid. intros Hin.
      pose proof (root_leaf_only t Hnd Hin) as Hids.
      rewrite Hids in Hx. apply list_elem_of_singleton in Hx.
      rewrite Hid in Hx. done.
    + intros y Hy. rewrite Hperm in Hy. simpl.
      destruct (leaf_no_children _ _ _ _ Htree Hy) as (ynd & -> & _).
      by eexists.
    + lia.
  - done.
  - destruct (evict_ok s t num None Hg Hd) as (log & s' & _ & Hr & _).
    by exists log, s'.
Qed.

Lemma C10_evict1_requires_reserved_witness :
  wf ex_one ∧ disable ex_one = false ∧
  1%nat ∈ tree_nodes ex_one ∧ 1%nat ≠ root_node ex_one ∧
  children_of (objs ex_one) 1 = [] ∧ lock_of (objs ex_one) 1 = 0 ∧
  1 ≤ 1 ∧
  evict1 ex_one 1 None = Raise TypeError ∧
  (∀ w, evict ex_one 1 w = evict ex_one 1 None) ∧
  ∃ log s', evict ex_one 1 None = Ok (log, s').
Proof.
  assert (1%nat ∈ tree_nodes ex_one) as Hin
    by (vm_compute; repeat constructor).
  assert (1%nat ≠ root_node ex_one) as Hne by (vm_compute; discriminate).
  split_and!; [exact (proj1 ex_one_Inv)|reflexivity|exact Hin|exact Hne|
               reflexivity|reflexivity|lia|..];
    apply (C10_evict1_requires_reserved ex_one 1 1%nat (proj1 ex_one_Inv)
             eq_refl Hin Hne eq_refl eq_refl); lia.
Defined.

(** * Further properties of the code *)

(** X1 — [_key_match] returns the length of the longest common prefix: the two
    keys agree on that many tokens, the result exceeds neither length, and
    where both keys go on they differ at that position. *)
Theorem key_match_longest_common_prefix (key0 key1 : list Z) :
  take (_key_match key0 key1) key0 = take (_key_match key0 key1) key1 ∧
  (_key_match key0 key1 ≤ length key0)%nat ∧
  (_key_match key0 key1 ≤ length key1)%nat ∧
  ∀ a b, key0 !! _key_match key0 key1 = Some a →
         key1 !! _key_match key0 key1 = Some b → a ≠ b.
Proof.
  revert key1. induction key0 as [|a r0 IH]; intros [|b r1]; simpl;
    try (split_and!; [done|lia|lia|by intros ??]).
  destruct (Z.eqb_spec a b) as [->|Hne]; simpl.
  - destruct (IH r1) as (Ht & H0 & H1 & Hd).
    split_and!; [by rewrite Ht|lia|lia|exact Hd].
  - split_and!; [done|lia|lia|]. intros ?? [= <-] [= <-]. done.
Qed.

(** X2 — [_key_match] does not depend on the order of its arguments. *)
Theorem key_match_sym (key0 key1 : list Z) :
  _key_match key0 key1 = _key_match key1 key0.
Proof.
  revert key1. induction key0 as [|a r0 IH]; intros [|b r1]; simpl; try done.
  rewrite (Z.eqb_sym b a). destruct (a =? b); [by rewrite IH|done].
Qed.

(** X3 — On a well-formed cache [_collect_leaves] returns, without repetition,
    exactly the nodes of the tree that have no children. *)
Theorem collect_leaves_childless (s : RadixCache) :
  wf s →
  ∃ l, _collect_leaves s = Ok l ∧ NoDup l ∧
       ∀ x, x ∈ l ↔ x ∈ tree_nodes s ∧ children_of (objs s) x = [].
Proof.
  intros [t Hg]. destruct (_collect_leaves_ok s t Hg) as (l & Hl & Hperm).
  pose proof Hg as (_ & Htree & Hnd & _).
  exists l. split_and!; [done| |].
  - rewrite Hperm. by apply sh_leaves_nodup.
  - intros x. rewrite Hperm, (tree_nodes_ids s t Hg). split.
    + intros Hx. split; [by apply sh_leaves_subset|].
      destruct (leaf_no_children _ _ _ _ Htree Hx) as (xnd & Hx' & Hc).
      unfold children_of. by rewrite Hx'.
    + intros [Hx Hc]. by eapply no_children_leaf.
Qed.

(** X4 — On a well-formed cache [total_size()] is the sum of [|n.value|] over
    the nodes of the tree. *)
Theorem total_size_sum (s : RadixCache) :
  wf s →
  total_size s = Ok (sumZ (fun n => len (value_of (objs s) n)) (tree_nodes s)).
Proof.
  intros [t Hg]. rewrite (tree_nodes_ids s t Hg). apply (total_size_ids s t Hg).
Qed.

(** X5 — [reset] can be called in any state, ill-formed ones included: the
    tree is then a fresh root alone, pinned once, with [total_size()] and
    [evictable_size()] 0; the old nodes stay in the store as they were and
    [disable] is kept. *)
Theorem reset_from_any_state (clock : nat → Z) (s : RadixCache) :
  tree_nodes (reset clock s) = [root_node (reset clock s)] ∧
  total_size (reset clock s) = Ok 0 ∧
  evictable_size (reset clock s) = 0 ∧
  lock_of (objs (reset clock s)) (root_node (reset clock s)) = 1 ∧
  root_node (reset clock s) = length (objs s) ∧
  (∀ n nd, objs s !! n = Some nd → objs (reset clock s) !! n = Some nd) ∧
  disable (reset clock s) = disable s.
Proof.
  pose proof (reset_good clock s) as Hg.
  split_and!.
  - by rewrite (tree_nodes_ids _ _ Hg).
  - rewrite (total_size_ids _ _ Hg).
    destruct Hg as (_ & _ & _ & Hv).
    change (root_node (reset clock s)) with (length (objs s)) in Hv.
    unfold total_values, sumZ. cbn [ids flat_map foldr app]. by rewrite Hv.
  - done.
  - unfold reset, new_TreeNode, time_time, lock_of. simpl.
    rewrite lookup_app_r by lia. by rewrite Nat.sub_diag.
  - done.
  - intros n nd Hn. unfold reset, new_TreeNode, time_time. simpl.
    by apply lookup_app_l_Some.
  - done.
Qed.

Lemma empty_disabled_init clock flag0 :
  empty_disabled (__init__ clock flag0 true).
Proof. split_and!; [done..|]. by eexists. Qed.

Lemma empty_disabled_step clock s o :
  empty_disabled s → ∃ s', run_op clock s o = Ok s' ∧ empty_disabled s'.
Proof.
  intros (Hd & He & nd & Hn & Hc & Hv).
  destruct o as [k v|k|n|n|num w|num w|]; simpl.
  - unfold insert. rewrite Hd. simpl. exists s. split; [done|]. unfold empty_disabled. eauto 10.
  - unfold match_prefix. rewrite Hd. simpl. exists s. split; [done|]. unfold empty_disabled. eauto 10.
  - unfold inc_lock_ref. rewrite Hd. simpl. exists s. split; [done|]. unfold empty_disabled. eauto 10.
  - unfold dec_lock_ref. rewrite Hd. simpl. exists s. split; [done|]. unfold empty_disabled. eauto 10.
  - unfold evict. cbn [enter_evict disable]. rewrite Hd. simpl.
    eexists. split; [done|]. unfold empty_disabled. simpl. eauto 10.
  - unfold evict1. cbn [enter_evict disable]. rewrite Hd. simpl.
    eexists. split; [done|]. unfold empty_disabled. simpl. eauto 10.
  - eexists. split; [done|]. split_and!; [done..|].
    unfold reset, new_TreeNode, time_time. simpl.
    eexists. split.
    + rewrite lookup_app_r by lia. by rewrite Nat.sub_diag.
    + done.
Qed.

Lemma empty_disabled_tree s :
  empty_disabled s →
  tree_nodes s = [root_node s] ∧ total_size s = Ok 0.
Proof.
  intros (Hd & He & nd & Hn & Hc & Hv).
  pose proof (lookup_lt_Some _ _ _ Hn) as Hlt.
  unfold tree_nodes, total_size.
  destruct (length (objs s)) as [|f]; [lia|].
  cbn [subtree_nodes _total_size_helper]. unfold get_node.
  rewrite Hn. cbn [of_option bind]. rewrite Hc, Hv. done.
Qed.

(** X6 — A cache created with [disable=True] never stores anything: every
    sequence of the public operations, whatever their arguments, returns, and
    afterwards the tree is the root alone, [total_size()] and
    [evictable_size()] are 0, [insert] returns 0 and [match_prefix] returns no
    value and the root. *)
Theorem disabled_cache_stays_empty (clock : nat → Z) (flag0 : bool)
    (ops : list op) :
  ∃ s', run_ops clock (__init__ clock flag0 true) ops = Ok s' ∧
        disable s' = true ∧
        tree_nodes s' = [root_node s'] ∧
        total_size s' = Ok 0 ∧
        evictable_size s' = 0 ∧
        (∀ k v, insert clock s' k v = Ok (O, s')) ∧
        (∀ k, match_prefix clock s' k = Ok ([], root_node s', s')).
Proof.
  pose proof (empty_disabled_init clock flag0) as H.
  revert H. generalize (__init__ clock flag0 true) as s.
  induction ops as [|o ops IH]; intros s H.
  - exists s. destruct (empty_disabled_tree s H) as [Ht Hz].
    destruct H as (Hd & He & _). simpl.
    split_and!; try done.
    + intros k v. unfold insert. by rewrite Hd.
    + intros k. unfold match_prefix. by rewrite Hd.
  - destruct (empty_disabled_step clock s o H) as (s1 & Hr & H1).
    simpl. rewrite Hr. simpl. by apply IH.
Qed.

(** ** Eviction passes *)

Lemma evict_run s t num_tokens wait_tensor :
  good s t → disable s = false →
  ∃ log s' t',
    evict s num_tokens wait_tensor = Ok (log, s') ∧
    evicted s t log s' t' ∧
    (num_tokens ≤ sumZ (fun e => len (snd e)) log ∨
     ids t' = [root_node s] ∨
     ∀ y, y ∈ sh_leaves t' → 0 < lock_of (objs s') y) ∧
    call_counter s' = call_counter s + 1 ∧
    token_counter s' = token_counter s + sumZ (fun e => len (snd e)) log ∧
    flag s' = true.
Proof.
  intros Hg Hdis. unfold evict. cbn [enter_evict disable]. rewrite Hdis.
  assert (good (enter_evict s) t) as Hg0 by (by eapply good_ext).
  destruct (_collect_leaves_ok _ _ Hg0) as (l & Hl & Hperm).
  rewrite Hl. cbn [bind].
  set (leaves := heapify _ l).
  assert (leaves ≡ₚ sh_leaves t) as Hperm'.
  { unfold leaves. by rewrite heapify_perm. }
  pose proof Hg as (_ & _ & Hnd & _).
  destruct (evict_loop_ok num_tokens (length leaves + links (enter_evict s))
              (enter_evict s) t leaves 0 [] Hg0)
    as (new & s' & t' & Hrun & Hev & Hc & Hex).
  { rewrite Hperm'. by apply sh_leaves_nodup. }
  { intros y. by rewrite Hperm'. }
  { done. }
  rewrite Hrun. cbn [bind]. rewrite app_nil_l.
  destruct Hc as (_ & _ & Hcc & Htc & Hfl).
  exists new, (leave_evict (0 + sumZ (fun e => len (snd e)) new) s'), t'.
  split_and!; [done| | | | |].
  - eapply evicted_ext; [..|exact Hev]; done.
  - rewrite Z.add_0_l in Hex. apply Hex. intros y. rewrite Hperm'. auto.
  - simpl. by rewrite Hcc.
  - simpl. rewrite Htc. simpl. lia.
  - simpl. by rewrite Hfl.
Qed.

Lemma evicted_victims_nodup s t log s' t' :
  good s t → evicted s t log s' t' → NoDup (map fst log).
Proof.
  intros (_ & _ & Hnd & _) Hev.
  rewrite (ev_ids _ _ _ _ _ Hev) in Hnd.
  by apply NoDup_app in Hnd as (? & _ & _).
Qed.

Lemma good_leaves s t y :
  good s t →
  y ∈ sh_leaves t ↔ y ∈ tree_nodes s ∧ children_of (objs s) y = [].
Proof.
  intros Hg. pose proof Hg as (_ & Htree & _).
  rewrite (tree_nodes_ids s t Hg). split.
  - intros Hy. split; [by apply sh_leaves_subset|].
    destruct (leaf_no_children _ _ _ _ Htree Hy) as (xnd & Hx' & Hc).
    unfold children_of. by rewrite Hx'.
  - intros [Hx Hc]. by eapply no_children_leaf.
Qed.

(** X7 — [evict] on a well-formed enabled cache stops only when it has freed
    at least [num_tokens] slots, or only the root is left, or every remaining
    leaf is pinned; [evictable_size_] drops by exactly the number of slots
    handed to the callback, [token_counter] grows by it, [call_counter] by one
    and [flag] is set. *)
Theorem evict_frees_enough_or_is_blocked (s : RadixCache) (num : Z)
    (w : option (list nat)) :
  wf s → disable s = false →
  ∃ log s',
    evict s num w = Ok (log, s') ∧
    (num ≤ sumZ (fun e => len (snd e)) log ∨
     tree_nodes s' = [root_node s'] ∨
     ∀ y, y ∈ tree_nodes s' → children_of (objs s') y = [] →
          0 < lock_of (objs s') y) ∧
    evictable_size_ s' =
      evictable_size_ s - sumZ (fun e => len (snd e)) log ∧
    token_counter s' =
      token_counter s + sumZ (fun e => len (snd e)) log ∧
    call_counter s' = call_counter s + 1 ∧
    flag s' = true.
Proof.
  intros [t Hg] Hd.
  destruct (evict_run s t num w Hg Hd)
    as (log & s' & t' & Hr & Hev & Hex & Hcc & Htc & Hfl).
  pose proof (ev_good _ _ _ _ _ Hev) as Hg'.
  exists log, s'. split_and!; try done.
  - destruct Hex as [H|[H|H]]; [by left|right; left|right; right].
    + by rewrite (tree_nodes_ids s' t' Hg'), H, (ev_root _ _ _ _ _ Hev).
    + intros y Hy Hc. apply H. by apply (good_leaves s' t' y Hg').
  - apply (ev_evictable _ _ _ _ _ Hev).
Qed.

(** X8 — After [evict] the tree is the old tree without the victims: the old
    nodes are, as a multiset, the victims and the remaining nodes, no node is
    a victim twice, no victim is the root, the callback gets each victim's
    value, the cache is still well-formed and the remaining nodes keep value,
    [lock_ref] and parent. *)
Theorem evict_removes_exactly_its_victims (s : RadixCache) (num : Z)
    (w : option (list nat)) :
  wf s → disable s = false →
  ∃ log s',
    evict s num w = Ok (log, s') ∧
    wf s' ∧ root_node s' = root_node s ∧
    tree_nodes s ≡ₚ map fst log ++ tree_nodes s' ∧
    NoDup (map fst log) ∧
    (∀ x v, (x, v) ∈ log →
            x ≠ root_node s ∧ v = value_of (objs s) x) ∧
    (∀ m, value_of (objs s') m = value_of (objs s) m ∧
          lock_of (objs s') m = lock_of (objs s) m ∧
          parent <$> objs s' !! m = parent <$> objs s !! m).
Proof.
  intros [t Hg] Hd.
  destruct (evict_run s t num w Hg Hd) as (log & s' & t' & Hr & Hev & _).
  pose proof (ev_good _ _ _ _ _ Hev) as Hg'.
  exists log, s'. split_and!.
  - done.
  - by exists t'.
  - apply (ev_root _ _ _ _ _ Hev).
  - rewrite (tree_nodes_ids s t Hg), (tree_nodes_ids s' t' Hg').
    apply (ev_ids _ _ _ _ _ Hev).
  - by apply (evicted_victims_nodup s t log s' t').
  - intros x v Hin. pose proof (ev_log _ _ _ _ _ Hev) as Hlog.
    rewrite Forall_forall in Hlog. destruct (Hlog _ Hin) as (Hv & _ & Hne).
    done.
  - apply (ev_payload _ _ _ _ _ Hev).
Qed.

(** X9 — [evict1] with a reserved list frees no node of the list, no pinned
    node and not the root: every victim is outside the list with [lock_ref <=
    0], every node of the tree that is reserved or pinned is still in the tree
    afterwards, the tree is the old one without the victims and
    [evictable_size_] drops by the slots freed. *)
Theorem evict1_spares_reserved_and_pinned (s : RadixCache) (num : Z)
    (w : list nat) :
  wf s → disable s = false →
  ∃ log s',
    evict1 s num (Some w) = Ok (log, s') ∧
    wf s' ∧
    tree_nodes s ≡ₚ map fst log ++ tree_nodes s' ∧
    (∀ x v, (x, v) ∈ log →
            (x ∉ w) ∧ lock_of (objs s) x ≤ 0 ∧ x ≠ root_node s ∧
            v = value_of (objs s) x) ∧
    (∀ m, m ∈ tree_nodes s → m ∈ w ∨ 0 < lock_of (objs s) m →
          m ∈ tree_nodes s') ∧
    evictable_size_ s' =
      evictable_size_ s - sumZ (fun e => len (snd e)) log.
Proof.
  intros [t Hg] Hd.
  destruct (evict1_ok s t num w Hg Hd) as (log & s' & t' & Hr & Hev & Hw).
  pose proof (ev_good _ _ _ _ _ Hev) as Hg'.
  pose proof (ev_log _ _ _ _ _ Hev) as Hlog.
  rewrite Forall_forall in Hlog, Hw.
  exists log, s'. split_and!.
  - done.
  - by exists t'.
  - rewrite (tree_nodes_ids s t Hg), (tree_nodes_ids s' t' Hg').
    apply (ev_ids _ _ _ _ _ Hev).
  - intros x v Hin. destruct (Hlog _ Hin) as (Hv & Hle & Hne).
    split_and!; try done. apply (Hw _ Hin).
  - intros m Hm Hor.
    rewrite (tree_nodes_ids s t Hg) in Hm.
    rewrite (tree_nodes_ids s' t' Hg').
    rewrite (ev_ids _ _ _ _ _ Hev) in Hm.
    apply elem_of_app in Hm as [Hm|Hm]; [|done].
    apply list_elem_of_fmap in Hm as (e & -> & He).
    destruct (Hlog _ He) as (_ & Hle & _). pose proof (Hw _ He) as Hnw.
    destruct Hor as [Hin|Hlk]; [done|lia].
  - apply (ev_evictable _ _ _ _ _ Hev).
Qed.

(** X10 — With [num_tokens <= 0] both [evict] and [evict1] (the latter even
    without its reserved list) free nothing: the store, the root,
    [evictable_size_] and [token_counter] are unchanged; the call is still
    counted and [flag] set. *)
Theorem evict_nothing_requested (s : RadixCache) (num : Z)
    (w : option (list nat)) :
  wf s → num ≤ 0 →
  ∃ s', evict s num w = Ok ([], s') ∧ evict1 s num w = Ok ([], s') ∧
        objs s' = objs s ∧ root_node s' = root_node s ∧
        evictable_size_ s' = evictable_size_ s ∧
        token_counter s' = token_counter s ∧
        call_counter s' = call_counter s + 1 ∧ flag s' = true.
Proof.
  intros [t Hg] Hnum. unfold evict, evict1. cbn [enter_evict disable].
  destruct (disable s) eqn:Hd.
  - eexists. split_and!; done.
  - assert (good (enter_evict s) t) as Hg0 by (by eapply good_ext).
    destruct (_collect_leaves_ok _ _ Hg0) as (l & Hl & Hperm).
    fold (enter_evict s). rewrite Hl. cbn [bind].
    assert ((0 <? num) = false) as Hlt by (apply Z.ltb_ge; lia).
    assert (∀ f lv, evict_loop f (enter_evict s) num lv 0 []
                    = Ok (0, [], enter_evict s)) as ->.
    { intros [|f] lv; simpl; by rewrite Hlt. }
    assert (∀ f lv, evict1_loop f (enter_evict s) num w lv 0 []
                    = Ok (0, [], enter_evict s)) as ->.
    { intros [|f] lv; simpl; by rewrite Hlt. }
    cbn [bind]. eexists. split_and!; try done. simpl. lia.
Qed.

(** ** The states a run reaches *)

Lemma tree_parent_link st p t x :
  tree_at st p t → x ∈ ids t → x ≠ sh_id t →
  ∃ xnd q qnd k,
    st !! x = Some xnd ∧ parent xnd = Some q ∧ q ∈ ids t ∧
    st !! q = Some qnd ∧ head (key xnd) = Some k ∧
    dict_get (children qnd) k = Some x ∧
    length (key xnd) = length (value xnd).
Proof.
  revert p. induction t as [n kids IH] using shape_ind. intros p Ht Hx Hne.
  cbn [sh_id] in Hne. simpl in Hx. apply elem_of_cons in Hx as [?|Hx]; [done|].
  apply elem_of_flat_map_ids in Hx as (k & Hk & Hx).
  apply list_elem_of_split in Hk as (ks1 & ks2 & ->).
  pose proof (tree_at_kid _ _ _ _ _ _ Ht) as Htk.
  pose proof Ht as (nd & Hn & _ & Hdn & Hkids & _)%tree_at_inv.
  destruct (decide (x = sh_id k)) as [->|Hxk].
  - apply Forall2_app_inv_r in Hkids as (d1 & d2' & _ & Hk2 & Hd).
    apply Forall2_cons_inv_r in Hk2 as (e & d2 & [He (knd & Hk & Hh & Hl)] & _ & ->).
    rewrite He in Hk. destruct k as [c kc]. cbn [sh_id] in *.
    pose proof Htk as (cnd & Hc & Hcp & _)%tree_at_inv.
    rewrite Hk in Hc. injection Hc as <-.
    exists knd, n, nd, e.1. split_and!; try done; [apply list_elem_of_here|].
    rewrite Hd in Hdn |- *. destruct e as [ek ev]. simpl in He. subst ev.
    apply dict_get_app_Some. rewrite map_app in Hdn.
    apply NoDup_app in Hdn as (_ & Hdis & _). intros Hin.
    apply (Hdis _ Hin). simpl. left.
  - rewrite Forall_app, Forall_cons in IH. destruct IH as (_ & IHk & _).
    destruct (IHk (Some n) Htk Hx Hxk)
      as (xnd & q & qnd & k0 & ? & ? & Hq & ? & ? & ? & ?).
    exists xnd, q, qnd, k0. split_and!; try done. rewrite ids_split.
    rewrite !elem_of_cons, !elem_of_app. auto.
Qed.

(** X11 — A run of operations from a fresh cache, each called as it may be
    ([op_pre]), returns in a state that is a tree: no node is reachable twice,
    the root's value is empty, every [lock_ref] in the tree is non-negative,
    and every non-root node has a parent in the tree whose children dictionary
    maps the first token of the node's key to the node, with [|key| ==
    |value|]; the only other outcome is the [TypeError] of an [evict1] called
    without its reserved list. *)
Theorem reachable_states_are_trees (clock : nat → Z) (flag0 disable0 : bool)
    (ops : list op) :
  valid clock (__init__ clock flag0 disable0) ops →
  (∃ s',
     run_ops clock (__init__ clock flag0 disable0) ops = Ok s' ∧
     NoDup (tree_nodes s') ∧
     value_of (objs s') (root_node s') = [] ∧
     (∀ n, n ∈ tree_nodes s' → 0 ≤ lock_of (objs s') n) ∧
     (∀ n, n ∈ tree_nodes s' → n ≠ root_node s' →
        ∃ nd q qnd k,
          objs s' !! n = Some nd ∧ parent nd = Some q ∧
          q ∈ tree_nodes s' ∧ objs s' !! q = Some qnd ∧
          head (key nd) = Some k ∧ dict_get (children qnd) k = Some n ∧
          length (key nd) = length (value nd))) ∨
  (run_ops clock (__init__ clock flag0 disable0) ops = Raise TypeError ∧
   ∃ num_tokens, Evict1 num_tokens None ∈ ops).
Proof.
  intros Hv.
  destruct (run_ops_Inv clock _ ops (__init___Inv clock flag0 disable0) Hv)
    as [(s' & Hrun & [t Hg] & Hlk & _)|Hraise]; [left|by right].
  exists s'. pose proof Hg as (Hid & Htree & Hnd & Hroot).
  unfold locks_ok in Hlk. rewrite (tree_nodes_ids s' t Hg) in Hlk |- *.
  split_and!; try done.
  intros n Hn Hne. rewrite <- Hid in Hne.
  apply (tree_parent_link _ _ _ _ Htree Hn Hne).
Qed.

Lemma bumped_nil d st : bumped d [] st st.
Proof.
  split; [done|]. intros m. by rewrite decide_False by apply not_elem_of_nil.
Qed.

Lemma bumped_step d n nd path st st' :
  st !! n = Some nd → n ∉ path →
  bumped d path (<[n := bump d nd]> st) st' →
  bumped d (n :: path) st st'.
Proof.
  intros Hn Hnp [Hlen Hb]. split.
  - by rewrite Hlen, length_insert.
  - intros m. rewrite (Hb m). destruct (decide (m = n)) as [->|Hne].
    + rewrite decide_False by done. rewrite decide_True by left.
      rewrite list_lookup_insert_eq by (by eapply lookup_lt_Some).
      by rewrite Hn.
    + rewrite list_lookup_insert_ne by done.
      destruct (decide (m ∈ path)) as [Hin|Hnin].
      * rewrite decide_True by (by right). done.
      * rewrite decide_False; [done|]. by intros [?|?]%elem_of_cons.
Qed.

Lemma pin_weight_insert c n nd' st path :
  n ∉ path →
  sumZ (pin_weight c (<[n := nd']> st)) path = sumZ (pin_weight c st) path.
Proof.
  intros Hn. apply sumZ_ext. intros m Hm. unfold pin_weight, lock_of, value_of.
  rewrite list_lookup_insert_ne; [done|]. by intros ->.
Qed.

Lemma inc_lock_ref_loop_exact fuel s n delta path :
  path_to_root fuel (objs s) (root_node s) n = Some path → NoDup path →
  ∃ s',
    inc_lock_ref_loop fuel s n delta
      = Ok (delta - sumZ (pin_weight 0 (objs s)) path, s') ∧
    evictable_size_ s' = evictable_size_ s - sumZ (pin_weight 0 (objs s)) path ∧
    same_cache s s' ∧ ticks s' = ticks s ∧
    bumped 1 path (objs s) (objs s').
Proof.
  revert s n delta path.
  induction fuel as [|f IH]; intros s n delta path Hp Hnd.
  - destruct (n =? root_node s)%nat eqn:Hr.
    + simpl in Hp |- *. rewrite Hr in Hp |- *. injection Hp as <-.
      exists s. simpl. rewrite !Z.sub_0_r.
      split_and!; try done; try apply same_cache_refl; try apply bumped_nil.
    + simpl in Hp. by rewrite Hr in Hp.
  - destruct (n =? root_node s)%nat eqn:Hr.
    + simpl in Hp |- *. rewrite Hr in Hp |- *. injection Hp as <-.
      exists s. simpl. rewrite !Z.sub_0_r.
      split_and!; try done; try apply same_cache_refl; try apply bumped_nil.
    + destruct (path_to_root_cons _ _ _ _ _ Hp Hr)
        as (f' & nd & p & path' & [= <-] & Hn & Hpar & -> & Hp').
      rewrite (inc_lock_ref_loop_step f s n delta nd p Hr Hn Hpar).
      apply NoDup_cons in Hnd as [Hnp Hnd'].
      set (w := if lock_ref nd =? 0 then len (value nd) else 0).
      set (s1 := put_node n (set_lock_ref (lock_ref nd + 1) nd)
                   (set_evictable (evictable_size_ s - w) s)).
      assert (path_to_root f (objs s1) (root_node s1) p = Some path') as Hp1.
      { unfold s1. rewrite path_to_root_put with (nd := nd); done. }
      destruct (IH s1 p (delta - w) path' Hp1 Hnd')
        as (s' & Hrun & He & Hc & Ht & Hb).
      assert (sumZ (pin_weight 0 (objs s1)) path'
              = sumZ (pin_weight 0 (objs s)) path') as Hsum
        by (by apply pin_weight_insert).
      assert (pin_weight 0 (objs s) n = w) as Hw.
      { unfold pin_weight, lock_of, value_of. by rewrite Hn. }
      exists s'. cbn [sumZ foldr]. fold (sumZ (pin_weight 0 (objs s)) path').
      rewrite Hw. rewrite Hsum in Hrun, He. split_and!.
      * rewrite Hrun. f_equal. f_equal. lia.
      * rewrite He. simpl. lia.
      * eapply same_cache_trans; [|exact Hc]. done.
      * by rewrite Ht.
      * by apply (bumped_step 1 n nd path' (objs s) (objs s') Hn Hnp).
Qed.

Lemma dec_lock_ref_loop_exact fuel s n delta path :
  path_to_root fuel (objs s) (root_node s) n = Some path → NoDup path →
  ∃ s',
    dec_lock_ref_loop fuel s n delta
      = Ok (delta + sumZ (pin_weight 1 (objs s)) path, s') ∧
    evictable_size_ s' = evictable_size_ s + sumZ (pin_weight 1 (objs s)) path ∧
    same_cache s s' ∧ ticks s' = ticks s ∧
    bumped (-1) path (objs s) (objs s').
Proof.
  revert s n delta path.
  induction fuel as [|f IH]; intros s n delta path Hp Hnd.
  - destruct (n =? root_node s)%nat eqn:Hr.
    + simpl in Hp |- *. rewrite Hr in Hp |- *. injection Hp as <-.
      exists s. simpl. rewrite !Z.add_0_r.
      split_and!; try done; try apply same_cache_refl; try apply bumped_nil.
    + simpl in Hp. by rewrite Hr in Hp.
  - destruct (n =? root_node s)%nat eqn:Hr.
    + simpl in Hp |- *. rewrite Hr in Hp |- *. injection Hp as <-.
      exists s. simpl. rewrite !Z.add_0_r.
      split_and!; try done; try apply same_cache_refl; try apply bumped_nil.
    + destruct (path_to_root_cons _ _ _ _ _ Hp Hr)
        as (f' & nd & p & path' & [= <-] & Hn & Hpar & -> & Hp').
      rewrite (dec_lock_ref_loop_step f s n delta nd p Hr Hn Hpar).
      apply NoDup_cons in Hnd as [Hnp Hnd'].
      set (w := if lock_ref nd =? 1 then len (value nd) else 0).
      set (s1 := put_node n (set_lock_ref (lock_ref nd - 1) nd)
                   (set_evictable (evictable_size_ s + w) s)).
      assert (path_to_root f (objs s1) (root_node s1) p = Some path') as Hp1.
      { unfold s1. rewrite path_to_root_put with (nd := nd); done. }
      destruct (IH s1 p (delta + w) path' Hp1 Hnd')
        as (s' & Hrun & He & Hc & Ht & Hb).
      assert (sumZ (pin_weight 1 (objs s1)) path'
              = sumZ (pin_weight 1 (objs s)) path') as Hsum
        by (by apply pin_weight_insert).
      assert (pin_weight 1 (objs s) n = w) as Hw.
      { unfold pin_weight, lock_of, value_of. by rewrite Hn. }
      exists s'. cbn [sumZ foldr]. fold (sumZ (pin_weight 1 (objs s)) path').
      rewrite Hw. rewrite Hsum in Hrun, He. split_and!.
      * rewrite Hrun. f_equal. f_equal. lia.
      * rewrite He. simpl. lia.
      * eapply same_cache_trans; [|exact Hc]. done.
      * by rewrite Ht.
      * by apply (bumped_step (-1) n nd path' (objs s) (objs s') Hn Hnp).
Qed.

Lemma bumped_skel d path st st' m :
  bumped d path st st' → skel <$> st' !! m = skel <$> st !! m.
Proof.
  intros [_ Hb]. rewrite (Hb m). case_decide; [|done].
  by destruct (st !! m).
Qed.

Lemma bumped_lock d path st st' m :
  bumped d path st st' → is_Some (st !! m) →
  lock_of st' m = lock_of st m + (if decide (m ∈ path) then d else 0).
Proof.
  intros [_ Hb] [nd Hm]. unfold lock_of. rewrite (Hb m), Hm.
  case_decide; simpl; lia.
Qed.

Lemma bumped_value d path st st' m :
  bumped d path st st' → value_of st' m = value_of st m.
Proof.
  intros [_ Hb]. unfold value_of. rewrite (Hb m). case_decide; [|done].
  by destruct (st !! m).
Qed.

Lemma bumped_parent d path st st' m :
  bumped d path st st' → parent <$> st' !! m = parent <$> st !! m.
Proof.
  intros [_ Hb]. rewrite (Hb m). case_decide; [|done].
  by destruct (st !! m).
Qed.

Lemma bumped_good d path s s' t :
  bumped d path (objs s) (objs s') → root_node s' = root_node s →
  good s t → good s' t.
Proof.
  intros Hb Hr (Hid & Htree & Hnd & Hv). split_and!.
  - by rewrite Hr.
  - eapply tree_at_ext; [|exact Htree]. intros m _. by eapply bumped_skel.
  - done.
  - rewrite Hr. by rewrite (bumped_value _ _ _ _ _ Hb).
Qed.

Lemma bumped_pin_path d path s s' n :
  bumped d path (objs s) (objs s') → root_node s' = root_node s →
  pin_path s' n = pin_path s n.
Proof.
  intros Hb Hr. unfold pin_path. destruct Hb as [Hlen Hb'].
  rewrite Hlen, Hr.
  rewrite (path_to_root_ext _ (objs s) (objs s')); [done|].
  intros m. by apply (bumped_parent d path), (conj Hlen Hb').
Qed.

Lemma pin_path_spec s t n :
  good s t → n ∈ ids t →
  path_to_root (length (objs s)) (objs s) (root_node s) n
    = Some (pin_path s n) ∧
  NoDup (pin_path s n) ∧
  (∀ m, m ∈ pin_path s n → m ∈ ids t ∧ m ≠ root_node s) ∧
  (n ≠ root_node s → n ∈ pin_path s n).
Proof.
  intros Hg Hn. destruct (path_in_tree s t n Hg Hn) as (path & Hp & Hnd & Hin).
  unfold pin_path. rewrite Hp. simpl. split_and!; try done.
  intros Hne. apply Nat.eqb_neq in Hne.
  destruct (path_to_root_cons _ _ _ _ _ Hp Hne)
    as (_ & _ & _ & path' & _ & _ & _ & -> & _). left.
Qed.

(** X12 — [inc_lock_ref(n)] on a node of a well-formed enabled cache adds one
    to the [lock_ref] of exactly the nodes on the path from [n] up to, and not
    including, the root; it returns minus the total [|value|] of the nodes of
    that path that were at [lock_ref == 0], lowers [evictable_size_] by the
    same amount, and changes no key, value, parent or children. *)
Theorem inc_lock_ref_pins_path (s : RadixCache) (n : nat) :
  wf s → disable s = false → n ∈ tree_nodes s →
  ∃ s',
    inc_lock_ref s n
      = Ok (- sumZ (pin_weight 0 (objs s)) (pin_path s n), s') ∧
    evictable_size_ s' =
      evictable_size_ s - sumZ (pin_weight 0 (objs s)) (pin_path s n) ∧
    (∀ m, m ∈ tree_nodes s →
          lock_of (objs s') m =
            lock_of (objs s) m + (if decide (m ∈ pin_path s n) then 1 else 0)) ∧
    (∀ m, skel <$> objs s' !! m = skel <$> objs s !! m) ∧
    tree_nodes s' = tree_nodes s ∧
    (root_node s ∉ pin_path s n) ∧
    (n ≠ root_node s → n ∈ pin_path s n) ∧
    (∀ m, m ∈ pin_path s n → m ∈ tree_nodes s).
Proof.
  intros [t Hg] Hd Hn. rewrite (tree_nodes_ids s t Hg) in Hn |- *.
  destruct (pin_path_spec s t n Hg Hn) as (Hp & Hnd & Hin & Hself).
  destruct (inc_lock_ref_loop_exact _ s n 0 _ Hp Hnd)
    as (s' & Hrun & He & Hc & _ & Hb).
  pose proof Hc as (Hroot & _).
  pose proof (bumped_good _ _ _ _ _ Hb Hroot Hg) as Hg'.
  exists s'. unfold inc_lock_ref. rewrite Hd. split_and!; try done.
  - intros m Hm. apply (bumped_lock _ _ _ _ _ Hb).
    pose proof Hg as (_ & Htree & _).
    apply lookup_lt_is_Some. by eapply tree_at_bound.
  - intros m. by eapply bumped_skel.
  - by rewrite (tree_nodes_ids s' t Hg').
  - intros Hr. by destruct (Hin _ Hr).
  - intros m Hm. by destruct (Hin _ Hm).
Qed.

(** X13 — [dec_lock_ref(n)] on a node of a well-formed enabled cache subtracts
    one from the [lock_ref] of exactly the nodes on the path from [n] up to,
    and not including, the root; it returns the total [|value|] of the nodes
    of that path that were at [lock_ref == 1], raises [evictable_size_] by the
    same amount, and changes no key, value, parent or children. *)
Theorem dec_lock_ref_unpins_path (s : RadixCache) (n : nat) :
  wf s → disable s = false → n ∈ tree_nodes s →
  ∃ s',
    dec_lock_ref s n
      = Ok (sumZ (pin_weight 1 (objs s)) (pin_path s n), s') ∧
    evictable_size_ s' =
      evictable_size_ s + sumZ (pin_weight 1 (objs s)) (pin_path s n) ∧
    (∀ m, m ∈ tree_nodes s →
          lock_of (objs s') m =
            lock_of (objs s) m - (if decide (m ∈ pin_path s n) then 1 else 0)) ∧
    (∀ m, skel <$> objs s' !! m = skel <$> objs s !! m) ∧
    tree_nodes s' = tree_nodes s.
Proof.
  intros [t Hg] Hd Hn. rewrite (tree_nodes_ids s t Hg) in Hn |- *.
  destruct (pin_path_spec s t n Hg Hn) as (Hp & Hnd & Hin & Hself).
  destruct (dec_lock_ref_loop_exact _ s n 0 _ Hp Hnd)
    as (s' & Hrun & He & Hc & _ & Hb).
  pose proof Hc as (Hroot & _).
  pose proof (bumped_good _ _ _ _ _ Hb Hroot Hg) as Hg'.
  exists s'. unfold dec_lock_ref. rewrite Hd. split_and!; try done.
  - intros m Hm. rewrite (bumped_lock _ _ _ _ _ Hb).
    + case_decide; lia.
    + pose proof Hg as (_ & Htree & _).
      apply lookup_lt_is_Some. by eapply tree_at_bound.
  - intros m. by eapply bumped_skel.
  - by rewrite (tree_nodes_ids s' t Hg').
Qed.

Lemma bump_bump d nd : bump (- d) (bump d nd) = nd.
Proof.
  destruct nd. unfold bump, set_lock_ref. simpl. f_equal. lia.
Qed.

Lemma bumped_back d path st st1 st2 :
  bumped d path st st1 → bumped (- d) path st1 st2 → st2 = st.
Proof.
  intros [Hl1 Hb1] [Hl2 Hb2]. apply list_eq. intros m.
  rewrite (Hb2 m), (Hb1 m). case_decide; [|done].
  destruct (st !! m) as [nd|]; simpl; [|done]. by rewrite bump_bump.
Qed.

Lemma bumped_pin_weight d c path st st' l :
  bumped d path st st' → (∀ m, m ∈ l → m ∈ path ∧ is_Some (st !! m)) →
  sumZ (pin_weight (c + d) st') l = sumZ (pin_weight c st) l.
Proof.
  intros Hb Hl. apply sumZ_ext. intros m Hm. destruct (Hl m Hm) as [Hp Hs].
  unfold pin_weight. rewrite (bumped_lock _ _ _ _ _ Hb Hs).
  rewrite (bumped_value _ _ _ _ _ Hb). rewrite decide_True by done.
  destruct (Z.eqb_spec (lock_of st m) c), (Z.eqb_spec (lock_of st m + d) (c + d));
    try done; lia.
Qed.

Lemma RadixCache_eq s s' :
  objs s' = objs s → ticks s' = ticks s → evictable_size_ s' = evictable_size_ s →
  same_cache s s' → s' = s.
Proof.
  destruct s, s'. unfold same_cache. simpl.
  intros -> -> -> (-> & -> & -> & -> & ->). done.
Qed.

(** X14 — On a node of a well-formed cache, [inc_lock_ref(n)] followed by
    [dec_lock_ref(n)] gives back the very same cache state, and the two
    returned deltas cancel; the same holds for [dec_lock_ref(n)] followed by
    [inc_lock_ref(n)]. *)
Theorem pin_then_unpin_restores_the_cache (s : RadixCache) (n : nat) :
  wf s → n ∈ tree_nodes s →
  (∃ d s1, inc_lock_ref s n = Ok (d, s1) ∧ dec_lock_ref s1 n = Ok (- d, s)) ∧
  (∃ d s1, dec_lock_ref s n = Ok (d, s1) ∧ inc_lock_ref s1 n = Ok (- d, s)).
Proof.
  intros [t Hg] Hn. rewrite (tree_nodes_ids s t Hg) in Hn.
  unfold inc_lock_ref, dec_lock_ref. destruct (disable s) eqn:Hd.
  { split; exists 0, s; by rewrite Hd. }
  destruct (pin_path_spec s t n Hg Hn) as (Hp & Hnd & Hin & Hself).
  pose proof Hg as (_ & Htree & _).
  assert (∀ m, m ∈ pin_path s n →
               m ∈ pin_path s n ∧ is_Some (objs s !! m)) as Hex.
  { intros m Hm. split; [done|]. apply lookup_lt_is_Some.
    eapply tree_at_bound; [exact Htree|]. by destruct (Hin m Hm). }
  split.
  - destruct (inc_lock_ref_loop_exact _ s n 0 _ Hp Hnd)
      as (s1 & Hrun & He & Hc & Ht & Hb).
    pose proof Hc as (Hroot & Hdis & _).
    exists (0 - sumZ (pin_weight 0 (objs s)) (pin_path s n)), s1.
    split; [done|]. rewrite Hdis, Hd.
    assert (path_to_root (length (objs s1)) (objs s1) (root_node s1) n
            = Some (pin_path s n)) as Hp1.
    { destruct Hb as [Hlen Hb']. rewrite Hlen, Hroot, <- Hp.
      apply path_to_root_ext. intros m.
      by apply (bumped_parent 1 (pin_path s n)), (conj Hlen Hb'). }
    destruct (dec_lock_ref_loop_exact _ s1 n 0 _ Hp1 Hnd)
      as (s2 & Hrun2 & He2 & Hc2 & Ht2 & Hb2).
    pose proof (bumped_pin_weight 1 0 _ _ _ _ Hb Hex) as E.
    change (0 + 1) with 1 in E. rewrite E in Hrun2, He2.
    rewrite Hrun2. f_equal. apply pair_equal_spec. split; [lia|].
    apply RadixCache_eq.
    + by apply (bumped_back 1 (pin_path s n) _ (objs s1)).
    + congruence.
    + lia.
    + by eapply same_cache_trans.
  - destruct (dec_lock_ref_loop_exact _ s n 0 _ Hp Hnd)
      as (s1 & Hrun & He & Hc & Ht & Hb).
    pose proof Hc as (Hroot & Hdis & _).
    exists (0 + sumZ (pin_weight 1 (objs s)) (pin_path s n)), s1.
    split; [done|]. rewrite Hdis, Hd.
    assert (path_to_root (length (objs s1)) (objs s1) (root_node s1) n
            = Some (pin_path s n)) as Hp1.
    { destruct Hb as [Hlen Hb']. rewrite Hlen, Hroot, <- Hp.
      apply path_to_root_ext. intros m.
      by apply (bumped_parent (-1) (pin_path s n)), (conj Hlen Hb'). }
    destruct (inc_lock_ref_loop_exact _ s1 n 0 _ Hp1 Hnd)
      as (s2 & Hrun2 & He2 & Hc2 & Ht2 & Hb2).
    pose proof (bumped_pin_weight (-1) 1 _ _ _ _ Hb Hex) as E.
    change (1 + -1) with 0 in E. rewrite E in Hrun2, He2.
    rewrite Hrun2. f_equal. apply pair_equal_spec. split; [lia|].
    apply RadixCache_eq.
    + by apply (bumped_back (-1) (pin_path s n) _ (objs s1)).
    + congruence.
    + lia.
    + by eapply same_cache_trans.
Qed.

Lemma inc_lock_ref_run s t n :
  good s t → disable s = false → n ∈ ids t →
  ∃ s',
    inc_lock_ref s n
      = Ok (- sumZ (pin_weight 0 (objs s)) (pin_path s n), s') ∧
    evictable_size_ s' =
      evictable_size_ s - sumZ (pin_weight 0 (objs s)) (pin_path s n) ∧
    same_cache s s' ∧
    bumped 1 (pin_path s n) (objs s) (objs s') ∧ good s' t.
Proof.
  intros Hg Hd Hn.
  destruct (pin_path_spec s t n Hg Hn) as (Hp & Hnd & Hin & Hself).
  destruct (inc_lock_ref_loop_exact _ s n 0 _ Hp Hnd)
    as (s' & Hrun & He & Hc & _ & Hb).
  pose proof Hc as (Hroot & _).
  exists s'. unfold inc_lock_ref. rewrite Hd. split_and!; try done.
  by eapply bumped_good.
Qed.

Lemma dec_lock_ref_run s t n :
  good s t → disable s = false → n ∈ ids t →
  ∃ s',
    dec_lock_ref s n
      = Ok (sumZ (pin_weight 1 (objs s)) (pin_path s n), s') ∧
    evictable_size_ s' =
      evictable_size_ s + sumZ (pin_weight 1 (objs s)) (pin_path s n) ∧
    same_cache s s' ∧
    bumped (-1) (pin_path s n) (objs s) (objs s') ∧ good s' t.
Proof.
  intros Hg Hd Hn.
  destruct (pin_path_spec s t n Hg Hn) as (Hp & Hnd & Hin & Hself).
  destruct (dec_lock_ref_loop_exact _ s n 0 _ Hp Hnd)
    as (s' & Hrun & He & Hc & _ & Hb).
  pose proof Hc as (Hroot & _).
  exists s'. unfold dec_lock_ref. rewrite Hd. split_and!; try done.
  by eapply bumped_good.
Qed.

Lemma bumped_root_lock d s s' t n :
  good s t → n ∈ ids t → bumped d (pin_path s n) (objs s) (objs s') →
  lock_of (objs s') (root_node s) = lock_of (objs s) (root_node s).
Proof.
  intros Hg Hn Hb.
  destruct (pin_path_spec s t n Hg Hn) as (_ & _ & Hin & _).
  pose proof Hg as (Hid & Htree & _).
  rewrite (bumped_lock _ _ _ _ _ Hb).
  - rewrite decide_False; [lia|]. intros Hr. by destruct (Hin _ Hr).
  - rewrite <- Hid. by eapply tree_at_top.
Qed.

Lemma run_op_root_lock clock s o s' :
  Inv s → op_pre s o → run_op clock s o = Ok s' →
  lock_of (objs s) (root_node s) = 1 →
  lock_of (objs s') (root_node s') = 1.
Proof.
  intros ([t Hg] & _) Hpre Hrun Hl.
  pose proof Hg as (Hid & Htree & _).
  destruct (tree_at_top _ _ _ Htree) as [rnd Hrnd]. rewrite Hid in Hrnd.
  destruct o as [k v|k|n|n|num w|num w|]; simpl in Hrun, Hpre.
  - destruct v as [v|]; [|done].
    unfold insert in Hrun. destruct (disable s) eqn:Hd.
    { injection Hrun as <-. done. }
    fold (insert clock s k (Some v)) in Hrun.
    destruct (insert_grow clock s k (Some v) t Hg)
      as (r & s1 & t1 & dw & dv & Hr & Hgr & _ & (Hroot & _) & _); [done..|].
    unfold insert in Hr. rewrite Hd in Hr.
    fold (insert clock s k (Some v)) in Hr. rewrite Hr in Hrun.
    injection Hrun as <-.
    destruct (grow_lock _ _ _ _ _ _ _ Hgr _ _ Hrnd) as (nd' & Hn' & Hl').
    rewrite Hroot. unfold lock_of in Hl |- *. rewrite Hn', Hl'.
    by rewrite Hrnd in Hl.
  - destruct (disable s) eqn:Hd.
    { unfold match_prefix in Hrun. rewrite Hd in Hrun. by injection Hrun as <-. }
    destruct (match_prefix_grow clock s k t Hg Hd)
      as (vals & last & s1 & t1 & Hr & Hgr & _ & (Hroot & _)).
    rewrite Hr in Hrun. injection Hrun as <-.
    destruct (grow_lock _ _ _ _ _ _ _ Hgr _ _ Hrnd) as (nd' & Hn' & Hl').
    rewrite Hroot. unfold lock_of in Hl |- *. rewrite Hn', Hl'.
    by rewrite Hrnd in Hl.
  - destruct (disable s) eqn:Hd.
    { unfold inc_lock_ref in Hrun. rewrite Hd in Hrun. by injection Hrun as <-. }
    rewrite (tree_nodes_ids s t Hg) in Hpre.
    destruct (inc_lock_ref_run s t n Hg Hd Hpre)
      as (s1 & Hr & _ & (Hroot & _) & Hb & _).
    rewrite Hr in Hrun. injection Hrun as <-. rewrite Hroot.
    by rewrite (bumped_root_lock _ _ _ _ _ Hg Hpre Hb).
  - destruct Hpre as [Hpre _]. destruct (disable s) eqn:Hd.
    { unfold dec_lock_ref in Hrun. rewrite Hd in Hrun. by injection Hrun as <-. }
    rewrite (tree_nodes_ids s t Hg) in Hpre.
    destruct (dec_lock_ref_run s t n Hg Hd Hpre)
      as (s1 & Hr & _ & (Hroot & _) & Hb & _).
    rewrite Hr in Hrun. injection Hrun as <-. rewrite Hroot.
    by rewrite (bumped_root_lock _ _ _ _ _ Hg Hpre Hb).
  - destruct (disable s) eqn:Hd.
    { unfold evict in Hrun. cbn [enter_evict disable] in Hrun.
      rewrite Hd in Hrun. by injection Hrun as <-. }
    destruct (evict_ok s t num w Hg Hd) as (log & s1 & t1 & Hr & Hev & _).
    rewrite Hr in Hrun. injection Hrun as <-.
    rewrite (ev_root _ _ _ _ _ Hev).
    destruct (ev_payload _ _ _ _ _ Hev (root_node s)) as (_ & -> & _). done.
  - destruct (disable s) eqn:Hd.
    { unfold evict1 in Hrun. cbn [enter_evict disable] in Hrun.
      rewrite Hd in Hrun. by injection Hrun as <-. }
    destruct w as [w|].
    + destruct (evict1_ok s t num w Hg Hd) as (log & s1 & t1 & Hr & Hev & _).
      rewrite Hr in Hrun. injection Hrun as <-.
      rewrite (ev_root _ _ _ _ _ Hev).
      destruct (ev_payload _ _ _ _ _ Hev (root_node s)) as (_ & -> & _). done.
    + destruct (evict1_unreserved s t num Hg Hd) as [Hr|Hr];
        rewrite Hr in Hrun; [|done].
      by injection Hrun as <-.
  - injection Hrun as <-. unfold reset, new_TreeNode, time_time, lock_of. simpl.
    rewrite lookup_app_r by lia. by rewrite Nat.sub_diag.
Qed.

(** X15 — A run of operations from a fresh cache, each called as it may be
    ([op_pre]), returns in a state whose root has [lock_ref == 1], as no
    operation changes it; the only other outcome is the [TypeError] of an
    [evict1] called without its reserved list. *)
Theorem root_stays_pinned (clock : nat → Z) (flag0 disable0 : bool)
    (ops : list op) :
  valid clock (__init__ clock flag0 disable0) ops →
  (∃ s', run_ops clock (__init__ clock flag0 disable0) ops = Ok s' ∧
         lock_of (objs s') (root_node s') = 1) ∨
  (run_ops clock (__init__ clock flag0 disable0) ops = Raise TypeError ∧
   ∃ num_tokens, Evict1 num_tokens None ∈ ops).
Proof.
  intros Hv.
  destruct (run_ops_keeps clock (fun s => lock_of (objs s) (root_node s) = 1)
              (__init__ clock flag0 disable0) ops)
    as [(s' & Hr & _ & Hl)|Hraise]; [|apply __init___Inv|done|done| |by right].
  - intros s o s' HI Hl Hpre Hrun.
    exact (run_op_root_lock clock s o s' HI Hpre Hrun Hl).
  - left. by exists s'.
Qed.

(** X16 — After [inc_lock_ref(n)] on a node of a well-formed enabled cache
    whose [lock_ref] is not negative, no eviction pass frees [n] or a node on
    its path to the root: they are all still in the tree after [evict], with
    their values. *)
Theorem pinned_path_survives_eviction (s : RadixCache) (n : nat) (num : Z)
    (w : option (list nat)) :
  wf s → disable s = false → n ∈ tree_nodes s → 0 ≤ lock_of (objs s) n →
  ∃ d s1 log s2,
    inc_lock_ref s n = Ok (d, s1) ∧
    evict s1 num w = Ok (log, s2) ∧
    ∀ m, m ∈ n :: pin_path s n →
         m ∈ tree_nodes s2 ∧ (m ∉ map fst log) ∧
         value_of (objs s2) m = value_of (objs s) m.
Proof.
  intros [t Hg] Hd Hn Hl. rewrite (tree_nodes_ids s t Hg) in Hn.
  destruct (inc_lock_ref_run s t n Hg Hd Hn)
    as (s1 & Hr1 & _ & (Hroot & Hdis & _) & Hb & Hg1).
  rewrite <- Hdis in Hd.
  destruct (evict_ok s1 t num w Hg1 Hd) as (log & s2 & t2 & Hr2 & Hev & _).
  pose proof (ev_good _ _ _ _ _ Hev) as Hg2.
  eexists _, s1, log, s2. split_and!; [done..|].
  assert (n ∈ ids t2) as Hn2.
  { destruct (decide (n = root_node s)) as [->|Hne].
    - destruct Hg2 as (Hid2 & _). rewrite <- Hroot, <- (ev_root _ _ _ _ _ Hev).
      rewrite <- Hid2. destruct t2. left.
    - apply (evicted_survivor s1 t log s2 t2 n Hg1 Hev Hn).
      destruct (pin_path_spec s t n Hg Hn) as (_ & _ & _ & Hself).
      rewrite (bumped_lock _ _ _ _ _ Hb).
      + rewrite decide_True by auto. lia.
      + pose proof Hg as (_ & Htree & _). apply lookup_lt_is_Some.
        by eapply tree_at_bound. }
  intros m Hm.
  rewrite <- (bumped_pin_path _ _ _ _ n Hb Hroot) in Hm.
  rewrite <- (evicted_pin_path _ _ _ _ _ n Hev) in Hm.
  pose proof (pin_path_in_tree s2 t2 n m Hg2 Hn2 Hm) as Hm2.
  split_and!.
  - by rewrite (tree_nodes_ids s2 t2 Hg2).
  - by apply (evicted_not_freed s1 t log s2 t2).
  - destruct (ev_payload _ _ _ _ _ Hev m) as (-> & _).
    by apply (bumped_value 1 (pin_path s n)).
Qed.

Lemma cached_prefix_time fuel st st' n k l :
  same_but_time st st' →
  cached_prefix fuel st' n k l = cached_prefix fuel st n k l.
Proof.
  intros H. revert n k l. induction fuel as [|f IH]; intros n k l; [done|].
  cbn [cached_prefix]. destruct k as [|k0 rest]; [done|].
  rewrite (same_but_time_length _ _ H).
  destruct (st !! n) as [nd|] eqn:Hn.
  - destruct (same_but_time_lookup _ _ _ _ H Hn)
      as (nd' & -> & Hc & _ & _ & _ & _).
    rewrite Hc. destruct (dict_get (children nd) k0) as [c|]; [|done].
    destruct (st !! c) as [cnd|] eqn:Hcn.
    + destruct (same_but_time_lookup _ _ _ _ H Hcn)
        as (cnd' & -> & _ & _ & Hk & Hv & _).
      rewrite Hk, Hv. by rewrite IH.
    + specialize (H c). rewrite Hcn in H.
      destruct (st' !! c); [done|done].
  - specialize (H n). rewrite Hn in H. destruct (st' !! n); done.
Qed.

Lemma _key_match_differs key0 key1 a b :
  key0 !! _key_match key0 key1 = Some a →
  key1 !! _key_match key0 key1 = Some b → a ≠ b.
Proof.
  revert key1. induction key0 as [|x r0 IH]; intros [|y r1]; simpl; try done.
  destruct (Z.eqb_spec x y) as [->|Hne]; simpl.
  - apply IH.
  - by intros [= <-] [= <-].
Qed.

Lemma dict_get_set_eq {V} (d : list (Z * V)) k v :
  dict_get (dict_set d k v) k = Some v.
Proof.
  induction d as [|[k' v'] d IH]; simpl.
  - by rewrite Z.eqb_refl.
  - destruct (Z.eqb_spec k' k) as [->|Hne]; simpl.
    + by rewrite Z.eqb_refl.
    + by destruct (Z.eqb_spec k' k).
Qed.

Lemma _split_node_eq clock s p n kids nd k0 c cnd sl :
  tree_at (objs s) p (Sh n kids) → NoDup (ids (Sh n kids)) →
  objs s !! n = Some nd → dict_get (children nd) k0 = Some c →
  objs s !! c = Some cnd → (0 < sl < length (key cnd))%nat →
  ∃ k1 s',
    key cnd !! sl = Some k1 ∧
    _split_node clock s (key cnd) c sl = Ok (length (objs s), s') ∧
    objs s' =
      <[n := set_children (dict_set (children nd) k0 (length (objs s))) nd]>
        (<[c := mkTreeNode (children cnd) (Some (length (objs s)))
                  (drop sl (key cnd)) (drop sl (value cnd)) (lock_ref cnd)
                  (last_access_time cnd) (ref_counter cnd)]>
           (objs s ++
              [mkTreeNode [(k1, c)] (Some n) (take sl (key cnd))
                 (take sl (value cnd)) (lock_ref cnd) (clock (ticks s)) 0])) ∧
    n ≠ c ∧ (n < length (objs s))%nat ∧ (c < length (objs s))%nat.
Proof.
  intros Ht Hnd Hn Hget Hc Hsl.
  destruct (tree_at_child _ _ _ _ _ _ _ Ht Hn Hget)
    as (ks1 & kc & ks2 & cnd' & d1 & d2 & -> & Hd & Hlen & Hk0 & Hc' & Hcp
        & Hhd & Hkv & Hsc & Hset).
  rewrite Hc in Hc'. injection Hc' as <-.
  assert (n ≠ c) as Hnc.
  { intros ->. rewrite ids_split in Hnd. apply NoDup_cons in Hnd as [Hx _].
    apply Hx. rewrite !elem_of_app. right. left. simpl. left. }
  destruct (key cnd !! sl) as [k1|] eqn:Hk1;
    [|apply lookup_ge_None in Hk1; lia].
  pose proof (lookup_lt_Some _ _ _ Hn) as Hnlt.
  pose proof (lookup_lt_Some _ _ _ Hc) as Hclt.
  unfold _split_node, get_node. rewrite Hc. simpl.
  rewrite head_drop, Hk1. simpl.
  rewrite head_take by lia. rewrite Hhd. simpl. rewrite Hcp. simpl.
  rewrite list_lookup_insert_ne by done. rewrite lookup_app_l by done.
  rewrite Hn. simpl.
  eexists k1, _. split_and!; try done.
Qed.

Lemma touch_full clock s p t :
  tree_at (objs s) p t → NoDup (ids t) →
  ∃ s', touch clock s (sh_id t) = Ok s' ∧
        grow (objs s) p t (objs s') t 0 0 ∧
        evictable_size_ s' = evictable_size_ s ∧ same_cache s s' ∧
        same_but_time (objs s) (objs s').
Proof.
  intros Ht Hnd.
  destruct (touch_grow clock s p t Ht Hnd) as (s1 & Htouch & G1 & He1 & Hc1).
  destruct (touch_same_but_time clock (objs s) s (sh_id t))
    as (s1' & Htouch' & Hsame & _);
    [apply same_but_time_refl|by eapply tree_at_top|].
  rewrite Htouch in Htouch'. injection Htouch' as <-.
  by exists s1.
Qed.

Lemma split_top_lookup (st : list TreeNode) (n c : nat)
    (nd cnd' und : TreeNode) :
  n ≠ c → (n < length st)%nat → (c < length st)%nat →
  let st' := <[n := nd]> (<[c := cnd']> (st ++ [und])) in
  st' !! n = Some nd ∧ st' !! c = Some cnd' ∧ st' !! length st = Some und ∧
  length st' = S (length st).
Proof.
  intros Hnc Hn Hc. simpl. split_and!.
  - apply list_lookup_insert_eq. rewrite length_insert, length_app. lia.
  - rewrite list_lookup_insert_ne by done.
    apply list_lookup_insert_eq. rewrite length_app. lia.
  - rewrite !list_lookup_insert_ne by lia.
    rewrite lookup_app_r by lia. by rewrite Nat.sub_diag.
  - rewrite !length_insert, length_app. simpl. lia.
Qed.

Lemma _match_prefix_helper_full clock fuel s p t key0 value0 last :
  tree_at (objs s) p t → NoDup (ids t) → (length key0 < fuel)%nat →
  ∃ vals last' s' t',
    _match_prefix_helper clock fuel s (sh_id t) key0 value0 last
      = Ok (vals, last', s') ∧
    grow (objs s) p t (objs s') t' 0 0 ∧
    evictable_size_ s' = evictable_size_ s ∧ same_cache s s' ∧
    concat vals =
      concat value0 ++ (cached_prefix fuel (objs s) (sh_id t) key0 last).1 ∧
    last' = (cached_prefix fuel (objs s) (sh_id t) key0 last).2 ∧
    cached_prefix fuel (objs s') (sh_id t) key0 last
      = cached_prefix fuel (objs s) (sh_id t) key0 last.
Proof.
  revert s p t key0 value0 last.
  induction fuel as [|fuel IH]; intros s p t key0 value0 last Ht Hnd Hfuel;
    [lia|].
  destruct (touch_full clock s p t Ht Hnd)
    as (s1 & Htouch & G1 & He1 & Hc1 & Hsame).
  rewrite <- (cached_prefix_time (S fuel) _ _ _ _ _ Hsame).
  cbn [_match_prefix_helper]. rewrite Htouch. cbn [bind].
  destruct key0 as [|k0 rest].
  { eexists _, _, _, _. split; [done|]. split_and!; try done.
    simpl. by rewrite app_nil_r. }
  pose proof (grow_tree _ _ _ _ _ _ _ G1) as Ht1.
  pose proof (grow_nodup _ _ _ _ _ _ _ G1) as Hnd1.
  destruct t as [n kids]. cbn [sh_id].
  pose proof Ht1 as (nd & Hn & _)%tree_at_inv.
  unfold get_node at 1. rewrite Hn. cbn [of_option bind].
  cbn [cached_prefix]. rewrite Hn.
  destruct (dict_get (children nd) k0) as [c|] eqn:Hget.
  2:{ eexists _, _, _, _. split; [done|]. split_and!; try done.
      - simpl. by rewrite app_nil_r.
      - by rewrite Hn, Hget. }
  destruct (tree_at_child _ _ _ _ _ _ _ Ht1 Hn Hget)
    as (ks1 & kc & ks2 & cnd & d1 & d2 & -> & Hd & Hlen & Hk0 & Hc & Hcp
        & Hhd & Hkv & Hsc & Hset).
  unfold get_node at 1. rewrite Hc. cbn [of_option bind].
  pose proof (_key_match_le (key cnd) (k0 :: rest)) as [Hle1 Hle2].
  pose proof (_key_match_pos (key cnd) (k0 :: rest) k0 Hhd eq_refl) as Hpos.
  set (pl := _key_match (key cnd) (k0 :: rest)) in *.
  destruct (pl <? length (key cnd))%nat eqn:Hlt.
  - apply Nat.ltb_lt in Hlt.
    destruct (_split_node_grow clock s1 p n _ nd k0 c cnd pl Ht1 Hnd1 Hn Hget Hc)
      as (s2 & ks1' & kc' & ks2' & und & _ & Hsplit & G2 & He2 & Hc2 & Hu
          & Hukey & Huval & _ & Hnget); [lia|].
    destruct (_split_node_eq clock s1 p n _ nd k0 c cnd pl Ht1 Hnd1 Hn Hget Hc)
      as (k1 & s2' & Hk1 & Hsplit' & Hobjs & Hnc & Hnlt & Hclt); [lia|].
    rewrite Hsplit in Hsplit'. injection Hsplit' as <-.
    rewrite Hsplit. cbn [bind]. unfold get_node. rewrite Hu. cbn [of_option bind].
    eexists _, _, _, _. split; [done|]. split_and!.
    + apply (grow_trans _ _ _ _ _ _ _ _ _ _ _ G1 G2).
    + congruence.
    + by eapply same_cache_trans.
    + rewrite concat_app. simpl. by rewrite app_nil_r, Huval.
    + done.
    + destruct (split_top_lookup (objs s1) n c
                  (set_children (dict_set (children nd) k0 (length (objs s1))) nd)
                  (mkTreeNode (children cnd) (Some (length (objs s1)))
                     (drop pl (key cnd)) (drop pl (value cnd)) (lock_ref cnd)
                     (last_access_time cnd) (ref_counter cnd))
                  (mkTreeNode [(k1, c)] (Some n) (take pl (key cnd))
                     (take pl (value cnd)) (lock_ref cnd) (clock (ticks s1)) 0)
                  Hnc Hnlt Hclt) as (Hn2 & Hc2' & Hu2 & Hlen2).
      rewrite <- Hobjs in Hn2, Hc2', Hu2, Hlen2.
      rewrite Hn2. cbn [children set_children]. rewrite dict_get_set_eq.
      rewrite Hu2. cbn [key value].
      assert (_key_match (take pl (key cnd)) (k0 :: rest) = pl) as ->
        by apply _key_match_take.
      rewrite length_take, Nat.min_l by lia.
      rewrite Nat.ltb_irrefl.
      assert (cached_prefix fuel (objs s2) (length (objs s1))
                (drop pl (k0 :: rest)) (length (objs s1))
              = ([], length (objs s1))) as ->.
      { destruct fuel as [|f]; [done|]. cbn [cached_prefix].
        destruct (drop pl (k0 :: rest)) as [|j0 jr] eqn:Hdrop; [done|].
        rewrite Hu2. cbn [children dict_get].
        destruct (Z.eqb_spec k1 j0) as [->|Hne]; [|done].
        exfalso. apply (_key_match_differs (key cnd) (k0 :: rest) j0 j0);
          [done| |done].
        fold pl. rewrite <- head_drop, Hdrop. done. }
      by rewrite app_nil_r.
  - apply Nat.ltb_ge in Hlt.
    edestruct (IH s1 (Some n) (Sh c kc) (drop pl (k0 :: rest))
                 (value0 ++ [value cnd]) c)
      as (vals & last' & s2 & k' & Hrec & G2 & He2 & Hc2 & Hvals & Hlast & Hcp2);
      [done|by eapply ids_kid_nodup|rewrite length_drop; simpl in *; lia|].
    cbn [sh_id] in Hrec, Hvals, Hlast, Hcp2. rewrite Hrec.
    destruct (cached_prefix fuel (objs s1) c (drop pl (k0 :: rest)) c)
      as [vs l] eqn:Hcp1.
    eexists _, _, _, _. split; [done|]. split_and!.
    + apply (grow_trans _ _ _ _ _ _ _ _ _ _ _ G1).
      by apply grow_kid.
    + congruence.
    + by eapply same_cache_trans.
    + rewrite Hvals, concat_app. simpl. by rewrite app_nil_r, <- !(assoc (++)).
    + done.
    + destruct (grow_top _ _ _ _ _ _ _ G2)
        as (cnd1 & cnd2 & Hc1' & Hc2' & Hkey & Hval).
      cbn [sh_id] in Hc1', Hc2'. rewrite Hc in Hc1'. injection Hc1' as <-.
      rewrite (grow_frame _ _ _ _ _ _ _ G2 n);
        [|by eapply lookup_lt_Some|by eapply top_not_in_kid].
      rewrite Hn, Hget, Hc2', Hkey, Hval. fold pl.
      assert ((pl <? length (key cnd))%nat = false) as ->
        by (apply Nat.ltb_ge; lia).
      by rewrite Hcp2.
Qed.

Lemma cached_prefix_nil fuel st n l : cached_prefix fuel st n [] l = ([], l).
Proof. by destruct fuel. Qed.

Lemma _insert_helper_full clock fuel s p t key0 value0 last :
  tree_at (objs s) p t → NoDup (ids t) → (length key0 < fuel)%nat →
  length key0 = length value0 →
  ∃ r s' t' dw dv,
    _insert_helper clock fuel s (sh_id t) key0 value0 = Ok (r, s') ∧
    grow (objs s) p t (objs s') t' dw dv ∧
    evictable_size_ s' = evictable_size_ s + dw ∧ same_cache s s' ∧
    (r ≤ length key0)%nat ∧
    dw = len key0 - Z.of_nat r ∧ dv = len key0 - Z.of_nat r ∧
    r = length (cached_prefix fuel (objs s) (sh_id t) key0 last).1 ∧
    (cached_prefix fuel (objs s') (sh_id t) key0 last).1
      = (cached_prefix fuel (objs s) (sh_id t) key0 last).1 ++ drop r value0.
Proof.
  revert s p t key0 value0 last.
  induction fuel as [|fuel IH]; intros s p t key0 value0 last Ht Hnd Hfuel Hkv0;
    [lia|].
  destruct (touch_full clock s p t Ht Hnd)
    as (s1 & Htouch & G1 & He1 & Hc1 & Hsame).
  rewrite <- (cached_prefix_time (S fuel) _ _ _ _ _ Hsame).
  cbn [_insert_helper]. rewrite Htouch. cbn [bind].
  pose proof (grow_tree _ _ _ _ _ _ _ G1) as Ht1.
  pose proof (grow_nodup _ _ _ _ _ _ _ G1) as Hnd1.
  destruct key0 as [|k0 rest].
  { destruct value0; [|done].
    eexists _, _, _, _, _. split_and!; [done|exact G1|lia|done|done..]. }
  destruct t as [n kids]. cbn [sh_id].
  pose proof Ht1 as (nd & Hn & _)%tree_at_inv.
  pose proof (lookup_lt_Some _ _ _ Hn) as Hnlt.
  unfold get_node at 1. rewrite Hn. cbn [of_option bind].
  cbn [cached_prefix]. rewrite Hn.
  destruct (dict_get (children nd) k0) as [c|] eqn:Hget.
  2:{ unfold new_TreeNode, time_time, get_node. cbn [objs set_objs ticks].
      rewrite lookup_app_l by done. rewrite Hn. cbn [of_option bind].
      eexists _, _, _, _, _. split; [done|].
      cbn [objs put_node set_objs set_evictable evictable_size_ fst snd].
      split_and!.
      - eapply grow_trans; [exact G1|]. by eapply grow_add_leaf.
      - cbn. lia.
      - destruct Hc1 as (?&?&?&?&?). by repeat split.
      - lia.
      - unfold len. rewrite Hkv0. lia.
      - unfold len. rewrite Hkv0. lia.
      - done.
      - rewrite list_lookup_insert_eq by (rewrite length_app; lia).
        cbn [children set_children]. rewrite dict_get_set_eq.
        rewrite list_lookup_insert_ne by lia.
        rewrite lookup_app_r by lia. rewrite Nat.sub_diag. cbn [lookup list_lookup key value].
        rewrite _key_match_refl, Nat.ltb_irrefl, drop_all, cached_prefix_nil.
        simpl. by rewrite app_nil_r. }
  destruct (tree_at_child _ _ _ _ _ _ _ Ht1 Hn Hget)
    as (ks1 & kc & ks2 & cnd & d1 & d2 & Hkids & Hd & Hlen & Hk0 & Hc & Hcp
        & Hhd & Hkv & Hsc & Hset).
  unfold get_node at 1. rewrite Hc. cbn [of_option bind].
  pose proof (_key_match_le (key cnd) (k0 :: rest)) as [Hle1 Hle2].
  pose proof (_key_match_pos (key cnd) (k0 :: rest) k0 Hhd eq_refl) as Hpos.
  set (pl := _key_match (key cnd) (k0 :: rest)) in *.
  destruct (pl =? length (key cnd))%nat eqn:Hfull.
  - apply Nat.eqb_eq in Hfull.
    assert ((pl <? length (key cnd))%nat = false) as ->
      by (apply Nat.ltb_ge; lia).
    destruct (pl =? length (k0 :: rest))%nat eqn:Hall.
    + apply Nat.eqb_eq in Hall.
      rewrite Hall, drop_all, cached_prefix_nil. cbn [fst].
      eexists _, _, _, _, _. split_and!; [done|exact G1|lia|done|lia|..].
      * unfold len. lia.
      * unfold len. lia.
      * rewrite app_nil_r. lia.
      * cbn [cached_prefix]. rewrite Hn, Hget, Hc. fold pl.
        assert ((pl <? length (key cnd))%nat = false) as ->
          by (apply Nat.ltb_ge; lia).
        rewrite Hall, drop_all, cached_prefix_nil. cbn [fst].
        rewrite drop_ge by lia. by rewrite !app_nil_r.
    + apply Nat.eqb_neq in Hall. subst kids.
      edestruct (IH s1 (Some n) (Sh c kc) (drop pl (k0 :: rest))
                   (drop pl value0) c)
        as (r & s2 & k' & dw & dv & Hrec & G2 & He2 & Hc2 & Hr & Hdw & Hdv
            & Hrl & Hcp2);
        [done|by eapply ids_kid_nodup|rewrite length_drop; simpl in *; lia|
         rewrite !length_drop; lia|].
      cbn [sh_id] in Hrec, Hrl, Hcp2. rewrite Hrec. cbn [bind].
      rewrite length_drop in Hr. unfold len in Hdw, Hdv.
      rewrite length_drop in Hdw, Hdv.
      destruct (cached_prefix fuel (objs s1) c (drop pl (k0 :: rest)) c)
        as [vs l] eqn:Hcp1. cbn [fst] in Hrl, Hcp2 |- *.
      eexists _, _, _, _, _. split; [done|]. split_and!.
      * eapply grow_trans; [exact G1|]. by apply grow_kid.
      * lia.
      * by eapply same_cache_trans.
      * lia.
      * unfold len. lia.
      * unfold len. lia.
      * rewrite length_app. lia.
      * destruct (grow_top _ _ _ _ _ _ _ G2)
          as (cnd1 & cnd2 & Hc1' & Hc2' & Hkey & Hval).
        cbn [sh_id] in Hc1', Hc2'. rewrite Hc in Hc1'. injection Hc1' as <-.
        rewrite (grow_frame _ _ _ _ _ _ _ G2 n);
          [|done|by eapply top_not_in_kid].
        rewrite Hn, Hget, Hc2', Hkey, Hval. fold pl.
        assert ((pl <? length (key cnd))%nat = false) as ->
          by (apply Nat.ltb_ge; lia).
        destruct (cached_prefix fuel (objs s2) c (drop pl (k0 :: rest)) c)
          as [vs2 l2]. cbn [fst] in Hcp2 |- *.
        rewrite Hcp2, drop_drop, <- (assoc (++)). done.
  - apply Nat.eqb_neq in Hfull.
    assert ((pl <? length (key cnd))%nat = true) as ->
      by (apply Nat.ltb_lt; lia).
    destruct (_split_node_grow clock s1 p n _ nd k0 c cnd pl Ht1 Hnd1 Hn Hget Hc)
      as (s2 & ks1' & kc' & ks2' & und & Hkids' & Hsplit & G2 & He2 & Hc2 & Hu
          & Hukey & Huval & Hulock & Hnget); [lia|].
    destruct (_split_node_eq clock s1 p n _ nd k0 c cnd pl Ht1 Hnd1 Hn Hget Hc)
      as (k1 & s2' & Hk1 & Hsplit' & Hobjs & Hnc & _ & Hclt); [lia|].
    rewrite Hsplit in Hsplit'. injection Hsplit' as <-.
    destruct (split_top_lookup (objs s1) n c
                (set_children (dict_set (children nd) k0 (length (objs s1))) nd)
                (mkTreeNode (children cnd) (Some (length (objs s1)))
                   (drop pl (key cnd)) (drop pl (value cnd)) (lock_ref cnd)
                   (last_access_time cnd) (ref_counter cnd))
                (mkTreeNode [(k1, c)] (Some n) (take pl (key cnd))
                   (take pl (value cnd)) (lock_ref cnd) (clock (ticks s1)) 0)
                Hnc Hnlt Hclt) as (_ & _ & Hu2 & _).
    rewrite <- Hobjs in Hu2.
    rewrite Hsplit. cbn [bind].
    pose proof (grow_tree _ _ _ _ _ _ _ G2) as Ht2.
    pose proof (grow_nodup _ _ _ _ _ _ _ G2) as Hnd2.
    edestruct (IH s2 (Some n) (Sh (length (objs s1)) [Sh c kc'])
                 (drop pl (k0 :: rest)) (drop pl value0) (length (objs s1)))
      as (r & s3 & k' & dw & dv & Hrec & G3 & He3 & Hc3 & Hr & Hdw & Hdv
          & Hrl & Hcp3);
      [by eapply tree_at_kid|by eapply ids_kid_nodup|
       rewrite length_drop; simpl in *; lia|rewrite !length_drop; lia|].
    cbn [sh_id] in Hrec, Hrl, Hcp3. rewrite Hrec. cbn [bind].
    rewrite length_drop in Hr. unfold len in Hdw, Hdv.
    rewrite length_drop in Hdw, Hdv.
    assert (cached_prefix fuel (objs s2) (length (objs s1))
              (drop pl (k0 :: rest)) (length (objs s1))
            = ([], length (objs s1))) as Hnil.
    { destruct fuel as [|f]; [done|]. cbn [cached_prefix].
      destruct (drop pl (k0 :: rest)) as [|j0 jr] eqn:Hdrop; [done|].
      rewrite Hu2. cbn [children dict_get].
      destruct (Z.eqb_spec k1 j0) as [->|Hne]; [|done].
      exfalso. apply (_key_match_differs (key cnd) (k0 :: rest) j0 j0);
        [done| |done].
      fold pl. rewrite <- head_drop, Hdrop. done. }
    rewrite Hnil in Hrl, Hcp3. cbn [fst length app] in Hrl, Hcp3. subst r.
    cbn [fst].
    eexists _, _, _, _, _. split; [done|]. split_and!.
    * eapply grow_trans; [exact G1|]. eapply grow_trans; [exact G2|].
      by apply grow_kid.
    * lia.
    * eapply same_cache_trans; [done|]. by eapply same_cache_trans.
    * lia.
    * unfold len. lia.
    * unfold len. lia.
    * rewrite length_take. lia.
    * destruct (grow_top _ _ _ _ _ _ _ G3)
        as (und1 & und2 & Hu1 & Hu2' & Hkey & Hval).
      cbn [sh_id] in Hu1, Hu2'. rewrite Hu in Hu1. injection Hu1 as <-.
      pose proof Ht2 as (nd2 & Hn2 & _)%tree_at_inv.
      unfold children_of in Hnget. rewrite Hn2 in Hnget.
      rewrite (grow_frame _ _ _ _ _ _ _ G3 n);
        [|by eapply lookup_lt_Some|by eapply top_not_in_kid].
      rewrite Hn2, Hnget, Hu2', Hkey, Hval, Hukey, Huval.
      assert (_key_match (take pl (key cnd)) (k0 :: rest) = pl) as ->
        by apply _key_match_take.
      rewrite length_take, Nat.min_l by lia. rewrite Nat.ltb_irrefl.
      destruct (cached_prefix fuel (objs s3) (length (objs s1))
                  (drop pl (k0 :: rest)) (length (objs s1))) as [vs3 l3].
      cbn [fst] in Hcp3 |- *. rewrite Hcp3. cbn [drop].
      by rewrite Nat.add_0_r.
Qed.

Lemma match_prefix_full clock s key0 t :
  good s t → disable s = false →
  ∃ s' t',
    match_prefix clock s key0 = Ok ((cached s key0).1, (cached s key0).2, s') ∧
    grow (objs s) None t (objs s') t' 0 0 ∧
    evictable_size_ s' = evictable_size_ s ∧ same_cache s s' ∧
    cached s' key0 = cached s key0.
Proof.
  intros Hg Hdis. pose proof Hg as (Hid & Ht & Hnd & _).
  unfold match_prefix. rewrite Hdis.
  destruct (_match_prefix_helper_full clock (S (length key0)) s None t key0 []
              (root_node s) Ht Hnd)
    as (vals & last & s' & t' & Hrun & G & He & Hc & Hv & Hl & Hcp); [lia|].
  rewrite Hid in Hrun, Hv, Hl, Hcp. rewrite Hrun. cbn [bind].
  simpl in Hv. exists s', t'. unfold cached.
  destruct Hc as (Hroot & Hrest). rewrite Hroot.
  split_and!; try done. by rewrite Hv, Hl.
Qed.

Lemma insert_full clock s key0 value0 t :
  good s t → disable s = false →
  length key0 = length (default key0 value0) →
  ∃ s' t',
    insert clock s key0 value0 = Ok (length (cached s key0).1, s') ∧
    grow (objs s) None t (objs s') t'
      (len key0 - len (cached s key0).1) (len key0 - len (cached s key0).1) ∧
    evictable_size_ s' =
      evictable_size_ s + (len key0 - len (cached s key0).1) ∧
    same_cache s s' ∧
    (length (cached s key0).1 ≤ length key0)%nat ∧
    (cached s' key0).1 =
      (cached s key0).1
        ++ drop (length (cached s key0).1) (default key0 value0).
Proof.
  intros Hg Hdis Hlen. pose proof Hg as (Hid & Ht & Hnd & _).
  unfold insert, cached. rewrite Hdis.
  destruct (_insert_helper_full clock (S (length key0)) s None t key0
              (default key0 value0) (root_node s) Ht Hnd)
    as (r & s' & t' & dw & dv & Hrun & G & He & Hc & Hr & Hdw & Hdv & Hrl & Hcp);
    [lia|done|].
  rewrite Hid in Hrun, Hrl, Hcp.
  subst r dw dv. exists s', t'.
  destruct Hc as (Hroot & Hrest). rewrite Hroot.
  split_and!; try done; by destruct value0.
Qed.

(** X17 — [insert(k, v)] on a well-formed enabled cache, with [v] as long as
    [k] (or omitted), returns some [r <= |k|], and [total_size()] and
    [evictable_size_] both grow by exactly [|k| - r]; the cache stays well-
    formed, no node leaves the tree and no existing node changes its
    [lock_ref]. *)
Theorem insert_counts_the_new_tokens (clock : nat → Z) (s : RadixCache)
    (k : list Z) (v : option (list Z)) :
  wf s → disable s = false → length k = length (default k v) →
  ∃ r s' z,
    insert clock s k v = Ok (r, s') ∧
    (r ≤ length k)%nat ∧
    total_size s = Ok z ∧
    total_size s' = Ok (z + (len k - Z.of_nat r)) ∧
    evictable_size_ s' = evictable_size_ s + (len k - Z.of_nat r) ∧
    wf s' ∧
    (∀ n, n ∈ tree_nodes s → n ∈ tree_nodes s') ∧
    (∀ n nd, objs s !! n = Some nd →
             ∃ nd', objs s' !! n = Some nd' ∧ lock_ref nd' = lock_ref nd).
Proof.
  intros [t Hg] Hd Hlen.
  destruct (insert_full clock s k v t Hg Hd Hlen)
    as (s' & t' & Hr & G & He & Hc & Hle & _).
  pose proof (good_grow s s' t t' _ _ Hg G Hc) as Hg'.
  exists (length (cached s k).1), s', (total_values (objs s) (ids t)).
  split_and!; try done.
  - apply (total_size_ids s t Hg).
  - rewrite (total_size_ids s' t' Hg'). by rewrite (grow_values _ _ _ _ _ _ _ G).
  - by exists t'.
  - intros n. rewrite (tree_nodes_ids s t Hg), (tree_nodes_ids s' t' Hg').
    apply (grow_keep _ _ _ _ _ _ _ G).
  - apply (grow_lock _ _ _ _ _ _ _ G).
Qed.

(** X18 — Insert and look up: on a well-formed enabled cache, if
    [match_prefix(k)] returns [vals0], then [insert(k, v)] with [|v| == |k|]
    returns [|vals0|], and a [match_prefix(k)] after it returns [vals0]
    followed by the rest of [v], which is [|k|] slots in all. *)
Theorem insert_then_match_prefix (clock : nat → Z) (s : RadixCache)
    (k v : list Z) :
  wf s → disable s = false → length v = length k →
  ∃ vals0 last0 s0 r s1 last s2,
    match_prefix clock s k = Ok (vals0, last0, s0) ∧
    insert clock s k (Some v) = Ok (r, s1) ∧
    r = length vals0 ∧
    match_prefix clock s1 k = Ok (vals0 ++ drop r v, last, s2) ∧
    length (vals0 ++ drop r v) = length k.
Proof.
  intros [t Hg] Hd Hlen.
  destruct (match_prefix_full clock s k t Hg Hd) as (s0 & t0 & Hm0 & _).
  destruct (insert_full clock s k (Some v) t Hg Hd)
    as (s1 & t1 & Hr & G & He & Hc & Hle & Hcp); [by simpl|].
  pose proof (good_grow s s1 t t1 _ _ Hg G Hc) as Hg1.
  destruct Hc as (_ & Hdis & _).
  destruct (match_prefix_full clock s1 k t1 Hg1) as (s2 & t2 & Hm1 & _);
    [congruence|].
  simpl in Hcp. rewrite Hcp in Hm1.
  eexists _, _, s0, _, s1, _, s2. split_and!; try done.
  rewrite length_app, length_drop. lia.
Qed.

(** X19 — [match_prefix] is idempotent in what it returns: on a well-formed
    cache a second [match_prefix(k)] returns the same values and the same last
    node as the first, although the first may have split a node; the values
    are at most [|k|] slots. *)
Theorem match_prefix_twice (clock : nat → Z) (s : RadixCache) (k : list Z) :
  wf s →
  ∃ vals last s1 s2,
    match_prefix clock s k = Ok (vals, last, s1) ∧
    match_prefix clock s1 k = Ok (vals, last, s2) ∧
    (length vals ≤ length k)%nat.
Proof.
  intros [t Hg]. destruct (disable s) eqn:Hd.
  { exists [], (root_node s), s, s. unfold match_prefix. rewrite Hd.
    split_and!; try done. simpl. lia. }
  destruct (match_prefix_full clock s k t Hg Hd)
    as (s1 & t1 & Hm0 & G & _ & Hc & Hcp).
  pose proof (good_grow s s1 t t1 _ _ Hg G Hc) as Hg1.
  destruct Hc as (_ & Hdis & _).
  destruct (match_prefix_full clock s1 k t1 Hg1) as (s2 & t2 & Hm1 & _);
    [congruence|].
  rewrite Hcp in Hm1.
  destruct (insert_full clock s k None t Hg Hd) as (_ & _ & _ & _ & _ & _ & Hle & _);
    [done|].
  eexists _, _, s1, s2. split_and!; done.
Qed.

Lemma heap_parent_child p :
  (0 < p)%nat → heap_child ((p - 1) / 2) p.
Proof.
  intros Hp. unfold heap_child.
  pose proof (Nat.div_mod_eq (p - 1) 2) as E.
  pose proof (Nat.mod_upper_bound (p - 1) 2) as B. lia.
Qed.

Lemma heap_child_parent i c : heap_child i c → ((c - 1) / 2 = i)%nat ∧ (i < c)%nat.
Proof.
  intros [->| ->]; split; try lia.
  - replace (2 * i + 1 - 1)%nat with (i * 2)%nat by lia.
    by rewrite Nat.div_mul.
  - replace (2 * i + 2 - 1)%nat with (1 + i * 2)%nat by lia.
    rewrite Nat.div_add by lia. done.
Qed.

Lemma heap_desc_ge lo p : heap_desc lo p → (lo ≤ p)%nat.
Proof.
  induction 1 as [|q c _ IH Hc]; [done|].
  apply heap_child_parent in Hc. lia.
Qed.

Lemma heap_desc_parent lo p :
  heap_desc lo p → (lo < p)%nat → heap_desc lo ((p - 1) / 2).
Proof.
  intros H Hlt. destruct H as [|q c Hq Hc]; [lia|].
  apply heap_child_parent in Hc as [-> _]. done.
Qed.

Lemma heap_desc_zero p : heap_desc 0 p.
Proof.
  induction (lt_wf p) as [p _ IH]. destruct p as [|p]; [constructor|].
  eapply heap_desc_child; [|apply (heap_parent_child (S p)); lia].
  apply IH. pose proof (heap_child_parent _ _ (heap_parent_child (S p) ltac:(lia))).
  lia.
Qed.

Section heap_order.
Context {A : Type} (lt : A → A → bool) (f : A → Z).
Hypothesis lt_f : ∀ a b, lt a b = (f a <? f b).

Lemma fill_hole lo (h : list A) p x :
  (p < length h)%nat →
  hole_sides f lo h p → hole_below f h p x →
  (∀ q y, (lo ≤ q)%nat → heap_child q p → h !! q = Some y → f y ≤ f x) →
  heap_from f lo (<[p := x]> h).
Proof.
  intros Hp Hs Hb Ha i c Hi Hc x0 y0 Hx0 Hy0.
  pose proof (heap_child_parent _ _ Hc) as [_ Hic].
  destruct (decide (i = p)) as [->|Hip].
  - rewrite list_lookup_insert_eq in Hx0 by done. injection Hx0 as <-.
    rewrite list_lookup_insert_ne in Hy0 by lia. by eapply Hb.
  - rewrite list_lookup_insert_ne in Hx0 by done.
    destruct (decide (c = p)) as [->|Hcp].
    + rewrite list_lookup_insert_eq in Hy0 by done. injection Hy0 as <-.
      by eapply Ha.
    + rewrite list_lookup_insert_ne in Hy0 by done. by eapply (Hs i c).
Qed.

Lemma hole_sides_insert lo (h : list A) p x :
  hole_sides f lo h p → hole_sides f lo (<[p := x]> h) p.
Proof.
  intros Hs i c Hi Hip Hcp Hc x0 y0.
  rewrite !list_lookup_insert_ne by done. by apply Hs.
Qed.

Lemma hole_across_insert lo (h : list A) p x :
  hole_across f lo h p → hole_across f lo (<[p := x]> h) p.
Proof.
  intros Hs q c Hq Hqp Hpc x0 y0.
  apply heap_child_parent in Hqp as Hqp'. apply heap_child_parent in Hpc as Hpc'.
  rewrite !list_lookup_insert_ne by lia. by apply Hs.
Qed.

Lemma _siftdown_loop_heap fuel lo (h : list A) p x :
  (p ≤ fuel)%nat → (p < length h)%nat → heap_desc lo p →
  hole_sides f lo h p → hole_across f lo h p → hole_below f h p x →
  heap_from f lo (_siftdown_loop lt fuel h lo p x).
Proof.
  revert h p. induction fuel as [|fuel IH]; intros h p Hfuel Hp Hd Hs Ha Hb.
  { cbn [_siftdown_loop]. apply fill_hole; try done.
    intros q y _ Hq. apply heap_child_parent in Hq. lia. }
  cbn [_siftdown_loop]. destruct (lo <? p)%nat eqn:Hlo.
  2:{ apply Nat.ltb_ge in Hlo. apply fill_hole; try done.
      intros q y Hq Hqp. apply heap_child_parent in Hqp. lia. }
  apply Nat.ltb_lt in Hlo.
  pose proof (heap_parent_child p ltac:(lia)) as Hqp.
  pose proof (heap_child_parent _ _ Hqp) as [_ Hqlt].
  pose proof (heap_desc_parent lo p Hd Hlo) as Hdq.
  pose proof (heap_desc_ge _ _ Hdq) as Hq.
  set (q := ((p - 1) / 2)%nat) in *.
  destruct (h !! q) as [par|] eqn:Hpar;
    [|apply lookup_ge_None in Hpar; lia].
  rewrite lt_f. destruct (Z.ltb_spec (f x) (f par)) as [Hlt|Hge].
  - apply IH.
    + lia.
    + rewrite length_insert. lia.
    + done.
    + intros i c Hi Hiq Hcq Hc x0 y0 Hx0 Hy0.
      pose proof (heap_child_parent _ _ Hc) as [Hpar' Hic].
      destruct (decide (i = p)) as [->|Hip].
      * rewrite list_lookup_insert_eq in Hx0 by done. injection Hx0 as <-.
        rewrite list_lookup_insert_ne in Hy0 by lia.
        by apply (Ha q c Hq Hqp Hc par y0).
      * rewrite list_lookup_insert_ne in Hx0 by done.
        destruct (decide (c = p)) as [->|Hcp].
        { apply heap_child_parent in Hc as [Hc _]. fold q in Hc. lia. }
        rewrite list_lookup_insert_ne in Hy0 by done.
        by apply (Hs i c Hi Hip Hcp Hc x0 y0).
    + intros q' c Hq' Hq'q Hqc x0 y0 Hx0 Hy0.
      pose proof (heap_child_parent _ _ Hq'q) as [_ Hlt'].
      rewrite list_lookup_insert_ne in Hx0 by lia.
      pose proof (Hs q' q Hq' ltac:(lia) ltac:(lia) Hq'q x0 par Hx0 Hpar) as H1.
      destruct (decide (c = p)) as [->|Hcp].
      * rewrite list_lookup_insert_eq in Hy0 by done. by injection Hy0 as <-.
      * rewrite list_lookup_insert_ne in Hy0 by done.
        pose proof (Hs q c Hq ltac:(lia) Hcp Hqc par y0 Hpar Hy0). lia.
    + intros c y Hqc Hy.
      destruct (decide (c = p)) as [->|Hcp].
      * rewrite list_lookup_insert_eq in Hy by done. injection Hy as <-. lia.
      * rewrite list_lookup_insert_ne in Hy by done.
        pose proof (Hs q c Hq ltac:(lia) Hcp Hqc par y Hpar Hy). lia.
  - apply fill_hole; try done.
    intros q' y Hq' Hq'p Hy.
    apply heap_child_parent in Hq'p as [Hq'p _]. fold q in Hq'p. subst q'.
    rewrite Hpar in Hy. injection Hy as <-. lia.
Qed.

Lemma _siftup_loop_heap fuel lo (h : list A) p :
  (length h - p ≤ fuel)%nat → (p < length h)%nat → heap_desc lo p →
  hole_sides f lo h p → hole_across f lo h p →
  length (_siftup_loop lt fuel h (length h) p).1 = length h ∧
  ((_siftup_loop lt fuel h (length h) p).2 < length h)%nat ∧
  heap_desc lo (_siftup_loop lt fuel h (length h) p).2 ∧
  hole_sides f lo (_siftup_loop lt fuel h (length h) p).1
    (_siftup_loop lt fuel h (length h) p).2 ∧
  hole_across f lo (_siftup_loop lt fuel h (length h) p).1
    (_siftup_loop lt fuel h (length h) p).2 ∧
  (length h ≤ 2 * (_siftup_loop lt fuel h (length h) p).2 + 1)%nat.
Proof.
  revert h p. induction fuel as [|fuel IH]; intros h p Hfuel Hp Hd Hs Ha; [lia|].
  cbn [_siftup_loop]. destruct (2 * p + 1 <? length h)%nat eqn:Hc1.
  2:{ apply Nat.ltb_ge in Hc1. simpl. done. }
  apply Nat.ltb_lt in Hc1.
  destruct (h !! (2 * p + 1)%nat) as [cl|] eqn:Hcl;
    [|apply lookup_ge_None in Hcl; lia].
  set (cp := if (2 * p + 1 + 1 <? length h)%nat then _ else _).
  assert (∃ cv, heap_child p cp ∧ h !! cp = Some cv ∧
                ∀ c2 y2, heap_child p c2 → h !! c2 = Some y2 → f cv ≤ f y2)
    as (cv & Hpc & Hcv & Hmin).
  { unfold cp. destruct (2 * p + 1 + 1 <? length h)%nat eqn:Hc2.
    - apply Nat.ltb_lt in Hc2.
      destruct (h !! (2 * p + 1 + 1)%nat) as [cr|] eqn:Hcr;
        [|apply lookup_ge_None in Hcr; lia].
      rewrite lt_f. destruct (Z.ltb_spec (f cl) (f cr)) as [Hlt|Hge].
      + exists cl. split_and!; [by left|done|].
        intros c2 y2 [->| ->] Hy2.
        * rewrite Hcl in Hy2. injection Hy2 as <-. lia.
        * replace (2 * p + 2)%nat with (2 * p + 1 + 1)%nat in Hy2 by lia.
          rewrite Hcr in Hy2. injection Hy2 as <-. lia.
      + exists cr. split_and!; [right; lia|done|].
        intros c2 y2 [->| ->] Hy2.
        * rewrite Hcl in Hy2. injection Hy2 as <-. lia.
        * replace (2 * p + 2)%nat with (2 * p + 1 + 1)%nat in Hy2 by lia.
          rewrite Hcr in Hy2. injection Hy2 as <-. lia.
    - apply Nat.ltb_ge in Hc2. exists cl. split_and!; [by left|done|].
      intros c2 y2 [->| ->] Hy2.
      + rewrite Hcl in Hy2. injection Hy2 as <-. lia.
      + apply lookup_lt_Some in Hy2. lia. }
  rewrite Hcv.
  pose proof (heap_child_parent _ _ Hpc) as [_ Hpcp].
  pose proof (lookup_lt_Some _ _ _ Hcv) as Hcplt.
  pose proof (heap_desc_ge _ _ Hd) as Hlop.
  destruct (IH (<[p := cv]> h) cp) as (H1 & H2 & H3 & H4 & H5 & H6).
  - rewrite length_insert. lia.
  - by rewrite length_insert.
  - by eapply heap_desc_child.
  - intros i c Hi Hicp Hccp Hc x0 y0 Hx0 Hy0.
    pose proof (heap_child_parent _ _ Hc) as [Hpar' Hic].
    destruct (decide (i = p)) as [->|Hip].
    + rewrite list_lookup_insert_eq in Hx0 by done. injection Hx0 as <-.
      rewrite list_lookup_insert_ne in Hy0 by lia. by eapply Hmin.
    + rewrite list_lookup_insert_ne in Hx0 by done.
      destruct (decide (c = p)) as [->|Hcp'].
      * rewrite list_lookup_insert_eq in Hy0 by done. injection Hy0 as <-.
        by apply (Ha i cp Hi Hc Hpc x0 cv).
      * rewrite list_lookup_insert_ne in Hy0 by done.
        by apply (Hs i c Hi Hip Hcp' Hc x0 y0).
  - intros q c Hq Hqcp Hcpc x0 y0 Hx0 Hy0.
    apply heap_child_parent in Hqcp as [Hqcp _].
    apply heap_child_parent in Hpc as Hpc'. destruct Hpc' as [Hpc' _].
    assert (q = p) as -> by lia.
    pose proof (heap_child_parent _ _ Hcpc) as [_ Hcc].
    rewrite list_lookup_insert_eq in Hx0 by done. injection Hx0 as <-.
    rewrite list_lookup_insert_ne in Hy0 by lia.
    by apply (Hs cp c ltac:(lia) ltac:(lia) ltac:(lia) Hcpc cv y0).
  - rewrite length_insert in H1, H2, H3, H4, H5, H6. done.
Qed.

Lemma _siftup_heap (h : list A) pos :
  heap_from f (S pos) h → heap_from f pos (_siftup lt h pos).
Proof.
  intros Hh. unfold _siftup. destruct (h !! pos) as [x|] eqn:Hx.
  2:{ intros i c Hi Hc x0 y0 Hx0 Hy0.
      apply lookup_ge_None in Hx. pose proof (lookup_lt_Some _ _ _ Hx0).
      destruct (decide (i = pos)) as [->|Hne]; [lia|].
      by apply (Hh i c ltac:(lia) Hc x0 y0). }
  pose proof (lookup_lt_Some _ _ _ Hx) as Hpos.
  destruct (_siftup_loop_heap (length h) pos h pos)
    as (H1 & H2 & H3 & H4 & H5 & H6); [lia|done|apply heap_desc_refl| | |].
  - intros i c Hi Hip _ Hc. apply Hh; [lia|done].
  - intros q c Hq Hqp. apply heap_child_parent in Hqp. lia.
  - destruct (_siftup_loop lt (length h) h (length h) pos) as [h1 p1].
    cbn [fst snd] in *. unfold _siftdown.
    rewrite list_lookup_insert_eq by lia.
    apply _siftdown_loop_heap; try done.
    + rewrite length_insert. lia.
    + by apply hole_sides_insert.
    + by apply hole_across_insert.
    + intros c y Hc Hy. apply lookup_lt_Some in Hy.
      rewrite length_insert in Hy. destruct Hc; lia.
Qed.

Lemma heapify_heap (x : list A) : heap_from f 0 (heapify lt x).
Proof.
  unfold heapify.
  assert (heap_from f (length x / 2) x) as H.
  { intros i c Hi Hc x0 y0 Hx0 Hy0. apply lookup_lt_Some in Hy0.
    pose proof (Nat.div_mod_eq (length x) 2) as E.
    pose proof (Nat.mod_upper_bound (length x) 2) as B.
    destruct Hc; lia. }
  revert H. generalize (length x / 2)%nat as i. intros i. revert x.
  induction i as [|i IH]; intros x H; simpl; [done|].
  apply IH. by apply _siftup_heap.
Qed.

Lemma heappush_heap (h : list A) item :
  heap_from f 0 h → heap_from f 0 (heappush lt h item).
Proof.
  intros Hh. unfold heappush, _siftdown.
  rewrite length_app. simpl.
  replace (length h + 1 - 1)%nat with (length h) by lia.
  rewrite lookup_app_r by lia. rewrite Nat.sub_diag. simpl.
  apply _siftdown_loop_heap.
  - done.
  - rewrite length_app. simpl. lia.
  - apply heap_desc_zero.
  - intros i c Hi Hip Hcp Hc x0 y0 Hx0 Hy0.
    pose proof (lookup_lt_Some _ _ _ Hx0) as L1.
    pose proof (lookup_lt_Some _ _ _ Hy0) as L2.
    rewrite length_app in L1, L2. simpl in L1, L2.
    rewrite lookup_app_l in Hx0 by lia. rewrite lookup_app_l in Hy0 by lia.
    by apply (Hh i c Hi Hc x0 y0).
  - intros q c Hq Hqp Hpc x0 y0 Hx0 Hy0.
    apply lookup_lt_Some in Hy0. rewrite length_app in Hy0. simpl in Hy0.
    destruct Hpc; lia.
  - intros c y Hc Hy.
    apply lookup_lt_Some in Hy. rewrite length_app in Hy. simpl in Hy.
    destruct Hc; lia.
Qed.

Lemma heap_root_min (h : list A) x :
  heap_from f 0 h → h !! 0%nat = Some x → ∀ y, y ∈ h → f x ≤ f y.
Proof.
  intros Hh Hx y Hy. apply list_elem_of_lookup in Hy as [j Hj].
  revert y Hj. induction (lt_wf j) as [j _ IH]. intros y Hj.
  destruct j as [|j].
  - rewrite Hx in Hj. injection Hj as <-. lia.
  - pose proof (heap_parent_child (S j) ltac:(lia)) as Hc.
    pose proof (heap_child_parent _ _ Hc) as [_ Hlt].
    destruct (h !! ((S j - 1) / 2)%nat) as [z|] eqn:Hz.
    + pose proof (IH _ Hlt z Hz).
      pose proof (Hh _ _ ltac:(lia) Hc z y Hz Hj). lia.
    + apply lookup_ge_None in Hz. apply lookup_lt_Some in Hj. lia.
Qed.

Lemma heappop_heap (h h' : list A) x :
  heap_from f 0 h → heappop lt h = Some (x, h') →
  heap_from f 0 h' ∧ ∀ y, y ∈ h → f x ≤ f y.
Proof.
  intros Hh. unfold heappop.
  destruct (list_pop h) as [[lastelt h0]|] eqn:E; [|done].
  apply list_pop_Some in E as ->. destruct h0 as [|r h0].
  - intros [= <- <-]. split.
    + intros i c _ _ x0 y0 Hx0. done.
    + intros y ->%list_elem_of_singleton. lia.
  - intros [= <- <-]. split.
    + apply _siftup_heap.
      intros i c Hi Hc x0 y0 Hx0 Hy0.
      pose proof (heap_child_parent _ _ Hc) as [_ Hic].
      destruct i as [|i]; [lia|]. destruct c as [|c]; [lia|].
      cbn in Hx0, Hy0.
      apply (Hh (S i) (S c) ltac:(lia) Hc x0 y0); cbn.
      * by apply lookup_app_l_Some.
      * by apply lookup_app_l_Some.
    + by apply heap_root_min.
Qed.

End heap_order.

(** ** [evict] pops the oldest leaf first *)

Lemma node_lt_atime s (f : nat → Z) :
  (∀ a, atime s a = f a) → ∀ a b, node_lt s a b = (f a <? f b).
Proof. intros H a b. unfold node_lt. by rewrite !H. Qed.

Lemma atime_put_children s p pnd d e a :
  objs s !! p = Some pnd →
  atime (set_evictable e (put_node p (set_children d pnd) s)) a = atime s a.
Proof.
  intros Hp. unfold atime. simpl.
  destruct (decide (a = p)) as [->|Hne].
  - rewrite list_lookup_insert_eq by (by eapply lookup_lt_Some).
    by rewrite Hp.
  - by rewrite list_lookup_insert_ne.
Qed.

Lemma tree_at_keys_nodup st p t m nd :
  tree_at st p t → m ∈ ids t → st !! m = Some nd →
  NoDup (map fst (children nd)).
Proof.
  revert p. induction t as [n kids IH] using shape_ind. intros p Ht Hm Hnd.
  pose proof Ht as (nd0 & Hn & _ & Hkeys & _ & Hkids)%tree_at_inv.
  simpl in Hm. apply elem_of_cons in Hm as [->|Hm].
  - rewrite Hn in Hnd. by injection Hnd as <-.
  - apply elem_of_flat_map_ids in Hm as (k & Hk & Hm).
    rewrite Forall_forall in IH, Hkids. by apply (IH k Hk (Some n)); [apply Hkids|..].
Qed.

Lemma dict_get_del_eq {V} (d : list (Z * V)) k :
  NoDup (map fst d) → dict_get (dict_del d k) k = None.
Proof.
  induction d as [|[k' v] d IH]; simpl; [done|].
  intros [Hk Hnd]%NoDup_cons. destruct (Z.eqb_spec k' k) as [->|Hne].
  - by apply dict_get_None.
  - simpl. destruct (Z.eqb_spec k' k); [done|]. by apply IH.
Qed.

Lemma dict_get_del_ne {V} (d : list (Z * V)) k j :
  j ≠ k → dict_get (dict_del d k) j = dict_get d j.
Proof.
  intros Hne. induction d as [|[k' v] d IH]; simpl; [done|].
  destruct (Z.eqb_spec k' k) as [->|Hk]; simpl.
  - destruct (Z.eqb_spec k j); [congruence|done].
  - by rewrite IH.
Qed.

Lemma delete_shortens st q qnd kx f n k l :
  st !! q = Some qnd → NoDup (map fst (children qnd)) →
  (cached_prefix f
     (<[q := set_children (dict_del (children qnd) kx) qnd]> st) n k l).1
    `prefix_of` (cached_prefix f st n k l).1.
Proof.
  intros Hq Hnd. set (st' := <[q := _]> st).
  assert (∀ m nd, st !! m = Some nd →
            ∃ nd', st' !! m = Some nd' ∧ key nd' = key nd ∧
                   value nd' = value nd ∧
                   (m ≠ q → nd' = nd)) as Hsame.
  { intros m nd Hm. unfold st'. destruct (decide (m = q)) as [->|Hne].
    - rewrite list_lookup_insert_eq by (by eapply lookup_lt_Some).
      rewrite Hq in Hm. injection Hm as <-.
      eexists. split_and!; [done..|]. by intros [].
    - rewrite list_lookup_insert_ne by done.
      eexists. by split_and!. }
  assert (∀ m, st !! m = None → st' !! m = None) as Hnone.
  { intros m Hm. unfold st'. rewrite list_lookup_insert_ne; [done|].
    intros <-. congruence. }
  assert (length st' = length st) as Hlen by apply length_insert.
  revert n k l. induction f as [|f IH]; intros n k l; [done|].
  cbn [cached_prefix]. destruct k as [|j0 rest]; [done|].
  destruct (st !! n) as [nd|] eqn:Hn; [|by rewrite (Hnone n Hn)].
  assert (∃ nd', st' !! n = Some nd' ∧
                 (dict_get (children nd') j0 = None ∨
                  dict_get (children nd') j0 = dict_get (children nd) j0))
    as (nd' & -> & Hget).
  { unfold st'. destruct (decide (n = q)) as [->|Hne].
    - rewrite list_lookup_insert_eq by (by eapply lookup_lt_Some).
      rewrite Hq in Hn. injection Hn as <-. eexists. split; [done|].
      cbn [children set_children].
      destruct (decide (j0 = kx)) as [->|Hj].
      + left. by apply dict_get_del_eq.
      + right. by apply dict_get_del_ne.
    - rewrite list_lookup_insert_ne by done. eauto. }
  destruct Hget as [->| ->]; [apply prefix_nil|].
  destruct (dict_get (children nd) j0) as [c|]; [|done].
  destruct (st !! c) as [cnd|] eqn:Hc; [|by rewrite (Hnone c Hc)].
  destruct (Hsame c cnd Hc) as (cnd' & -> & -> & -> & _).
  destruct (_ <? _)%nat; [done|].
  specialize (IH c (drop (_key_match (key cnd) (j0 :: rest)) (j0 :: rest)) c).
  destruct (cached_prefix f st' c _ c) as [vs a].
  destruct (cached_prefix f st c _ c) as [vs' a']. cbn [fst] in *.
  by apply prefix_app.
Qed.

Lemma evict_leaf_heap s rest x leaves1 s1 (f : nat → Z) :
  evict_leaf s rest x = Ok (leaves1, s1) →
  (∀ a, atime s a = f a) → heap_from f 0 rest →
  (∀ xnd p pnd, objs s !! x = Some xnd → parent xnd = Some p →
                objs s !! p = Some pnd → NoDup (map fst (children pnd))) →
  heap_from f 0 leaves1 ∧ (∀ a, atime s1 a = f a) ∧
  (∀ y, y ∈ rest → y ∈ leaves1) ∧
  ∀ fl n k l, (cached_prefix fl (objs s1) n k l).1
                `prefix_of` (cached_prefix fl (objs s) n k l).1.
Proof.
  intros Hrun Hf Hh Hkeys. unfold evict_leaf, _delete_leaf, get_node in Hrun.
  destruct (objs s !! x) as [xnd|] eqn:Hx; [|done].
  cbn [of_option bind] in Hrun.
  destruct (parent xnd) as [p|] eqn:Hpar; [|done].
  cbn [of_option bind] in Hrun.
  destruct (objs s !! p) as [pnd|] eqn:Hp; [|done].
  cbn [of_option bind] in Hrun.
  destruct (find_key (children pnd) x) as [k|]; [|done].
  cbn [of_option bind] in Hrun.
  set (s0 := set_evictable _ _) in Hrun.
  assert (∀ a, atime s0 a = f a) as Hf0.
  { intros a. unfold s0. rewrite <- Hf.
    by apply atime_put_children. }
  assert (∀ fl n k0 l, (cached_prefix fl (objs s0) n k0 l).1
                         `prefix_of` (cached_prefix fl (objs s) n k0 l).1)
    as Hshort.
  { intros fl n k0 l. unfold s0. cbn [objs set_evictable put_node set_objs].
    apply delete_shortens; [done|]. by eapply Hkeys. }
  destruct (objs s0 !! p) as [pnd0|]; [|done]. cbn [of_option bind] in Hrun.
  destruct (length (children pnd0) =? 0)%nat; injection Hrun as <- <-.
  - split_and!; [|done| |done].
    + apply (heappush_heap (node_lt s0) f); [by apply node_lt_atime|done].
    + intros y Hy. rewrite heappush_perm. by right.
  - done.
Qed.

Lemma evict_loop_lru num_tokens (f : nat → Z) fuel s t leaves num log
    (cand : nat → Prop) :
  good s t → NoDup leaves → (∀ y, y ∈ leaves → y ∈ sh_leaves t) →
  (length leaves + links s ≤ fuel)%nat →
  (∀ a, atime s a = f a) → heap_from f 0 leaves →
  (∀ y, cand y → y ∈ leaves ∧ lock_of (objs s) y ≤ 0) →
  ∃ n new s',
    evict_loop fuel s num_tokens leaves num log = Ok (n, log ++ new, s') ∧
    (∀ a, atime s' a = f a) ∧
    (∀ l1 x v l2, new = l1 ++ (x, v) :: l2 →
                  ∀ y, cand y → y ∉ map fst l1 → f x ≤ f y) ∧
    ∀ fl n0 k l, (cached_prefix fl (objs s') n0 k l).1
                   `prefix_of` (cached_prefix fl (objs s) n0 k l).1.
Proof.
  revert s t leaves num log cand.
  induction fuel as [|fuel IH];
    intros s t leaves num log cand Hg Hnd Hsub Hfuel Hf Hh Hcand.
  - destruct leaves; [|simpl in Hfuel; lia].
    exists num, [], s. simpl. rewrite app_nil_r, andb_false_r.
    split_and!; [done..| |done]. intros l1 x v l2 E. by destruct l1.
  - cbn [evict_loop].
    destruct ((num <? num_tokens) && (0 <? length leaves)%nat) eqn:Hcond.
    2:{ exists num, [], s. rewrite app_nil_r.
        split_and!; [done..| |done]. intros l1 x v l2 E. by destruct l1. }
    apply andb_true_iff in Hcond as [_ Hne]. apply Nat.ltb_lt in Hne.
    destruct (heappop_is_Some (node_lt s) leaves) as [[x rest] Hpop].
    { by destruct leaves; [simpl in Hne; lia|]. }
    rewrite Hpop. cbn [of_option bind].
    pose proof (heappop_perm _ _ _ _ Hpop) as Hperm.
    destruct (heappop_heap (node_lt s) f (node_lt_atime s f Hf) _ _ _ Hh Hpop)
      as [Hhrest Hmin].
    assert (x ∈ sh_leaves t) as Hxl.
    { apply Hsub. rewrite Hperm. apply list_elem_of_here. }
    pose proof Hg as (Hid & Ht & Hndt & _).
    assert (length leaves = S (length rest)) as Hlen by (by rewrite Hperm).
    destruct (Nat.eqb_spec x (root_node s)) as [->|Hxr].
    { exists num, [], s. rewrite app_nil_r.
      split_and!; [done..| |done]. intros l1 x v l2 E. by destruct l1. }
    destruct (leaf_no_children _ _ _ _ Ht Hxl) as (xnd & Hx & Hleaf).
    unfold get_node at 1. rewrite Hx. cbn [of_option bind].
    pose proof Hnd as Hnd'. rewrite Hperm in Hnd'.
    apply NoDup_cons in Hnd' as [Hxrest Hndr].
    destruct (0 <? lock_ref xnd) eqn:Hlock.
    + apply Z.ltb_lt in Hlock.
      apply (IH s t rest num log cand Hg Hndr); try done.
      * intros y Hy. apply Hsub. rewrite Hperm. by apply list_elem_of_further.
      * lia.
      * intros y Hy. destruct (Hcand y Hy) as [Hin Hl]. split; [|done].
        rewrite Hperm in Hin. apply elem_of_cons in Hin as [->|?]; [|done].
        unfold lock_of in Hl. rewrite Hx in Hl. lia.
    + apply Z.ltb_ge in Hlock.
      destruct (victim_step s t leaves x rest Hg Hnd Hperm Hsub Hxr)
        as (s1 & leaves1 & Hleaf1 & Hg1 & Hnd1 & Hsub1 & Hmeas & Hids & Hc1
            & Hpay & He1 & Hcomp1).
      rewrite Hleaf1. cbn [bind].
      destruct (evict_leaf_heap s rest x leaves1 s1 f Hleaf1 Hf Hhrest)
        as (Hh1 & Hf1 & Hkeep & Hshort1).
      { intros xnd0 p0 pnd0 Hx0 Hpar0 Hp0.
        rewrite Hx in Hx0. injection Hx0 as <-.
        destruct (tree_parent _ _ _ _ Ht (sh_leaves_subset _ _ Hxl))
          as (xnd1 & q & qnd & Hx1 & Hq1 & Hqin & Hq & _);
          [by rewrite Hid|].
        rewrite Hx in Hx1. injection Hx1 as <-.
        rewrite Hpar0 in Hq1. injection Hq1 as <-.
        by eapply tree_at_keys_nodup. }
      destruct (IH s1 (sh_remove x t) leaves1 (num + len (value xnd))
                  (log ++ [(x, value xnd)]) (fun y => cand y ∧ y ≠ x)
                  Hg1 Hnd1 Hsub1)
        as (n & new & s' & Hrun & Hf' & Hlru & Hshort); [lia|done|done| |].
      { intros y [Hy Hyx]. destruct (Hcand y Hy) as [Hin Hl]. split.
        - apply Hkeep. rewrite Hperm in Hin.
          by apply elem_of_cons in Hin as [->|?].
        - by destruct (Hpay y) as (_ & -> & _). }
      exists n, ((x, value xnd) :: new), s'. split_and!.
      * rewrite Hrun. by rewrite <- app_assoc.
      * done.
      * intros l1 x0 v0 l2 E y Hy Hnin.
        destruct l1 as [|[x1 v1] l1].
        -- injection E as E1 E2 E3. subst x0. apply Hmin. by apply Hcand.
        -- injection E as E1 E2 E3. subst x1 new. simpl in Hnin.
           apply not_elem_of_cons in Hnin as [Hne1 Hnin].
           by apply (Hlru l1 x0 v0 l2 eq_refl y).
      * intros fl n0 k l. etrans; [apply Hshort|apply Hshort1].
Qed.

Lemma evict_lru s t num_tokens wait_tensor :
  good s t → disable s = false →
  ∃ log s' t',
    evict s num_tokens wait_tensor = Ok (log, s') ∧
    evicted s t log s' t' ∧
    (∀ a, atime s' a = atime s a) ∧
    ∀ l1 x v l2, log = l1 ++ (x, v) :: l2 →
      ∀ y, y ∈ sh_leaves t → lock_of (objs s) y ≤ 0 → y ∉ map fst l1 →
           atime s x ≤ atime s y.
Proof.
  intros Hg Hdis.
  destruct (evict_ok s t num_tokens wait_tensor Hg Hdis)
    as (log & s1 & t1 & Hrun & Hev & _).
  exists log, s1, t1. split; [done|]. split; [done|].
  unfold evict in Hrun. cbn [enter_evict disable] in Hrun.
  rewrite Hdis in Hrun.
  assert (good (enter_evict s) t) as Hg0 by (by eapply good_ext).
  destruct (_collect_leaves_ok _ _ Hg0) as (l & Hl & Hperm).
  rewrite Hl in Hrun. cbn [bind] in Hrun.
  set (leaves := heapify _ l) in Hrun.
  assert (leaves ≡ₚ sh_leaves t) as Hperm'.
  { unfold leaves. by rewrite heapify_perm. }
  pose proof Hg as (_ & _ & Hnd & _).
  destruct (evict_loop_lru num_tokens (atime s)
              (length leaves + links (enter_evict s))
              (enter_evict s) t leaves 0 []
              (fun y => y ∈ sh_leaves t ∧ lock_of (objs s) y ≤ 0) Hg0)
    as (n & new & s' & Hrun' & Hf & Hlru & _).
  { rewrite Hperm'. by apply sh_leaves_nodup. }
  { intros y. by rewrite Hperm'. }
  { done. }
  { done. }
  { unfold leaves. apply (heapify_heap (node_lt (enter_evict s)) (atime s)).
    by apply node_lt_atime. }
  { intros y (Hy & Hlk). split; [|done]. by rewrite Hperm'. }
  rewrite Hrun' in Hrun. cbn [bind] in Hrun. rewrite app_nil_l in Hrun.
  injection Hrun as <- <-. split; [done|].
  intros l1 x v l2 E y Hy Hlk Hnin. by apply (Hlru l1 x v l2 E y).
Qed.

(** X20 — [evict] frees leaves in the order of [last_access_time], oldest
    first: when a victim is freed, its time is at most that of every node that
    was an unpinned leaf of the tree at the call and has not been freed before
    it; [evict] changes no [last_access_time]. *)
Theorem evict_takes_the_oldest_leaf_first (s : RadixCache) (num : Z)
    (w : option (list nat)) :
  wf s → disable s = false →
  ∃ log s',
    evict s num w = Ok (log, s') ∧
    (∀ a, atime s' a = atime s a) ∧
    ∀ l1 x v l2, log = l1 ++ (x, v) :: l2 →
      ∀ y, y ∈ tree_nodes s → children_of (objs s) y = [] →
           lock_of (objs s) y ≤ 0 → y ∉ map fst l1 →
           atime s x ≤ atime s y.
Proof.
  intros [t Hg] Hdis.
  destruct (evict_lru s t num w Hg Hdis)
    as (log & s' & t' & Hrun & _ & Hat & Hlru).
  exists log, s'. split_and!; [done|done|].
  intros l1 x v l2 E y Hy Hc Hlk Hnin.
  apply (Hlru l1 x v l2 E y); [|done|done].
  by apply (good_leaves s t y Hg).
Qed.

(** ** Lookups that other operations leave alone *)

Lemma cached_prefix_last fuel st n k l l' :
  (cached_prefix fuel st n k l).1 = (cached_prefix fuel st n k l').1.
Proof.
  destruct fuel as [|f]; [done|]. cbn [cached_prefix].
  destruct k as [|k0 rest]; [done|].
  destruct (st !! n) as [nd|]; [|done].
  destruct (dict_get (children nd) k0) as [c|]; [|done].
  destruct (st !! c) as [cnd|]; [|done].
  by destruct (_ <? _)%nat.
Qed.

Lemma cached_prefix_fuel st p t f1 f2 k l1 l2 :
  tree_at st p t → (length k < f1)%nat → (length k < f2)%nat →
  (cached_prefix f1 st (sh_id t) k l1).1 = (cached_prefix f2 st (sh_id t) k l2).1.
Proof.
  revert p t f2 k l1 l2.
  induction f1 as [|f1 IH]; intros p t f2 k l1 l2 Ht H1 H2; [lia|].
  destruct f2 as [|f2]; [lia|]. cbn [cached_prefix].
  destruct k as [|k0 rest]; [done|].
  destruct t as [n kids]. cbn [sh_id].
  pose proof Ht as (nd & Hn & _)%tree_at_inv. rewrite Hn.
  destruct (dict_get (children nd) k0) as [c|] eqn:Hget; [|done].
  destruct (tree_at_child _ _ _ _ _ _ _ Ht Hn Hget)
    as (ks1 & kc & ks2 & cnd & d1 & d2 & -> & Hd & Hlen & Hk0 & Hc & Hcp
        & Hhd & Hkv & Hsc & Hset).
  rewrite Hc.
  pose proof (_key_match_pos (key cnd) (k0 :: rest) k0 Hhd eq_refl) as Hpos.
  destruct (_ <? _)%nat eqn:Hlt; [done|]. apply Nat.ltb_ge in Hlt.
  pose proof (IH (Some n) (Sh c kc) f2
                (drop (_key_match (key cnd) (k0 :: rest)) (k0 :: rest)) c c Hsc)
    as E.
  cbn [sh_id] in E.
  destruct (cached_prefix f1 st c _ c) as [vs a].
  destruct (cached_prefix f2 st c _ c) as [vs' a']. cbn [fst] in *.
  rewrite E; [done| |]; rewrite length_drop; simpl in *; lia.
Qed.

Lemma cached_values_unfold st p n kids nd k0 rest :
  tree_at st p (Sh n kids) → st !! n = Some nd →
  cached_values st n (k0 :: rest) =
    match dict_get (children nd) k0 with
    | None => []
    | Some c =>
        match st !! c with
        | None => []
        | Some cnd =>
            if (_key_match (key cnd) (k0 :: rest) <? length (key cnd))%nat
            then take (_key_match (key cnd) (k0 :: rest)) (value cnd)
            else value cnd ++
                 cached_values st c
                   (drop (_key_match (key cnd) (k0 :: rest)) (k0 :: rest))
        end
    end.
Proof.
  intros Ht Hn. unfold cached_values at 1. cbn [cached_prefix]. rewrite Hn.
  destruct (dict_get (children nd) k0) as [c|] eqn:Hget; [|done].
  destruct (tree_at_child _ _ _ _ _ _ _ Ht Hn Hget)
    as (ks1 & kc & ks2 & cnd & d1 & d2 & -> & Hd & Hlen & Hk0 & Hc & Hcp
        & Hhd & Hkv & Hsc & Hset).
  rewrite Hc.
  pose proof (_key_match_pos (key cnd) (k0 :: rest) k0 Hhd eq_refl) as Hpos.
  destruct (_ <? _)%nat eqn:Hlt; [done|]. apply Nat.ltb_ge in Hlt.
  unfold cached_values.
  pose proof (cached_prefix_fuel st (Some n) (Sh c kc) (length (k0 :: rest))
                (S (length (drop (_key_match (key cnd) (k0 :: rest)) (k0 :: rest))))
                (drop (_key_match (key cnd) (k0 :: rest)) (k0 :: rest)) c c Hsc)
    as E.
  cbn [sh_id] in E.
  destruct (cached_prefix (length (k0 :: rest)) st c _ c) as [vs a].
  cbn [fst] in *. rewrite E; [done| |lia].
  rewrite length_drop. simpl in *. lia.
Qed.

Lemma cached_values_nil st n : cached_values st n [] = [].
Proof. done. Qed.

Lemma cached_prefix_ext st st' f p t k l :
  tree_at st p t → NoDup (ids t) →
  children <$> st' !! sh_id t = children <$> st !! sh_id t →
  (∀ m, m ∈ ids t → m ≠ sh_id t → st' !! m = st !! m) →
  (cached_prefix f st' (sh_id t) k l).1 = (cached_prefix f st (sh_id t) k l).1.
Proof.
  revert p t k l.
  induction f as [|f IH]; intros p t k l Ht Hnd Hch Hsame; [done|].
  cbn [cached_prefix]. destruct k as [|k0 rest]; [done|].
  destruct t as [n kids]. cbn [sh_id] in *.
  pose proof Ht as (nd & Hn & _)%tree_at_inv. rewrite Hn in Hch |- *.
  destruct (st' !! n) as [nd'|]; [|done]. injection Hch as Hch. rewrite Hch.
  destruct (dict_get (children nd) k0) as [c|] eqn:Hget; [|done].
  destruct (tree_at_child _ _ _ _ _ _ _ Ht Hn Hget)
    as (ks1 & kc & ks2 & cnd & d1 & d2 & -> & Hd & Hlen & Hk0 & Hc & Hcp
        & Hhd & Hkv & Hsc & Hset).
  pose proof (top_not_in_kid _ _ _ _ Hnd) as Hnk.
  assert (c ∈ ids (Sh n (ks1 ++ Sh c kc :: ks2))) as Hcin.
  { rewrite ids_split, !elem_of_cons, !elem_of_app. right. right. left.
    simpl. left. }
  assert (c ≠ n) as Hcn.
  { intros ->. apply Hnk. simpl. left. }
  rewrite (Hsame c Hcin Hcn), Hc.
  destruct (_ <? _)%nat; [done|].
  pose proof (IH (Some n) (Sh c kc)
                (drop (_key_match (key cnd) (k0 :: rest)) (k0 :: rest)) c Hsc)
    as E.
  cbn [sh_id] in E.
  destruct (cached_prefix f st' c _ c) as [vs a].
  destruct (cached_prefix f st c _ c) as [vs' a']. cbn [fst] in *.
  rewrite E; [done|by eapply ids_kid_nodup| |].
  - by rewrite (Hsame c Hcin Hcn).
  - intros m Hm Hmc. apply Hsame.
    + rewrite ids_split, !elem_of_cons, !elem_of_app. right. right. by left.
    + intros ->. by apply Hnk.
Qed.

Lemma cached_values_ext st st' p t k :
  tree_at st p t → NoDup (ids t) →
  children <$> st' !! sh_id t = children <$> st !! sh_id t →
  (∀ m, m ∈ ids t → m ≠ sh_id t → st' !! m = st !! m) →
  cached_values st' (sh_id t) k = cached_values st (sh_id t) k.
Proof. intros. unfold cached_values. by eapply cached_prefix_ext. Qed.

Lemma other_kid_disjoint n ks1 k ks2 k2 m :
  NoDup (ids (Sh n (ks1 ++ k :: ks2))) → k2 ∈ ks1 ++ k :: ks2 →
  sh_id k2 ≠ sh_id k → m ∈ ids k2 → m ∉ ids k.
Proof.
  rewrite ids_split. intros [_ Hnd]%NoDup_cons Hin Hne Hm Hmk.
  apply NoDup_app in Hnd as (_ & H1 & Hnd).
  apply NoDup_app in Hnd as (_ & H2 & _).
  apply elem_of_app in Hin as [Hin|Hin].
  - apply (H1 m).
    + apply elem_of_flat_map_ids. eauto.
    + apply elem_of_app. by left.
  - apply elem_of_cons in Hin as [->|Hin]; [done|].
    apply (H2 m Hmk). apply elem_of_flat_map_ids. eauto.
Qed.

Lemma cached_values_kid (R : list Z → list Z → Prop) st st' p n ks1 k ks2 k'
    dw dv :
  (∀ a, R a a) → (∀ a b c, R a b → R (c ++ a) (c ++ b)) →
  tree_at st p (Sh n (ks1 ++ k :: ks2)) →
  NoDup (ids (Sh n (ks1 ++ k :: ks2))) →
  grow st (Some n) k st' k' dw dv →
  (∀ key0, R (cached_values st (sh_id k) key0)
             (cached_values st' (sh_id k) key0)) →
  ∀ key0, R (cached_values st n key0) (cached_values st' n key0).
Proof.
  intros Hrefl Happ Ht Hnd G IH key0.
  destruct key0 as [|j0 rest]; [apply Hrefl|].
  pose proof (grow_tree _ _ _ _ _ _ _ (grow_kid _ _ _ _ _ _ _ _ _ _ Ht Hnd G))
    as Ht'.
  pose proof Ht as (nd & Hn & _)%tree_at_inv.
  pose proof (top_not_in_kid _ _ _ _ Hnd) as Hnk.
  assert (st' !! n = Some nd) as Hn'.
  { rewrite (grow_frame _ _ _ _ _ _ _ G n); [done| |done].
    by eapply lookup_lt_Some. }
  rewrite (cached_values_unfold st p n _ nd j0 rest Ht Hn).
  rewrite (cached_values_unfold st' p n _ nd j0 rest Ht' Hn').
  destruct (dict_get (children nd) j0) as [c|] eqn:Hget; [|apply Hrefl].
  destruct (tree_at_child _ _ _ _ _ _ _ Ht Hn Hget)
    as (ks1' & kc & ks2' & cnd & d1 & d2 & Hkids & Hd & Hlen & Hk0 & Hc & Hcp
        & Hhd & Hkv & Hsc & Hset).
  rewrite Hc.
  destruct (decide (c = sh_id k)) as [->|Hne].
  - destruct (grow_top _ _ _ _ _ _ _ G)
      as (cnd1 & cnd2 & Hc1 & Hc2 & Hkey & Hval).
    rewrite Hc in Hc1. injection Hc1 as <-.
    rewrite Hc2, Hkey, Hval. destruct (_ <? _)%nat; [apply Hrefl|].
    apply Happ, IH.
  - assert (Sh c kc ∈ ks1 ++ k :: ks2) as Hin.
    { rewrite Hkids. rewrite elem_of_app, elem_of_cons. right. by left. }
    pose proof (λ m, other_kid_disjoint n ks1 k ks2 (Sh c kc) m Hnd Hin Hne)
      as Hdis.
    assert (∀ m, m ∈ ids (Sh c kc) → st' !! m = st !! m) as Hsame.
    { intros m Hm. apply (grow_frame _ _ _ _ _ _ _ G m); [|by apply Hdis].
      by eapply tree_at_bound. }
    rewrite (Hsame c) by (simpl; left). rewrite Hc.
    destruct (_ <? _)%nat; [apply Hrefl|].
    rewrite (cached_values_ext st st' (Some n) (Sh c kc)); [apply Hrefl|done| | |].
    + rewrite Hkids in Hnd. by eapply ids_kid_nodup.
    + cbn [sh_id]. by rewrite (Hsame c) by (simpl; left).
    + intros m Hm _. by apply Hsame.
Qed.

Lemma _key_match_take_min K k sl :
  _key_match (take sl K) k = min sl (_key_match K k).
Proof.
  revert K k. induction sl as [|sl IH]; intros [|a K] [|b k]; simpl; try done.
  destruct (a =? b); [by rewrite IH|done].
Qed.

Lemma _key_match_drop K k sl :
  (sl ≤ _key_match K k)%nat →
  _key_match (drop sl K) (drop sl k) = (_key_match K k - sl)%nat.
Proof.
  revert K k. induction sl as [|sl IH]; intros K k H.
  { rewrite !drop_0. lia. }
  destruct K as [|a K], k as [|b k]; simpl in *; try lia.
  destruct (a =? b); [|lia]. apply IH. lia.
Qed.

Lemma _key_match_lookup K k i :
  (i < _key_match K k)%nat → ∃ a, K !! i = Some a ∧ k !! i = Some a.
Proof.
  revert K k. induction i as [|i IH]; intros [|a K] [|b k] H; simpl in *;
    try lia.
  - destruct (Z.eqb_spec a b) as [->|]; [eauto|lia].
  - destruct (a =? b); [|lia]. apply IH. lia.
Qed.

Lemma dict_get_set_ne {V} (d : list (Z * V)) k j v :
  j ≠ k → dict_get (dict_set d k v) j = dict_get d j.
Proof.
  intros Hne. induction d as [|[k' v'] d IH]; simpl.
  - destruct (Z.eqb_spec k j); [congruence|done].
  - destruct (Z.eqb_spec k' k) as [->|Hk]; simpl.
    + destruct (Z.eqb_spec k j); [congruence|done].
    + by rewrite IH.
Qed.

Lemma split_transparent clock s p n kids nd k0 c cnd sl s' :
  tree_at (objs s) p (Sh n kids) → NoDup (ids (Sh n kids)) →
  objs s !! n = Some nd → dict_get (children nd) k0 = Some c →
  objs s !! c = Some cnd → (0 < sl < length (key cnd))%nat →
  _split_node clock s (key cnd) c sl = Ok (length (objs s), s') →
  ∀ key0, cached_values (objs s') n key0 = cached_values (objs s) n key0.
Proof.
  intros Ht Hnd Hn Hget Hc Hsl Hrun key0.
  destruct key0 as [|j0 rest]; [done|].
  destruct (_split_node_grow clock s p n _ nd k0 c cnd sl Ht Hnd Hn Hget Hc Hsl)
    as (s2 & ks1 & kc & ks2 & und & Hkids & Hsplit & G2 & _).
  rewrite Hrun in Hsplit. injection Hsplit as <-.
  destruct (_split_node_eq clock s p n _ nd k0 c cnd sl Ht Hnd Hn Hget Hc Hsl)
    as (k1 & s2 & Hk1 & Hsplit & Hobjs & Hnc & Hnlt & Hclt).
  rewrite Hrun in Hsplit. injection Hsplit as <-.
  set (u := length (objs s)) in *.
  set (nd2 := set_children (dict_set (children nd) k0 u) nd) in *.
  set (cnd2 := mkTreeNode (children cnd) (Some u) (drop sl (key cnd))
                 (drop sl (value cnd)) (lock_ref cnd) (last_access_time cnd)
                 (ref_counter cnd)) in *.
  set (und2 := mkTreeNode [(k1, c)] (Some n) (take sl (key cnd))
                 (take sl (value cnd)) (lock_ref cnd) (clock (ticks s)) 0) in *.
  destruct (split_top_lookup (objs s) n c nd2 cnd2 und2 Hnc Hnlt Hclt)
    as (Hn2 & Hc2 & Hu2 & _).
  rewrite <- Hobjs in Hn2, Hc2, Hu2. fold u in Hu2.
  assert (∀ m, m ≠ n → m ≠ c → (m < length (objs s))%nat →
               objs s' !! m = objs s !! m) as Hframe.
  { intros m Hmn Hmc Hm. rewrite Hobjs.
    rewrite !list_lookup_insert_ne by done. by apply lookup_app_l. }
  pose proof (grow_tree _ _ _ _ _ _ _ G2) as Ht'. fold u in Ht'.
  subst kids.
  pose proof (tree_at_kid _ _ _ _ _ _ Ht) as Hsc.
  pose proof (tree_at_kid _ _ _ _ _ _ Ht') as Hsu.
  pose proof (top_not_in_kid _ _ _ _ Hnd) as Hnk.
  rewrite (cached_values_unfold _ p n _ nd j0 rest Ht Hn).
  rewrite (cached_values_unfold _ p n _ nd2 j0 rest Ht' Hn2).
  cbn [children nd2 set_children].
  destruct (decide (j0 = k0)) as [->|Hj].
  - rewrite dict_get_set_eq, Hget, Hu2, Hc. cbn [key value und2].
    set (pl := _key_match (key cnd) (k0 :: rest)).
    pose proof (_key_match_le (key cnd) (k0 :: rest)) as [Hle1 Hle2].
    fold pl in Hle1, Hle2.
    rewrite _key_match_take_min. fold pl.
    rewrite length_take. rewrite (Nat.min_l sl (length (key cnd))) by lia.
    destruct (Nat.ltb_spec (min sl pl) sl) as [Hlt|Hge].
    + assert ((pl <? length (key cnd))%nat = true) as ->
        by (apply Nat.ltb_lt; lia).
      rewrite take_take. f_equal. lia.
    + rewrite Nat.min_l by lia.
      destruct (drop sl (k0 :: rest)) as [|j rest2] eqn:Hdrop.
      { rewrite cached_values_nil, app_nil_r.
        apply (f_equal length) in Hdrop. rewrite length_drop in Hdrop.
        simpl in Hdrop.
        assert ((pl <? length (key cnd))%nat = true) as ->
          by (apply Nat.ltb_lt; simpl in *; lia).
        f_equal. simpl in *. lia. }
      assert ((k0 :: rest) !! sl = Some j) as Hjl.
      { rewrite <- head_drop, Hdrop. done. }
      rewrite (cached_values_unfold _ (Some n) u _ und2 j rest2 Hsu Hu2).
      cbn [children und2 dict_get].
      destruct (Z.eqb_spec k1 j) as [->|Hk1j].
      * rewrite Hc2. cbn [key value cnd2]. rewrite <- Hdrop.
        rewrite _key_match_drop by (fold pl; lia). fold pl.
        rewrite length_drop.
        destruct (Nat.ltb_spec (pl - sl) (length (key cnd) - sl)) as [Hlt2|Hge2].
        -- assert ((pl <? length (key cnd))%nat = true) as ->
             by (apply Nat.ltb_lt; lia).
           rewrite take_take_drop. f_equal. lia.
        -- assert ((pl <? length (key cnd))%nat = false) as ->
             by (apply Nat.ltb_ge; lia).
           rewrite drop_drop, (assoc (++)), take_drop.
           replace (sl + (pl - sl))%nat with pl by lia. f_equal.
           apply (cached_values_ext (objs s) (objs s') (Some n) (Sh c kc)).
           ++ done.
           ++ by eapply ids_kid_nodup.
           ++ cbn [sh_id]. by rewrite Hc2, Hc.
           ++ cbn [sh_id]. intros m Hm Hmc. apply Hframe; [|done|].
              ** intros ->. by apply Hnk.
              ** by eapply tree_at_bound.
      * rewrite app_nil_r.
        assert (pl = sl) as Hpl.
        { destruct (decide (sl < pl)%nat) as [Hlt2|]; [|lia].
          destruct (_key_match_lookup (key cnd) (k0 :: rest) sl Hlt2)
            as (a & Ha1 & Ha2).
          congruence. }
        assert ((pl <? length (key cnd))%nat = true) as ->
          by (apply Nat.ltb_lt; lia).
        by rewrite Hpl.
  - rewrite dict_get_set_ne by done.
    destruct (dict_get (children nd) j0) as [c'|] eqn:Hget'; [|done].
    destruct (tree_at_child _ _ _ _ _ _ _ Ht Hn Hget')
      as (ks1' & kc' & ks2' & cnd' & d1 & d2 & Hkids & Hd & Hlen & Hk0 & Hc'
          & Hcp & Hhd & Hkv & Hsc' & Hset).
    destruct (tree_at_child _ _ _ _ _ _ _ Ht Hn Hget)
      as (_ & _ & _ & cnd0 & _ & _ & _ & _ & _ & _ & Hc0 & _ & Hhd0 & _).
    rewrite Hc in Hc0. injection Hc0 as <-.
    assert (c' ≠ c) as Hcc.
    { intros ->. rewrite Hc in Hc'. injection Hc' as <-. congruence. }
    assert (Sh c' kc' ∈ ks1 ++ Sh c kc :: ks2) as Hin.
    { rewrite Hkids. rewrite elem_of_app, elem_of_cons. right. by left. }
    assert (∀ m, m ∈ ids (Sh c' kc') → objs s' !! m = objs s !! m) as Hsame.
    { intros m Hm. apply Hframe.
      - intros ->. rewrite Hkids in Hnd. by apply (top_not_in_kid _ _ _ _ Hnd).
      - intros ->.
        apply (other_kid_disjoint n ks1 (Sh c kc) ks2 (Sh c' kc') c Hnd Hin);
          [done|done|simpl; left].
      - by eapply tree_at_bound. }
    rewrite (Hsame c') by (simpl; left). rewrite Hc'.
    destruct (_ <? _)%nat; [done|]. f_equal.
    apply (cached_values_ext (objs s) (objs s') (Some n) (Sh c' kc')).
    + done.
    + rewrite Hkids in Hnd. by eapply ids_kid_nodup.
    + cbn [sh_id]. by rewrite (Hsame c') by (simpl; left).
    + intros m Hm _. by apply Hsame.
Qed.

Lemma cached_values_time st st' n k :
  same_but_time st st' → cached_values st' n k = cached_values st n k.
Proof. intros H. unfold cached_values. by rewrite (cached_prefix_time _ _ _ _ _ _ H). Qed.

Lemma _match_prefix_helper_transparent clock fuel s p t key0 value0 last :
  tree_at (objs s) p t → NoDup (ids t) → (length key0 < fuel)%nat →
  ∃ vals last' s' t',
    _match_prefix_helper clock fuel s (sh_id t) key0 value0 last
      = Ok (vals, last', s') ∧
    grow (objs s) p t (objs s') t' 0 0 ∧
    ∀ key1, cached_values (objs s') (sh_id t) key1
            = cached_values (objs s) (sh_id t) key1.
Proof.
  revert s p t key0 value0 last.
  induction fuel as [|fuel IH]; intros s p t key0 value0 last Ht Hnd Hfuel;
    [lia|].
  destruct (touch_full clock s p t Ht Hnd)
    as (s1 & Htouch & G1 & He1 & Hc1 & Hsame).
  cbn [_match_prefix_helper]. rewrite Htouch. cbn [bind].
  assert (∀ key1, cached_values (objs s1) (sh_id t) key1
                  = cached_values (objs s) (sh_id t) key1) as Ht1eq
    by (intros; by apply cached_values_time).
  destruct key0 as [|k0 rest]; [by eauto 10|].
  pose proof (grow_tree _ _ _ _ _ _ _ G1) as Ht1.
  pose proof (grow_nodup _ _ _ _ _ _ _ G1) as Hnd1.
  destruct t as [n kids]. cbn [sh_id] in *.
  pose proof Ht1 as (nd & Hn & _)%tree_at_inv.
  unfold get_node at 1. rewrite Hn. cbn [of_option bind].
  destruct (dict_get (children nd) k0) as [c|] eqn:Hget; [|by eauto 10].
  destruct (tree_at_child _ _ _ _ _ _ _ Ht1 Hn Hget)
    as (ks1 & kc & ks2 & cnd & d1 & d2 & -> & Hd & Hlen & Hk0 & Hc & Hcp
        & Hhd & Hkv & Hsc & Hset).
  unfold get_node at 1. rewrite Hc. cbn [of_option bind].
  pose proof (_key_match_le (key cnd) (k0 :: rest)) as [Hle1 Hle2].
  pose proof (_key_match_pos (key cnd) (k0 :: rest) k0 Hhd eq_refl) as Hpos.
  set (pl := _key_match (key cnd) (k0 :: rest)) in *.
  destruct (pl <? length (key cnd))%nat eqn:Hlt.
  - apply Nat.ltb_lt in Hlt.
    destruct (_split_node_grow clock s1 p n _ nd k0 c cnd pl Ht1 Hnd1 Hn Hget Hc)
      as (s2 & ks1' & kc' & ks2' & und & _ & Hsplit & G2 & He2 & Hc2 & Hu & _);
      [lia|].
    rewrite Hsplit. cbn [bind]. unfold get_node. rewrite Hu. cbn [of_option bind].
    eexists _, _, _, _. split; [done|]. split.
    + apply (grow_trans _ _ _ _ _ _ _ _ _ _ _ G1 G2).
    + intros key1. rewrite <- Ht1eq.
      exact (split_transparent clock s1 p n _ nd k0 c cnd pl s2 Ht1 Hnd1 Hn
               Hget Hc ltac:(lia) Hsplit key1).
  - apply Nat.ltb_ge in Hlt.
    edestruct (IH s1 (Some n) (Sh c kc) (drop pl (k0 :: rest))
                 (value0 ++ [value cnd]) c)
      as (vals & last' & s2 & k' & Hrec & G2 & Heq);
      [done|by eapply ids_kid_nodup|rewrite length_drop; simpl in *; lia|].
    cbn [sh_id] in Hrec, Heq. rewrite Hrec.
    eexists _, _, _, _. split; [done|]. split.
    + apply (grow_trans _ _ _ _ _ _ _ _ _ _ _ G1). by apply grow_kid.
    + intros key1. rewrite <- Ht1eq. symmetry.
      apply (cached_values_kid eq (objs s1) (objs s2) p n ks1 (Sh c kc) ks2 k'
               0 0); try done.
      by intros a b c0 ->.
Qed.

Lemma _insert_helper_monotone clock fuel s p t key0 value0 :
  tree_at (objs s) p t → NoDup (ids t) → (length key0 < fuel)%nat →
  length key0 = length value0 →
  ∃ r s' t' dw dv,
    _insert_helper clock fuel s (sh_id t) key0 value0 = Ok (r, s') ∧
    grow (objs s) p t (objs s') t' dw dv ∧
    ∀ key1, cached_values (objs s) (sh_id t) key1
              `prefix_of` cached_values (objs s') (sh_id t) key1.
Proof.
  revert s p t key0 value0.
  induction fuel as [|fuel IH]; intros s p t key0 value0 Ht Hnd Hfuel Hkv0;
    [lia|].
  destruct (touch_full clock s p t Ht Hnd)
    as (s1 & Htouch & G1 & He1 & Hc1 & Hsame).
  cbn [_insert_helper]. rewrite Htouch. cbn [bind].
  assert (∀ key1, cached_values (objs s1) (sh_id t) key1
                  = cached_values (objs s) (sh_id t) key1) as Ht1eq
    by (intros; by apply cached_values_time).
  pose proof (grow_tree _ _ _ _ _ _ _ G1) as Ht1.
  pose proof (grow_nodup _ _ _ _ _ _ _ G1) as Hnd1.
  destruct key0 as [|k0 rest].
  { eexists _, _, _, _, _. split_and!; [done|exact G1|].
    intros key1. by rewrite Ht1eq. }
  destruct t as [n kids]. cbn [sh_id] in *.
  pose proof Ht1 as (nd & Hn & _)%tree_at_inv.
  pose proof (lookup_lt_Some _ _ _ Hn) as Hnlt.
  unfold get_node at 1. rewrite Hn. cbn [of_option bind].
  destruct (dict_get (children nd) k0) as [c|] eqn:Hget.
  2:{ unfold new_TreeNode, time_time, get_node. cbn [objs set_objs ticks].
      rewrite lookup_app_l by done. rewrite Hn. cbn [of_option bind].
      eexists _, _, _, _, _. split; [done|].
      cbn [objs put_node set_objs set_evictable evictable_size_ fst snd].
      pose proof (grow_add_leaf (objs s1) p n kids nd k0 (k0 :: rest) value0
                    (clock (ticks s1)) Ht1 Hnd1 Hn Hget eq_refl Hkv0) as G2.
      split.
      - eapply grow_trans; [exact G1|exact G2].
      - intros key1. rewrite <- Ht1eq.
        destruct key1 as [|j0 rest1]; [done|].
        pose proof (grow_tree _ _ _ _ _ _ _ G2) as Ht2.
        rewrite (cached_values_unfold _ p n _ nd j0 rest1 Ht1 Hn).
        erewrite (cached_values_unfold _ p n _ _ j0 rest1 Ht2);
          [|apply list_lookup_insert_eq; rewrite length_app; lia].
        cbn [children set_children].
        destruct (decide (j0 = k0)) as [->|Hj].
        { rewrite Hget. apply prefix_nil. }
        rewrite dict_get_set_ne by done.
        destruct (dict_get (children nd) j0) as [c'|] eqn:Hget'; [|done].
        destruct (tree_at_child _ _ _ _ _ _ _ Ht1 Hn Hget')
          as (ks1' & kc' & ks2' & cnd' & d1 & d2 & Hkids & Hd & Hlen & Hk0 & Hc'
              & Hcp & Hhd & Hkv & Hsc' & Hset).
        assert (∀ m, m ∈ ids (Sh c' kc') →
                  (<[n := set_children
                            (dict_set (children nd) k0 (length (objs s1))) nd]>
                     (objs s1 ++
                        [mkTreeNode [] (Some n) (k0 :: rest) value0 0
                           (clock (ticks s1)) 0])) !! m = objs s1 !! m)
          as Hsame'.
        { intros m Hm. rewrite list_lookup_insert_ne.
          - apply lookup_app_l. by eapply tree_at_bound.
          - intros <-. rewrite Hkids in Hnd1.
            by apply (top_not_in_kid _ _ _ _ Hnd1). }
        rewrite (Hsame' c') by (simpl; left). rewrite Hc'.
        destruct (_ <? _)%nat; [done|]. apply prefix_app.
        match goal with
        | |- _ `prefix_of` cached_values ?st2 _ _ =>
            rewrite (cached_values_ext (objs s1) st2 (Some n) (Sh c' kc'))
        end; [reflexivity|done| | |].
        + rewrite Hkids in Hnd1. by eapply ids_kid_nodup.
        + cbn [sh_id]. by rewrite (Hsame' c') by (simpl; left).
        + intros m Hm _. by apply Hsame'. }
  destruct (tree_at_child _ _ _ _ _ _ _ Ht1 Hn Hget)
    as (ks1 & kc & ks2 & cnd & d1 & d2 & Hkids & Hd & Hlen & Hk0 & Hc & Hcp
        & Hhd & Hkv & Hsc & Hset).
  unfold get_node at 1. rewrite Hc. cbn [of_option bind].
  pose proof (_key_match_le (key cnd) (k0 :: rest)) as [Hle1 Hle2].
  pose proof (_key_match_pos (key cnd) (k0 :: rest) k0 Hhd eq_refl) as Hpos.
  set (pl := _key_match (key cnd) (k0 :: rest)) in *.
  destruct (pl =? length (key cnd))%nat eqn:Hfull.
  - apply Nat.eqb_eq in Hfull.
    destruct (pl =? length (k0 :: rest))%nat eqn:Hall.
    + eexists _, _, _, _, _. split_and!; [done|exact G1|].
      intros key1. by rewrite Ht1eq.
    + apply Nat.eqb_neq in Hall. subst kids.
      edestruct (IH s1 (Some n) (Sh c kc) (drop pl (k0 :: rest))
                   (drop pl value0))
        as (r & s2 & k' & dw & dv & Hrec & G2 & Hmono);
        [done|by eapply ids_kid_nodup|rewrite length_drop; simpl in *; lia|
         rewrite !length_drop; lia|].
      cbn [sh_id] in Hrec, Hmono. rewrite Hrec. cbn [bind].
      eexists _, _, _, _, _. split; [done|]. split.
      * eapply grow_trans; [exact G1|]. by apply grow_kid.
      * intros key1. rewrite <- Ht1eq.
        apply (cached_values_kid prefix (objs s1) (objs s2) p n ks1 (Sh c kc)
                 ks2 k' dw dv); try done.
        intros a b c0. apply prefix_app.
  - apply Nat.eqb_neq in Hfull.
    destruct (_split_node_grow clock s1 p n _ nd k0 c cnd pl Ht1 Hnd1 Hn Hget Hc)
      as (s2 & ks1' & kc' & ks2' & und & Hkids' & Hsplit & G2 & He2 & Hc2 & Hu
          & _); [lia|].
    rewrite Hsplit. cbn [bind].
    pose proof (grow_tree _ _ _ _ _ _ _ G2) as Ht2.
    pose proof (grow_nodup _ _ _ _ _ _ _ G2) as Hnd2.
    edestruct (IH s2 (Some n) (Sh (length (objs s1)) [Sh c kc'])
                 (drop pl (k0 :: rest)) (drop pl value0))
      as (r & s3 & k' & dw & dv & Hrec & G3 & Hmono);
      [by eapply tree_at_kid|by eapply ids_kid_nodup|
       rewrite length_drop; simpl in *; lia|rewrite !length_drop; lia|].
    cbn [sh_id] in Hrec, Hmono. rewrite Hrec. cbn [bind].
    eexists _, _, _, _, _. split; [done|]. split.
    * eapply grow_trans; [exact G1|]. eapply grow_trans; [exact G2|].
      by apply grow_kid.
    * intros key1. rewrite <- Ht1eq.
      rewrite <- (split_transparent clock s1 p n _ nd k0 c cnd pl s2 Ht1 Hnd1
                    Hn Hget Hc ltac:(lia) Hsplit key1).
      apply (cached_values_kid prefix (objs s2) (objs s3) p n ks1'
               (Sh (length (objs s1)) [Sh c kc']) ks2' k' dw dv); try done.
      intros a b c0. apply prefix_app.
Qed.

Lemma match_prefix_values clock s key0 t :
  good s t → disable s = false →
  ∃ last s' t',
    match_prefix clock s key0
      = Ok (cached_values (objs s) (root_node s) key0, last, s') ∧
    good s' t' ∧ same_cache s s' ∧
    ∀ key1, cached_values (objs s') (root_node s) key1
            = cached_values (objs s) (root_node s) key1.
Proof.
  intros Hg Hdis. pose proof Hg as (Hid & Ht & Hnd & _).
  destruct (match_prefix_full clock s key0 t Hg Hdis)
    as (s' & t' & Hrun & G & _ & Hc & _).
  destruct (_match_prefix_helper_transparent clock (S (length key0)) s None t
              key0 [] (root_node s) Ht Hnd)
    as (vals & last & s2 & t2 & Hrun2 & _ & Heq); [lia|].
  rewrite Hid in Hrun2, Heq.
  unfold match_prefix in Hrun. rewrite Hdis, Hrun2 in Hrun. cbn [bind] in Hrun.
  injection Hrun as Hv Hl <-.
  exists last, s2, t'. split_and!; try done.
  - unfold match_prefix. rewrite Hdis, Hrun2. cbn [bind]. by rewrite Hv.
  - by eapply good_grow.
Qed.

Lemma insert_values clock s key0 value0 t :
  good s t → disable s = false → length key0 = length value0 →
  ∃ r s' t',
    insert clock s key0 (Some value0) = Ok (r, s') ∧
    good s' t' ∧ same_cache s s' ∧
    ∀ key1, cached_values (objs s) (root_node s) key1
              `prefix_of` cached_values (objs s') (root_node s) key1.
Proof.
  intros Hg Hdis Hlen. pose proof Hg as (Hid & Ht & Hnd & _).
  destruct (insert_full clock s key0 (Some value0) t Hg Hdis Hlen)
    as (s' & t' & Hrun & G & _ & Hc & _).
  destruct (_insert_helper_monotone clock (S (length key0)) s None t
              key0 value0 Ht Hnd)
    as (r & s2 & t2 & dw & dv & Hrun2 & _ & Hmono); [lia|done|].
  rewrite Hid in Hrun2, Hmono.
  unfold insert in Hrun. rewrite Hdis in Hrun. cbn [default] in Hrun.
  rewrite Hrun2 in Hrun. injection Hrun as Hr <-.
  exists r, s2, t'. split_and!; try done.
  - unfold insert. by rewrite Hdis.
  - by eapply good_grow.
Qed.

(** X21 — A [match_prefix(k)] on a well-formed cache, although it may split a
    node, does not change the values [match_prefix(k')] returns for any key
    [k']. *)
Theorem match_prefix_leaves_lookups_alone (clock : nat → Z) (s : RadixCache)
    (k k' : list Z) :
  wf s →
  ∃ vals last0 s0 vals1 last1 s1 last2 s2,
    match_prefix clock s k' = Ok (vals, last0, s0) ∧
    match_prefix clock s k = Ok (vals1, last1, s1) ∧
    match_prefix clock s1 k' = Ok (vals, last2, s2).
Proof.
  intros [t Hg]. destruct (disable s) eqn:Hd.
  { exists [], (root_node s), s, [], (root_node s), s, (root_node s), s.
    unfold match_prefix. by rewrite Hd. }
  destruct (match_prefix_values clock s k' t Hg Hd) as (l0 & s0 & _ & H0 & _).
  destruct (match_prefix_values clock s k t Hg Hd)
    as (l1 & s1 & t1 & H1 & Hg1 & (Hroot & Hdis & _) & Heq).
  destruct (match_prefix_values clock s1 k' t1 Hg1) as (l2 & s2 & _ & H2 & _);
    [congruence|].
  rewrite Hroot, Heq in H2.
  eexists _, l0, s0, _, l1, s1, l2, s2. done.
Qed.

(** X22 — [insert(k, v)] with [|v| == |k|] on a well-formed enabled cache
    loses nothing: for every key [k'], the values [match_prefix(k')] returns
    afterwards start with the values it would have returned before. *)
Theorem insert_keeps_what_was_cached (clock : nat → Z) (s : RadixCache)
    (k v k' : list Z) :
  wf s → disable s = false → length v = length k →
  ∃ vals last0 s0 r s1 more last1 s2,
    match_prefix clock s k' = Ok (vals, last0, s0) ∧
    insert clock s k (Some v) = Ok (r, s1) ∧
    match_prefix clock s1 k' = Ok (vals ++ more, last1, s2).
Proof.
  intros [t Hg] Hd Hlen.
  destruct (match_prefix_values clock s k' t Hg Hd) as (l0 & s0 & _ & H0 & _).
  destruct (insert_values clock s k v t Hg Hd)
    as (r & s1 & t1 & H1 & Hg1 & (Hroot & Hdis & _) & Hmono); [done|].
  destruct (match_prefix_values clock s1 k' t1 Hg1) as (l2 & s2 & _ & H2 & _);
    [congruence|].
  rewrite Hroot in H2. destruct (Hmono k') as [more Hmore].
  rewrite Hmore in H2.
  eexists _, l0, s0, r, s1, more, l2, s2. done.
Qed.

Lemma evict_lookups s t num_tokens wait_tensor :
  good s t → disable s = false →
  ∃ log s' t',
    evict s num_tokens wait_tensor = Ok (log, s') ∧
    good s' t' ∧ root_node s' = root_node s ∧ disable s' = disable s ∧
    ∀ key1, cached_values (objs s') (root_node s) key1
              `prefix_of` cached_values (objs s) (root_node s) key1.
Proof.
  intros Hg Hdis.
  destruct (evict_ok s t num_tokens wait_tensor Hg Hdis)
    as (log & s1 & t1 & Hrun & Hev & _).
  exists log, s1, t1. split_and!; try done.
  - apply (ev_good _ _ _ _ _ Hev).
  - apply (ev_root _ _ _ _ _ Hev).
  - apply (ev_disable _ _ _ _ _ Hev).
  - unfold evict in Hrun. cbn [enter_evict disable] in Hrun.
    rewrite Hdis in Hrun.
    assert (good (enter_evict s) t) as Hg0 by (by eapply good_ext).
    destruct (_collect_leaves_ok _ _ Hg0) as (l & Hl & Hperm).
    rewrite Hl in Hrun. cbn [bind] in Hrun.
    set (leaves := heapify _ l) in Hrun.
    assert (leaves ≡ₚ sh_leaves t) as Hperm'.
    { unfold leaves. by rewrite heapify_perm. }
    pose proof Hg as (_ & _ & Hnd & _).
    destruct (evict_loop_lru num_tokens (atime s)
                (length leaves + links (enter_evict s))
                (enter_evict s) t leaves 0 [] (fun _ => False) Hg0)
      as (n & new & s' & Hrun' & _ & _ & Hshort).
    { rewrite Hperm'. by apply sh_leaves_nodup. }
    { intros y. by rewrite Hperm'. }
    { done. }
    { done. }
    { unfold leaves. apply (heapify_heap (node_lt (enter_evict s)) (atime s)).
      by apply node_lt_atime. }
    { done. }
    rewrite Hrun' in Hrun. cbn [bind] in Hrun. injection Hrun as _ <-.
    intros key1. apply Hshort.
Qed.

(** X23 — [evict] on a well-formed cache can only shorten lookups: for every
    key [k], the values [match_prefix(k)] returns afterwards are a prefix of
    the values it would have returned before. *)
Theorem evict_only_shortens_lookups (clock : nat → Z) (s : RadixCache)
    (num : Z) (w : option (list nat)) (k : list Z) :
  wf s →
  ∃ vals last0 s0 log s1 vals1 last1 s2,
    match_prefix clock s k = Ok (vals, last0, s0) ∧
    evict s num w = Ok (log, s1) ∧
    match_prefix clock s1 k = Ok (vals1, last1, s2) ∧
    vals1 `prefix_of` vals.
Proof.
  intros [t Hg]. destruct (disable s) eqn:Hd.
  { eexists [], (root_node s), s, [], (enter_evict s), [], (root_node s), _.
    unfold match_prefix, evict. cbn [enter_evict disable]. rewrite Hd.
    by split_and!. }
  destruct (match_prefix_values clock s k t Hg Hd) as (l0 & s0 & _ & H0 & _).
  destruct (evict_lookups s t num w Hg Hd)
    as (log & s1 & t1 & H1 & Hg1 & Hroot & Hdis & Hshort).
  destruct (match_prefix_values clock s1 k t1 Hg1) as (l2 & s2 & _ & H2 & _);
    [congruence|].
  rewrite Hroot in H2.
  eexists _, l0, s0, log, s1, _, l2, s2. split_and!; try done.
Qed.

(** ** Bounds on the evictable size *)

Lemma sumZ_le {A} (f g : A → Z) (l : list A) :
  (∀ x, x ∈ l → f x ≤ g x) → sumZ f l ≤ sumZ g l.
Proof.
  induction l as [|a l IH]; intros H; simpl; [lia|].
  pose proof (H a ltac:(left)). 
  assert (sumZ f l ≤ sumZ g l) by (apply IH; intros x Hx; apply H; by right).
  unfold sumZ in *. lia.
Qed.

Lemma Inv_bounds s :
  Inv s →
  ∃ z, total_size s = Ok z ∧ 0 ≤ evictable_size_ s ∧ evictable_size_ s ≤ z.
Proof.
  intros HI. pose proof HI as ([t Hg] & _).
  destruct (Inv_elim s t HI Hg) as [_ He].
  exists (total_values (objs s) (ids t)). split_and!.
  - apply (total_size_ids s t Hg).
  - rewrite He. apply sumZ_nonneg. intros x. unfold weight, len.
    destruct (_ =? _); lia.
  - rewrite He. unfold total_values. apply sumZ_le. intros x _.
    unfold weight, len. destruct (_ =? _); lia.
Qed.

(** X24 — A run of operations from a fresh cache, each called as it may be
    ([op_pre]), returns in a state with [0 <= evictable_size() <=
    total_size()], and an [evict] from there, whatever [num_tokens], hands the
    callback at most [evictable_size()] slots; the only other outcome is the
    [TypeError] of an [evict1] called without its reserved list. *)
Theorem evictable_size_is_bounded (clock : nat → Z) (flag0 disable0 : bool)
    (ops : list op) (num : Z) (w : option (list nat)) :
  valid clock (__init__ clock flag0 disable0) ops →
  (∃ s z log s',
     run_ops clock (__init__ clock flag0 disable0) ops = Ok s ∧
     total_size s = Ok z ∧
     0 ≤ evictable_size s ∧ evictable_size s ≤ z ∧
     evict s num w = Ok (log, s') ∧
     sumZ (fun e => len (snd e)) log ≤ evictable_size s) ∨
  (run_ops clock (__init__ clock flag0 disable0) ops = Raise TypeError ∧
   ∃ num_tokens, Evict1 num_tokens None ∈ ops).
Proof.
  intros Hv.
  destruct (run_ops_Inv clock _ ops (__init___Inv clock flag0 disable0) Hv)
    as [(s & Hrun & HI)|Hraise]; [left|by right].
  destruct (Inv_bounds s HI) as (z & Hz & H0 & Hle).
  destruct (evict_Inv s num w HI) as (log & s' & Hev & HI').
  destruct (Inv_bounds s' HI') as (_ & _ & H0' & _).
  exists s, z, log, s'. unfold evictable_size. split_and!; try done.
  destruct (disable s) eqn:Hd.
  - unfold evict in Hev. cbn [enter_evict disable] in Hev. rewrite Hd in Hev.
    injection Hev as <- <-. simpl. lia.
  - pose proof HI as ([t Hg] & _).
    destruct (evict_ok s t num w Hg Hd) as (log2 & s2 & t2 & Hev2 & Hevd & _).
    rewrite Hev in Hev2. injection Hev2 as <- <-.
    pose proof (ev_evictable _ _ _ _ _ Hevd). lia.
Qed.

(** ** Which timestamps a lookup refreshes *)

Lemma touch_stamp clock s n s' :
  touch clock s n = Ok s' →
  ticks s' = S (ticks s) ∧ atime s' n = clock (ticks s) ∧
  ∀ m, m ≠ n → atime s' m = atime s m.
Proof.
  unfold touch, get_node. simpl.
  destruct (objs s !! n) as [nd|] eqn:E; [|done]. simpl.
  intros [= <-]. unfold atime. simpl. split_and!; [done| |].
  - by rewrite list_lookup_insert_eq by (by eapply lookup_lt_Some).
  - intros m Hm. by rewrite list_lookup_insert_ne.
Qed.

Lemma _split_node_ticks clock s k c sl new s' :
  _split_node clock s k c sl = Ok (new, s') → ticks s' = S (ticks s).
Proof.
  unfold _split_node, get_node.
  destruct (objs s !! c) as [cnd|]; [|done]. cbn [of_option bind].
  destruct (head (drop sl k)); [|done]. cbn [of_option bind].
  cbn [new_TreeNode time_time].
  destruct (head (take sl k)); [|done]. cbn [of_option bind].
  destruct (parent cnd); [|done]. cbn [of_option bind].
  destruct (_ !! _); [|done]. cbn [of_option bind].
  by intros [= _ <-].
Qed.

Lemma _match_prefix_helper_stamps clock fuel s p t key0 value0 :
  tree_at (objs s) p t → NoDup (ids t) → (length key0 < fuel)%nat →
  ∃ vals last' s' t' path,
    _match_prefix_helper clock fuel s (sh_id t) key0 value0 (sh_id t)
      = Ok (vals, last', s') ∧
    grow (objs s) p t (objs s') t' 0 0 ∧ same_cache s s' ∧
    (ticks s < ticks s')%nat ∧
    (length path < depth t')%nat ∧
    (∀ root fuel0 rest,
       root ∉ flat_map ids (sh_kids t') →
       path_to_root fuel0 (objs s') root (sh_id t) = Some rest →
       path_to_root (length path + fuel0) (objs s') root last'
         = Some (path ++ rest)) ∧
    (∀ m, m = sh_id t ∨ m ∈ path →
          ∃ j, (ticks s ≤ j < ticks s')%nat ∧ atime s' m = clock j) ∧
    (∀ m, m ≠ sh_id t → m ∉ path → atime s' m = atime s m) ∧
    last' ∈ ids t' ∧ (∀ m, m ∈ ids t' → m ∈ ids t ∨ m = last').
Proof.
  revert s p t key0 value0.
  induction fuel as [|fuel IH]; intros s p t key0 value0 Ht Hnd Hfuel; [lia|].
  destruct (touch_grow clock s p t Ht Hnd) as (s1 & Htouch & G1 & He1 & Hc1).
  destruct (touch_stamp _ _ _ _ Htouch) as (Htk1 & Hst1 & Hfr1).
  cbn [_match_prefix_helper]. rewrite Htouch. cbn [bind].
  assert (∃ vals last' s' t' path,
    Ok (value0, sh_id t, s1) = Ok (vals, last', s') ∧
    grow (objs s) p t (objs s') t' 0 0 ∧ same_cache s s' ∧
    (ticks s < ticks s')%nat ∧
    (length path < depth t')%nat ∧
    (∀ root fuel0 rest,
       root ∉ flat_map ids (sh_kids t') →
       path_to_root fuel0 (objs s') root (sh_id t) = Some rest →
       path_to_root (length path + fuel0) (objs s') root last'
         = Some (path ++ rest)) ∧
    (∀ m, m = sh_id t ∨ m ∈ path →
          ∃ j, (ticks s ≤ j < ticks s')%nat ∧ atime s' m = clock j) ∧
    (∀ m, m ≠ sh_id t → m ∉ path → atime s' m = atime s m) ∧
    last' ∈ ids t' ∧ (∀ m, m ∈ ids t' → m ∈ ids t ∨ m = last')) as Hbase.
  { exists value0, (sh_id t), s1, t, []. split_and!; try done.
    - lia.
    - destruct t. simpl. lia.
    - intros m [->|Hm]; [|by apply elem_of_nil in Hm].
      exists (ticks s). split; [lia|done].
    - intros m Hm _. by apply Hfr1.
    - apply sh_id_in_ids.
    - auto. }
  destruct key0 as [|k0 rest]; [done|].
  pose proof (grow_tree _ _ _ _ _ _ _ G1) as Ht1.
  pose proof (grow_nodup _ _ _ _ _ _ _ G1) as Hnd1.
  destruct t as [n kids]. cbn [sh_id] in *.
  pose proof Ht1 as (nd & Hn & _)%tree_at_inv.
  unfold get_node at 1. rewrite Hn. cbn [of_option bind].
  destruct (dict_get (children nd) k0) as [c|] eqn:Hget; [|done].
  clear Hbase.
  destruct (tree_at_child _ _ _ _ _ _ _ Ht1 Hn Hget)
    as (ks1 & kc & ks2 & cnd & d1 & d2 & -> & Hd & Hlen & Hk0 & Hc & Hcp
        & Hhd & Hkv & Hsc & Hset).
  unfold get_node at 1. rewrite Hc. cbn [of_option bind].
  pose proof (_key_match_le (key cnd) (k0 :: rest)) as [Hle1 Hle2].
  pose proof (_key_match_pos (key cnd) (k0 :: rest) k0 Hhd eq_refl) as Hpos.
  assert (atime s1 n = last_access_time nd) as Hnt.
  { unfold atime. by rewrite Hn. }
  destruct (_ <? _)%nat eqn:Hlt.
  - apply Nat.ltb_lt in Hlt.
    destruct (_split_node_grow clock s1 p n _ nd k0 c cnd
                (_key_match (key cnd) (k0 :: rest)) Ht1 Hnd1 Hn Hget Hc)
      as (s2 & ks1' & kc' & ks2' & und & Hkids & Hsplit & G2 & He2 & Hc2 & Hu & _);
      [lia|].
    destruct (_split_node_eq clock s1 p n _ nd k0 c cnd
                (_key_match (key cnd) (k0 :: rest)) Ht1 Hnd1 Hn Hget Hc)
      as (k1 & s2' & Hk1 & Hsplit' & Hobjs & Hnc & Hnlt & Hclt); [lia|].
    rewrite Hsplit in Hsplit'. injection Hsplit' as <-.
    pose proof (_split_node_ticks _ _ _ _ _ _ _ Hsplit) as Htk2.
    rewrite Hsplit. cbn [bind]. unfold get_node. rewrite Hu. cbn [of_option bind].
    set (u := length (objs s1)) in *.
    destruct (split_top_lookup (objs s1) n c
                (set_children (dict_set (children nd) k0 u) nd)
                (mkTreeNode (children cnd) (Some u)
                   (drop (_key_match (key cnd) (k0 :: rest)) (key cnd))
                   (drop (_key_match (key cnd) (k0 :: rest)) (value cnd))
                   (lock_ref cnd) (last_access_time cnd) (ref_counter cnd))
                (mkTreeNode [(k1, c)] (Some n)
                   (take (_key_match (key cnd) (k0 :: rest)) (key cnd))
                   (take (_key_match (key cnd) (k0 :: rest)) (value cnd))
                   (lock_ref cnd) (clock (ticks s1)) 0) Hnc Hnlt Hclt)
      as (L1 & L2 & L3 & L4).
    cbv zeta in L1, L2, L3, L4. fold u in L3. rewrite <- Hobjs in L1, L2, L3, L4.
    pose proof (grow_tree _ _ _ _ _ _ _ G2) as Ht2.
    eexists _, u, s2, _, [u]. split; [done|]. split_and!.
    + apply (grow_trans _ _ _ _ _ _ _ _ _ _ _ G1 G2).
    + by eapply same_cache_trans.
    + lia.
    + pose proof (depth_kid (Sh u [Sh c kc']) n (ks1' ++ Sh u [Sh c kc'] :: ks2'))
        as Hdk.
      rewrite elem_of_app, elem_of_cons in Hdk. specialize (Hdk ltac:(tauto)).
      simpl in Hdk |- *. lia.
    + intros root fuel0 rest0 Hroot Hrest. cbn [sh_kids] in Hroot.
      assert (u ≠ root) as Hur.
      { intros <-. apply Hroot. rewrite flat_map_app. simpl.
        rewrite !elem_of_app, elem_of_cons. tauto. }
      apply tree_at_kid in Ht2 as (und' & Hu' & Hup & _)%tree_at_inv.
      simpl. destruct (Nat.eqb_spec u root); [done|].
      by rewrite Hu', Hup, Hrest.
    + intros m [->|Hm].
      * exists (ticks s). split; [lia|]. unfold atime at 1. rewrite L1. simpl.
        by rewrite <- Hnt, Hst1.
      * apply list_elem_of_singleton in Hm as ->. exists (ticks s1).
        split; [lia|]. unfold atime. by rewrite L3.
    + intros m Hmn Hmu. rewrite not_elem_of_cons in Hmu. destruct Hmu as [Hmu _].
      rewrite <- (Hfr1 m Hmn). unfold atime at 1 2.
      destruct (decide (m = c)) as [->|Hmc].
      * by rewrite L2, Hc.
      * rewrite Hobjs, !list_lookup_insert_ne by done.
        destruct (decide (m < u)%nat).
        -- by rewrite lookup_app_l by done.
        -- rewrite !lookup_ge_None_2; [done|lia|rewrite length_app; simpl; lia].
    + rewrite ids_split. rewrite elem_of_cons, !elem_of_app. simpl.
      rewrite elem_of_cons. tauto.
    + intros m Hm. pose proof (tree_at_bound _ _ _ _ Ht2 Hm) as Hlt2.
      destruct (grow_fresh _ _ _ _ _ _ _ G2 m Hm) as [?|Hge]; [by left|].
      right. fold u in Hge. lia.
  - apply Nat.ltb_ge in Hlt.
    edestruct (IH s1 (Some n) (Sh c kc)
                 (drop (_key_match (key cnd) (k0 :: rest)) (k0 :: rest))
                 (value0 ++ [value cnd]))
      as (vals & last' & s2 & k' & path & Hrec & G2 & Hc2 & Htk2 & Hdp & HP
          & Hst2 & Hfr2 & Hin2 & Hnew2);
      [done|by eapply ids_kid_nodup|rewrite length_drop; simpl in *; lia|].
    cbn [sh_id] in *. rewrite Hrec.
    pose proof (grow_tree _ _ _ _ _ _ _ G2) as Ht2.
    pose proof (grow_id _ _ _ _ _ _ _ G2) as Hid2.
    destruct k' as [c' kc']. cbn [sh_id sh_kids] in *. subst c'.
    exists vals, last', s2, (Sh n (ks1 ++ Sh c kc' :: ks2)), (path ++ [c]).
    split; [done|]. split_and!.
    + apply (grow_trans _ _ _ _ _ _ _ _ _ _ _ G1). by apply grow_kid.
    + by eapply same_cache_trans.
    + lia.
    + pose proof (depth_kid (Sh c kc') n (ks1 ++ Sh c kc' :: ks2)) as Hdk.
      rewrite elem_of_app, elem_of_cons in Hdk. specialize (Hdk ltac:(tauto)).
      rewrite length_app. simpl in *. lia.
    + intros root fuel0 rest0 Hroot Hrest. cbn [sh_kids] in Hroot.
      rewrite flat_map_app in Hroot. simpl in Hroot.
      rewrite !elem_of_app, elem_of_cons, ?elem_of_app in Hroot.
      apply tree_at_inv in Ht2 as (cnd2 & Hc2' & Hcp2 & _).
      rewrite length_app. simpl.
      replace (length path + 1 + fuel0)%nat with (length path + S fuel0)%nat
        by lia.
      rewrite <- app_assoc. apply HP; [tauto|]. simpl.
      destruct (Nat.eqb_spec c root) as [->|_]; [naive_solver|].
      by rewrite Hc2', Hcp2, Hrest.
    + intros m Hm.
      assert (m = n ∨ (m = c ∨ m ∈ path)) as [->|Hm'].
      { rewrite elem_of_app, list_elem_of_singleton in Hm. tauto. }
      * exists (ticks s). split; [lia|]. rewrite <- Hst1. unfold atime.
        rewrite (grow_frame _ _ _ _ _ _ _ G2 n); [done|by eapply lookup_lt_Some|].
        by eapply top_not_in_kid.
      * destruct (Hst2 m Hm') as (j & Hj & Hjt). exists j. split; [lia|done].
    + intros m Hmn Hmp. rewrite not_elem_of_app, list_elem_of_singleton in Hmp.
      destruct Hmp as [Hmp Hmc]. rewrite (Hfr2 m Hmc Hmp). by apply Hfr1.
    + rewrite ids_split. rewrite elem_of_cons, !elem_of_app. tauto.
    + intros m. rewrite !ids_split, !elem_of_cons, !elem_of_app.
      intros [?|[?|[Hm|?]]]; try tauto.
      destruct (Hnew2 m Hm); tauto.
Qed.

Lemma match_prefix_stamps clock s k t :
  good s t → disable s = false →
  ∃ vals last s' t',
    match_prefix clock s k = Ok (vals, last, s') ∧
    good s' t' ∧ same_cache s s' ∧ (ticks s < ticks s')%nat ∧
    (∀ m, m = root_node s ∨ m ∈ pin_path s' last →
          ∃ j, (ticks s ≤ j < ticks s')%nat ∧ atime s' m = clock j) ∧
    (∀ m, m ≠ root_node s → m ∉ pin_path s' last → atime s' m = atime s m) ∧
    last ∈ ids t' ∧ (∀ m, m ∈ ids t' → m ∈ ids t ∨ m = last).
Proof.
  intros Hg Hd. pose proof Hg as (Hid & Ht & Hnd & _).
  unfold match_prefix. rewrite Hd.
  destruct (_match_prefix_helper_stamps clock (S (length k)) s None t k []
              Ht Hnd)
    as (vals & last & s' & t' & path & Hrun & G & Hc & Htk & Hdp & HP & Hst
        & Hfr & Hin & Hnew); [lia|].
  rewrite Hid in Hrun, HP, Hst, Hfr. rewrite Hrun. cbn [bind].
  pose proof (good_grow s s' t t' 0 0 Hg G Hc) as Hg'.
  pose proof Hg' as (Hid' & Ht' & Hnd' & _).
  assert (pin_path s' last = path) as Hpath.
  { unfold pin_path.
    pose proof (depth_le_ids t'). pose proof (ids_length_bound _ _ _ Ht' Hnd').
    specialize (HP (root_node s') (length (objs s') - length path)%nat []).
    replace (length path + (length (objs s') - length path))%nat
      with (length (objs s')) in HP by lia.
    rewrite HP; [by rewrite app_nil_r| |].
    - destruct t' as [r kids]. simpl in *. subst r.
      by apply NoDup_cons in Hnd' as [? _].
    - destruct Hc as (-> & _). apply path_to_root_root. }
  exists (concat vals), last, s', t'. by rewrite Hpath.
Qed.

(** X25 — [match_prefix(k)] on a well-formed enabled cache reads the clock at
    least once and refreshes exactly the matched path: the root, the returned
    last node and every node between them get a [last_access_time] read from
    the clock during the call, and every other node keeps the one it had. *)
Theorem match_prefix_refreshes_the_matched_path (clock : nat → Z)
    (s : RadixCache) (k : list Z) :
  wf s → disable s = false →
  ∃ vals last s',
    match_prefix clock s k = Ok (vals, last, s') ∧
    (ticks s < ticks s')%nat ∧
    (∀ m, m = root_node s ∨ m ∈ pin_path s' last →
          ∃ j, (ticks s ≤ j < ticks s')%nat ∧ atime s' m = clock j) ∧
    (∀ m, m ≠ root_node s → m ∉ pin_path s' last → atime s' m = atime s m).
Proof.
  intros [t Hg] Hd.
  destruct (match_prefix_stamps clock s k t Hg Hd)
    as (vals & last & s' & t' & Hrun & _ & _ & Htk & Hst & Hfr & _).
  by exists vals, last, s'.
Qed.

(** ** A lookup followed by an eviction *)

Lemma path_has_children s t x :
  good s t → x ∈ ids t →
  ∀ m, m = root_node s ∨ m ∈ pin_path s x → m ≠ x →
       children_of (objs s) m ≠ [].
Proof.
  intros Hg Hx. pose proof Hg as (Hid & Ht & Hnd & _).
  destruct (pin_path_spec s t x Hg Hx) as (Hp & _).
  revert Hp. generalize (pin_path s x) as path.
  generalize (length (objs s)) as fuel. intros fuel. revert x Hx.
  induction fuel as [|fuel IH]; intros x Hx path Hp m Hm Hne;
    destruct (x =? root_node s)%nat eqn:Hr.
  1,3: apply Nat.eqb_eq in Hr; subst x;
       rewrite path_to_root_root in Hp; injection Hp as <-;
       destruct Hm as [?|Hm]; [done|by apply elem_of_nil in Hm].
  - destruct (path_to_root_cons _ _ _ _ _ Hp Hr) as (? & ? & ? & ? & ? & _). lia.
  - destruct (path_to_root_cons _ _ _ _ _ Hp Hr)
      as (f & nd & p & path' & [= <-] & Hn & Hpar & -> & Hpath).
    apply Nat.eqb_neq in Hr. rewrite <- Hid in Hr.
    destruct (tree_parent_link _ _ _ _ Ht Hx Hr)
      as (xnd & q & qnd & k0 & Hx' & Hq & Hqin & Hqn & _ & Hget & _).
    rewrite Hn in Hx'. injection Hx' as <-. rewrite Hpar in Hq.
    injection Hq as <-.
    destruct (decide (m = p)) as [->|Hmp].
    + unfold children_of. rewrite Hqn. intros E. by rewrite E in Hget.
    + apply (IH p Hqin path' Hpath m); [|done].
      destruct Hm as [?|Hm]; [by left|].
      apply elem_of_cons in Hm as [?|?]; [done|by right].
Qed.

(** X26 — A lookup protects what it matched: if every [last_access_time] in
    the tree is below all later clock readings, then after [match_prefix(k)]
    an [evict] frees the node the lookup ended at only after it has freed
    every other unpinned leaf of the tree. *)
Theorem matched_node_is_evicted_last (clock : nat → Z) (s : RadixCache)
    (k : list Z) (num : Z) (w : option (list nat)) :
  wf s → disable s = false →
  (∀ m j, m ∈ tree_nodes s → (ticks s ≤ j)%nat → atime s m < clock j) →
  ∃ vals last s1 log s2,
    match_prefix clock s k = Ok (vals, last, s1) ∧
    evict s1 num w = Ok (log, s2) ∧
    ∀ l1 v l2, log = l1 ++ (last, v) :: l2 →
      ∀ y, y ∈ tree_nodes s1 → children_of (objs s1) y = [] →
           lock_of (objs s1) y ≤ 0 → y ≠ last → y ∈ map fst l1.
Proof.
  intros [t Hg] Hd Hold.
  destruct (match_prefix_stamps clock s k t Hg Hd)
    as (vals & last & s1 & t1 & Hrun & Hg1 & Hc & Htk & Hst & Hfr & Hin & Hnew).
  destruct Hc as (Hroot & Hdis & _).
  destruct (evict_lru s1 t1 num w Hg1) as (log & s2 & t2 & Hev & Hevd & _ & Hlru);
    [congruence|].
  exists vals, last, s1, log, s2. split_and!; [done|done|].
  intros l1 v l2 E y Hy Hch Hlk Hne.
  destruct (decide (y ∈ map fst l1)) as [|Hnin]; [done|exfalso].
  rewrite (tree_nodes_ids s1 t1 Hg1) in Hy.
  assert (last ≠ root_node s1) as Hlr.
  { pose proof (ev_log _ _ _ _ _ Hevd) as Hlog. rewrite E in Hlog.
    apply Forall_app in Hlog as [_ Hlog]. apply Forall_cons in Hlog as [Hl _].
    apply Hl. }
  destruct (pin_path_spec s1 t1 last Hg1 Hin) as (_ & _ & _ & Hself).
  destruct (Hst last) as (j & Hj & Hjt); [right; by apply Hself|].
  assert (atime s1 last ≤ atime s1 y) as Hle.
  { apply (Hlru l1 last v l2 E y); [|done|done].
    apply (good_leaves s1 t1 y Hg1). by rewrite (tree_nodes_ids s1 t1 Hg1). }
  assert (atime s1 y = atime s y) as Hsame.
  { apply Hfr.
    - intros ->. rewrite <- Hroot in Hch.
      by apply (path_has_children s1 t1 last Hg1 Hin (root_node s1));
        [left|congruence|].
    - intros Hyp.
      by apply (path_has_children s1 t1 last Hg1 Hin y); [right|..]. }
  assert (y ∈ tree_nodes s) as Hys.
  { rewrite (tree_nodes_ids s t Hg). by destruct (Hnew y Hy). }
  pose proof (Hold y j Hys ltac:(lia)). lia.
Qed.

(** ** The properties at concrete caches *)

Lemma ex_ops_valid : valid ex_clock (__init__ ex_clock false false) ex_ops.
Proof.
  unfold ex_ops. cbn [valid].
  split; [reflexivity|]. intros s1 H1. vm_compute in H1. injection H1 as <-.
  split; [exact I|]. intros s2 H2. vm_compute in H2. injection H2 as <-.
  split; [vm_compute; repeat constructor|].
  intros s3 H3. vm_compute in H3. injection H3 as <-.
  split.
  { split; [vm_compute; repeat constructor|].
    match goal with |- Forall _ ?l =>
      let l' := eval vm_compute in l in change l with l' end.
    repeat constructor. vm_compute. discriminate. }
  intros s4 H4. vm_compute in H4. injection H4 as <-.
  split; [exact I|]. intros s5 H5. vm_compute in H5. injection H5 as <-.
  split; [exact I|]. intros s6 H6. vm_compute in H6. injection H6 as <-.
  split; [exact I|]. intros s7 H7. exact I.
Qed.

Lemma ex_two_has_1 : 1%nat ∈ tree_nodes ex_two.
Proof. vm_compute. repeat constructor. Qed.

Lemma ex_pinned_has_1 : 1%nat ∈ tree_nodes ex_pinned.
Proof. vm_compute. repeat constructor. Qed.

Lemma collect_leaves_childless_witness :
  wf ex_two ∧
  ∃ l, _collect_leaves ex_two = Ok l ∧ NoDup l ∧
       ∀ x, x ∈ l ↔ x ∈ tree_nodes ex_two ∧ children_of (objs ex_two) x = [].
Proof.
  split; [exact (proj1 ex_two_Inv)|].
  exact (collect_leaves_childless ex_two (proj1 ex_two_Inv)).
Defined.

Lemma total_size_sum_witness :
  wf ex_two ∧
  total_size ex_two =
    Ok (sumZ (fun n => len (value_of (objs ex_two) n)) (tree_nodes ex_two)).
Proof.
  split; [exact (proj1 ex_two_Inv)|].
  exact (total_size_sum ex_two (proj1 ex_two_Inv)).
Defined.

Lemma evict_frees_enough_or_is_blocked_witness :
  wf ex_two ∧ disable ex_two = false ∧
  ∃ log s',
    evict ex_two 1 None = Ok (log, s') ∧
    evictable_size_ s' =
      evictable_size_ ex_two - sumZ (fun e => len (snd e)) log.
Proof.
  split; [exact (proj1 ex_two_Inv)|]. split; [reflexivity|].
  destruct (evict_frees_enough_or_is_blocked ex_two 1 None (proj1 ex_two_Inv)
              eq_refl) as (log & s' & Hr & _ & He & _).
  exists log, s'. split; [exact Hr|exact He].
Defined.

Lemma evict_removes_exactly_its_victims_witness :
  wf ex_two ∧ disable ex_two = false ∧
  ∃ log s',
    evict ex_two 1 None = Ok (log, s') ∧
    tree_nodes ex_two ≡ₚ map fst log ++ tree_nodes s'.
Proof.
  split; [exact (proj1 ex_two_Inv)|]. split; [reflexivity|].
  destruct (evict_removes_exactly_its_victims ex_two 1 None
              (proj1 ex_two_Inv) eq_refl) as (log & s' & Hr & _ & _ & Hp & _).
  exists log, s'. split; [exact Hr|exact Hp].
Defined.

Lemma evict1_spares_reserved_and_pinned_witness :
  wf ex_pinned ∧ disable ex_pinned = false ∧
  ∃ log s',
    evict1 ex_pinned 5 (Some [2%nat]) = Ok (log, s') ∧
    ∀ m, m ∈ tree_nodes ex_pinned →
         m ∈ [2%nat] ∨ 0 < lock_of (objs ex_pinned) m → m ∈ tree_nodes s'.
Proof.
  split; [exact (proj1 ex_pinned_Inv)|]. split; [reflexivity|].
  destruct (evict1_spares_reserved_and_pinned ex_pinned 5 [2%nat]
              (proj1 ex_pinned_Inv) eq_refl)
    as (log & s' & Hr & _ & _ & _ & Hs & _).
  exists log, s'. split; [exact Hr|exact Hs].
Defined.

Lemma evict_nothing_requested_witness :
  wf ex_two ∧ 0 ≤ 0 ∧
  ∃ s', evict ex_two 0 None = Ok ([], s') ∧ objs s' = objs ex_two.
Proof.
  split; [exact (proj1 ex_two_Inv)|]. split; [lia|].
  destruct (evict_nothing_requested ex_two 0 None (proj1 ex_two_Inv))
    as (s' & Hr & _ & Ho & _); [lia|].
  exists s'. split; [exact Hr|exact Ho].
Defined.

Lemma reachable_states_are_trees_witness :
  valid ex_clock (__init__ ex_clock false false) ex_ops ∧
  ∃ s', run_ops ex_clock (__init__ ex_clock false false) ex_ops = Ok s' ∧
        NoDup (tree_nodes s').
Proof.
  split; [exact ex_ops_valid|].
  destruct (reachable_states_are_trees ex_clock false false ex_ops
              ex_ops_valid) as [(s' & Hr & Hnd & _)|[Hr _]].
  - exists s'. split; [exact Hr|exact Hnd].
  - vm_compute in Hr. discriminate Hr.
Defined.

Lemma inc_lock_ref_pins_path_witness :
  wf ex_two ∧ disable ex_two = false ∧ 1%nat ∈ tree_nodes ex_two ∧
  ∃ s',
    inc_lock_ref ex_two 1
      = Ok (- sumZ (pin_weight 0 (objs ex_two)) (pin_path ex_two 1), s').
Proof.
  split; [exact (proj1 ex_two_Inv)|]. split; [reflexivity|].
  split; [exact ex_two_has_1|].
  destruct (inc_lock_ref_pins_path ex_two 1 (proj1 ex_two_Inv) eq_refl
              ex_two_has_1) as (s' & Hr & _).
  exists s'. exact Hr.
Defined.

Lemma dec_lock_ref_unpins_path_witness :
  wf ex_pinned ∧ disable ex_pinned = false ∧ 1%nat ∈ tree_nodes ex_pinned ∧
  ∃ s',
    dec_lock_ref ex_pinned 1
      = Ok (sumZ (pin_weight 1 (objs ex_pinned)) (pin_path ex_pinned 1), s').
Proof.
  split; [exact (proj1 ex_pinned_Inv)|]. split; [reflexivity|].
  split; [exact ex_pinned_has_1|].
  destruct (dec_lock_ref_unpins_path ex_pinned 1 (proj1 ex_pinned_Inv) eq_refl
              ex_pinned_has_1) as (s' & Hr & _).
  exists s'. exact Hr.
Defined.

Lemma pin_then_unpin_restores_the_cache_witness :
  wf ex_two ∧ 1%nat ∈ tree_nodes ex_two ∧
  ∃ d s1, inc_lock_ref ex_two 1 = Ok (d, s1) ∧
          dec_lock_ref s1 1 = Ok (- d, ex_two).
Proof.
  split; [exact (proj1 ex_two_Inv)|]. split; [exact ex_two_has_1|].
  exact (proj1 (pin_then_unpin_restores_the_cache ex_two 1 (proj1 ex_two_Inv)
                  ex_two_has_1)).
Defined.

Lemma root_stays_pinned_witness :
  valid ex_clock (__init__ ex_clock false false) ex_ops ∧
  ∃ s', run_ops ex_clock (__init__ ex_clock false false) ex_ops = Ok s' ∧
        lock_of (objs s') (root_node s') = 1.
Proof.
  split; [exact ex_ops_valid|].
  destruct (root_stays_pinned ex_clock false false ex_ops ex_ops_valid)
    as [H|[Hr _]]; [exact H|].
  vm_compute in Hr. discriminate Hr.
Defined.

Lemma pinned_path_survives_eviction_witness :
  wf ex_two ∧ disable ex_two = false ∧ 1%nat ∈ tree_nodes ex_two ∧
  0 ≤ lock_of (objs ex_two) 1 ∧
  ∃ d s1 log s2,
    inc_lock_ref ex_two 1 = Ok (d, s1) ∧
    evict s1 5 None = Ok (log, s2) ∧
    ∀ m, m ∈ 1%nat :: pin_path ex_two 1 →
         m ∈ tree_nodes s2 ∧ (m ∉ map fst log) ∧
         value_of (objs s2) m = value_of (objs ex_two) m.
Proof.
  assert (0 ≤ lock_of (objs ex_two) 1) as Hl by (vm_compute; discriminate).
  split; [exact (proj1 ex_two_Inv)|]. split; [reflexivity|].
  split; [exact ex_two_has_1|]. split; [exact Hl|].
  exact (pinned_path_survives_eviction ex_two 1 5 None (proj1 ex_two_Inv)
           eq_refl ex_two_has_1 Hl).
Defined.

Lemma insert_counts_the_new_tokens_witness :
  wf ex_long ∧ disable ex_long = false ∧
  length [1; 2; 5] = length (default [1; 2; 5] (Some [20; 21; 22])) ∧
  ∃ r s' z,
    insert ex_clock ex_long [1; 2; 5] (Some [20; 21; 22]) = Ok (r, s') ∧
    total_size ex_long = Ok z ∧
    total_size s' = Ok (z + (len [1; 2; 5] - Z.of_nat r)).
Proof.
  split; [exact (proj1 ex_long_Inv)|]. split; [reflexivity|].
  split; [reflexivity|].
  destruct (insert_counts_the_new_tokens ex_clock ex_long [1; 2; 5]
              (Some [20; 21; 22]) (proj1 ex_long_Inv) eq_refl eq_refl)
    as (r & s' & z & Hr & _ & Hz & Hz' & _).
  exists r, s', z. split; [exact Hr|]. split; [exact Hz|exact Hz'].
Defined.

Lemma insert_then_match_prefix_witness :
  wf ex_long ∧ disable ex_long = false ∧
  length [20; 21; 22] = length [1; 2; 5] ∧
  ∃ vals0 last0 s0 r s1 last s2,
    match_prefix ex_clock ex_long [1; 2; 5] = Ok (vals0, last0, s0) ∧
    insert ex_clock ex_long [1; 2; 5] (Some [20; 21; 22]) = Ok (r, s1) ∧
    r = length vals0 ∧
    match_prefix ex_clock s1 [1; 2; 5]
      = Ok (vals0 ++ drop r [20; 21; 22], last, s2) ∧
    length (vals0 ++ drop r [20; 21; 22]) = length [1; 2; 5].
Proof.
  split; [exact (proj1 ex_long_Inv)|]. split; [reflexivity|].
  split; [reflexivity|].
  exact (insert_then_match_prefix ex_clock ex_long [1; 2; 5] [20; 21; 22]
           (proj1 ex_long_Inv) eq_refl eq_refl).
Defined.

Lemma match_prefix_twice_witness :
  wf ex_long ∧
  ∃ vals last s1 s2,
    match_prefix ex_clock ex_long [1; 2; 9] = Ok (vals, last, s1) ∧
    match_prefix ex_clock s1 [1; 2; 9] = Ok (vals, last, s2) ∧
    (length vals ≤ length [1; 2; 9])%nat.
Proof.
  split; [exact (proj1 ex_long_Inv)|].
  exact (match_prefix_twice ex_clock ex_long [1; 2; 9] (proj1 ex_long_Inv)).
Defined.

Lemma evict_takes_the_oldest_leaf_first_witness :
  wf ex_two ∧ disable ex_two = false ∧
  ∃ log s',
    evict ex_two 2 None = Ok (log, s') ∧
    ∀ l1 x v l2, log = l1 ++ (x, v) :: l2 →
      ∀ y, y ∈ tree_nodes ex_two → children_of (objs ex_two) y = [] →
           lock_of (objs ex_two) y ≤ 0 → y ∉ map fst l1 →
           atime ex_two x ≤ atime ex_two y.
Proof.
  split; [exact (proj1 ex_two_Inv)|]. split; [reflexivity|].
  destruct (evict_takes_the_oldest_leaf_first ex_two 2 None
              (proj1 ex_two_Inv) eq_refl) as (log & s' & Hr & _ & Hlru).
  exists log, s'. split; [exact Hr|exact Hlru].
Defined.

Lemma match_prefix_leaves_lookups_alone_witness :
  wf ex_long ∧
  ∃ vals last0 s0 vals1 last1 s1 last2 s2,
    match_prefix ex_clock ex_long [1; 2; 3; 4] = Ok (vals, last0, s0) ∧
    match_prefix ex_clock ex_long [1; 2; 9] = Ok (vals1, last1, s1) ∧
    match_prefix ex_clock s1 [1; 2; 3; 4] = Ok (vals, last2, s2).
Proof.
  split; [exact (proj1 ex_long_Inv)|].
  exact (match_prefix_leaves_lookups_alone ex_clock ex_long [1; 2; 9]
           [1; 2; 3; 4] (proj1 ex_long_Inv)).
Defined.

Lemma insert_keeps_what_was_cached_witness :
  wf ex_long ∧ disable ex_long = false ∧
  length [20; 21; 22] = length [1; 2; 5] ∧
  ∃ vals last0 s0 r s1 more last1 s2,
    match_prefix ex_clock ex_long [1; 2; 3; 4] = Ok (vals, last0, s0) ∧
    insert ex_clock ex_long [1; 2; 5] (Some [20; 21; 22]) = Ok (r, s1) ∧
    match_prefix ex_clock s1 [1; 2; 3; 4] = Ok (vals ++ more, last1, s2).
Proof.
  split; [exact (proj1 ex_long_Inv)|]. split; [reflexivity|].
  split; [reflexivity|].
  exact (insert_keeps_what_was_cached ex_clock ex_long [1; 2; 5] [20; 21; 22]
           [1; 2; 3; 4] (proj1 ex_long_Inv) eq_refl eq_refl).
Defined.

Lemma evict_only_shortens_lookups_witness :
  wf ex_two ∧
  ∃ vals last0 s0 log s1 vals1 last1 s2,
    match_prefix ex_clock ex_two [1] = Ok (vals, last0, s0) ∧
    evict ex_two 1 None = Ok (log, s1) ∧
    match_prefix ex_clock s1 [1] = Ok (vals1, last1, s2) ∧
    vals1 `prefix_of` vals.
Proof.
  split; [exact (proj1 ex_two_Inv)|].
  exact (evict_only_shortens_lookups ex_clock ex_two 1 None [1]
           (proj1 ex_two_Inv)).
Defined.

Lemma evictable_size_is_bounded_witness :
  valid ex_clock (__init__ ex_clock false false) ex_ops ∧
  ∃ s z log s',
    run_ops ex_clock (__init__ ex_clock false false) ex_ops = Ok s ∧
    total_size s = Ok z ∧
    0 ≤ evictable_size s ∧ evictable_size s ≤ z ∧
    evict s 3 None = Ok (log, s') ∧
    sumZ (fun e => len (snd e)) log ≤ evictable_size s.
Proof.
  split; [exact ex_ops_valid|].
  destruct (evictable_size_is_bounded ex_clock false false ex_ops 3 None
              ex_ops_valid) as [H|[Hr _]]; [exact H|].
  vm_compute in Hr. discriminate Hr.
Defined.

Lemma match_prefix_refreshes_the_matched_path_witness :
  wf ex_long ∧ disable ex_long = false ∧
  ∃ vals last s',
    match_prefix ex_clock ex_long [1; 2; 9] = Ok (vals, last, s') ∧
    (ticks ex_long < ticks s')%nat ∧
    (∀ m, m = root_node ex_long ∨ m ∈ pin_path s' last →
          ∃ j, (ticks ex_long ≤ j < ticks s')%nat ∧ atime s' m = ex_clock j) ∧
    (∀ m, m ≠ root_node ex_long → m ∉ pin_path s' last →
          atime s' m = atime ex_long m).
Proof.
  split; [exact (proj1 ex_long_Inv)|]. split; [reflexivity|].
  exact (match_prefix_refreshes_the_matched_path ex_clock ex_long [1; 2; 9]
           (proj1 ex_long_Inv) eq_refl).
Defined.

Lemma ex_two_stamps_old m j :
  m ∈ tree_nodes ex_two → (ticks ex_two ≤ j)%nat → atime ex_two m < ex_clock j.
Proof.
  intros Hm Hj.
  assert (Forall (fun m => atime ex_two m < Z.of_nat (ticks ex_two))
            (tree_nodes ex_two)) as H.
  { match goal with |- Forall _ ?l =>
      let l' := eval vm_compute in l in change l with l' end.
    repeat constructor. }
  rewrite Forall_forall in H. specialize (H m Hm). unfold ex_clock. lia.
Qed.

Lemma matched_node_is_evicted_last_witness :
  wf ex_two ∧ disable ex_two = false ∧
  (∀ m j, m ∈ tree_nodes ex_two → (ticks ex_two ≤ j)%nat →
          atime ex_two m < ex_clock j) ∧
  ∃ vals last s1 log s2,
    match_prefix ex_clock ex_two [1] = Ok (vals, last, s1) ∧
    evict s1 2 None = Ok (log, s2) ∧
    ∀ l1 v l2, log = l1 ++ (last, v) :: l2 →
      ∀ y, y ∈ tree_nodes s1 → children_of (objs s1) y = [] →
           lock_of (objs s1) y ≤ 0 → y ≠ last → y ∈ map fst l1.
Proof.
  split; [exact (proj1 ex_two_Inv)|]. split; [reflexivity|].
  split; [exact ex_two_stamps_old|].
  exact (matched_node_is_evicted_last ex_clock ex_two [1] 2 None
           (proj1 ex_two_Inv) eq_refl ex_two_stamps_old).
Defined.
